(** * pmemkv mvtree engine: a shallow embedding of src/engines/mvtree.cc

    The engine is a hybrid B+-tree: persistent leaves chained from the pool
    root, mirrored by volatile leaf nodes, routed by volatile inner nodes.
    This development embeds the engine's functions and proves properties of
    them. *)

From Stdlib Require Import ZArith String Ascii List Lia Bool OrdersEx Sorted.
From stdpp Require Import base tactics option list.

Local Open Scope Z_scope.

(** ** Build configuration

    [mvtree.h] fixes the fan-outs; the platform fixes the signedness of
    [char], the bytes that sit next to the Pearson table in memory and the
    state a [std::string] is left in after [std::move]; the compiler flags
    fix whether [NDEBUG] is defined, that is whether the [assert]s and the
    calls of [assert_invariants] are compiled in.  None of them is fixed by
    [mvtree.cc], so the development is parametric in all of them. *)

Record Config := {
  LEAF_KEYS : nat;
  INNER_KEYS : nat;
  char_is_signed : bool;
  adjacent_byte : Z -> Z;
  moved_from : string -> string;
  NDEBUG : bool
}.

(** The same build with [NDEBUG] defined. *)
Definition with_NDEBUG (cfg : Config) : Config :=
  {| LEAF_KEYS := LEAF_KEYS cfg; INNER_KEYS := INNER_KEYS cfg;
     char_is_signed := char_is_signed cfg;
     adjacent_byte := adjacent_byte cfg; moved_from := moved_from cfg;
     NDEBUG := true |}.

(** ** Keys and their order

    [std::string::compare] orders strings lexicographically by unsigned
    byte, a proper prefix sorting first. *)

Definition compare (a b : string) : comparison := String_as_OT.compare a b.

Definition klt (a b : string) : Prop := compare a b = Lt.
Definition kle (a b : string) : Prop := compare a b <> Gt.

(** [a.compare(b) <= 0], [a.compare(b) > 0], [a.compare(b) < 0] and
    [a.compare(b) == 0]. *)
Definition compare_le0 (a b : string) : bool :=
  match compare a b with Gt => false | _ => true end.
Definition compare_gt0 (a b : string) : bool :=
  match compare a b with Gt => true | _ => false end.
Definition compare_lt0 (a b : string) : bool :=
  match compare a b with Lt => true | _ => false end.
Definition compare_eq0 (a b : string) : bool :=
  match compare a b with Eq => true | _ => false end.

(** ** Persistent slots

    A slot owns at most one block.  The block starts with the header fields
    [hash:u8], [key_size:u32], [value_size:u32], kept here as three fields,
    and [body] holds the bytes that follow the nine header bytes. *)

Record Block := {
  ph : Z;
  ks : Z;
  vs : Z;
  body : list ascii
}.

(** [kv]: null or the owned block. *)
Abbreviation MVSlot := (option Block).

(** ** Pearson hash *)

(** Pearson hashing lookup table from RFC 3074. *)
Definition PEARSON_LOOKUP_TABLE : list Z := [
    251; 175; 119; 215; 81; 14; 79; 191; 103; 49; 181; 143; 186; 157; 0; 232; 
    31; 32; 55; 60; 152; 58; 17; 237; 174; 70; 160; 144; 220; 90; 57; 223; 
    59; 3; 18; 140; 111; 166; 203; 196; 134; 243; 124; 95; 222; 179; 197; 65; 
    180; 48; 36; 15; 107; 46; 233; 130; 165; 30; 123; 161; 209; 23; 97; 16; 
    40; 91; 219; 61; 100; 10; 210; 109; 250; 127; 22; 138; 29; 108; 244; 67; 
    207; 9; 178; 204; 74; 98; 126; 249; 167; 116; 34; 77; 193; 200; 121; 5; 
    20; 113; 71; 35; 128; 13; 182; 94; 25; 226; 227; 199; 75; 27; 41; 245; 
    230; 224; 43; 225; 177; 26; 155; 150; 212; 142; 218; 115; 241; 73; 88; 
    105; 39; 114; 62; 255; 192; 201; 145; 214; 168; 158; 221; 148; 154; 122; 
    12; 84; 82; 163; 44; 139; 228; 236; 205; 242; 217; 11; 187; 146; 159; 64; 
    86; 239; 195; 42; 106; 198; 118; 112; 184; 172; 87; 2; 173; 117; 176; 
    229; 247; 253; 137; 185; 99; 164; 102; 147; 45; 66; 231; 52; 141; 211; 
    194; 206; 246; 238; 56; 110; 78; 248; 63; 240; 189; 93; 92; 51; 53; 183; 
    19; 171; 72; 50; 33; 104; 101; 69; 8; 252; 83; 120; 76; 135; 85; 54; 202; 
    125; 188; 213; 96; 235; 136; 208; 162; 129; 190; 132; 156; 38; 47; 1; 7; 
    254; 24; 4; 216; 131; 89; 21; 28; 133; 37; 153; 149; 80; 170; 68; 6; 169; 
    234; 151
  ].

Section Model.

Variable cfg : Config.

(** [data[i]] promoted to [int]: a byte at or above 0x80 is negative where
    [char] is signed. *)
Definition char_to_int (c : ascii) : Z :=
  let n := Z.of_N (N_of_ascii c) in
  if char_is_signed cfg && (128 <=? n) then n - 256 else n.

(** [PEARSON_LOOKUP_TABLE[i]] for an [int] index; an index outside the
    table reads whatever byte lies there. *)
Definition table_read (i : Z) : Z :=
  if (0 <=? i) && (i <? 256) then nth (Z.to_nat i) PEARSON_LOOKUP_TABLE 0
  else adjacent_byte cfg i mod 256.

(** The loop of [PearsonHash]: the accumulator starts at [(uint8_t) size]
    and the bytes are consumed from the last to the first. *)
Definition pearson_chain (data : string) : Z :=
  fold_left (fun hash c => table_read (Z.lxor hash (char_to_int c)))
            (rev (list_ascii_of_string data))
            (Z.of_nat (String.length data) mod 256).

Definition PearsonHash (data : string) : Z :=
  let hash := pearson_chain data in
  if hash =? 0 then 1 else hash.

(** ** Operations on persistent slots *)

(** Requests made to the persistent allocator, with the element count they
    pass. *)
Inductive AllocEvent :=
| ev_make_persistent (size : Z)
| ev_delete_persistent (size : Z).

Definition HEADER_BYTES : Z := 1 + 4 + 4.

(** [(uint32_t) n] *)
Definition to_uint32 (n : Z) : Z := n mod 2 ^ 32.

(** [(int32_t) n] for an unsigned 32-bit [n] *)
Definition to_int32 (n : Z) : Z :=
  let m := n mod 2 ^ 32 in if m <? 2 ^ 31 then m else m - 2 ^ 32.

(** [memcpy(dst + off, src, |src|)] *)
Definition memcpy (dst : list ascii) (off : nat) (src : list ascii) : list ascii :=
  take off dst ++ src ++ drop (off + length src) dst.

(** Modelled from the spec: the accessors of [MVSlot] are declared in
    [mvtree.h]; they read the layout
    [hash | key_size | value_size | key bytes | 0 | value bytes | 0]. *)
Definition slot_hash (p : Block) : Z := ph p.
Definition slot_keysize (p : Block) : Z := ks p.
Definition slot_valsize (p : Block) : Z := vs p.
Definition slot_key (p : Block) : string :=
  string_of_list_ascii (take (Z.to_nat (ks p)) (body p)).
Definition slot_val (p : Block) : string :=
  string_of_list_ascii
    (take (Z.to_nat (vs p)) (drop (Z.to_nat (ks p) + 1) (body p))).

Definition MVSlot_empty (s : MVSlot) : bool :=
  match s with Some _ => false | None => true end.

(** [MVSlot::clear]: the header is zeroed first, the size handed to
    [delete_persistent] is read from the header afterwards. *)
Definition MVSlot_clear (s : MVSlot) : MVSlot * list AllocEvent :=
  match s with
  | Some p =>
      let p := {| ph := 0; ks := ks p; vs := vs p; body := body p |} in
      let p := {| ph := ph p; ks := 0; vs := vs p; body := body p |} in
      let p := {| ph := ph p; ks := ks p; vs := 0; body := body p |} in
      (None, [ev_delete_persistent (1 + 4 + 4 + ks p + vs p + 2)])
  | None => (None, [])
  end.

(** [MVSlot::set]; [make_persistent<char[]>] value-initialises the array,
    so the bytes the two [memcpy] calls skip are zero. *)
Definition MVSlot_set (s : MVSlot) (hash : Z) (key value : string)
  : MVSlot * list AllocEvent :=
  let freed :=
    match s with
    | Some p => [ev_delete_persistent (1 + 4 + 4 + ks p + vs p + 2)]
    | None => []
    end in
  let ksize := Z.of_nat (String.length key) in
  let vsize := Z.of_nat (String.length value) in
  let size := ksize + vsize + 2 + 4 + 4 + 1 in
  let kv := replicate (Z.to_nat (size - HEADER_BYTES)) zero in
  let kv := memcpy kv 0 (list_ascii_of_string key) in
  let kv := memcpy kv (Z.to_nat ksize + 1) (list_ascii_of_string value) in
  (Some {| ph := hash; ks := to_uint32 ksize; vs := to_uint32 vsize; body := kv |},
   freed ++ [ev_make_persistent size]).

(** The slot operations as the tree uses them. *)
Definition slot_clear (s : MVSlot) : MVSlot := fst (MVSlot_clear s).
Definition slot_set (s : MVSlot) (hash : Z) (key value : string) : MVSlot :=
  fst (MVSlot_set s hash key value).

(** ** Tree state *)

Inductive KVStatus := OK | NOT_FOUND | FAILED.

(** Modelled from the spec: the midpoints are macros of [mvtree.h];
    [LEAF_KEYS_MIDPOINT] is L/2, [INNER_KEYS_UPPER] is ceil((I+1)/2) and
    [INNER_KEYS_MIDPOINT] is [I - INNER_KEYS_UPPER + 1]. *)
Definition LEAF_KEYS_MIDPOINT : nat := (LEAF_KEYS cfg / 2)%nat.
Definition INNER_KEYS_UPPER : nat := ((INNER_KEYS cfg + 2) / 2)%nat.
Definition INNER_KEYS_MIDPOINT : nat :=
  (INNER_KEYS cfg - INNER_KEYS_UPPER + 1)%nat.

(** A persistent leaf: [LEAF_KEYS] slots and the link to the next leaf.  A
    [persistent_ptr<MVLeaf>] is an index into the pool's leaves. *)
Record MVLeaf := {
  slots : list MVSlot;
  next : option nat
}.

(** Volatile nodes.  A node pointer is an index into [nodes]. *)
Record MVLeafNode := {
  hashes : list Z;
  keys : list string;
  leaf : nat
}.

Record MVInnerNode := {
  keycount : nat;
  ikeys : list string;
  children : list (option nat)
}.

Inductive MVNodeKind :=
| LeafNode (ln : MVLeafNode)
| InnerNode (inner : MVInnerNode).

Record MVNode := {
  parent : option nat;
  kind : MVNodeKind
}.

Definition is_leaf (n : MVNode) : bool :=
  match kind n with LeafNode _ => true | InnerNode _ => false end.

(** The engine: the volatile heap with [tree_top] and [leaves_prealloc]
    (kept with its back first), and the pool with [kv_root->head]. *)
Record MVTree := {
  nodes : list MVNode;
  tree_top : option nat;
  leaves_prealloc : list nat;
  pleaves : list MVLeaf;
  head : option nat
}.

Definition set_nodes (st : MVTree) (ns : list MVNode) : MVTree :=
  {| nodes := ns; tree_top := tree_top st;
     leaves_prealloc := leaves_prealloc st;
     pleaves := pleaves st; head := head st |}.

Definition set_tree_top (st : MVTree) (t : option nat) : MVTree :=
  {| nodes := nodes st; tree_top := t;
     leaves_prealloc := leaves_prealloc st;
     pleaves := pleaves st; head := head st |}.

Definition set_pleaves (st : MVTree) (ls : list MVLeaf) : MVTree :=
  {| nodes := nodes st; tree_top := tree_top st;
     leaves_prealloc := leaves_prealloc st;
     pleaves := ls; head := head st |}.

Definition set_parent (n : MVNode) (p : option nat) : MVNode :=
  {| parent := p; kind := kind n |}.

Definition get_leafnode (st : MVTree) (id : nat) : option MVLeafNode :=
  match nodes st !! id with
  | Some {| kind := LeafNode ln |} => Some ln
  | _ => None
  end.

Definition get_inner (st : MVTree) (id : nat) : option MVInnerNode :=
  match nodes st !! id with
  | Some {| kind := InnerNode inner |} => Some inner
  | _ => None
  end.

(** [new MVLeafNode()] and [new MVInnerNode()]: value-initialised. *)
Definition new_MVLeafNode (lf : nat) : MVLeafNode :=
  {| hashes := replicate (LEAF_KEYS cfg) 0;
     keys := replicate (LEAF_KEYS cfg) EmptyString;
     leaf := lf |}.

Definition new_MVInnerNode : MVInnerNode :=
  {| keycount := 0;
     ikeys := replicate (INNER_KEYS cfg + 1) EmptyString;
     children := replicate (INNER_KEYS cfg + 2) None |}.

(** [make_persistent<MVLeaf>()] *)
Definition new_MVLeaf : MVLeaf :=
  {| slots := replicate (LEAF_KEYS cfg) None; next := None |}.

(** [for (int slot = LEAF_KEYS; slot--;)] stopping at the first slot that
    satisfies [p]. *)
Fixpoint scan_down (n : nat) (p : nat -> bool) : option nat :=
  match n with
  | O => None
  | S slot => if p slot then Some slot else scan_down slot p
  end.

(** ** Node invariants *)

(** [MVInnerNode::assert_invariants]: [true] when every [assert] of it
    holds. *)
Definition assert_invariants (inner : MVInnerNode) : bool :=
  (keycount inner <=? INNER_KEYS cfg)%nat
  && forallb (fun i =>
                (0 <? String.length (default EmptyString (ikeys inner !! i)))%nat
                && match mjoin (children inner !! i) with
                   | Some _ => true
                   | None => false
                   end)
             (seq 0 (keycount inner))
  && match mjoin (children inner !! keycount inner) with
     | Some _ => true
     | None => false
     end
  && forallb (fun i => match mjoin (children inner !! i) with
                       | Some _ => false
                       | None => true
                       end)
             (seq (keycount inner + 1)
                  (INNER_KEYS cfg + 1 - (keycount inner + 1))).

(** [#ifndef NDEBUG inner->assert_invariants(); #endif]: [true] when the
    statement returns.  A failed [assert] aborts the process; the callers
    below then return [None]. *)
Definition debug_assert_invariants (inner : MVInnerNode) : bool :=
  NDEBUG cfg || assert_invariants inner.

(** [assert(cond)] of [<cassert>]: [true] when the statement returns. *)
Definition debug_assert (cond : bool) : bool := NDEBUG cfg || cond.

(** ** LeafSearch *)

(** The [for] loop over the separators of one inner node: the index of the
    child to descend into. *)
Fixpoint inner_scan (key : string) (ks : list string) (idx n : nat) : nat :=
  match n with
  | O => idx
  | S n' =>
      if compare_le0 key (default EmptyString (ks !! idx)) then idx
      else inner_scan key ks (S idx) n'
  end.

Fixpoint LeafSearch_loop (fuel : nat) (ns : list MVNode) (node : nat)
    (key : string) : option nat :=
  match fuel with
  | O => None
  | S fuel' =>
      match ns !! node with
      | Some {| kind := LeafNode _ |} => Some node
      | Some {| kind := InnerNode inner |} =>
          if debug_assert_invariants inner then
            let idx := inner_scan key (ikeys inner) 0 (keycount inner) in
            match children inner !! idx with
            | Some (Some child) => LeafSearch_loop fuel' ns child key
            | _ => None
            end
          else None
      | None => None
      end
  end.

(** [LeafSearch]: [Some None] is the null result on an empty tree; [None]
    is a call that does not return: an assertion failed and the process
    was aborted, or the walk left the heap. *)
Definition LeafSearch (st : MVTree) (key : string) : option (option nat) :=
  match tree_top st with
  | None => Some None
  | Some node => Some <$> LeafSearch_loop (length (nodes st)) (nodes st) node key
  end.

(** ** Get *)

(** The slot test shared by both [Get]s and by [Remove]. *)
Definition slot_matches (ln : MVLeafNode) (hash : Z) (key : string)
    (slot : nat) : bool :=
  match hashes ln !! slot, keys ln !! slot with
  | Some h, Some k => (h =? hash) && compare_eq0 k key
  | _, _ => false
  end.

Definition read_slot (st : MVTree) (ln : MVLeafNode) (slot : nat)
  : option Block :=
  match pleaves st !! leaf ln with
  | Some pl => mjoin (slots pl !! slot)
  | None => None
  end.

(** [Get(key, value)]: the status and the contents of [*value]. *)
Definition Get (st : MVTree) (key : string) (value : string)
  : option (KVStatus * string) :=
  match LeafSearch st key with
  | None => None
  | Some None => Some (NOT_FOUND, value)
  | Some (Some leafnode) =>
      match get_leafnode st leafnode with
      | None => None
      | Some ln =>
          let hash := PearsonHash key in
          match scan_down (LEAF_KEYS cfg) (slot_matches ln hash key) with
          | Some slot =>
              match read_slot st ln slot with
              | Some kv => Some (OK, (value ++ slot_val kv)%string)
              | None => None
              end
          | None => Some (NOT_FOUND, value)
          end
      end
  end.

(** [Get(limit, keybytes, valuebytes, key, value)]: the status, [*valuebytes]
    and the buffer.  [valsize()] is unsigned, so [vs <= limit] compares
    after converting [limit] to unsigned. *)
Definition Get_limit (st : MVTree) (limit : Z) (key : string)
    (valuebytes : Z) (value : list ascii)
  : option (KVStatus * Z * list ascii) :=
  match LeafSearch st key with
  | None => None
  | Some None => Some (NOT_FOUND, valuebytes, value)
  | Some (Some leafnode) =>
      match get_leafnode st leafnode with
      | None => None
      | Some ln =>
          let hash := PearsonHash key in
          match scan_down (LEAF_KEYS cfg) (slot_matches ln hash key) with
          | Some slot =>
              match read_slot st ln slot with
              | Some kv =>
                  let vs := slot_valsize kv in
                  if vs <=? to_uint32 limit
                  then Some (OK, to_int32 vs,
                             memcpy value 0 (list_ascii_of_string (slot_val kv)))
                  else Some (FAILED, to_int32 vs, value)
              | None => None
              end
          | None => Some (NOT_FOUND, valuebytes, value)
          end
      end
  end.

(** ** Helpers for the mutating operations *)

Fixpoint for_each {A : Type} (idxs : list nat) (f : nat -> A -> option A)
    (a : A) : option A :=
  match idxs with
  | [] => Some a
  | i :: rest => match f i a with Some a' => for_each rest f a' | None => None end
  end.

Definition push_node (st : MVTree) (n : MVNode) : MVTree :=
  set_nodes st (nodes st ++ [n]).

Definition update_leafnode (st : MVTree) (id : nat) (ln : MVLeafNode)
  : option MVTree :=
  n ← nodes st !! id;
  Some (set_nodes st (<[id := {| parent := parent n; kind := LeafNode ln |}]> (nodes st))).

Definition update_inner (st : MVTree) (id : nat) (inner : MVInnerNode)
  : option MVTree :=
  n ← nodes st !! id;
  Some (set_nodes st (<[id := {| parent := parent n; kind := InnerNode inner |}]> (nodes st))).

Definition update_parent (st : MVTree) (id : nat) (p : option nat)
  : option MVTree :=
  n ← nodes st !! id;
  Some (set_nodes st (<[id := set_parent n p]> (nodes st))).

Definition read_pslot (st : MVTree) (lf slot : nat) : option MVSlot :=
  pl ← pleaves st !! lf; slots pl !! slot.

Definition update_pslot (st : MVTree) (lf slot : nat) (s : MVSlot)
  : option MVTree :=
  pl ← pleaves st !! lf;
  _ ← slots pl !! slot;
  Some (set_pleaves st
          (<[lf := {| slots := <[slot := s]> (slots pl); next := next pl |}]>
             (pleaves st))).

(** [transaction::exec_tx(pmpool, body)].  [commit] says whether the
    transaction commits.  On an abort, taken at the commit, the pool is as
    it was before the body, the volatile state is as the body left it, and
    the flag tells the caller that the transaction threw. *)
Definition exec_tx (commit : bool) (st : MVTree) (body : option MVTree)
  : option (MVTree * bool) :=
  st' ← body;
  Some (if commit then (st', true)
        else ({| nodes := nodes st'; tree_top := tree_top st';
                 leaves_prealloc := leaves_prealloc st';
                 pleaves := pleaves st; head := head st |}, false)).

(** The leaf a new leaf node is given, in [Put] and in [LeafSplitFull]:
    the back of [leaves_prealloc], or a fresh leaf linked in at the head
    of the persistent list. *)
Definition obtain_leaf (st : MVTree) : MVTree * nat :=
  match leaves_prealloc st with
  | lf :: rest =>
      ({| nodes := nodes st; tree_top := tree_top st;
          leaves_prealloc := rest;
          pleaves := pleaves st; head := head st |}, lf)
  | [] =>
      let new_leaf := length (pleaves st) in
      ({| nodes := nodes st; tree_top := tree_top st;
          leaves_prealloc := [];
          pleaves := pleaves st ++ [ {| slots := slots new_MVLeaf;
                                         next := head st |} ];
          head := Some new_leaf |}, new_leaf)
  end.

(** ** Leaf operations *)

Definition LeafFillSpecificSlot (st : MVTree) (leafnode : nat) (hash : Z)
    (key value : string) (slot : nat) : option MVTree :=
  ln ← get_leafnode st leafnode;
  h ← hashes ln !! slot;
  let ln' :=
    if h =? 0
    then {| hashes := <[slot := hash]> (hashes ln);
            keys := <[slot := key]> (keys ln);
            leaf := leaf ln |}
    else ln in
  st1 ← update_leafnode st leafnode ln';
  s ← read_pslot st1 (leaf ln) slot;
  update_pslot st1 (leaf ln) slot (slot_set s hash key value).

Definition LeafFillEmptySlot (st : MVTree) (leafnode : nat) (hash : Z)
    (key value : string) : option MVTree :=
  ln ← get_leafnode st leafnode;
  match scan_down (LEAF_KEYS cfg)
          (fun slot => match hashes ln !! slot with
                       | Some h => h =? 0
                       | None => false
                       end) with
  | Some slot => LeafFillSpecificSlot st leafnode hash key value slot
  | None => Some st
  end.

(** The scan of [LeafFillSlotForKey]: [(last_empty_slot, key_match_slot)]. *)
Fixpoint fill_scan (ln : MVLeafNode) (hash : Z) (key : string) (n : nat)
    (last_empty_slot : option nat) : option nat * option nat :=
  match n with
  | O => (last_empty_slot, None)
  | S slot =>
      let slot_hash := default 0 (hashes ln !! slot) in
      if slot_hash =? 0 then fill_scan ln hash key slot (Some slot)
      else if (slot_hash =? hash)
              && compare_eq0 (default EmptyString (keys ln !! slot)) key
           then (last_empty_slot, Some slot)
           else fill_scan ln hash key slot last_empty_slot
  end.

Inductive FillResult := Filled | NotFilled | FillThrew.

Definition LeafFillSlotForKey (commit : bool) (st : MVTree) (leafnode : nat)
    (hash : Z) (key value : string) : option (MVTree * FillResult) :=
  ln ← get_leafnode st leafnode;
  let '(last_empty_slot, key_match_slot) :=
    fill_scan ln hash key (LEAF_KEYS cfg) None in
  let slot :=
    match key_match_slot with Some s => Some s | None => last_empty_slot end in
  match slot with
  | Some slot =>
      match exec_tx commit st
              (LeafFillSpecificSlot st leafnode hash key value slot) with
      | Some (st', ok) => Some (st', if ok then Filled else FillThrew)
      | None => None
      end
  | None => Some (st, NotFilled)
  end.

(** [std::sort] with [lhs.compare(rhs) < 0]. *)
Fixpoint insert_key (x : string) (l : list string) : list string :=
  match l with
  | [] => [x]
  | y :: l' => if compare_lt0 y x then y :: insert_key x l' else x :: y :: l'
  end.

Definition sort_keys (l : list string) : list string :=
  foldr insert_key [] l.

(** ** InnerUpdateAfterSplit *)

(** The [while] loop that finds where [split_key] goes: [idx] moves past
    every separator that compares [<= 0] with it. *)
Fixpoint insert_scan (split_key : string) (ks : list string) (idx n : nat)
  : nat :=
  match n with
  | O => idx
  | S n' =>
      if compare_le0 (default EmptyString (ks !! idx)) split_key
      then insert_scan split_key ks (S idx) n'
      else idx
  end.

(** [arr[dst] = move(arr[src])] on strings and on [unique_ptr]s. *)
Definition move_key (arr : list string) (dst src : nat) : list string :=
  match arr !! src with
  | Some v => <[src := moved_from cfg v]> (<[dst := v]> arr)
  | None => arr
  end.

Definition move_child (arr : list (option nat)) (dst src : nat)
  : list (option nat) :=
  match arr !! src with
  | Some v => <[src := None]> (<[dst := v]> arr)
  | None => arr
  end.

(** The block that inserts [split_key] and [new_node] into [inner]. *)
Definition inner_insert (inner : MVInnerNode) (new_node : nat)
    (split_key : string) : MVInnerNode :=
  let keycount := keycount inner in
  let idx := insert_scan split_key (ikeys inner) 0 keycount in
  let ks := fold_left (fun a i => move_key a (i + 1) i)
                      (rev (seq idx (keycount - idx))) (ikeys inner) in
  let cs := fold_left (fun a i => move_child a (i + 1) i)
                      (rev (seq (idx + 1) (keycount - idx))) (children inner) in
  {| keycount := ((keycount + 1) mod 256)%nat;
     ikeys := <[idx := split_key]> ks;
     children := <[(idx + 1)%nat := Some new_node]> cs |}.

(** The two loops that move the upper keys and children to [ni]: the
    arrays of [inner] and of [ni] afterwards. *)
Definition split_move_keys (ik nk : list string) (keycount : nat)
  : list string * list string :=
  fold_left
    (fun '(ik, nk) i =>
       match ik !! i with
       | Some v => (<[i := moved_from cfg v]> ik,
                    <[(i - INNER_KEYS_UPPER)%nat := v]> nk)
       | None => (ik, nk)
       end)
    (seq INNER_KEYS_UPPER (keycount - INNER_KEYS_UPPER)) (ik, nk).

Definition split_move_children (ic nc : list (option nat)) (keycount : nat)
  : list (option nat) * list (option nat) :=
  fold_left
    (fun '(ic, nc) i =>
       match ic !! i with
       | Some v => (<[i := None]> ic, <[(i - INNER_KEYS_UPPER)%nat := v]> nc)
       | None => (ic, nc)
       end)
    (seq INNER_KEYS_UPPER (keycount + 1 - INNER_KEYS_UPPER)) (ic, nc).

(** [InnerUpdateAfterSplit]; the recursion is bounded by [fuel].  [None] is
    a call that does not return: the [assert] on the top node or one of the
    three assertion blocks failed and the process was aborted, or a pointer
    led out of the heap. *)
Fixpoint InnerUpdateAfterSplit (fuel : nat) (st : MVTree) (node new_node : nat)
    (split_key : string) : option MVTree :=
  match fuel with
  | O => None
  | S fuel' =>
      n ← nodes st !! node;
      match parent n with
      | None =>
          if debug_assert (bool_decide (tree_top st = Some node)) then
            let top := length (nodes st) in
            let inner :=
              {| keycount := 1;
                 ikeys := <[0%nat := split_key]> (ikeys new_MVInnerNode);
                 children := <[1%nat := Some new_node]>
                               (<[0%nat := tree_top st]>
                                  (children new_MVInnerNode)) |} in
            st1 ← update_parent st node (Some top);
            st2 ← update_parent st1 new_node (Some top);
            if debug_assert_invariants inner
            then Some (set_tree_top
                         (push_node st2 {| parent := None; kind := InnerNode inner |})
                         (Some top))
            else None
          else None
      | Some inner_id =>
          pn ← nodes st !! inner_id;
          inner ← get_inner st inner_id;
          let inner1 := inner_insert inner new_node split_key in
          let keycount := keycount inner1 in
          if (keycount <=? INNER_KEYS cfg)%nat
          then
            if debug_assert_invariants inner1
            then update_inner st inner_id inner1
            else None
          else
            let ni := length (nodes st) in
            let '(ik, nk) :=
              split_move_keys (ikeys inner1) (ikeys new_MVInnerNode) keycount in
            let '(ic, nc) :=
              split_move_children (children inner1)
                                  (children new_MVInnerNode) keycount in
            let ni_node :=
              {| parent := parent pn;
                 kind := InnerNode {| keycount := INNER_KEYS_MIDPOINT;
                                      ikeys := nk; children := nc |} |} in
            new_split_key ← ik !! INNER_KEYS_MIDPOINT;
            st1 ← update_inner st inner_id
                    {| keycount := INNER_KEYS_MIDPOINT;
                       ikeys := ik; children := ic |};
            st2 ← for_each
                    (seq INNER_KEYS_UPPER (keycount + 1 - INNER_KEYS_UPPER))
                    (fun i st' =>
                       c ← mjoin (nc !! (i - INNER_KEYS_UPPER)%nat);
                       update_parent st' c (Some ni))
                    (push_node st1 ni_node);
            if debug_assert_invariants
                 {| keycount := INNER_KEYS_MIDPOINT; ikeys := ik; children := ic |}
               && debug_assert_invariants
                    {| keycount := INNER_KEYS_MIDPOINT; ikeys := nk;
                       children := nc |}
            then InnerUpdateAfterSplit fuel' st2 inner_id ni new_split_key
            else None
      end
  end.

(** ** LeafSplitFull *)

(** One round of the loop that moves the slots above the split key. *)
Definition split_move (leafnode new_leafnode : nat) (split_key : string)
    (slot : nat) (st : MVTree) : option MVTree :=
  src ← get_leafnode st leafnode;
  dst ← get_leafnode st new_leafnode;
  k ← keys src !! slot;
  if compare_gt0 k split_key then
    h ← hashes src !! slot;
    s_src ← read_pslot st (leaf src) slot;
    s_dst ← read_pslot st (leaf dst) slot;
    st1 ← update_pslot st (leaf dst) slot s_src;
    st2 ← update_pslot st1 (leaf src) slot s_dst;
    st3 ← update_leafnode st2 new_leafnode
            {| hashes := <[slot := h]> (hashes dst);
               keys := <[slot := k]> (keys dst);
               leaf := leaf dst |};
    update_leafnode st3 leafnode
      {| hashes := <[slot := 0]> (hashes src);
         keys := <[slot := EmptyString]> (keys src);
         leaf := leaf src |}
  else Some st.

(** The body of the transaction of [LeafSplitFull]. *)
Definition split_body (st : MVTree) (leafnode : nat) (hash : Z)
    (key value : string) (split_key : string) : option MVTree :=
  n ← nodes st !! leafnode;
  let new_leafnode := length (nodes st) in
  let '(st1, new_leaf) := obtain_leaf st in
  let st2 := push_node st1 {| parent := parent n;
                              kind := LeafNode (new_MVLeafNode new_leaf) |} in
  st3 ← for_each (rev (seq 0 (LEAF_KEYS cfg)))
          (split_move leafnode new_leafnode split_key) st2;
  let target := if compare_gt0 key split_key then new_leafnode else leafnode in
  LeafFillEmptySlot st3 target hash key value.

Definition split_key_of (ln : MVLeafNode) (key : string) : option string :=
  sort_keys (keys ln ++ [key]) !! LEAF_KEYS_MIDPOINT.

(** [LeafSplitFull]: the state and whether the transaction committed. *)
Definition LeafSplitFull (commit : bool) (st : MVTree) (leafnode : nat)
    (hash : Z) (key value : string) : option (MVTree * bool) :=
  ln ← get_leafnode st leafnode;
  split_key ← split_key_of ln key;
  let new_leafnode := length (nodes st) in
  match exec_tx commit st (split_body st leafnode hash key value split_key) with
  | Some (st1, true) =>
      st2 ← InnerUpdateAfterSplit (length (nodes st1)) st1
              leafnode new_leafnode split_key;
      Some (st2, true)
  | Some (st1, false) => Some (st1, false)
  | None => None
  end.

(** ** Put and Remove *)

Definition Put_tx (commit : bool) (st : MVTree) (key value : string)
  : option (MVTree * KVStatus) :=
  let hash := PearsonHash key in
  match LeafSearch st key with
  | None => None
  | Some None =>
      let new_node := length (nodes st) in
      let '(st1, lf) := obtain_leaf st in
      let st2 := push_node st1 {| parent := None;
                                  kind := LeafNode (new_MVLeafNode lf) |} in
      match exec_tx commit st
              (LeafFillSpecificSlot st2 new_node hash key value 0) with
      | Some (st3, true) => Some (set_tree_top st3 (Some new_node), OK)
      | Some (st3, false) => Some (st3, FAILED)
      | None => None
      end
  | Some (Some leafnode) =>
      match LeafFillSlotForKey commit st leafnode hash key value with
      | Some (st1, Filled) => Some (st1, OK)
      | Some (st1, FillThrew) => Some (st1, FAILED)
      | Some (st1, NotFilled) =>
          match LeafSplitFull commit st leafnode hash key value with
          | Some (st2, ok) => Some (st2, if ok then OK else FAILED)
          | None => None
          end
      | None => None
      end
  end.

(** [Remove]: the state and [Some OK], or [None] for the status when the
    exception of an aborted transaction leaves the function. *)
Definition Remove_tx (commit : bool) (st : MVTree) (key : string)
  : option (MVTree * option KVStatus) :=
  match LeafSearch st key with
  | None => None
  | Some None => Some (st, Some OK)
  | Some (Some leafnode) =>
      ln ← get_leafnode st leafnode;
      let hash := PearsonHash key in
      match scan_down (LEAF_KEYS cfg) (slot_matches ln hash key) with
      | Some slot =>
          st1 ← update_leafnode st leafnode
                  {| hashes := <[slot := 0]> (hashes ln);
                     keys := <[slot := EmptyString]> (keys ln);
                     leaf := leaf ln |};
          match exec_tx commit st1
                  (s ← read_pslot st1 (leaf ln) slot;
                   update_pslot st1 (leaf ln) slot (slot_clear s)) with
          | Some (st2, ok) => Some (st2, if ok then Some OK else None)
          | None => None
          end
      | None => Some (st, Some OK)
      end
  end.

(** The operations when every transaction commits. *)
Definition Put (st : MVTree) (key value : string) : option MVTree :=
  fst <$> Put_tx true st key value.

Definition Remove (st : MVTree) (key : string) : option MVTree :=
  fst <$> Remove_tx true st key.

(** ** Walking the persistent list *)

(** The leaves met by [leaf = kv_root->head; while (leaf) ... leaf = leaf->next],
    in the order met. *)
Fixpoint walk_leaves (fuel : nat) (pl : list MVLeaf) (lf : option nat)
  : option (list nat) :=
  match lf with
  | None => Some []
  | Some l =>
      match fuel with
      | O => None
      | S fuel' =>
          p ← pl !! l;
          rest ← walk_leaves fuel' pl (next p);
          Some (l :: rest)
      end
  end.

Definition persistent_list (st : MVTree) : option (list nat) :=
  walk_leaves (length (pleaves st)) (pleaves st) (head st).

(** The non-empty slots of a leaf, highest slot first. *)
Definition leaf_blocks (p : MVLeaf) : list Block :=
  omap (fun slot => mjoin (slots p !! slot)) (rev (seq 0 (LEAF_KEYS cfg))).

Definition all_blocks (st : MVTree) : option (list Block) :=
  ids ← persistent_list st;
  Some (concat (omap (fun l => leaf_blocks <$> (pleaves st !! l)) ids)).

(** [ListAllKeys], [ListAllKeyValuePairs] and [TotalNumKeys]: what is
    appended to the output vector, and the count. *)
Definition ListAllKeys (st : MVTree) (out : list string)
  : option (list string) :=
  bs ← all_blocks st;
  Some (out ++ map slot_key bs).

Definition ListAllKeyValuePairs (st : MVTree) (kv_pairs : list string)
  : option (list string) :=
  bs ← all_blocks st;
  Some (kv_pairs ++ concat (map (fun b => [slot_key b; slot_val b]) bs)).

Definition TotalNumKeys (st : MVTree) : option nat :=
  bs ← all_blocks st;
  Some (length bs).

Record MVTreeAnalysis := {
  leaf_empty : nat;
  leaf_prealloc : nat;
  leaf_total : nat
}.

Definition Analyze (st : MVTree) : option MVTreeAnalysis :=
  ids ← persistent_list st;
  let ls := omap (fun l => pleaves st !! l) ids in
  Some {| leaf_empty :=
            length (filter (fun p => leaf_blocks p = []) ls);
          leaf_prealloc := length (leaves_prealloc st);
          leaf_total := length ids |}.

(** ** Recover *)

(** The slot loop of [Recover] on one leaf: the leaf node, [empty_leaf] and
    [max_key]. *)
Fixpoint recover_slots (p : MVLeaf) (n : nat) (ln : MVLeafNode)
    (empty_leaf : bool) (max_key : string) : MVLeafNode * bool * string :=
  match n with
  | O => (ln, empty_leaf, max_key)
  | S slot =>
      match mjoin (slots p !! slot) with
      | None => recover_slots p slot ln empty_leaf max_key
      | Some kvslot =>
          let ln1 := {| hashes := <[slot := slot_hash kvslot]> (hashes ln);
                        keys := keys ln; leaf := leaf ln |} in
          if slot_hash kvslot =? 0
          then recover_slots p slot ln1 empty_leaf max_key
          else
            let key := slot_key kvslot in
            let max_key' :=
              if empty_leaf then key
              else if compare_lt0 max_key key then key else max_key in
            recover_slots p slot
              {| hashes := hashes ln1;
                 keys := <[slot := key]> (keys ln1);
                 leaf := leaf ln1 |}
              false max_key'
      end
  end.

(** The first loop of [Recover] over the leaves of the persistent list:
    empty leaves go to [leaves_prealloc], the others get a leaf node and
    are recorded with their highest key. *)
Fixpoint recover_leaves (ids : list nat) (st : MVTree)
    (leaves : list (nat * string)) : option (MVTree * list (nat * string)) :=
  match ids with
  | [] => Some (st, leaves)
  | lf :: rest =>
      p ← pleaves st !! lf;
      let '(ln, empty_leaf, max_key) :=
        recover_slots p (LEAF_KEYS cfg) (new_MVLeafNode lf) true EmptyString in
      if empty_leaf
      then recover_leaves rest
             {| nodes := nodes st; tree_top := tree_top st;
                leaves_prealloc := lf :: leaves_prealloc st;
                pleaves := pleaves st; head := head st |}
             leaves
      else recover_leaves rest
             (push_node st {| parent := None; kind := LeafNode ln |})
             (leaves ++ [(length (nodes st), max_key)])
  end.

(** [leaves.sort] with [lhs.max_key.compare(rhs.max_key) < 0]; the sort of
    [std::list] is stable. *)
Fixpoint insert_leaf (x : nat * string) (l : list (nat * string))
  : list (nat * string) :=
  match l with
  | [] => [x]
  | y :: l' =>
      if compare_lt0 (snd y) (snd x) then y :: insert_leaf x l'
      else x :: y :: l'
  end.

Definition sort_leaves (l : list (nat * string)) : list (nat * string) :=
  foldr insert_leaf [] l.

(** The loop that installs the recovered leaves from left to right. *)
Fixpoint recover_build (leaves : list (nat * string)) (st : MVTree)
    (prevnode : nat) (max_key : string) : option MVTree :=
  match leaves with
  | [] => Some st
  | (nextnode, next_max) :: rest =>
      pn ← nodes st !! prevnode;
      st1 ← update_parent st nextnode (parent pn);
      st2 ← InnerUpdateAfterSplit (length (nodes st1)) st1
              prevnode nextnode max_key;
      recover_build rest st2 nextnode next_max
  end.

Definition Recover (st : MVTree) : option MVTree :=
  ids ← persistent_list st;
  '(st1, leaves) ← recover_leaves ids st [];
  match sort_leaves leaves with
  | [] => Some (set_tree_top st1 None)
  | (first, max_key) :: rest =>
      recover_build rest (set_tree_top st1 (Some first)) first max_key
  end.

(** The engine on a pool that was just created, and the constructor on an
    existing pool: the volatile state starts empty and [Recover] runs. *)
Definition fresh : MVTree :=
  {| nodes := []; tree_top := None; leaves_prealloc := [];
     pleaves := []; head := None |}.

Definition reopen (st : MVTree) : option MVTree :=
  Recover {| nodes := []; tree_top := None; leaves_prealloc := [];
             pleaves := pleaves st; head := head st |}.

(** ** Sequences of operations *)

Inductive Op :=
| OpPut (key value : string)
| OpRemove (key : string)
| OpReopen.

Definition step (st : MVTree) (o : Op) : option MVTree :=
  match o with
  | OpPut key value => Put st key value
  | OpRemove key => Remove st key
  | OpReopen => reopen st
  end.

Fixpoint run (ops : list Op) (st : MVTree) : option MVTree :=
  match ops with
  | [] => Some st
  | o :: rest => st' ← step st o; run rest st'
  end.

(** The sizes of the allocations among the requests. *)
Definition allocations (evs : list AllocEvent) : list Z :=
  omap (fun e => match e with
                 | ev_make_persistent n => Some n
                 | ev_delete_persistent _ => None
                 end) evs.

End Model.

(** ** Configurations to run the model on

    [cfg_x86] has the fan-outs of the shipped engine, signed [char] and a
    [std::string] that is empty after a move; [cfg_small] has small
    fan-outs, so that short runs reach leaf and inner-node splits.  Both
    are builds without [NDEBUG]: the assertions are compiled in. *)

Definition cfg_x86 : Config :=
  {| LEAF_KEYS := 48; INNER_KEYS := 4; char_is_signed := true;
     adjacent_byte := fun _ => 0; moved_from := fun _ => EmptyString;
     NDEBUG := false |}.

Definition cfg_small : Config :=
  {| LEAF_KEYS := 4; INNER_KEYS := 2; char_is_signed := true;
     adjacent_byte := fun _ => 0; moved_from := fun _ => EmptyString;
     NDEBUG := false |}.

(** ** The abstract view and the invariant *)

Section Invariant.

Variable cfg : Config.

(** The block [set] writes. *)
Definition block_of (hash : Z) (key value : string) : Block :=
  {| ph := hash;
     ks := to_uint32 (Z.of_nat (String.length key));
     vs := to_uint32 (Z.of_nat (String.length value));
     body := list_ascii_of_string key ++ [zero]
               ++ list_ascii_of_string value ++ [zero] |}.

(** Sizes that fit the 32-bit header fields. *)
Definition small (s : string) : Prop := Z.of_nat (String.length s) < 2 ^ 32.

Definition block_ok (b : Block) : Prop :=
  exists key value,
    b = block_of (PearsonHash cfg key) key value /\ small key /\ small value.

(** The pairs the pool holds. *)
Definition contents (st : MVTree) (k v : string) : Prop :=
  exists lf slot b,
    read_pslot st lf slot = Some (Some b) /\ slot_key b = k /\ slot_val b = v.

(** What a sequence of operations leaves in a map. *)
Fixpoint model (ops : list Op) (m : string -> option string)
  : string -> option string :=
  match ops with
  | [] => m
  | OpPut key value :: rest =>
      model rest (fun k => if String.eqb k key then Some value else m k)
  | OpRemove key :: rest =>
      model rest (fun k => if String.eqb k key then None else m k)
  | OpReopen :: rest => model rest m
  end.

Definition op_small (o : Op) : Prop :=
  match o with
  | OpPut key value => small key /\ small value
  | _ => True
  end.

(** Key ranges: an open lower bound and a closed upper bound, [None]
    standing for no bound. *)
Definition bound := option string.

Definition blt (lo : bound) (k : string) : Prop :=
  match lo with None => True | Some l => klt l k end.

Definition ble (k : string) (hi : bound) : Prop :=
  match hi with None => True | Some h => kle k h end.

Definition bslt (k : string) (hi : bound) : Prop :=
  match hi with None => True | Some h => klt k h end.

(** Orders on lower and on upper bounds, and one range lying wholly below
    another. *)
Definition lo_le (a b : bound) : Prop :=
  match a, b with
  | None, _ => True
  | Some _, None => False
  | Some x, Some y => kle x y
  end.

Definition hi_le (a b : bound) : Prop :=
  match a, b with
  | _, None => True
  | None, Some _ => False
  | Some x, Some y => kle x y
  end.

Definition range_before (hi lo' : bound) : Prop :=
  match hi, lo' with
  | Some h, Some l => kle h l
  | _, _ => False
  end.

(** Ghost data: the height and the key range of each node of the tree. *)
Definition ghost := nat -> option (nat * bound * bound).

Definition parent_of (st : MVTree) (x : nat) : option nat :=
  n ← nodes st !! x; parent n.

Definition sep (inner : MVInnerNode) (i : nat) : string :=
  default EmptyString (ikeys inner !! i).

Definition child_lo (inner : MVInnerNode) (lo : bound) (i : nat) : bound :=
  match i with O => lo | S j => Some (sep inner j) end.

Definition child_hi (inner : MVInnerNode) (hi : bound) (i : nat) : bound :=
  if (i <? keycount inner)%nat then Some (sep inner i) else hi.

Definition inner_ok (inner : MVInnerNode) (lo hi : bound) : Prop :=
  (1 <= keycount inner <= INNER_KEYS cfg)%nat /\
  length (ikeys inner) = (INNER_KEYS cfg + 1)%nat /\
  length (children inner) = (INNER_KEYS cfg + 2)%nat /\
  (forall i j, (i < j < keycount inner)%nat -> klt (sep inner i) (sep inner j)) /\
  (forall i, (i < keycount inner)%nat ->
     blt lo (sep inner i) /\ bslt (sep inner i) hi).

Definition leaf_ok (st : MVTree) (ln : MVLeafNode) (lo hi : bound) : Prop :=
  length (hashes ln) = LEAF_KEYS cfg /\
  length (keys ln) = LEAF_KEYS cfg /\
  exists pl,
    pleaves st !! leaf ln = Some pl /\
    length (slots pl) = LEAF_KEYS cfg /\
    (forall slot, (slot < LEAF_KEYS cfg)%nat ->
       match slots pl !! slot with
       | Some (Some b) =>
           block_ok b /\
           hashes ln !! slot = Some (ph b) /\
           keys ln !! slot = Some (slot_key b) /\
           blt lo (slot_key b) /\ ble (slot_key b) hi
       | _ => hashes ln !! slot = Some 0 /\ keys ln !! slot = Some EmptyString
       end) /\
    (forall s1 s2 b1 b2,
       slots pl !! s1 = Some (Some b1) -> slots pl !! s2 = Some (Some b2) ->
       slot_key b1 = slot_key b2 -> s1 = s2).

(** [leaf_ok] without the lookup of the persistent leaf. *)
Definition leaf_ok_pl (ln : MVLeafNode) (pl : MVLeaf) (lo hi : bound) : Prop :=
  length (hashes ln) = LEAF_KEYS cfg /\
  length (keys ln) = LEAF_KEYS cfg /\
  length (slots pl) = LEAF_KEYS cfg /\
  (forall slot, (slot < LEAF_KEYS cfg)%nat ->
     match slots pl !! slot with
     | Some (Some b) =>
         block_ok b /\
         hashes ln !! slot = Some (ph b) /\
         keys ln !! slot = Some (slot_key b) /\
         blt lo (slot_key b) /\ ble (slot_key b) hi
     | _ => hashes ln !! slot = Some 0 /\ keys ln !! slot = Some EmptyString
     end) /\
  (forall s1 s2 b1 b2,
     slots pl !! s1 = Some (Some b1) -> slots pl !! s2 = Some (Some b2) ->
     slot_key b1 = slot_key b2 -> s1 = s2).

(** The state after a write to one leaf node and its persistent leaf. *)
Definition leaf_write (st : MVTree) (y : nat) (p : option nat)
    (ln : MVLeafNode) (pl : MVLeaf) : MVTree :=
  {| nodes := <[y := {| parent := p; kind := LeafNode ln |}]> (nodes st);
     tree_top := tree_top st;
     leaves_prealloc := leaves_prealloc st;
     pleaves := <[leaf ln := pl]> (pleaves st);
     head := head st |}.

Definition leaf_all_empty (st : MVTree) (lf : nat) : Prop :=
  exists pl, pleaves st !! lf = Some pl /\
             slots pl = replicate (LEAF_KEYS cfg) None.

Definition owned (st : MVTree) (G : ghost) (lf : nat) : Prop :=
  exists x ln lo hi,
    G x = Some (O, lo, hi) /\ get_leafnode st x = Some ln /\ leaf ln = lf.

(** The pool: the leaves are linked from the newest to the oldest. *)
Definition chain_ok (st : MVTree) : Prop :=
  head st = match length (pleaves st) with O => None | S n => Some n end /\
  forall i pl, pleaves st !! i = Some pl ->
    next pl = match i with O => None | S j => Some j end /\
    length (slots pl) = LEAF_KEYS cfg.

(** The invariant of the engine built with [NDEBUG].  [G] gives every
    node of the tree its height and range; [CV] is the range a parent
    expects of a child.  The two agree except while a split is being
    propagated.  The engine with the assertions compiled in is related to
    this one further down. *)
Record Inv_gen (st : MVTree) (G CV : ghost) (H : nat) : Prop := {
  inv_top :
    match tree_top st with
    | Some t => CV t = Some (H, None, None) /\ parent_of st t = None /\
                (t < length (nodes st))%nat /\ (H < length (nodes st))%nat
    | None => forall x, G x = None
    end;
  inv_valid : forall x d lo hi, G x = Some (d, lo, hi) ->
    (x < length (nodes st))%nat /\ (d <= H)%nat;
  inv_inner : forall x d lo hi, G x = Some (S d, lo, hi) ->
    exists inner, get_inner st x = Some inner /\ inner_ok inner lo hi /\
      forall i, (i <= keycount inner)%nat ->
        exists c, children inner !! i = Some (Some c) /\
                  CV c = Some (d, child_lo inner lo i, child_hi inner hi i) /\
                  parent_of st c = Some x;
  inv_leaf : forall x lo hi, G x = Some (O, lo, hi) ->
    exists ln, get_leafnode st x = Some ln /\ leaf_ok st ln lo hi;
  inv_parent : forall x d lo hi, CV x = Some (d, lo, hi) ->
    tree_top st <> Some x ->
    exists p inner i plo phi,
      parent_of st x = Some p /\ G p = Some (S d, plo, phi) /\
      get_inner st p = Some inner /\ (i <= keycount inner)%nat /\
      children inner !! i = Some (Some x);
  inv_leaf_distinct : forall x y lnx lny lox hix loy hiy,
    G x = Some (O, lox, hix) -> G y = Some (O, loy, hiy) ->
    get_leafnode st x = Some lnx -> get_leafnode st y = Some lny ->
    leaf lnx = leaf lny -> x = y;
  inv_prealloc :
    NoDup (leaves_prealloc st) /\
    forall lf, lf ∈ leaves_prealloc st ->
      leaf_all_empty st lf /\ ~ owned st G lf;
  inv_owned : forall lf pl, pleaves st !! lf = Some pl ->
    owned st G lf \/ slots pl = replicate (LEAF_KEYS cfg) None;
  inv_chain : chain_ok st;
  inv_ndebug : NDEBUG cfg = true
}.

(** A split of [n] into [n] and [new] at [s] that the parent of [n] has
    not been told of yet. *)
Definition pending (st : MVTree) (G CV : ghost) (n new : nat) (s : string)
    (d : nat) (lo hi : bound) : Prop :=
  G n = Some (d, lo, Some s) /\ G new = Some (d, Some s, hi) /\
  (forall x, CV x = if decide (x = n) then Some (d, lo, hi)
                    else if decide (x = new) then None else G x) /\
  blt lo s /\ bslt s hi /\ n <> new /\ parent_of st new = parent_of st n.

(** A step that changes routing nodes and parent pointers only. *)
Definition routing_only (st st' : MVTree) (G G' : ghost) : Prop :=
  pleaves st' = pleaves st /\ leaves_prealloc st' = leaves_prealloc st /\
  head st' = head st /\
  (forall x, get_leafnode st' x = get_leafnode st x) /\
  (forall x lo hi, G' x = Some (O, lo, hi) <-> G x = Some (O, lo, hi)) /\
  (length (nodes st) <= length (nodes st'))%nat.

(** The state inside the loop of [LeafSplitFull] that moves slots from the
    leaf of node [y] to the leaf [lf] of the new node: the slots from [j] up
    whose key sorts above [sk] are in the new leaf, every other slot is
    where it was in [ln] and [pl]. *)
Definition moved_state (st1 : MVTree) (y : nat) (pn : option nat)
    (ln : MVLeafNode) (pl : MVLeaf) (lf : nat) (nx : option nat)
    (sk : string) (j : nat) (st' : MVTree) : Prop :=
  exists lnA lnB plA plB,
    tree_top st' = tree_top st1 /\
    leaves_prealloc st' = leaves_prealloc st1 /\
    head st' = head st1 /\
    length (nodes st') = S (length (nodes st1)) /\
    (forall x, nodes st' !! x =
       if decide (x = y) then Some {| parent := pn; kind := LeafNode lnA |}
       else if decide (x = length (nodes st1))
            then Some {| parent := pn; kind := LeafNode lnB |}
            else nodes st1 !! x) /\
    length (pleaves st') = length (pleaves st1) /\
    (forall l, pleaves st' !! l =
       if decide (l = leaf ln) then Some plA
       else if decide (l = lf) then Some plB else pleaves st1 !! l) /\
    leaf lnA = leaf ln /\ leaf lnB = lf /\
    next plA = next pl /\ next plB = nx /\
    length (hashes lnA) = LEAF_KEYS cfg /\ length (keys lnA) = LEAF_KEYS cfg /\
    length (slots plA) = LEAF_KEYS cfg /\
    length (hashes lnB) = LEAF_KEYS cfg /\ length (keys lnB) = LEAF_KEYS cfg /\
    length (slots plB) = LEAF_KEYS cfg /\
    forall slot, (slot < LEAF_KEYS cfg)%nat ->
      if bool_decide (j <= slot)%nat
         && compare_gt0 (default EmptyString (keys ln !! slot)) sk
      then hashes lnA !! slot = Some 0 /\ keys lnA !! slot = Some EmptyString /\
           slots plA !! slot = Some None /\
           hashes lnB !! slot = hashes ln !! slot /\
           keys lnB !! slot = keys ln !! slot /\
           slots plB !! slot = slots pl !! slot
      else hashes lnA !! slot = hashes ln !! slot /\
           keys lnA !! slot = keys ln !! slot /\
           slots plA !! slot = slots pl !! slot /\
           hashes lnB !! slot = Some 0 /\ keys lnB !! slot = Some EmptyString /\
           slots plB !! slot = Some None.

(** The volatile state of [st] over another pool. *)
Definition with_pool (st : MVTree) (P : list MVLeaf) (hd : option nat) : MVTree :=
  {| nodes := nodes st; tree_top := tree_top st;
     leaves_prealloc := leaves_prealloc st; pleaves := P; head := hd |}.

(** The pool with the leaves [E] shown as empty: while [Recover] rebuilds
    the tree these are the leaves whose nodes are not installed yet. *)
Definition mask_pool (E : list nat) (P : list MVLeaf) : list MVLeaf :=
  imap (fun i pl => if bool_decide (i ∈ E)
                    then {| slots := replicate (LEAF_KEYS cfg) None;
                            next := next pl |}
                    else pl) P.

(** [m] is the highest key of the leaf [pl]. *)
Definition leaf_max (pl : MVLeaf) (m : string) : Prop :=
  (exists slot b, slots pl !! slot = Some (Some b) /\ slot_key b = m) /\
  forall slot b, slots pl !! slot = Some (Some b) -> kle (slot_key b) m.

(** What [Recover] relies on in the pool it finds: the leaves are linked
    from the newest to the oldest, every block was written by [set] with
    the hash of its key, a key is stored once, and the keys of two leaves
    do not interleave. *)
Definition pool_ok (st : MVTree) : Prop :=
  chain_ok st /\
  (forall lf slot b, read_pslot st lf slot = Some (Some b) -> block_ok b) /\
  (forall lf1 s1 b1 lf2 s2 b2,
     read_pslot st lf1 s1 = Some (Some b1) ->
     read_pslot st lf2 s2 = Some (Some b2) ->
     slot_key b1 = slot_key b2 -> lf1 = lf2 /\ s1 = s2) /\
  (forall lf1 lf2 s1 s1' s2 s2' b1 b1' b2 b2',
     lf1 <> lf2 ->
     read_pslot st lf1 s1 = Some (Some b1) ->
     read_pslot st lf1 s1' = Some (Some b1') ->
     read_pslot st lf2 s2 = Some (Some b2) ->
     read_pslot st lf2 s2' = Some (Some b2') ->
     klt (slot_key b1) (slot_key b2) -> klt (slot_key b1') (slot_key b2')).

(** The leaf of a leaf node, and the leaves of the recovered nodes that
    [Recover] has not installed yet. *)
Definition leaf_of (st : MVTree) (x : nat) : nat :=
  match get_leafnode st x with Some ln => leaf ln | None => O end.

Definition pending_leaves (st : MVTree) (rest : list (nat * string)) : list nat :=
  map (fun xm => leaf_of st (fst xm)) rest.

(** The state of the first loop of [Recover] once it has seen the leaves
    [seen] of the pool [P]: the empty ones are in [leaves_prealloc], each
    of the others has a leaf node of its own, recorded in [leaves] with
    the highest key of the leaf. *)
Definition recovered (P : list MVLeaf) (hd : option nat) (seen : list nat)
    (st : MVTree) (leaves : list (nat * string)) : Prop :=
  pleaves st = P /\ head st = hd /\ tree_top st = None /\
  NoDup (leaves_prealloc st) /\ NoDup (map fst leaves) /\
  (forall l, l ∈ leaves_prealloc st ->
     l ∈ seen /\
     exists pl, P !! l = Some pl /\ slots pl = replicate (LEAF_KEYS cfg) None) /\
  (forall x m, (x, m) ∈ leaves ->
     exists ln pl,
       nodes st !! x = Some {| parent := None; kind := LeafNode ln |} /\
       leaf ln ∈ seen /\ P !! leaf ln = Some pl /\
       leaf_ok_pl ln pl None None /\ leaf_max pl m) /\
  (forall x m x' m', (x, m) ∈ leaves -> (x', m') ∈ leaves ->
     leaf_of st x = leaf_of st x' -> x = x') /\
  (forall l pl, l ∈ seen -> P !! l = Some pl ->
     slots pl = replicate (LEAF_KEYS cfg) None \/
     exists x m, (x, m) ∈ leaves /\ leaf_of st x = l).

Definition Inv (st : MVTree) : Prop := exists G H, Inv_gen st G G H.

(** Requirements on the fan-outs: at least one slot per leaf, an even
    positive number of separators, and a key count that fits [uint8_t]. *)
Definition cfg_ok : Prop :=
  (1 <= LEAF_KEYS cfg)%nat /\
  (2 <= INNER_KEYS cfg < 255)%nat /\
  Nat.Even (INNER_KEYS cfg).

(** ** The separator invariant, read off the heap *)

(** The keys of the non-empty slots of a leaf node. *)
Definition leafnode_keys (ln : MVLeafNode) : list string :=
  omap (fun hk => if fst hk =? 0 then None else Some (snd hk))
       (zip (hashes ln) (keys ln)).

Fixpoint subtree_keys (fuel : nat) (ns : list MVNode) (node : nat)
  : list string :=
  match fuel with
  | O => []
  | S fuel' =>
      match ns !! node with
      | Some {| kind := LeafNode ln |} => leafnode_keys ln
      | Some {| kind := InnerNode inner |} =>
          concat (map (subtree_keys fuel' ns)
                      (omap id (take (S (keycount inner)) (children inner))))
      | None => []
      end
  end.

(** Every inner node reached from [node] has ascending separators, the keys
    under each child but the last are at most the child's separator, and
    the keys under the last child are above the last separator. *)
Fixpoint separators_hold (fuel : nat) (ns : list MVNode) (node : nat) : Prop :=
  match fuel with
  | O => False
  | S fuel' =>
      match ns !! node with
      | Some {| kind := LeafNode _ |} => True
      | Some {| kind := InnerNode inner |} =>
          (forall i j, (i < j < keycount inner)%nat ->
             klt (sep inner i) (sep inner j)) /\
          (forall i, (i <= keycount inner)%nat ->
             exists c, children inner !! i = Some (Some c) /\
               separators_hold fuel' ns c /\
               ((i < keycount inner)%nat ->
                Forall (fun k => kle k (sep inner i)) (subtree_keys fuel' ns c)) /\
               ((0 < i)%nat ->
                Forall (fun k => klt (sep inner (i - 1)) k)
                       (subtree_keys fuel' ns c)))
      | None => False
      end
  end.

Definition separator_invariant (st : MVTree) : Prop :=
  match tree_top st with
  | Some t => separators_hold (length (nodes st)) (nodes st) t
  | None => True
  end.

End Invariant.

(** An engine state with one full leaf of four slots, as four [Put]s on a
    fresh engine with [cfg_small] leave it. *)
Definition example_keys : list string := ["a"; "b"; "d"; "e"]%string.

Definition example_ln : MVLeafNode :=
  {| hashes := map (PearsonHash cfg_small) example_keys;
     keys := example_keys;
     leaf := O |}.

Definition example_pl : MVLeaf :=
  {| slots := map (fun k => Some (block_of (PearsonHash cfg_small k) k "v"%string))
                  example_keys;
     next := None |}.

Definition example_st : MVTree :=
  {| nodes := [ {| parent := None; kind := LeafNode example_ln |} ];
     tree_top := Some O; leaves_prealloc := [];
     pleaves := [example_pl]; head := Some O |}.

(** ** The assertions of the inner nodes *)

(** What the loops of [InnerUpdateAfterSplit] keep of an inner node: the
    arrays have their lengths, the separators in use are non-empty, the
    children in use are set and the others are null.  It implies
    [assert_invariants]. *)
Definition inner_tidy (cfg : Config) (inner : MVInnerNode) : Prop :=
  length (ikeys inner) = (INNER_KEYS cfg + 1)%nat /\
  length (children inner) = (INNER_KEYS cfg + 2)%nat /\
  (keycount inner <= INNER_KEYS cfg)%nat /\
  (forall i, (i < keycount inner)%nat -> sep inner i <> EmptyString) /\
  (forall i, (i <= keycount inner)%nat ->
     exists c, children inner !! i = Some (Some c)) /\
  (forall i, (keycount inner < i)%nat -> mjoin (children inner !! i) = None).

Definition tidy (cfg : Config) (st : MVTree) : Prop :=
  forall x inner, get_inner st x = Some inner -> inner_tidy cfg inner.

(** Every inner node of the heap passes the assertion block. *)
Definition checked (cfg : Config) (st : MVTree) : Prop :=
  forall x inner, get_inner st x = Some inner ->
    debug_assert_invariants cfg inner = true.

(** Sequences of operations on which no assertion can fail: the
    assertions are compiled out, or no empty key is put, or a leaf has at
    least two slots and the engine is not reopened. *)
Definition op_nonempty (o : Op) : Prop :=
  match o with
  | OpPut key _ => key <> EmptyString
  | _ => True
  end.

Definition op_not_reopen (o : Op) : Prop :=
  match o with
  | OpReopen => False
  | _ => True
  end.

Definition assert_free (cfg : Config) (ops : list Op) : Prop :=
  NDEBUG cfg = true \/
  Forall op_nonempty ops \/
  ((2 <= LEAF_KEYS cfg)%nat /\ Forall op_not_reopen ops).

(** From [st] to [st'] the top of the tree stays and no inner node is made
    or changed. *)
Definition routing_kept (st st' : MVTree) : Prop :=
  tree_top st' = tree_top st /\
  forall x inner, get_inner st' x = Some inner -> get_inner st x = Some inner.

(** What the [assert] on the top node in [InnerUpdateAfterSplit] rests
    on.  Before a call the parent pointer of the top node, if it has one,
    is a node of the heap, as is the top node; after it the first child of
    the top node points back to it and is not its second child. *)
Definition top_unlinked (st : MVTree) : Prop :=
  forall t, tree_top st = Some t ->
    (t < length (nodes st))%nat /\
    forall p, parent_of st t = Some p -> (p < length (nodes st))%nat.

Definition top_linked (st : MVTree) : Prop :=
  forall t inner, tree_top st = Some t -> get_inner st t = Some inner ->
    exists c, children inner !! 0%nat = Some (Some c) /\
              parent_of st c = Some t /\
              children inner !! 1%nat <> Some (Some c).

(** The same of every call that [recover_build] makes. *)
Fixpoint recover_build_tops (cfg : Config) (leaves : list (nat * string))
    (st : MVTree) (prevnode : nat) (max_key : string) : Prop :=
  match leaves with
  | [] => True
  | (nextnode, next_max) :: rest =>
      forall pn st1 st2,
        nodes st !! prevnode = Some pn ->
        update_parent st nextnode (parent pn) = Some st1 ->
        InnerUpdateAfterSplit cfg (length (nodes st1)) st1
          prevnode nextnode max_key = Some st2 ->
        top_unlinked st1 /\ top_linked st2 /\
        recover_build_tops cfg rest st2 nextnode next_max
  end.

(** * Properties *)

(** With [NDEBUG] the assertion blocks are empty. *)
Lemma debug_assert_ndebug cfg inner :
  NDEBUG cfg = true -> debug_assert_invariants cfg inner = true.
Proof. unfold debug_assert_invariants. intros ->. reflexivity. Qed.

Lemma debug_assert_true cfg cond : NDEBUG cfg = true -> debug_assert cfg cond = true.
Proof. unfold debug_assert. intros ->. reflexivity. Qed.

(** ** The order on keys *)

Lemma compare_refl a : compare a a = Eq.
Proof.
  unfold compare. destruct (String_as_OT.compare_spec a a) as [H|H|H]; auto;
    exfalso; exact (StrictOrder_Irreflexive (R := String_as_OT.lt) a H).
Qed.

Lemma compare_Eq a b : compare a b = Eq <-> a = b.
Proof.
  split; [|intros ->; apply compare_refl].
  unfold compare. intros H.
  destruct (String_as_OT.compare_spec a b) as [E|E|E]; try discriminate.
  exact E.
Qed.

Lemma compare_Gt a b : compare a b = Gt <-> klt b a.
Proof.
  unfold klt, compare.
  destruct (String_as_OT.compare_spec a b) as [E|E|E];
    destruct (String_as_OT.compare_spec b a) as [F|F|F];
    split; intros H; try discriminate; try reflexivity; exfalso.
  - red in E. subst. exact (StrictOrder_Irreflexive (R := String_as_OT.lt) _ F).
  - exact (StrictOrder_Irreflexive (R := String_as_OT.lt) _
             (StrictOrder_Transitive (R := String_as_OT.lt) _ _ _ E F)).
  - red in F. subst. exact (StrictOrder_Irreflexive (R := String_as_OT.lt) _ E).
  - exact (StrictOrder_Irreflexive (R := String_as_OT.lt) _
             (StrictOrder_Transitive (R := String_as_OT.lt) _ _ _ E F)).
Qed.

Lemma klt_irrefl a : ~ klt a a.
Proof. unfold klt. rewrite compare_refl. discriminate. Qed.

Lemma klt_trans a b c : klt a b -> klt b c -> klt a c.
Proof. exact (StrictOrder_Transitive (R := String_as_OT.lt) a b c). Qed.

Lemma kle_iff a b : kle a b <-> klt a b \/ a = b.
Proof.
  unfold kle, klt. rewrite <- compare_Eq.
  destruct (compare a b); intuition congruence.
Qed.

Lemma kle_refl a : kle a a.
Proof. apply kle_iff. auto. Qed.

Lemma klt_kle a b : klt a b -> kle a b.
Proof. intros. apply kle_iff. auto. Qed.

Lemma kle_not_klt a b : kle a b <-> ~ klt b a.
Proof. unfold kle. rewrite compare_Gt. tauto. Qed.

Lemma klt_not_kle a b : klt a b <-> ~ kle b a.
Proof.
  rewrite kle_not_klt. split; [tauto|].
  intros H. unfold klt in *.
  destruct (compare a b); auto; exfalso; apply H; discriminate.
Qed.

Lemma klt_kle_trans a b c : klt a b -> kle b c -> klt a c.
Proof. rewrite kle_iff. intros H [H'| ->]; eauto using klt_trans. Qed.

Lemma kle_klt_trans a b c : kle a b -> klt b c -> klt a c.
Proof. rewrite kle_iff. intros [H'| ->] H; eauto using klt_trans. Qed.

Lemma kle_trans a b c : kle a b -> kle b c -> kle a c.
Proof.
  rewrite (kle_iff a b). intros [H| ->] H'; auto.
  apply klt_kle. eapply klt_kle_trans; eauto.
Qed.

Lemma kle_antisym a b : kle a b -> kle b a -> a = b.
Proof.
  rewrite (kle_iff a b). intros [H| ->] H'; auto.
  apply kle_not_klt in H'. contradiction.
Qed.

Lemma klt_total a b : klt a b \/ a = b \/ klt b a.
Proof.
  destruct (compare a b) eqn:E.
  - right; left. apply compare_Eq, E.
  - left. exact E.
  - right; right. apply compare_Gt, E.
Qed.

Lemma kle_total a b : kle a b \/ klt b a.
Proof. destruct (klt_total a b) as [H|[->|H]]; auto using klt_kle, kle_refl. Qed.

Lemma compare_le0_spec a b : compare_le0 a b = true <-> kle a b.
Proof. unfold compare_le0, kle. destruct (compare a b); intuition congruence. Qed.

Lemma compare_gt0_spec a b : compare_gt0 a b = true <-> klt b a.
Proof.
  rewrite <- compare_Gt. unfold compare_gt0.
  destruct (compare a b); intuition congruence.
Qed.

Lemma compare_lt0_spec a b : compare_lt0 a b = true <-> klt a b.
Proof. unfold compare_lt0, klt. destruct (compare a b); intuition congruence. Qed.

Lemma compare_eq0_spec a b : compare_eq0 a b = true <-> a = b.
Proof.
  rewrite <- compare_Eq. unfold compare_eq0.
  destruct (compare a b); intuition congruence.
Qed.

Lemma compare_le0_false a b : compare_le0 a b = false <-> klt b a.
Proof.
  rewrite klt_not_kle, <- compare_le0_spec.
  destruct (compare_le0 a b); split; intros H; try discriminate; try reflexivity;
    exfalso; auto.
Qed.

Lemma compare_gt0_false a b : compare_gt0 a b = false <-> kle a b.
Proof.
  rewrite kle_not_klt, <- compare_gt0_spec.
  destruct (compare_gt0 a b); split; intros H; try discriminate; try reflexivity;
    exfalso; auto.
Qed.

Lemma compare_lt0_false a b : compare_lt0 a b = false <-> kle b a.
Proof.
  rewrite kle_not_klt, <- compare_lt0_spec.
  destruct (compare_lt0 a b); split; intros H; try discriminate; try reflexivity;
    exfalso; auto.
Qed.

Create HintDb korder.

#[local] Hint Resolve kle_refl klt_kle klt_trans kle_trans klt_kle_trans
  kle_klt_trans : korder.

(** ** PearsonHash *)

Lemma PEARSON_LOOKUP_TABLE_range :
  Forall (fun x => 0 <= x < 256) PEARSON_LOOKUP_TABLE.
Proof.
  unfold PEARSON_LOOKUP_TABLE.
  repeat (constructor; [lia|]). constructor.
Qed.

Lemma table_read_range cfg i : 0 <= table_read cfg i < 256.
Proof.
  unfold table_read.
  destruct ((0 <=? i) && (i <? 256)) eqn:E.
  - destruct (nth_in_or_default (Z.to_nat i) PEARSON_LOOKUP_TABLE 0) as [H|H].
    + exact (proj1 (List.Forall_forall _ _) PEARSON_LOOKUP_TABLE_range _ H).
    + rewrite H. lia.
  - apply Z.mod_pos_bound. lia.
Qed.

Lemma pearson_chain_range cfg data : 0 <= pearson_chain cfg data < 256.
Proof.
  unfold pearson_chain.
  generalize (rev (list_ascii_of_string data)).
  assert (H : 0 <= Z.of_nat (String.length data) mod 256 < 256)
    by (apply Z.mod_pos_bound; lia).
  revert H. generalize (Z.of_nat (String.length data) mod 256).
  intros z Hz l. revert z Hz.
  induction l as [|c l IH]; intros z Hz; simpl; auto.
  apply IH, table_read_range.
Qed.

(** C7.  [PearsonHash] is a function of the bytes and the size of its
    input, so equal inputs give equal hashes; for every input the hash is a
    byte different from 0, and it is the value the Pearson chain ends at
    unless that value is 0, in which case it is 1. *)
Theorem PearsonHash_contract (cfg : Config) (data : string) :
  1 <= PearsonHash cfg data <= 255 /\
  PearsonHash cfg data <> 0 /\
  PearsonHash cfg data =
    (if pearson_chain cfg data =? 0 then 1 else pearson_chain cfg data) /\
  (PearsonHash cfg data = 1 <->
     pearson_chain cfg data = 0 \/ pearson_chain cfg data = 1) /\
  (forall data' : string,
     list_ascii_of_string data' = list_ascii_of_string data ->
     PearsonHash cfg data' = PearsonHash cfg data).
Proof.
  pose proof (pearson_chain_range cfg data) as R.
  unfold PearsonHash.
  destruct (Z.eqb_spec (pearson_chain cfg data) 0) as [E|E].
  - repeat split; try lia. intros data' H.
    assert (data' = data) as ->; [|rewrite E; reflexivity].
    rewrite <- (string_of_list_ascii_of_string data'), H.
    apply string_of_list_ascii_of_string.
  - repeat split; try lia. intros data' H.
    assert (data' = data) as ->.
    { rewrite <- (string_of_list_ascii_of_string data'), H.
      apply string_of_list_ascii_of_string. }
    destruct (Z.eqb_spec (pearson_chain cfg data) 0); [contradiction|reflexivity].
Qed.

(** ** Persistent slots *)

Lemma length_list_ascii_of_string s :
  length (list_ascii_of_string s) = String.length s.
Proof. induction s; simpl; auto. Qed.

Lemma memcpy_set_body (K V : list ascii) :
  memcpy (memcpy (replicate (length K + length V + 2) zero) 0 K)
         (length K + 1) V
  = K ++ [zero] ++ V ++ [zero].
Proof.
  unfold memcpy. rewrite take_0. simpl.
  rewrite drop_replicate.
  replace (length K + length V + 2 - length K)%nat with (S (S (length V))) by lia.
  rewrite take_app_ge by lia.
  replace (length K + 1 - length K)%nat with 1%nat by lia.
  rewrite drop_app_ge by lia.
  replace (length K + 1 + length V - length K)%nat with (S (length V)) by lia.
  rewrite drop_replicate.
  replace (S (S (length V)) - S (length V))%nat with 1%nat by lia.
  simpl. rewrite <- app_assoc. reflexivity.
Qed.

Lemma MVSlot_set_body s hash key value :
  exists kv,
    fst (MVSlot_set s hash key value)
    = Some {| ph := hash;
              ks := to_uint32 (Z.of_nat (String.length key));
              vs := to_uint32 (Z.of_nat (String.length value));
              body := kv |} /\
    kv = list_ascii_of_string key ++ [zero]
           ++ list_ascii_of_string value ++ [zero].
Proof.
  eexists. split; [reflexivity|].
  unfold HEADER_BYTES.
  replace (Z.to_nat _) with
    (length (list_ascii_of_string key) + length (list_ascii_of_string value) + 2)%nat
    by (rewrite !length_list_ascii_of_string; lia).
  rewrite <- (length_list_ascii_of_string key) at 1.
  replace (Z.to_nat (Z.of_nat (length (list_ascii_of_string key))) + 1)%nat
    with (length (list_ascii_of_string key) + 1)%nat by lia.
  apply memcpy_set_body.
Qed.

(** C8.  [set(hash, key, value)] makes exactly one allocation, of
    [1 + 4 + 4 + |key| + 1 + |value| + 1] bytes, and that is the block the
    slot owns afterwards: nine header bytes, then the key bytes, a zero
    byte, the value bytes and a zero byte. *)
Theorem MVSlot_set_layout (s : MVSlot) (hash : Z) (key value : string) :
  let size := 1 + 4 + 4 + Z.of_nat (String.length key) + 1
              + Z.of_nat (String.length value) + 1 in
  exists p : Block,
    fst (MVSlot_set s hash key value) = Some p /\
    allocations (snd (MVSlot_set s hash key value)) = [size] /\
    HEADER_BYTES + Z.of_nat (length (body p)) = size /\
    slot_hash p = hash /\
    body p = list_ascii_of_string key ++ [zero]
               ++ list_ascii_of_string value ++ [zero].
Proof.
  intros size.
  destruct (MVSlot_set_body s hash key value) as (kv & E & Hkv).
  eexists. split; [exact E|].
  split.
  { unfold MVSlot_set, allocations. simpl snd. rewrite omap_app.
    destruct s; simpl; unfold size; f_equal; lia. }
  simpl. subst kv. split; [|auto].
  rewrite !length_app, !length_list_ascii_of_string. simpl.
  unfold HEADER_BYTES, size. lia.
Qed.

(** C9.  [clear] on a slot that owns a block asks to free
    [1 + 4 + 4 + 0 + 0 + 2 = 11] bytes, because the sizes are read from the
    header after it was zeroed.  [set] allocated
    [11 + |key| + |value|] bytes for the block, so the two sizes differ
    exactly when the key or the value is not empty. *)
Theorem MVSlot_clear_frees_11 (s : MVSlot) (hash : Z) (key value : string) :
  (forall p : Block,
     MVSlot_clear (Some p) = (None, [ev_delete_persistent 11])) /\
  snd (MVSlot_clear (fst (MVSlot_set s hash key value)))
  = [ev_delete_persistent 11] /\
  last (snd (MVSlot_set s hash key value))
  = Some (ev_make_persistent
            (11 + Z.of_nat (String.length key)
                + Z.of_nat (String.length value))) /\
  (11 + Z.of_nat (String.length key) + Z.of_nat (String.length value) <> 11
   <-> key <> EmptyString \/ value <> EmptyString).
Proof.
  split; [reflexivity|]. split; [reflexivity|]. split.
  - unfold MVSlot_set. simpl snd. rewrite last_snoc. do 2 f_equal. lia.
  - destruct key, value; simpl String.length; split; intros H;
      try lia; try (left; discriminate); try (right; discriminate);
      try (exfalso; apply H; reflexivity).
    destruct H as [H|H]; congruence.
Qed.

(** ** Aborted transactions *)

(** C3.  The engine holding ["a"] after one [Put], and a [Remove] of ["a"]
    whose transaction aborts: the pool keeps the slot, as an abort should
    leave it, but the mirror of the slot was zeroed before the transaction
    began and stays zeroed.  The state has changed, [Get] no longer finds
    the key and [ListAllKeys] still lists it.  The same happens in [Put]:
    the mirror of a free slot is written inside a transaction that then
    aborts, and the mirror then names a key whose slot is empty. *)
Theorem Remove_abort_mutates_mirror :
  exists st st' st'',
    Put cfg_x86 fresh "a" "1" = Some st /\
    Remove_tx cfg_x86 false st "a" = Some (st', None) /\
    pleaves st' = pleaves st /\
    nodes st' <> nodes st /\
    Get cfg_x86 st "a" EmptyString = Some (OK, "1"%string) /\
    Get cfg_x86 st' "a" EmptyString = Some (NOT_FOUND, EmptyString) /\
    ListAllKeys cfg_x86 st' [] = Some ["a"%string] /\
    Put_tx cfg_x86 false st "b" "2" = Some (st'', FAILED) /\
    pleaves st'' = pleaves st /\
    nodes st'' <> nodes st.
Proof.
  do 3 eexists.
  split; [vm_compute; reflexivity|].
  split; [vm_compute; reflexivity|].
  split; [reflexivity|].
  split; [vm_compute; discriminate|].
  split; [vm_compute; reflexivity|].
  split; [vm_compute; reflexivity|].
  split; [vm_compute; reflexivity|].
  split; [vm_compute; reflexivity|].
  split; [reflexivity|].
  vm_compute; discriminate.
Qed.

(** C6.  The engine holding [("a", "abcdef")] and a [Get] with the limit
    [-1]: the stored size 6 exceeds the limit, yet the comparison is made
    on unsigned values, the status is [OK] and the six bytes are copied
    into the buffer.  With the limit 3 the same call reports the size 6,
    fails and leaves the buffer alone. *)
Theorem Get_limit_negative_limit :
  exists st,
    Put cfg_x86 fresh "a" "abcdef" = Some st /\
    Get_limit cfg_x86 st (-1) "a" 0 []
    = Some (OK, 6, list_ascii_of_string "abcdef") /\
    Get_limit cfg_x86 st 3 "a" 0 (list_ascii_of_string "xyz")
    = Some (FAILED, 6, list_ascii_of_string "xyz").
Proof.
  eexists.
  split; [vm_compute; reflexivity|].
  split; vm_compute; reflexivity.
Qed.
(** ** Blocks *)

Lemma slot_set_block_of s hash key value :
  slot_set s hash key value = Some (block_of hash key value).
Proof.
  unfold slot_set.
  destruct (MVSlot_set_body s hash key value) as (kv & E & ->).
  exact E.
Qed.

Lemma to_uint32_small s : small s ->
  Z.to_nat (to_uint32 (Z.of_nat (String.length s))) = String.length s.
Proof.
  unfold small, to_uint32. intros H.
  rewrite Z.mod_small by lia. lia.
Qed.

Lemma slot_key_block_of hash key value :
  small key -> slot_key (block_of hash key value) = key.
Proof.
  intros H. unfold slot_key, block_of. simpl.
  rewrite to_uint32_small by done.
  rewrite <- (length_list_ascii_of_string key), take_app_length.
  apply string_of_list_ascii_of_string.
Qed.

Lemma slot_val_block_of hash key value :
  small key -> small value -> slot_val (block_of hash key value) = value.
Proof.
  intros Hk Hv. unfold slot_val, block_of. simpl.
  rewrite !to_uint32_small by done.
  rewrite <- (length_list_ascii_of_string key).
  rewrite drop_app_add.
  rewrite <- (length_list_ascii_of_string value).
  change (drop 1 (zero :: ?x)) with x. rewrite take_app_length.
  apply string_of_list_ascii_of_string.
Qed.

Lemma block_ok_hash cfg b : block_ok cfg b -> ph b = PearsonHash cfg (slot_key b).
Proof.
  intros (k & v & -> & Hk & Hv). rewrite slot_key_block_of by done. reflexivity.
Qed.

Lemma PearsonHash_nonzero cfg data : PearsonHash cfg data <> 0.
Proof. apply PearsonHash_contract. Qed.

Lemma block_ok_hash_nonzero cfg b : block_ok cfg b -> ph b <> 0.
Proof. intros H. rewrite (block_ok_hash _ _ H). apply PearsonHash_nonzero. Qed.

Lemma block_ok_valsize cfg b :
  block_ok cfg b ->
  slot_valsize b = Z.of_nat (String.length (slot_val b)) /\ small (slot_val b).
Proof.
  intros (k & v & -> & Hk & Hv). rewrite slot_val_block_of by done.
  split; [|done]. unfold slot_valsize, block_of, to_uint32. simpl.
  apply Z.mod_small. unfold small in Hv. lia.
Qed.

Lemma block_ok_block_of cfg key value :
  small key -> small value ->
  block_ok cfg (block_of (PearsonHash cfg key) key value).
Proof. intros. exists key, value. auto. Qed.
(** ** Reading the heap *)

Lemma get_leafnode_Some st x ln :
  get_leafnode st x = Some ln <->
  exists p, nodes st !! x = Some {| parent := p; kind := LeafNode ln |}.
Proof.
  unfold get_leafnode. split.
  - destruct (nodes st !! x) as [[p [l|i]]|]; intros [= <-]. eauto.
  - intros [p ->]. reflexivity.
Qed.

Lemma get_inner_Some st x inner :
  get_inner st x = Some inner <->
  exists p, nodes st !! x = Some {| parent := p; kind := InnerNode inner |}.
Proof.
  unfold get_inner. split.
  - destruct (nodes st !! x) as [[p [l|i]]|]; intros [= <-]. eauto.
  - intros [p ->]. reflexivity.
Qed.

Lemma get_leafnode_inner st x ln inner :
  get_leafnode st x = Some ln -> get_inner st x = Some inner -> False.
Proof.
  rewrite get_leafnode_Some, get_inner_Some. intros [p H] [q H']. congruence.
Qed.

Lemma scan_down_Some n p s :
  scan_down n p = Some s ->
  (s < n)%nat /\ p s = true /\ forall j, (s < j < n)%nat -> p j = false.
Proof.
  induction n as [|n IH]; simpl; [discriminate|].
  destruct (p n) eqn:E.
  - intros [= <-]. repeat split; auto; lia.
  - intros H. destruct (IH H) as (? & ? & Hj). repeat split; auto.
    intros j Hlt. destruct (decide (j = n)) as [->|]; auto. apply Hj. lia.
Qed.

Lemma scan_down_None n p :
  scan_down n p = None -> forall j, (j < n)%nat -> p j = false.
Proof.
  induction n as [|n IH]; simpl; [lia|].
  destruct (p n) eqn:E; [discriminate|].
  intros H j Hj. destruct (decide (j = n)) as [->|]; auto. apply IH; auto. lia.
Qed.

(** ** Ranges *)

Lemma lo_le_refl a : lo_le a a.
Proof. destruct a; simpl; auto with korder. Qed.

Lemma hi_le_refl a : hi_le a a.
Proof. destruct a; simpl; auto with korder. Qed.

Lemma range_before_hi_le h0 h l :
  hi_le h0 h -> range_before h l -> range_before h0 l.
Proof.
  destruct h0, h, l; simpl; try tauto; eauto with korder.
Qed.

Lemma range_before_lo_le h l l1 :
  range_before h l -> lo_le l l1 -> range_before h l1.
Proof.
  destruct h, l, l1; simpl; try tauto; eauto with korder.
Qed.

Lemma range_before_excl h l k : range_before h l -> ble k h -> blt l k -> False.
Proof.
  destruct h, l; simpl; try tauto. intros H1 H2 H3.
  apply (klt_irrefl k). eauto with korder.
Qed.

Section InnerRanges.
Variable cfg : Config.
Variables (inner : MVInnerNode) (lo hi : bound).
Hypothesis Hok : inner_ok cfg inner lo hi.

Lemma sep_sorted_le i j :
    (i <= j < keycount inner)%nat -> kle (sep inner i) (sep inner j).
  Proof.
    intros Hij. destruct (decide (i = j)) as [->|]; auto with korder.
    apply klt_kle, Hok. lia.
  Qed.

Lemma child_lo_nest i : (i <= keycount inner)%nat -> lo_le lo (child_lo inner lo i).
  Proof.
    intros Hi. destruct i as [|j]; simpl; [apply lo_le_refl|].
    destruct lo as [l|]; simpl; auto.
    apply klt_kle. destruct Hok as (_ & _ & _ & _ & Hb).
    apply (Hb j). lia.
  Qed.

Lemma child_hi_nest i : (i <= keycount inner)%nat -> hi_le (child_hi inner hi i) hi.
  Proof.
    intros Hi. unfold child_hi. destruct (Nat.ltb_spec i (keycount inner)).
    - destruct hi as [h|]; simpl; auto.
      apply klt_kle. destruct Hok as (_ & _ & _ & _ & Hb). apply (Hb i). lia.
    - apply hi_le_refl.
  Qed.

Lemma sibling_ranges i j :
    (i < j <= keycount inner)%nat ->
    range_before (child_hi inner hi i) (child_lo inner lo j).
  Proof.
    intros Hij. unfold child_hi.
    destruct (Nat.ltb_spec i (keycount inner)); [|lia].
    destruct j as [|j]; [lia|]. simpl. apply sep_sorted_le. lia.
  Qed.

  (** The scan of one inner node picks the child whose range holds the key. *)
Lemma inner_scan_aux key n idx :
    (idx + n = keycount inner)%nat ->
    (forall j, (j < idx)%nat -> klt (sep inner j) key) ->
    let r := inner_scan key (ikeys inner) idx n in
    (idx <= r <= keycount inner)%nat /\
    (forall j, (j < r)%nat -> klt (sep inner j) key) /\
    ((r < keycount inner)%nat -> kle key (sep inner r)).
  Proof.
    revert idx. induction n as [|n IH]; intros idx Hn Hlt; simpl.
    - repeat split; auto; lia.
    - fold (sep inner idx).
      destruct (compare_le0 key (sep inner idx)) eqn:E.
      + apply compare_le0_spec in E. repeat split; auto; lia.
      + apply compare_le0_false in E.
        destruct (IH (S idx)) as (H1 & H2 & H3); [lia| |].
        * intros j Hj. destruct (decide (j = idx)) as [->|]; auto.
          apply Hlt. lia.
        * repeat split; auto; lia.
  Qed.

Lemma inner_scan_spec key :
    blt lo key -> ble key hi ->
    let r := inner_scan key (ikeys inner) 0 (keycount inner) in
    (r <= keycount inner)%nat /\
    blt (child_lo inner lo r) key /\ ble key (child_hi inner hi r).
  Proof.
    intros Hlo Hhi.
    destruct (inner_scan_aux key (keycount inner) 0) as (H1 & H2 & H3);
      [lia|intros; lia|].
    split; [lia|]. split.
    - destruct (inner_scan _ _ _ _) as [|j] eqn:E; simpl; auto.
    - unfold child_hi. destruct (Nat.ltb_spec (inner_scan key (ikeys inner) 0
                                                 (keycount inner)) (keycount inner));
        simpl; auto.
  Qed.
End InnerRanges.
(** ** LeafSearch under the invariant *)

Section ReadOnly.
Variable cfg : Config.
Variables (st : MVTree) (G : ghost) (H : nat).
Hypothesis HI : Inv_gen cfg st G G H.

Lemma live_leaf_height x ln d lo hi :
    G x = Some (d, lo, hi) -> get_leafnode st x = Some ln -> d = O.
  Proof.
    intros HG Hl. destruct d as [|d]; auto.
    destruct (inv_inner _ _ _ _ _ HI _ _ _ _ HG) as (inner & Hi & _).
    destruct (get_leafnode_inner _ _ _ _ Hl Hi).
  Qed.

Lemma LeafSearch_loop_spec key d : forall x lo hi fuel,
    G x = Some (d, lo, hi) -> blt lo key -> ble key hi -> (d < fuel)%nat ->
    exists y lo' hi',
      LeafSearch_loop cfg fuel (nodes st) x key = Some y /\
      G y = Some (O, lo', hi') /\ blt lo' key /\ ble key hi'.
  Proof.
    induction d as [|d IH]; intros x lo hi fuel HG Hlo Hhi Hf;
      (destruct fuel as [|fuel]; [lia|]); simpl.
    - destruct (inv_leaf _ _ _ _ _ HI _ _ _ HG) as (ln & Hl & _).
      apply get_leafnode_Some in Hl as [p ->]. eauto 10.
    - destruct (inv_inner _ _ _ _ _ HI _ _ _ _ HG) as (inner & Hi & Hok & Hch).
      apply get_inner_Some in Hi as [p ->].
      rewrite (debug_assert_ndebug cfg inner (inv_ndebug _ _ _ _ _ HI)).
      destruct (inner_scan_spec inner lo hi key Hlo Hhi) as (Hr & Hl1 & Hh1).
      destruct (Hch _ Hr) as (c & -> & HGc & _).
      eapply IH; eauto. lia.
  Qed.

Lemma LeafSearch_spec key :
    match tree_top st with
    | None => LeafSearch cfg st key = Some None
    | Some _ =>
        exists y lo hi, LeafSearch cfg st key = Some (Some y) /\
          G y = Some (O, lo, hi) /\ blt lo key /\ ble key hi
    end.
  Proof.
    unfold LeafSearch. pose proof (inv_top _ _ _ _ _ HI) as Ht.
    destruct (tree_top st) as [t|]; auto.
    destruct Ht as (HG & _ & _ & Hlen).
    destruct (LeafSearch_loop_spec key H t None None (length (nodes st)))
      as (y & lo & hi & -> & ?); simpl; eauto 10.
  Qed.

  (** Two nodes of the same height have ranges that do not meet. *)
Lemma live_is_top x lo hi t :
    tree_top st = Some t -> G x = Some (H, lo, hi) -> x = t.
  Proof.
    intros Ht HG. destruct (decide (x = t)) as [|Hne]; auto. exfalso.
    destruct (inv_parent _ _ _ _ _ HI _ _ _ _ HG) as (p & inner & i & plo & phi & _ & HGp & _).
    { rewrite Ht. congruence. }
    destruct (inv_valid _ _ _ _ _ HI _ _ _ _ HGp). lia.
  Qed.

Lemma live_ranges_disjoint n : forall d x y lox hix loy hiy,
    (H - d <= n)%nat ->
    G x = Some (d, lox, hix) -> G y = Some (d, loy, hiy) -> x <> y ->
    range_before hix loy \/ range_before hiy lox.
  Proof.
    induction n as [|n IH]; intros d x y lox hix loy hiy Hn Hx Hy Hne.
    - exfalso.
      destruct (inv_valid _ _ _ _ _ HI _ _ _ _ Hx) as [_ Hd].
      assert (d = H) as -> by lia.
      pose proof (inv_top _ _ _ _ _ HI) as Ht.
      destruct (tree_top st) as [t|] eqn:Et; [|rewrite Ht in Hx; discriminate].
      apply Hne. rewrite (live_is_top _ _ _ _ Et Hx), (live_is_top _ _ _ _ Et Hy).
      reflexivity.
    - destruct (decide (d = H)) as [->|Hd]; [apply (IH H x y lox hix loy hiy); auto; lia|].
      assert (Hnt : forall z lo hi, G z = Some (d, lo, hi) -> tree_top st <> Some z).
      { intros z lo hi Hz Ht. pose proof (inv_top _ _ _ _ _ HI) as Ht'.
        rewrite Ht in Ht'. destruct Ht' as (Ht' & _). congruence. }
      destruct (inv_parent _ _ _ _ _ HI _ _ _ _ Hx (Hnt _ _ _ Hx))
        as (px & ix & i & plox & phix & Hpx & HGpx & Hix & Hi & Hci).
      destruct (inv_parent _ _ _ _ _ HI _ _ _ _ Hy (Hnt _ _ _ Hy))
        as (py & iy & j & ploy & phiy & Hpy & HGpy & Hiy & Hj & Hcj).
      destruct (inv_inner _ _ _ _ _ HI _ _ _ _ HGpx) as (ix' & Hix' & Hokx & Hchx).
      destruct (inv_inner _ _ _ _ _ HI _ _ _ _ HGpy) as (iy' & Hiy' & Hoky & Hchy).
      assert (ix' = ix) as -> by congruence.
      assert (iy' = iy) as -> by congruence.
      destruct (Hchx _ Hi) as (cx & Hcx & HGcx & _).
      destruct (Hchy _ Hj) as (cy & Hcy & HGcy & _).
      assert (cx = x) as -> by congruence.
      assert (cy = y) as -> by congruence.
      rewrite Hx in HGcx. rewrite Hy in HGcy.
      injection HGcx as -> ->. injection HGcy as -> ->.
      destruct (decide (px = py)) as [->|Hpne].
      + assert (iy = ix) as -> by congruence.
        assert (plox = ploy /\ phix = phiy) as [-> ->] by (split; congruence).
        destruct (Nat.lt_total i j) as [Hlt|[->|Hlt]].
        * left. eapply sibling_ranges; eauto.
        * congruence.
        * right. eapply sibling_ranges; eauto.
      + destruct (inv_valid _ _ _ _ _ HI _ _ _ _ Hx) as [_ Hd'].
        destruct (IH (S d) px py plox phix ploy phiy) as [Hb|Hb]; auto; [lia| |].
        * left. eapply range_before_hi_le; [eapply child_hi_nest; eauto|].
          eapply range_before_lo_le; [exact Hb|eapply child_lo_nest; eauto].
        * right. eapply range_before_hi_le; [eapply child_hi_nest; eauto|].
          eapply range_before_lo_le; [exact Hb|eapply child_lo_nest; eauto].
  Qed.

Lemma leaf_unique key x y lox hix loy hiy :
    G x = Some (O, lox, hix) -> G y = Some (O, loy, hiy) ->
    blt lox key -> ble key hix -> blt loy key -> ble key hiy -> x = y.
  Proof.
    intros Hx Hy H1 H2 H3 H4.
    destruct (decide (x = y)) as [|Hne]; auto. exfalso.
    destruct (live_ranges_disjoint H O x y _ _ _ _ ltac:(lia) Hx Hy Hne) as [Hb|Hb];
      eapply range_before_excl; eauto.
  Qed.
End ReadOnly.
(** ** Get under the invariant *)

Section GetSpec.
Variable cfg : Config.
Variables (st : MVTree) (G : ghost) (H : nat).
Hypothesis HI : Inv_gen cfg st G G H.

Lemma owned_leaf lf :
    owned st G lf ->
    exists x ln lo hi, G x = Some (O, lo, hi) /\ get_leafnode st x = Some ln /\
                       leaf ln = lf /\ leaf_ok cfg st ln lo hi.
  Proof.
    intros (x & ln & lo & hi & E & Hl & <-).
    destruct (inv_leaf _ _ _ _ _ HI _ _ _ E) as (ln' & Hl' & Hok).
    assert (ln' = ln) as -> by congruence. eauto 10.
  Qed.

Lemma contents_located k v :
    contents st k v ->
    exists y ln lo hi pl slot b,
      G y = Some (O, lo, hi) /\ get_leafnode st y = Some ln /\
      leaf_ok cfg st ln lo hi /\
      pleaves st !! leaf ln = Some pl /\ slots pl !! slot = Some (Some b) /\
      (slot < LEAF_KEYS cfg)%nat /\
      slot_key b = k /\ slot_val b = v.
  Proof.
    intros (lf & slot & b & Hr & Hk & Hv).
    unfold read_pslot in Hr.
    destruct (pleaves st !! lf) as [pl|] eqn:Epl; simpl in Hr; [|discriminate].
    destruct (inv_owned _ _ _ _ _ HI _ _ Epl) as [Ho|He].
    - destruct (owned_leaf _ Ho) as (x & ln & lo & hi & HG & Hl & <- & Hok).
      assert (slot < LEAF_KEYS cfg)%nat.
      { destruct Hok as (_ & _ & pl' & Hpl' & Hlen & _).
        assert (pl' = pl) as -> by congruence.
        rewrite <- Hlen. eapply lookup_lt_Some; eauto. }
      exists x, ln, lo, hi, pl, slot, b. auto 10.
    - rewrite He in Hr. apply lookup_replicate in Hr as [? _]. discriminate.
  Qed.

Lemma slot_matches_stored ln lo hi pl slot b :
    leaf_ok cfg st ln lo hi -> pleaves st !! leaf ln = Some pl ->
    (slot < LEAF_KEYS cfg)%nat ->
    slots pl !! slot = Some (Some b) ->
    slot_matches ln (PearsonHash cfg (slot_key b)) (slot_key b) slot = true.
  Proof.
    intros (_ & _ & pl' & Hpl' & _ & Hs & _) Hpl Hlt Hb.
    assert (pl' = pl) as -> by congruence.
    specialize (Hs _ Hlt). rewrite Hb in Hs.
    destruct Hs as (Hok & Hh & Hk & _).
    unfold slot_matches. rewrite Hh, Hk.
    rewrite (block_ok_hash _ _ Hok), Z.eqb_refl. simpl.
    apply compare_eq0_spec. reflexivity.
  Qed.

Lemma slot_matches_inv ln lo hi pl slot key :
    leaf_ok cfg st ln lo hi -> pleaves st !! leaf ln = Some pl ->
    (slot < LEAF_KEYS cfg)%nat ->
    slot_matches ln (PearsonHash cfg key) key slot = true ->
    exists b, slots pl !! slot = Some (Some b) /\ slot_key b = key /\
              block_ok cfg b.
  Proof.
    intros (_ & _ & pl' & Hpl' & _ & Hs & _) Hpl Hlt Hm.
    assert (pl' = pl) as -> by congruence.
    specialize (Hs _ Hlt). unfold slot_matches in Hm.
    destruct (slots pl !! slot) as [[b|]|] eqn:Eb.
    - destruct Hs as (Hok & Hh & Hk & _). rewrite Hh, Hk in Hm.
      apply andb_true_iff in Hm as [_ Hm]. apply compare_eq0_spec in Hm.
      eauto.
    - destruct Hs as [Hh Hk]. rewrite Hh, Hk in Hm.
      apply andb_true_iff in Hm as [Hm _]. apply Z.eqb_eq in Hm.
      symmetry in Hm. destruct (PearsonHash_nonzero _ _ Hm).
    - destruct Hs as [Hh Hk]. rewrite Hh, Hk in Hm.
      apply andb_true_iff in Hm as [Hm _]. apply Z.eqb_eq in Hm.
      symmetry in Hm. destruct (PearsonHash_nonzero _ _ Hm).
  Qed.

Lemma top_of_contents k v : contents st k v -> tree_top st <> None.
  Proof.
    intros Hc Ht. destruct (contents_located _ _ Hc) as (y & ? & ? & ? & ? & ? & ? & HG & _).
    pose proof (inv_top _ _ _ _ _ HI) as Htop. rewrite Ht in Htop.
    rewrite Htop in HG. discriminate.
  Qed.

  (** The leaf [LeafSearch] reaches and the slot the scan stops at, for a
      key the pool holds. *)
Lemma search_stored k v :
    contents st k v ->
    exists y ln slot b,
      LeafSearch cfg st k = Some (Some y) /\ get_leafnode st y = Some ln /\
      scan_down (LEAF_KEYS cfg) (slot_matches ln (PearsonHash cfg k) k) = Some slot /\
      read_slot st ln slot = Some b /\ slot_key b = k /\ slot_val b = v /\
      block_ok cfg b.
  Proof.
    intros Hc.
    destruct (contents_located _ _ Hc)
      as (y & ln & lo & hi & pl & slot & b & HG & Hl & Hok & Hpl & Hb & Hlt & Hk & Hv).
    pose proof (LeafSearch_spec cfg st G H HI k) as Hs.
    destruct (tree_top st) as [t|] eqn:Et;
      [|destruct (top_of_contents _ _ Hc Et)].
    destruct Hs as (y' & lo' & hi' & Hs & HG' & Hlo' & Hhi').
    assert (Hrange : blt lo k /\ ble k hi).
    { destruct Hok as (_ & _ & pl' & Hpl' & _ & Hsl & _).
      assert (pl' = pl) as -> by congruence.
      specialize (Hsl _ Hlt). rewrite Hb in Hsl. subst k. tauto. }
    assert (y' = y) as ->
        by (eapply (leaf_unique cfg st G H HI k); eauto; tauto).
    exists y, ln.
    pose proof (slot_matches_stored _ _ _ _ _ _ Hok Hpl Hlt Hb) as Hm.
    rewrite Hk in Hm.
    destruct (scan_down (LEAF_KEYS cfg) (slot_matches ln (PearsonHash cfg k) k))
      as [s'|] eqn:Es.
    - destruct (scan_down_Some _ _ _ Es) as (Hlt' & Hm' & _).
      destruct (slot_matches_inv _ _ _ _ _ _ Hok Hpl Hlt' Hm') as (b' & Hb' & Hk' & Hbok).
      assert (s' = slot) as ->.
      { destruct Hok as (_ & _ & pl' & Hpl' & _ & _ & Hu).
        assert (pl' = pl) as -> by congruence.
        eapply Hu; eauto. congruence. }
      assert (b' = b) as -> by congruence.
      exists slot, b. repeat split; auto.
      unfold read_slot. rewrite Hpl, Hb. reflexivity.
    - rewrite (scan_down_None _ _ Es _ Hlt) in Hm. discriminate.
  Qed.

Lemma Get_found k v s :
    contents st k v -> Get cfg st k s = Some (OK, (s ++ v)%string).
  Proof.
    intros Hc.
    destruct (search_stored _ _ Hc) as (y & ln & slot & b & Hs & Hl & Hsc & Hr & _ & Hv & _).
    unfold Get. rewrite Hs, Hl, Hsc, Hr, Hv. reflexivity.
  Qed.

Lemma contents_functional k v v' : contents st k v -> contents st k v' -> v = v'.
  Proof.
    intros H1 H2. pose proof (Get_found k v EmptyString H1) as E1.
    rewrite (Get_found k v' EmptyString H2) in E1. simpl in E1. congruence.
  Qed.

Lemma Get_not_found k s :
    (forall v, ~ contents st k v) -> Get cfg st k s = Some (NOT_FOUND, s).
  Proof.
    intros Hn. unfold Get.
    pose proof (LeafSearch_spec cfg st G H HI k) as Hs.
    destruct (tree_top st) as [t|] eqn:Et; [|rewrite Hs; reflexivity].
    destruct Hs as (y & lo & hi & -> & HG & Hlo & Hhi).
    destruct (inv_leaf _ _ _ _ _ HI _ _ _ HG) as (ln & Hl & Hok).
    rewrite Hl.
    destruct (scan_down _ _) as [slot|] eqn:Es; [|reflexivity].
    exfalso.
    destruct (scan_down_Some _ _ _ Es) as (Hlt & Hm & _).
    pose proof Hok as (_ & _ & pl & Hpl & _).
    destruct (slot_matches_inv _ _ _ _ _ _ Hok Hpl Hlt Hm) as (b & Hb & Hk & _).
    apply (Hn (slot_val b)). exists (leaf ln), slot, b.
    unfold read_pslot. rewrite Hpl. simpl. auto.
  Qed.
End GetSpec.
(** ** Locations in the pool *)

Section Locations.
Variable cfg : Config.
Variables (st : MVTree) (G : ghost) (H : nat).
Hypothesis HI : Inv_gen cfg st G G H.

Lemma located lf slot b :
    read_pslot st lf slot = Some (Some b) ->
    exists y ln lo hi pl,
      G y = Some (O, lo, hi) /\ get_leafnode st y = Some ln /\ leaf ln = lf /\
      leaf_ok cfg st ln lo hi /\
      pleaves st !! lf = Some pl /\ slots pl !! slot = Some (Some b) /\
      (slot < LEAF_KEYS cfg)%nat /\
      block_ok cfg b /\ blt lo (slot_key b) /\ ble (slot_key b) hi.
  Proof.
    intros Hr. unfold read_pslot in Hr.
    destruct (pleaves st !! lf) as [pl|] eqn:Epl; [|discriminate].
    change (slots pl !! slot = Some (Some b)) in Hr.
    destruct (inv_owned _ _ _ _ _ HI _ _ Epl) as [Ho|He].
    - destruct (owned_leaf cfg st G H HI _ Ho) as (x & ln & lo & hi & HG & Hl & <- & Hok).
      pose proof Hok as (_ & _ & pl' & Hpl' & Hlen & Hs & _).
      assert (pl' = pl) as -> by congruence.
      assert (Hlt : (slot < LEAF_KEYS cfg)%nat)
        by (rewrite <- Hlen; eapply lookup_lt_Some; eauto).
      specialize (Hs _ Hlt). rewrite Hr in Hs.
      exists x, ln, lo, hi, pl. tauto.
    - rewrite He in Hr. apply lookup_replicate in Hr as [? _]. discriminate.
  Qed.

Lemma location_unique lf1 s1 b1 lf2 s2 b2 :
    read_pslot st lf1 s1 = Some (Some b1) ->
    read_pslot st lf2 s2 = Some (Some b2) ->
    slot_key b1 = slot_key b2 -> lf1 = lf2 /\ s1 = s2.
  Proof.
    intros H1 H2 Hk.
    destruct (located _ _ _ H1)
      as (y1 & ln1 & lo1 & hi1 & pl1 & HG1 & Hl1 & <- & Hok1 & Hpl1 & Hb1 & _ & _ & Hlo1 & Hhi1).
    destruct (located _ _ _ H2)
      as (y2 & ln2 & lo2 & hi2 & pl2 & HG2 & Hl2 & <- & Hok2 & Hpl2 & Hb2 & _ & _ & Hlo2 & Hhi2).
    rewrite Hk in Hlo1, Hhi1.
    assert (y1 = y2) as -> by (eapply (leaf_unique cfg st G H HI); eauto).
    assert (ln1 = ln2) as -> by congruence.
    split; auto.
    assert (pl1 = pl2) as -> by congruence.
    destruct Hok1 as (_ & _ & pl' & Hpl' & _ & _ & Hu).
    assert (pl' = pl2) as -> by congruence.
    eapply Hu; eauto.
  Qed.

  (** A key routed to a leaf is in the pool only if it is in that leaf. *)
Lemma routed_location key y lo hi ln lf slot b :
    G y = Some (O, lo, hi) -> blt lo key -> ble key hi ->
    get_leafnode st y = Some ln ->
    read_pslot st lf slot = Some (Some b) -> slot_key b = key ->
    lf = leaf ln.
  Proof.
    intros HG Hlo Hhi Hl Hr Hk.
    destruct (located _ _ _ Hr)
      as (y1 & ln1 & lo1 & hi1 & pl1 & HG1 & Hl1 & <- & _ & _ & _ & _ & _ & Hlo1 & Hhi1).
    rewrite Hk in Hlo1, Hhi1.
    assert (y1 = y) as -> by (eapply (leaf_unique cfg st G H HI); eauto).
    congruence.
  Qed.
End Locations.

(** ** Changing leaves under the invariant *)

Lemma leaf_ok_pool_eq cfg st st' ln lo hi :
  pleaves st' !! leaf ln = pleaves st !! leaf ln ->
  leaf_ok cfg st ln lo hi -> leaf_ok cfg st' ln lo hi.
Proof. unfold leaf_ok. intros ->. auto. Qed.

Lemma parent_of_lt st x p : parent_of st x = Some p -> (x < length (nodes st))%nat.
Proof.
  unfold parent_of. destruct (nodes st !! x) eqn:E; simpl; [|discriminate].
  intros _. eapply lookup_lt_Some; eauto.
Qed.

Lemma Inv_gen_leaf_frame cfg st st' G G' CV H t :
  Inv_gen cfg st G CV H ->
  tree_top st = Some t ->
  tree_top st' = Some t ->
  (length (nodes st) <= length (nodes st'))%nat ->
  (forall x, (x < length (nodes st))%nat -> parent_of st' x = parent_of st x) ->
  (forall x, (x < length (nodes st))%nat -> get_inner st' x = get_inner st x) ->
  (forall x d lo hi, G' x = Some (S d, lo, hi) <-> G x = Some (S d, lo, hi)) ->
  (forall x lo hi, G' x = Some (O, lo, hi) ->
     (x < length (nodes st'))%nat /\
     exists ln, get_leafnode st' x = Some ln /\ leaf_ok cfg st' ln lo hi) ->
  (forall x y lnx lny lox hix loy hiy,
     G' x = Some (O, lox, hix) -> G' y = Some (O, loy, hiy) ->
     get_leafnode st' x = Some lnx -> get_leafnode st' y = Some lny ->
     leaf lnx = leaf lny -> x = y) ->
  (NoDup (leaves_prealloc st') /\
   forall lf, lf ∈ leaves_prealloc st' ->
     leaf_all_empty cfg st' lf /\ ~ owned st' G' lf) ->
  (forall lf pl, pleaves st' !! lf = Some pl ->
     owned st' G' lf \/ slots pl = replicate (LEAF_KEYS cfg) None) ->
  chain_ok cfg st' ->
  Inv_gen cfg st' G' CV H.
Proof.
  intros HI Ht Ht' Hlen Hpar Hinn HGS HGO Hdist Hpre Hown Hchain.
  pose proof (inv_top _ _ _ _ _ HI) as Htop. rewrite Ht in Htop.
  destruct Htop as (HCVt & Hpt & Htlt & HHlt).
  constructor;
    [| | | | |exact Hdist|exact Hpre|exact Hown|exact Hchain
    |exact (inv_ndebug _ _ _ _ _ HI)].
  - rewrite Ht'. repeat split; auto; try lia. rewrite Hpar; auto.
  - intros x d lo hi HG. destruct d as [|d].
    + split; [|lia]. apply (HGO _ _ _ HG).
    + apply HGS in HG. destruct (inv_valid _ _ _ _ _ HI _ _ _ _ HG). split; lia.
  - intros x d lo hi HG. apply HGS in HG.
    destruct (inv_valid _ _ _ _ _ HI _ _ _ _ HG) as [Hx _].
    destruct (inv_inner _ _ _ _ _ HI _ _ _ _ HG) as (inner & Hi & Hok & Hch).
    exists inner. rewrite Hinn by done. split; [done|]. split; [done|].
    intros i Hile. destruct (Hch _ Hile) as (c & Hc & HCV & Hp).
    exists c. split; [done|]. split; [done|].
    rewrite Hpar; auto. eapply parent_of_lt; eauto.
  - intros x lo hi HG. apply (HGO _ _ _ HG).
  - intros x d lo hi HCV Hnt. rewrite Ht' in Hnt. rewrite <- Ht in Hnt.
    destruct (inv_parent _ _ _ _ _ HI _ _ _ _ HCV Hnt)
      as (p & inner & i & plo & phi & Hp & HGp & Hi & Hile & Hc).
    exists p, inner, i, plo, phi.
    destruct (inv_valid _ _ _ _ _ HI _ _ _ _ HGp) as [Hplt _].
    rewrite Hpar by (eapply parent_of_lt; eauto).
    rewrite Hinn by done. split; [done|]. split; [apply HGS; done|]. auto.
Qed.
Lemma leaf_ok_iff cfg st ln lo hi :
  leaf_ok cfg st ln lo hi <->
  exists pl, pleaves st !! leaf ln = Some pl /\ leaf_ok_pl cfg ln pl lo hi.
Proof.
  unfold leaf_ok, leaf_ok_pl. split.
  - intros (? & ? & pl & ? & ? & ? & ?). exists pl. tauto.
  - intros (pl & ? & ? & ? & ? & ? & ?). repeat split; auto. exists pl. tauto.
Qed.

Section LeafWrite.
Variable cfg : Config.
Variables (st : MVTree) (G CV : ghost) (H : nat).
Hypothesis HI : Inv_gen cfg st G CV H.
Variables (t y : nat) (p : option nat) (ln ln' : MVLeafNode) (pl pl' : MVLeaf).
Variables (lo hi : bound).
Hypothesis Ht : tree_top st = Some t.
Hypothesis HG : G y = Some (O, lo, hi).
Hypothesis Hy : nodes st !! y = Some {| parent := p; kind := LeafNode ln |}.
Hypothesis Hleaf : leaf ln' = leaf ln.
Hypothesis Hpl : pleaves st !! leaf ln = Some pl.
Hypothesis Hnext : next pl' = next pl.
Hypothesis Hok' : leaf_ok_pl cfg ln' pl' lo hi.

Let st' := leaf_write st y p ln' pl'.

Lemma leaf_write_get_leafnode x :
    get_leafnode st' x = if decide (x = y) then Some ln' else get_leafnode st x.
  Proof.
    unfold get_leafnode, st', leaf_write. simpl.
    destruct (decide (x = y)) as [->|Hne].
    - rewrite list_lookup_insert_eq; [done|]. eapply lookup_lt_Some; eauto.
    - rewrite list_lookup_insert_ne by done. reflexivity.
  Qed.

Lemma leaf_write_get_inner x : get_inner st' x = get_inner st x.
  Proof.
    unfold get_inner, st', leaf_write. simpl.
    destruct (decide (x = y)) as [->|Hne].
    - rewrite list_lookup_insert_eq by (eapply lookup_lt_Some; eauto).
      rewrite Hy. reflexivity.
    - rewrite list_lookup_insert_ne by done. reflexivity.
  Qed.

Lemma leaf_write_parent_of x : parent_of st' x = parent_of st x.
  Proof.
    unfold parent_of, st', leaf_write. simpl.
    destruct (decide (x = y)) as [->|Hne].
    - rewrite list_lookup_insert_eq by (eapply lookup_lt_Some; eauto).
      rewrite Hy. reflexivity.
    - rewrite list_lookup_insert_ne by done. reflexivity.
  Qed.

Lemma leaf_write_pleaves lf :
    pleaves st' !! lf = if decide (lf = leaf ln) then Some pl' else pleaves st !! lf.
  Proof.
    unfold st', leaf_write. simpl. rewrite Hleaf.
    destruct (decide (lf = leaf ln)) as [->|Hne].
    - rewrite list_lookup_insert_eq; [done|]. eapply lookup_lt_Some; eauto.
    - rewrite list_lookup_insert_ne by done. reflexivity.
  Qed.

Lemma leaf_write_read_pslot lf slot :
    read_pslot st' lf slot =
      if decide (lf = leaf ln) then slots pl' !! slot else read_pslot st lf slot.
  Proof.
    unfold read_pslot. rewrite leaf_write_pleaves.
    destruct (decide (lf = leaf ln)); reflexivity.
  Qed.

Lemma leaf_write_old_leaf x lnx :
    get_leafnode st' x = Some lnx ->
    exists lnx0, get_leafnode st x = Some lnx0 /\ leaf lnx0 = leaf lnx.
  Proof.
    rewrite leaf_write_get_leafnode. destruct (decide (x = y)) as [->|Hne].
    - intros [= <-]. exists ln. split; [|congruence].
      apply get_leafnode_Some. eauto.
    - eauto.
  Qed.

Lemma leaf_write_new_leaf x lnx0 :
    get_leafnode st x = Some lnx0 ->
    exists lnx, get_leafnode st' x = Some lnx /\ leaf lnx0 = leaf lnx.
  Proof.
    rewrite leaf_write_get_leafnode. destruct (decide (x = y)) as [->|Hne].
    - intros Hl. exists ln'. split; [done|].
      assert (get_leafnode st y = Some ln) by (apply get_leafnode_Some; eauto).
      congruence.
    - eauto.
  Qed.

Lemma leaf_write_owned lf : owned st' G lf <-> owned st G lf.
  Proof.
    split.
    - intros (x & lnx & lox & hix & HGx & Hl & <-).
      destruct (leaf_write_old_leaf _ _ Hl) as (lnx0 & Hl0 & E).
      exists x, lnx0, lox, hix. auto.
    - intros (x & lnx & lox & hix & HGx & Hl & <-).
      destruct (leaf_write_new_leaf _ _ Hl) as (lnx0 & Hl0 & E).
      exists x, lnx0, lox, hix. auto.
  Qed.

Lemma leaf_write_owned_y : owned st G (leaf ln).
  Proof. exists y, ln, lo, hi. repeat split; auto. apply get_leafnode_Some. eauto. Qed.

Lemma Inv_leaf_write : Inv_gen cfg st' G CV H.
  Proof.
    assert (Hyl : get_leafnode st y = Some ln) by (apply get_leafnode_Some; eauto).
    eapply (Inv_gen_leaf_frame cfg st st' G G CV H t HI Ht).
    - exact Ht.
    - unfold st', leaf_write. simpl. rewrite length_insert. lia.
    - intros. apply leaf_write_parent_of.
    - intros. apply leaf_write_get_inner.
    - tauto.
    - intros x lox hix HGx. split.
      { unfold st', leaf_write. simpl. rewrite length_insert.
        apply (inv_valid _ _ _ _ _ HI _ _ _ _ HGx). }
      rewrite leaf_write_get_leafnode.
      destruct (decide (x = y)) as [->|Hne].
      + exists ln'. split; [done|]. apply leaf_ok_iff. exists pl'.
        rewrite leaf_write_pleaves, Hleaf, decide_True by done.
        assert (lox = lo /\ hix = hi) as [-> ->] by (split; congruence). done.
      + destruct (inv_leaf _ _ _ _ _ HI _ _ _ HGx) as (lnx & Hl & Hok).
        exists lnx. split; [done|]. eapply leaf_ok_pool_eq; [|exact Hok].
        rewrite leaf_write_pleaves, decide_False; [done|].
        intros E. apply Hne.
        eapply (inv_leaf_distinct _ _ _ _ _ HI x y); eauto.
    - intros x z lnx lnz lox hix loz hiz HGx HGz Hlx Hlz E.
      destruct (leaf_write_old_leaf _ _ Hlx) as (lnx0 & Hlx0 & Ex).
      destruct (leaf_write_old_leaf _ _ Hlz) as (lnz0 & Hlz0 & Ez).
      eapply (inv_leaf_distinct _ _ _ _ _ HI x z); eauto. congruence.
    - destruct (inv_prealloc _ _ _ _ _ HI) as [Hnd Hpre]. split; [exact Hnd|].
      intros lf Hin. destruct (Hpre _ Hin) as [(pl0 & Hpl0 & He) Hno].
      split; [|rewrite leaf_write_owned; done].
      exists pl0. split; [|done].
      rewrite leaf_write_pleaves, decide_False; [done|].
      intros ->. apply Hno, leaf_write_owned_y.
    - intros lf pl0. rewrite leaf_write_pleaves, leaf_write_owned.
      destruct (decide (lf = leaf ln)) as [->|Hne].
      + intros _. left. apply leaf_write_owned_y.
      + apply (inv_owned _ _ _ _ _ HI).
    - destruct (inv_chain _ _ _ _ _ HI) as [Hh Hc]. split.
      + unfold st', leaf_write. simpl. rewrite length_insert. exact Hh.
      + intros i pli. rewrite leaf_write_pleaves.
        destruct (decide (i = leaf ln)) as [->|Hne].
        * intros [= <-]. rewrite Hnext. split; [apply (Hc _ _ Hpl)|].
          apply Hok'.
        * apply Hc.
  Qed.
End LeafWrite.
(** ** Filling and clearing one slot *)

Lemma fill_scan_spec ln hash key n : forall last le km,
  fill_scan ln hash key n last = (le, km) ->
  match km with
  | Some s =>
      (s < n)%nat /\ default 0 (hashes ln !! s) <> 0 /\
      default 0 (hashes ln !! s) = hash /\
      default EmptyString (keys ln !! s) = key
  | None =>
      (forall j, (j < n)%nat ->
         default 0 (hashes ln !! j) = 0 \/
         default 0 (hashes ln !! j) <> hash \/
         default EmptyString (keys ln !! j) <> key) /\
      match le with
      | Some e => ((e < n)%nat /\ default 0 (hashes ln !! e) = 0) \/ le = last
      | None => last = None /\
                forall j, (j < n)%nat -> default 0 (hashes ln !! j) <> 0
      end
  end.
Proof.
  induction n as [|n IH]; intros last le km; simpl.
  - intros [= <- <-]. split; [lia|]. destruct last; auto. split; auto. lia.
  - destruct (Z.eqb_spec (default 0 (hashes ln !! n)) 0) as [E0|E0].
    + intros Hs. specialize (IH _ _ _ Hs). destruct km as [s|].
      * destruct IH as (? & ?). split; [lia|done].
      * destruct IH as [Hn Hle]. split.
        { intros j Hj. destruct (decide (j = n)) as [->|]; auto. apply Hn. lia. }
        destruct le as [e|].
        { destruct Hle as [[? ?]|[= ->]]; left; (split; [lia|done]). }
        { destruct Hle as [[=] _]. }
    + destruct (Z.eqb_spec (default 0 (hashes ln !! n)) hash) as [Eh|Eh]; simpl.
      * destruct (compare_eq0 (default EmptyString (keys ln !! n)) key) eqn:Ek.
        { apply compare_eq0_spec in Ek. intros [= <- <-]. repeat split; auto. }
        { assert (default EmptyString (keys ln !! n) <> key)
            by (intros Ek'; apply compare_eq0_spec in Ek'; congruence).
          intros Hs. specialize (IH _ _ _ Hs). destruct km as [s|].
          - destruct IH as (? & ?). split; [lia|done].
          - destruct IH as [Hn Hle]. split.
            { intros j Hj. destruct (decide (j = n)) as [->|]; auto. apply Hn. lia. }
            destruct le as [e|].
            + destruct Hle as [[? ?]|?]; auto; left; (split; [lia|done]).
            + destruct Hle as [? Hz]. split; auto.
              intros j Hj. destruct (decide (j = n)) as [->|]; auto. apply Hz. lia. }
      * intros Hs. specialize (IH _ _ _ Hs). destruct km as [s|].
        { destruct IH as (? & ?). split; [lia|done]. }
        destruct IH as [Hn Hle]. split.
        { intros j Hj. destruct (decide (j = n)) as [->|]; auto. apply Hn. lia. }
        destruct le as [e|].
        { destruct Hle as [[? ?]|?]; auto; left; (split; [lia|done]). }
        destruct Hle as [? Hz]. split; auto.
        intros j Hj. destruct (decide (j = n)) as [->|]; auto. apply Hz. lia.
Qed.

Lemma LeafFillSpecificSlot_eq st y p ln h pl slot s0 hash key value :
  nodes st !! y = Some {| parent := p; kind := LeafNode ln |} ->
  hashes ln !! slot = Some h ->
  pleaves st !! leaf ln = Some pl ->
  slots pl !! slot = Some s0 ->
  LeafFillSpecificSlot st y hash key value slot
  = Some (leaf_write st y p
            (if h =? 0
             then {| hashes := <[slot := hash]> (hashes ln);
                     keys := <[slot := key]> (keys ln);
                     leaf := leaf ln |}
             else ln)
            {| slots := <[slot := Some (block_of hash key value)]> (slots pl);
               next := next pl |}).
Proof.
  intros Hy Hh Hpl Hs.
  unfold LeafFillSpecificSlot, get_leafnode. rewrite Hy. simpl.
  rewrite Hh. simpl. unfold update_leafnode. rewrite Hy. simpl.
  assert (El : leaf (if h =? 0
                     then {| hashes := <[slot := hash]> (hashes ln);
                             keys := <[slot := key]> (keys ln);
                             leaf := leaf ln |}
                     else ln) = leaf ln) by (destruct (h =? 0); reflexivity).
  unfold read_pslot, update_pslot. simpl. rewrite Hpl. simpl. rewrite Hs. simpl.
  rewrite slot_set_block_of. unfold leaf_write, set_pleaves, set_nodes. simpl.
  rewrite El. reflexivity.
Qed.

Section SlotWrites.
Variable cfg : Config.
Variables (ln : MVLeafNode) (pl : MVLeaf) (lo hi : bound).
Hypothesis Hok : leaf_ok_pl cfg ln pl lo hi.
Variable slot : nat.
Hypothesis Hslot : (slot < LEAF_KEYS cfg)%nat.

Lemma leaf_ok_pl_hash_empty :
    hashes ln !! slot = Some 0 <-> slots pl !! slot = Some None.
  Proof.
    destruct Hok as (Hlh & Hlk & Hls & Hs & _). specialize (Hs _ Hslot).
    destruct (slots pl !! slot) as [[b|]|] eqn:E.
    - destruct Hs as (Hb & Hh & _). split; [|discriminate].
      rewrite Hh. intros [= E0]. destruct (block_ok_hash_nonzero _ _ Hb E0).
    - tauto.
    - apply lookup_ge_None in E. exfalso. lia.
  Qed.

Lemma leaf_ok_pl_fill h key value :
    hashes ln !! slot = Some h ->
    (h <> 0 -> exists b, slots pl !! slot = Some (Some b) /\ slot_key b = key) ->
    (forall j b, j <> slot -> slots pl !! j = Some (Some b) -> slot_key b <> key) ->
    blt lo key -> ble key hi -> small key -> small value ->
    leaf_ok_pl cfg
      (if h =? 0
       then {| hashes := <[slot := PearsonHash cfg key]> (hashes ln);
               keys := <[slot := key]> (keys ln);
               leaf := leaf ln |}
       else ln)
      {| slots := <[slot := Some (block_of (PearsonHash cfg key) key value)]> (slots pl);
         next := next pl |} lo hi.
  Proof.
    intros Hh Hnz Hother Hlo Hhi Hsk Hsv.
    pose proof Hok as (Hlh & Hlk & Hls & Hs & Hu).
    assert (Hkb : slot_key (block_of (PearsonHash cfg key) key value) = key)
      by (apply slot_key_block_of; done).
    unfold leaf_ok_pl. simpl.
    split; [destruct (h =? 0); simpl; rewrite ?length_insert; done|].
    split; [destruct (h =? 0); simpl; rewrite ?length_insert; done|].
    split; [rewrite length_insert; done|].
    split.
    - intros j Hj. destruct (decide (j = slot)) as [->|Hne].
      + rewrite list_lookup_insert_eq by lia. rewrite Hkb.
        split; [apply block_ok_block_of; done|].
        destruct (Z.eqb_spec h 0) as [E0|E0]; simpl.
        * rewrite !list_lookup_insert_eq by lia. auto.
        * destruct (Hnz E0) as (b & Hb & Hk). specialize (Hs _ Hslot).
          rewrite Hb in Hs. destruct Hs as (Hbok & Hh' & Hk' & _).
          rewrite Hk', Hk. rewrite Hh', (block_ok_hash _ _ Hbok), Hk. auto.
      + rewrite list_lookup_insert_ne by done. specialize (Hs _ Hj).
        destruct (h =? 0); simpl; rewrite ?list_lookup_insert_ne by done; exact Hs.
    - intros s1 s2 b1 b2.
      destruct (decide (s1 = slot)) as [->|N1]; destruct (decide (s2 = slot)) as [->|N2];
        auto.
      + rewrite list_lookup_insert_eq by lia. rewrite list_lookup_insert_ne by done.
        intros [= <-] H2 E. rewrite Hkb in E. destruct (Hother _ _ N2 H2). auto.
      + rewrite list_lookup_insert_eq by lia. rewrite list_lookup_insert_ne by done.
        intros H1 [= <-] E. rewrite Hkb in E. destruct (Hother _ _ N1 H1). auto.
      + rewrite !list_lookup_insert_ne by done. apply Hu.
  Qed.

Lemma leaf_ok_pl_clear :
    leaf_ok_pl cfg
      {| hashes := <[slot := 0]> (hashes ln);
         keys := <[slot := EmptyString]> (keys ln);
         leaf := leaf ln |}
      {| slots := <[slot := None]> (slots pl); next := next pl |} lo hi.
  Proof.
    pose proof Hok as (Hlh & Hlk & Hls & Hs & Hu).
    unfold leaf_ok_pl. simpl. rewrite !length_insert.
    repeat (split; [done|]). split.
    - intros j Hj. destruct (decide (j = slot)) as [->|Hne].
      + rewrite !list_lookup_insert_eq by lia. auto.
      + rewrite !list_lookup_insert_ne by done. apply Hs, Hj.
    - intros s1 s2 b1 b2.
      destruct (decide (s1 = slot)) as [->|N1];
        [rewrite list_lookup_insert_eq by lia; discriminate|].
      destruct (decide (s2 = slot)) as [->|N2];
        [rewrite (list_lookup_insert_eq _ slot) by lia; discriminate|].
      rewrite !list_lookup_insert_ne by done. apply Hu.
  Qed.
End SlotWrites.
(** ** Put into a leaf with room, and Remove *)

Section FillAt.
Variable cfg : Config.
Variables (st : MVTree) (G CV : ghost) (H : nat).
Hypothesis HI : Inv_gen cfg st G CV H.
Variables (t y : nat) (p : option nat) (ln : MVLeafNode) (pl : MVLeaf).
Variables (lo hi : bound).
Hypothesis Ht : tree_top st = Some t.
Hypothesis HG : G y = Some (O, lo, hi).
Hypothesis Hy : nodes st !! y = Some {| parent := p; kind := LeafNode ln |}.
Hypothesis Hpl : pleaves st !! leaf ln = Some pl.
Hypothesis Hok : leaf_ok_pl cfg ln pl lo hi.
Variable slot : nat.
Hypothesis Hslot : (slot < LEAF_KEYS cfg)%nat.

Lemma leaf_slot_lookup : exists s0, slots pl !! slot = Some s0.
  Proof.
    apply lookup_lt_is_Some. destruct Hok as (_ & _ & -> & _). done.
  Qed.

Lemma leaf_hash_lookup : exists h, hashes ln !! slot = Some h.
  Proof.
    apply lookup_lt_is_Some. destruct Hok as (-> & _). done.
  Qed.

Section Fill.
Variables (h : Z) (key value : string).
Hypothesis Hh : hashes ln !! slot = Some h.
Hypothesis Hnz :
      h <> 0 -> exists b, slots pl !! slot = Some (Some b) /\ slot_key b = key.
Hypothesis Hother :
      forall j b, j <> slot -> slots pl !! j = Some (Some b) -> slot_key b <> key.
Hypothesis Hglobal :
      forall lf j b, lf <> leaf ln -> read_pslot st lf j = Some (Some b) ->
                     slot_key b <> key.
Hypothesis Hlo : blt lo key.
Hypothesis Hhi : ble key hi.
Hypothesis Hsk : small key.
Hypothesis Hsv : small value.

Lemma fill_at :
      exists st',
        LeafFillSpecificSlot st y (PearsonHash cfg key) key value slot = Some st' /\
        Inv_gen cfg st' G CV H /\
        tree_top st' = tree_top st /\
        forall k v, contents st' k v <->
                    (k = key /\ v = value) \/ (k <> key /\ contents st k v).
    Proof.
      destruct leaf_slot_lookup as [s0 Hs0].
      eexists. split; [eapply LeafFillSpecificSlot_eq; eauto|].
      set (ln' := if h =? 0 then _ else ln).
      set (pl' := {| slots := _; next := next pl |}).
      assert (Hleaf : leaf ln' = leaf ln) by (unfold ln'; destruct (h =? 0); done).
      assert (Hok' : leaf_ok_pl cfg ln' pl' lo hi)
        by (eapply leaf_ok_pl_fill; eauto).
      split; [eapply Inv_leaf_write; eauto|]. split; [done|].
      assert (Hold : forall b, slots pl !! slot = Some (Some b) -> slot_key b = key).
      { intros b Hb. destruct (Z.eq_dec h 0) as [->|Hne].
        - apply (leaf_ok_pl_hash_empty cfg ln pl lo hi Hok slot Hslot) in Hh.
          congruence.
        - destruct (Hnz Hne) as (b' & Hb' & Hk). congruence. }
      intros k v. split.
      - intros (lf & j & b & Hr & Hk & Hv).
        rewrite (leaf_write_read_pslot st y p ln ln' pl pl' Hleaf Hpl) in Hr.
        destruct (decide (lf = leaf ln)) as [->|Hne].
        + simpl in Hr. destruct (decide (j = slot)) as [->|Hj].
          * rewrite list_lookup_insert_eq in Hr
              by (destruct Hok as (_ & _ & -> & _); done).
            injection Hr as <-. left.
            rewrite slot_key_block_of in Hk by done.
            rewrite slot_val_block_of in Hv by done. auto.
          * rewrite list_lookup_insert_ne in Hr by done. right. split.
            { rewrite <- Hk. eapply Hother; eauto. }
            exists (leaf ln), j, b. unfold read_pslot. rewrite Hpl. auto.
        + right. split; [|exists lf, j, b; auto].
          rewrite <- Hk. eapply Hglobal; eauto.
      - intros [[-> ->]|[Hne (lf & j & b & Hr & Hk & Hv)]].
        + exists (leaf ln), slot, (block_of (PearsonHash cfg key) key value).
          rewrite (leaf_write_read_pslot st y p ln ln' pl pl' Hleaf Hpl).
          rewrite decide_True by done. simpl.
          rewrite list_lookup_insert_eq by (destruct Hok as (_ & _ & -> & _); done).
          rewrite slot_key_block_of, slot_val_block_of by done. auto.
        + exists lf, j, b.
          rewrite (leaf_write_read_pslot st y p ln ln' pl pl' Hleaf Hpl).
          split; [|auto].
          destruct (decide (lf = leaf ln)) as [->|]; [|done].
          unfold read_pslot in Hr. rewrite Hpl in Hr.
          change (slots pl !! j = Some (Some b)) in Hr. simpl.
          destruct (decide (j = slot)) as [->|Hj].
          * destruct Hne. rewrite <- Hk. apply Hold. done.
          * rewrite list_lookup_insert_ne by done. done.
    Qed.
End Fill.

Section Clear.
Variables (b : Block).
Hypothesis Hb : slots pl !! slot = Some (Some b).
Hypothesis Hglobal :
      forall lf j b', lf <> leaf ln -> read_pslot st lf j = Some (Some b') ->
                      slot_key b' <> slot_key b.

Lemma clear_at :
      let ln' := {| hashes := <[slot := 0]> (hashes ln);
                    keys := <[slot := EmptyString]> (keys ln);
                    leaf := leaf ln |} in
      let pl' := {| slots := <[slot := None]> (slots pl); next := next pl |} in
      Inv_gen cfg (leaf_write st y p ln' pl') G CV H /\
      forall k v, contents (leaf_write st y p ln' pl') k v <->
                  (k <> slot_key b /\ contents st k v).
    Proof.
      intros ln' pl'.
      assert (Hleaf : leaf ln' = leaf ln) by done.
      assert (Hyl : get_leafnode st y = Some ln) by (apply get_leafnode_Some; eauto).
      split; [eapply Inv_leaf_write; eauto; apply leaf_ok_pl_clear; done|].
      intros k v. split.
      - intros (lf & j & b' & Hr & Hk & Hv).
        rewrite (leaf_write_read_pslot st y p ln ln' pl pl' Hleaf Hpl) in Hr.
        destruct (decide (lf = leaf ln)) as [->|Hne].
        + simpl in Hr. destruct (decide (j = slot)) as [->|Hj].
          * rewrite list_lookup_insert_eq in Hr
              by (destruct Hok as (_ & _ & -> & _); done).
            discriminate.
          * rewrite list_lookup_insert_ne in Hr by done. split.
            { rewrite <- Hk. intros E. apply Hj.
              destruct Hok as (_ & _ & _ & _ & Hu). eapply Hu; eauto. }
            exists (leaf ln), j, b'. unfold read_pslot. rewrite Hpl. auto.
        + split; [|exists lf, j, b'; auto].
          rewrite <- Hk. eapply Hglobal; eauto.
      - intros [Hne (lf & j & b' & Hr & Hk & Hv)].
        exists lf, j, b'.
        rewrite (leaf_write_read_pslot st y p ln ln' pl pl' Hleaf Hpl).
        split; [|auto].
        destruct (decide (lf = leaf ln)) as [->|]; [|done].
        unfold read_pslot in Hr. rewrite Hpl in Hr.
        change (slots pl !! j = Some (Some b')) in Hr. simpl.
        destruct (decide (j = slot)) as [->|Hj].
        * destruct Hne. congruence.
        * rewrite list_lookup_insert_ne by done. done.
    Qed.
End Clear.
End FillAt.
Section FillRemove.
Variable cfg : Config.
Variables (st : MVTree) (G : ghost) (H : nat).
Hypothesis HI : Inv_gen cfg st G G H.

Lemma live_leaf_node y lo hi :
    G y = Some (O, lo, hi) ->
    exists p ln pl,
      nodes st !! y = Some {| parent := p; kind := LeafNode ln |} /\
      pleaves st !! leaf ln = Some pl /\ leaf_ok_pl cfg ln pl lo hi /\
      leaf_ok cfg st ln lo hi.
  Proof.
    intros HG. destruct (inv_leaf _ _ _ _ _ HI _ _ _ HG) as (ln & Hl & Hok).
    apply get_leafnode_Some in Hl as [p Hy].
    pose proof Hok as Hok'. apply leaf_ok_iff in Hok' as (pl & Hpl & Hokpl).
    eauto 10.
  Qed.

Lemma leaf_slot_block ln pl lo hi j :
    leaf_ok_pl cfg ln pl lo hi -> (j < LEAF_KEYS cfg)%nat ->
    default 0 (hashes ln !! j) <> 0 ->
    exists b, slots pl !! j = Some (Some b) /\ block_ok cfg b /\
              default 0 (hashes ln !! j) = PearsonHash cfg (slot_key b) /\
              default EmptyString (keys ln !! j) = slot_key b.
  Proof.
    intros Hok Hj Hnz. pose proof Hok as (_ & _ & Hls & Hs & _).
    specialize (Hs _ Hj).
    destruct (slots pl !! j) as [[b|]|] eqn:E.
    - destruct Hs as (Hb & Hh & Hk & _). exists b. rewrite Hh, Hk. simpl.
      rewrite (block_ok_hash _ _ Hb). auto.
    - destruct Hs as [Hh _]. rewrite Hh in Hnz. simpl in Hnz. congruence.
    - destruct Hs as [Hh _]. rewrite Hh in Hnz. simpl in Hnz. congruence.
  Qed.

Lemma leaf_slot_stored ln pl lo hi j b :
    leaf_ok_pl cfg ln pl lo hi -> (j < LEAF_KEYS cfg)%nat ->
    slots pl !! j = Some (Some b) ->
    default 0 (hashes ln !! j) = PearsonHash cfg (slot_key b) /\
    default EmptyString (keys ln !! j) = slot_key b.
  Proof.
    intros (_ & _ & _ & Hs & _) Hj Hb. specialize (Hs _ Hj). rewrite Hb in Hs.
    destruct Hs as (Hbok & -> & -> & _). simpl.
    rewrite (block_ok_hash _ _ Hbok). auto.
  Qed.

  (** [LeafFillSlotForKey] on the leaf a key is routed to: the key is
      written, or the leaf is full of other keys and nothing changes. *)
Lemma LeafFillSlotForKey_spec t y lo hi key value :
    tree_top st = Some t -> G y = Some (O, lo, hi) ->
    blt lo key -> ble key hi -> small key -> small value ->
    (exists st',
       LeafFillSlotForKey cfg true st y (PearsonHash cfg key) key value
       = Some (st', Filled) /\
       Inv_gen cfg st' G G H /\ tree_top st' = tree_top st /\
       forall k v, contents st' k v <->
                   (k = key /\ v = value) \/ (k <> key /\ contents st k v))
    \/
    (LeafFillSlotForKey cfg true st y (PearsonHash cfg key) key value
     = Some (st, NotFilled) /\
     exists p ln pl,
       nodes st !! y = Some {| parent := p; kind := LeafNode ln |} /\
       pleaves st !! leaf ln = Some pl /\ leaf_ok_pl cfg ln pl lo hi /\
       forall j, (j < LEAF_KEYS cfg)%nat ->
         exists b, slots pl !! j = Some (Some b) /\ slot_key b <> key).
  Proof.
    intros Ht HG Hlo Hhi Hsk Hsv.
    destruct (live_leaf_node _ _ _ HG) as (p & ln & pl & Hy & Hpl & Hok & _).
    assert (Hyl : get_leafnode st y = Some ln) by (apply get_leafnode_Some; eauto).
    unfold LeafFillSlotForKey. rewrite Hyl. simpl.
    destruct (fill_scan ln (PearsonHash cfg key) key (LEAF_KEYS cfg) None)
      as [le km] eqn:E.
    apply fill_scan_spec in E.
    assert (Hnokey : km = None -> forall j b, (j < LEAF_KEYS cfg)%nat ->
              slots pl !! j = Some (Some b) -> slot_key b <> key).
    { intros -> j b Hj Hb Hk. destruct E as [Hn _].
      destruct (leaf_slot_stored _ _ _ _ _ _ Hok Hj Hb) as [Hh Hkk].
      rewrite Hk in Hh.
      destruct (Hn _ Hj) as [E0|[E1|E2]]; try congruence.
      rewrite Hh in E0. destruct (PearsonHash_nonzero _ _ E0). }
    assert (Hlt : forall j b, slots pl !! j = Some (Some b) -> (j < LEAF_KEYS cfg)%nat).
    { intros j b Hb. destruct Hok as (_ & _ & <- & _).
      eapply lookup_lt_Some; eauto. }
    destruct km as [s|]; [|destruct le as [e|]].
    - destruct E as (Hs & Hnz & Hh & Hk).
      destruct (leaf_slot_block _ _ _ _ _ Hok Hs Hnz) as (b & Hb & Hbok & Hhb & Hkb).
      destruct (leaf_hash_lookup cfg ln pl lo hi Hok s Hs) as [h Hhs].
      rewrite Hhs in Hnz, Hh. simpl in Hnz, Hh.
      destruct (fill_at cfg st G G H HI t y p ln pl lo hi Ht HG Hy Hpl Hok s Hs
                        h key value) as (st' & -> & HI' & Ht' & Hc); auto.
      + intros _. exists b. split; [done|]. congruence.
      + intros j b' Hj Hb' Hk'. apply Hj.
        destruct Hok as (_ & _ & _ & _ & Hu). eapply Hu; eauto. congruence.
      + intros lf j b' Hne Hr Hk'. apply Hne.
        eapply (routed_location cfg st G H HI key y lo hi ln); eauto.
      + left. exists st'. simpl. auto.
    - destruct E as [_ [[He He0]|[=]]].
      destruct (leaf_hash_lookup cfg ln pl lo hi Hok e He) as [h Hhe].
      rewrite Hhe in He0. simpl in He0. subst h.
      destruct (fill_at cfg st G G H HI t y p ln pl lo hi Ht HG Hy Hpl Hok e He
                        0 key value) as (st' & -> & HI' & Ht' & Hc); auto.
      + intros Hz. destruct Hz. reflexivity.
      + intros j b' _ Hb'. apply (Hnokey eq_refl j b'); [eapply Hlt; eauto|done].
      + intros lf j b' Hne Hr Hk'. apply Hne.
        eapply (routed_location cfg st G H HI key y lo hi ln); eauto.
      + left. exists st'. simpl. auto.
    - right. split; [done|]. exists p, ln, pl.
      split; [done|]. split; [done|]. split; [done|].
      intros j Hj. destruct E as [_ [_ Hfull]].
      destruct (leaf_slot_block _ _ _ _ _ Hok Hj (Hfull _ Hj)) as (b & Hb & _).
      exists b. split; [done|]. apply (Hnokey eq_refl j b); done.
  Qed.

Lemma Remove_spec key :
    exists st',
      Remove cfg st key = Some st' /\ Inv_gen cfg st' G G H /\
      tree_top st' = tree_top st /\
      forall k v, contents st' k v <-> (k <> key /\ contents st k v).
  Proof.
    unfold Remove, Remove_tx.
    pose proof (LeafSearch_spec cfg st G H HI key) as Hs.
    destruct (tree_top st) as [t|] eqn:Et.
    - destruct Hs as (y & lo & hi & Hs & HG & Hlo & Hhi). rewrite Hs.
      destruct (live_leaf_node _ _ _ HG) as (p & ln & pl & Hy & Hpl & Hok & Hok1).
      assert (Hyl : get_leafnode st y = Some ln) by (apply get_leafnode_Some; eauto).
      rewrite Hyl. simpl.
      destruct (scan_down _ _) as [slot|] eqn:Esc.
      + destruct (scan_down_Some _ _ _ Esc) as (Hlt & Hm & _).
        destruct (slot_matches_inv cfg st ln lo hi pl slot key Hok1 Hpl Hlt Hm)
          as (b & Hb & Hk & _).
        unfold update_leafnode. rewrite Hy. simpl.
        unfold exec_tx, read_pslot, update_pslot. simpl. rewrite Hpl. simpl.
        rewrite Hb. simpl.
        destruct (clear_at cfg st G G H HI t y p ln pl lo hi Et HG Hy Hpl Hok slot Hlt b Hb)
          as [HI' Hc].
        { intros lf j b' Hne Hr E. apply Hne.
          destruct (location_unique cfg st G H HI lf j b' (leaf ln) slot b); auto.
          unfold read_pslot. rewrite Hpl. done. }
        eexists. split; [reflexivity|]. split; [exact HI'|]. split; [done|].
        intros k v. rewrite <- Hk. apply Hc.
      + exists st. simpl. split; [done|]. split; [done|]. split; [done|].
        intros k v. split; [|tauto]. intros Hc. split; [|done]. intros ->.
        destruct (search_stored cfg st G H HI _ _ Hc)
          as (y' & ln' & slot & b & Hs' & Hl' & Hsc' & _).
        assert (y' = y) as -> by congruence.
        assert (ln' = ln) as -> by congruence. congruence.
    - rewrite Hs. exists st. simpl. split; [done|]. split; [done|]. split; [done|].
      intros k v. split; [|tauto]. intros Hc. split; [|done]. intros ->.
      destruct (top_of_contents cfg st G H HI _ _ Hc Et).
  Qed.
End FillRemove.
(** ** Obtaining a leaf, and the first Put *)

Lemma chain_ok_lookup_lt cfg st i pl :
  chain_ok cfg st -> pleaves st !! i = Some pl -> (i < length (pleaves st))%nat.
Proof. intros _ Hl. eapply lookup_lt_Some; eauto. Qed.

Lemma obtain_leaf_spec cfg st G CV H st1 lf :
  Inv_gen cfg st G CV H -> obtain_leaf cfg st = (st1, lf) ->
  nodes st1 = nodes st /\ tree_top st1 = tree_top st /\
  (exists nx, pleaves st1 !! lf
              = Some {| slots := replicate (LEAF_KEYS cfg) None; next := nx |}) /\
  ~ owned st G lf /\
  (forall i, i <> lf -> pleaves st1 !! i = pleaves st !! i) /\
  chain_ok cfg st1 /\
  NoDup (leaves_prealloc st1) /\
  (forall lf', lf' ∈ leaves_prealloc st1 -> lf' <> lf /\ lf' ∈ leaves_prealloc st).
Proof.
  intros HI. unfold obtain_leaf.
  destruct (inv_prealloc _ _ _ _ _ HI) as [Hnd Hpre].
  destruct (leaves_prealloc st) as [|l rest] eqn:Epre.
  - intros [= <- <-]. simpl.
    split; [done|]. split; [done|]. split.
    { eexists. rewrite lookup_app_r by lia. rewrite Nat.sub_diag. reflexivity. }
    split.
    { intros (x & ln & lo & hi & HG & Hl & E).
      destruct (inv_leaf _ _ _ _ _ HI _ _ _ HG) as (ln' & Hl' & Hok).
      assert (ln' = ln) as -> by congruence.
      destruct Hok as (_ & _ & pl & Hpl & _).
      apply lookup_lt_Some in Hpl. lia. }
    split.
    { intros i Hi. destruct (decide (i < length (pleaves st))%nat).
      - rewrite lookup_app_l by done. done.
      - rewrite !lookup_ge_None_2; [done|lia|rewrite length_app; simpl; lia]. }
    split.
    { destruct (inv_chain _ _ _ _ _ HI) as [Hh Hc]. split; simpl.
      - rewrite length_app. simpl. rewrite Nat.add_1_r. reflexivity.
      - intros i pl Hl. destruct (decide (i < length (pleaves st))%nat).
        + rewrite lookup_app_l in Hl by done. apply Hc, Hl.
        + assert (i = length (pleaves st)) as ->.
          { apply lookup_lt_Some in Hl. rewrite length_app in Hl. simpl in Hl. lia. }
          rewrite lookup_app_r in Hl by lia. rewrite Nat.sub_diag in Hl.
          injection Hl as <-. simpl. rewrite length_replicate. split; [|done].
          rewrite Hh. reflexivity. }
    split; [constructor|]. intros lf' Hin. inversion Hin.
  - intros [= <- <-]. simpl.
    apply NoDup_cons in Hnd as [Hnin Hnd].
    destruct (Hpre l) as [(pl & Hpl & He) Hno]; [left|].
    split; [done|]. split; [done|]. split.
    { exists (next pl). rewrite Hpl. destruct pl; simpl in *. congruence. }
    split; [done|]. split; [done|]. split.
    { destruct (inv_chain _ _ _ _ _ HI) as [Hh Hc]. split; simpl; auto. }
    split; [done|]. intros lf' Hin. split; [|right; done].
    intros ->. done.
Qed.

Lemma owned_nodes_eq st st' G lf :
  nodes st' = nodes st -> owned st' G lf <-> owned st G lf.
Proof. unfold owned, get_leafnode. intros ->. done. Qed.

Lemma new_leaf_ok_pl cfg lf nx lo hi :
  leaf_ok_pl cfg (new_MVLeafNode cfg lf)
             {| slots := replicate (LEAF_KEYS cfg) None; next := nx |} lo hi.
Proof.
  unfold leaf_ok_pl, new_MVLeafNode. simpl. rewrite !length_replicate.
  repeat (split; [done|]). split.
  - intros slot Hs. rewrite !lookup_replicate_2 by done. done.
  - intros s1 s2 b1 b2 H1. apply lookup_replicate in H1 as [? _]. discriminate.
Qed.

Section FirstLeaf.
Variable cfg : Config.
Variables (st st1 : MVTree) (G : ghost) (H : nat) (lf : nat).
Hypothesis HI : Inv_gen cfg st G G H.
Hypothesis Ht : tree_top st = None.
Hypothesis Hob : obtain_leaf cfg st = (st1, lf).

Let new := length (nodes st).
Let E := set_tree_top
             (push_node st1 {| parent := None;
                                kind := LeafNode (new_MVLeafNode cfg lf) |})
             (Some new).
Let G1 : ghost := fun x => if decide (x = new) then Some (O, None, None) else None.

Lemma empty_tree_no_contents k v : ~ contents st k v.
  Proof. intros Hc. destruct (top_of_contents cfg st G H HI _ _ Hc Ht). Qed.

Lemma empty_tree_pool_empty i pl :
    pleaves st !! i = Some pl -> slots pl = replicate (LEAF_KEYS cfg) None.
  Proof.
    intros Hl. destruct (inv_owned _ _ _ _ _ HI _ _ Hl) as [Ho|]; [|done].
    destruct Ho as (x & ? & ? & ? & HG & _).
    pose proof (inv_top _ _ _ _ _ HI) as Htop. rewrite Ht in Htop.
    rewrite Htop in HG. discriminate.
  Qed.

Lemma first_leaf_node :
    nodes E !! new = Some {| parent := None;
                             kind := LeafNode (new_MVLeafNode cfg lf) |}.
  Proof.
    destruct (obtain_leaf_spec _ _ _ _ _ _ _ HI Hob) as (Hn & _).
    unfold E, push_node, set_tree_top, set_nodes. simpl. rewrite Hn.
    rewrite lookup_app_r by (unfold new; lia).
    unfold new. rewrite Nat.sub_diag. reflexivity.
  Qed.

Lemma first_leaf_get_leafnode x ln :
    get_leafnode E x = Some ln -> x = new /\ ln = new_MVLeafNode cfg lf
    \/ get_leafnode st x = Some ln.
  Proof.
    destruct (obtain_leaf_spec _ _ _ _ _ _ _ HI Hob) as (Hn & _).
    unfold get_leafnode, E, push_node, set_tree_top, set_nodes. simpl. rewrite Hn.
    destruct (decide (x < length (nodes st))%nat).
    - rewrite lookup_app_l by done. auto.
    - destruct (decide (x = new)) as [->|Hne].
      + rewrite lookup_app_r by (unfold new; lia). unfold new.
        rewrite Nat.sub_diag. simpl. intros [= <-]. auto.
      + rewrite lookup_ge_None_2; [discriminate|].
        rewrite length_app. simpl. unfold new in Hne. lia.
  Qed.

Lemma first_leaf_owned l : owned E G1 l <-> l = lf.
  Proof.
    split.
    - intros (x & ln & lo & hi & HG & Hl & <-). unfold G1 in HG.
      destruct (decide (x = new)) as [->|]; [|discriminate].
      unfold get_leafnode in Hl. rewrite first_leaf_node in Hl. injection Hl as <-.
      reflexivity.
    - intros ->. exists new, (new_MVLeafNode cfg lf), None, None.
      unfold G1. rewrite decide_True by done. split; [done|].
      unfold get_leafnode. rewrite first_leaf_node. done.
  Qed.

Lemma Inv_first_leaf : Inv_gen cfg E G1 G1 O.
  Proof.
    destruct (obtain_leaf_spec _ _ _ _ _ _ _ HI Hob)
      as (Hn & Htt & [nx Hlf] & Hno & Hother & Hchain & Hnd & Hpre).
    assert (Hlen : length (nodes E) = S new).
    { unfold E, push_node, set_tree_top, set_nodes. simpl.
      rewrite length_app, Hn. simpl. unfold new. lia. }
    assert (HplE : pleaves E = pleaves st1) by done.
    constructor.
    - change (tree_top E) with (Some new). unfold G1.
      rewrite decide_True by done. split; [done|]. split.
      + unfold parent_of. rewrite first_leaf_node. done.
      + rewrite Hlen. lia.
    - intros x d lo hi. unfold G1. destruct (decide (x = new)) as [->|]; [|discriminate].
      intros [= <- <- <-]. rewrite Hlen. lia.
    - intros x d lo hi. unfold G1. destruct (decide (x = new)); discriminate.
    - intros x lo hi. unfold G1. destruct (decide (x = new)) as [->|]; [|discriminate].
      intros [= <- <-]. exists (new_MVLeafNode cfg lf). split.
      + unfold get_leafnode. rewrite first_leaf_node. done.
      + apply leaf_ok_iff. eexists. split; [rewrite HplE; exact Hlf|].
        apply new_leaf_ok_pl.
    - intros x d lo hi. unfold G1. destruct (decide (x = new)) as [->|]; [|discriminate].
      intros _ Hne. destruct Hne. reflexivity.
    - intros x y lnx lny lox hix loy hiy. unfold G1.
      destruct (decide (x = new)) as [->|]; [|discriminate].
      destruct (decide (y = new)) as [->|]; [|discriminate]. done.
    - split; [exact Hnd|]. intros l Hin. destruct (Hpre _ Hin) as [Hne Hin'].
      rewrite first_leaf_owned. split; [|done].
      destruct (inv_prealloc _ _ _ _ _ HI) as [_ Hp].
      destruct (Hp _ Hin') as [(pl & Hpl & He) _].
      exists pl. rewrite HplE, Hother by done. done.
    - intros l pl. rewrite HplE, first_leaf_owned.
      destruct (decide (l = lf)) as [->|Hne]; [auto|].
      rewrite Hother by done. intros Hl. right.
      eapply empty_tree_pool_empty; eauto.
    - destruct Hchain as [Hh Hc]. split; [exact Hh|]. intros i pl. rewrite HplE.
      apply Hc.
    - exact (inv_ndebug _ _ _ _ _ HI).
  Qed.

Lemma first_leaf_no_contents k v : ~ contents E k v.
  Proof.
    destruct (obtain_leaf_spec _ _ _ _ _ _ _ HI Hob)
      as (Hn & Htt & [nx Hlf] & Hno & Hother & Hchain & Hnd & Hpre).
    intros (l & slot & b & Hr & _). unfold read_pslot in Hr.
    change (pleaves E) with (pleaves st1) in Hr.
    destruct (decide (l = lf)) as [->|Hne].
    - rewrite Hlf in Hr. simpl in Hr.
      apply lookup_replicate in Hr as [? _]. discriminate.
    - rewrite Hother in Hr by done.
      destruct (pleaves st !! l) as [pl|] eqn:Epl; [|discriminate].
      simpl in Hr. rewrite (empty_tree_pool_empty _ _ Epl) in Hr.
      apply lookup_replicate in Hr as [? _]. discriminate.
  Qed.
End FirstLeaf.
Lemma Put_empty cfg st G H key value :
  cfg_ok cfg -> Inv_gen cfg st G G H -> tree_top st = None ->
  small key -> small value ->
  exists st' G' H',
    Put cfg st key value = Some st' /\ Inv_gen cfg st' G' G' H' /\
    forall k v, contents st' k v <->
                (k = key /\ v = value) \/ (k <> key /\ contents st k v).
Proof.
  intros (HL & _) HI Ht Hsk Hsv.
  destruct (obtain_leaf cfg st) as [st1 lf] eqn:Hob.
  pose proof (Inv_first_leaf cfg st st1 G H lf HI Ht Hob) as HIE.
  pose proof (first_leaf_node cfg st st1 G H lf HI Hob) as HnE.
  pose proof (first_leaf_no_contents cfg st st1 G H lf HI Ht Hob) as HcE.
  destruct (obtain_leaf_spec _ _ _ _ _ _ _ HI Hob)
    as (Hn & Htt & [nx Hlf] & Hno & Hother & Hchain & Hnd & Hpre).
  set (new := length (nodes st)) in *.
  set (node := {| parent := None; kind := LeafNode (new_MVLeafNode cfg lf) |}) in *.
  set (E := set_tree_top (push_node st1 node) (Some new)) in *.
  set (G1 := fun x => if decide (x = new) then Some (O, @None string, @None string)
                      else None) in *.
  set (pl0 := {| slots := replicate (LEAF_KEYS cfg) (@None Block); next := nx |}) in *.
  assert (Hh0 : hashes (new_MVLeafNode cfg lf) !! O = Some 0)
    by (simpl; apply lookup_replicate_2; lia).
  assert (Hs0 : slots pl0 !! O = Some None)
    by (simpl; apply lookup_replicate_2; lia).
  destruct (fill_at cfg E G1 G1 O HIE new new None (new_MVLeafNode cfg lf) pl0
                    None None eq_refl) with (slot := O) (h := 0) (key := key)
                                            (value := value)
    as (st' & Hfill & HI' & Ht' & Hc); simpl; auto.
  - unfold G1. rewrite decide_True; done.
  - apply new_leaf_ok_pl.
  - intros Hz. destruct Hz. reflexivity.
  - intros j b _ Hb. apply lookup_replicate in Hb as [? _]. discriminate.
  - intros l j b _ Hr. destruct (HcE (slot_key b) (slot_val b)).
    exists l, j, b. auto.
  - exists st', G1, O. split; [|split; [exact HI'|]].
    + unfold Put, Put_tx, LeafSearch. rewrite Ht, Hob. fold new. fold node.
      rewrite (LeafFillSpecificSlot_eq E new None (new_MVLeafNode cfg lf) 0 pl0 O None)
        in Hfill; auto.
      injection Hfill as <-.
      rewrite (LeafFillSpecificSlot_eq (push_node st1 node) new None
                 (new_MVLeafNode cfg lf) 0 pl0 O None); auto.
    + intros k v. rewrite Hc. split.
      * intros [?|[? Hcc]]; auto. destruct (HcE _ _ Hcc).
      * intros [?|[? Hcc]]; auto.
        destruct (empty_tree_no_contents cfg st G H HI Ht _ _ Hcc).
Qed.
(** ** The array loops of InnerUpdateAfterSplit *)

Lemma shift_lookup {A} (mv : A -> A) n : forall (arr : list A) start,
  (start + n < length arr)%nat ->
  let arr' :=
    fold_left (fun a i => match a !! i with
                          | Some v => <[i := mv v]> (<[(i + 1)%nat := v]> a)
                          | None => a
                          end) (rev (seq start n)) arr in
  length arr' = length arr /\
  forall j, j <> start ->
    arr' !! j = if decide (start < j <= start + n)%nat then arr !! (j - 1)%nat
                else arr !! j.
Proof.
  induction n as [|n IH]; intros arr start Hlen; cbv zeta.
  - simpl. split; [done|]. intros j Hj. rewrite decide_False by lia. done.
  - rewrite seq_S, rev_app_distr. simpl.
    destruct (lookup_lt_is_Some_2 arr (start + n)%nat ltac:(lia)) as [v Hv].
    rewrite Hv.
    set (a1 := <[(start + n)%nat := mv v]> (<[(start + n + 1)%nat := v]> arr)).
    assert (Hlen1 : length a1 = length arr) by (unfold a1; rewrite !length_insert; done).
    destruct (IH a1 start ltac:(lia)) as [Hl Hj]. split; [lia|].
    intros j Hne. rewrite (Hj j Hne).
    destruct (decide (start < j <= start + n)%nat) as [H1|H1].
    + rewrite decide_True by lia. unfold a1.
      rewrite !list_lookup_insert_ne by lia. done.
    + destruct (decide (j = start + n + 1)%nat) as [->|H2].
      * rewrite decide_True by lia. unfold a1.
        rewrite list_lookup_insert_ne by lia.
        rewrite list_lookup_insert_eq by lia.
        replace (start + n + 1 - 1)%nat with (start + n)%nat by lia. done.
      * rewrite decide_False by lia. unfold a1.
        rewrite !list_lookup_insert_ne by lia. done.
Qed.

Lemma split_lookup {A} (mv : A -> A) U cnt : forall (ia na : list A),
  (U + cnt <= length ia)%nat -> (cnt <= length na)%nat ->
  let r := fold_left
             (fun '(ia, na) i =>
                match ia !! i with
                | Some v => (<[i := mv v]> ia, <[(i - U)%nat := v]> na)
                | None => (ia, na)
                end) (seq U cnt) (ia, na) in
  length (fst r) = length ia /\ length (snd r) = length na /\
  (forall j, (j < U)%nat -> fst r !! j = ia !! j) /\
  (forall j, (U + cnt <= j)%nat -> fst r !! j = ia !! j) /\
  (forall j, (j < cnt)%nat -> snd r !! j = ia !! (U + j)%nat) /\
  (forall j, (cnt <= j)%nat -> snd r !! j = na !! j).
Proof.
  induction cnt as [|cnt IH]; intros ia na Hi Hn; cbv zeta.
  - simpl. repeat split; auto. intros j Hj. lia.
  - rewrite seq_S, fold_left_app. simpl.
    destruct (IH ia na ltac:(lia) ltac:(lia)) as (L1 & L2 & P1 & P2 & P3 & P4).
    destruct (fold_left _ (seq U cnt) (ia, na)) as [ia' na']. simpl in *.
    destruct (lookup_lt_is_Some_2 ia' (U + cnt)%nat ltac:(lia)) as [v Hv].
    rewrite Hv. simpl. rewrite !length_insert.
    split; [done|]. split; [done|]. split.
    { intros j Hj. rewrite list_lookup_insert_ne by lia. auto. }
    split.
    { intros j Hj. rewrite list_lookup_insert_ne by lia. apply P2. lia. }
    split.
    { intros j Hj. replace (U + cnt - U)%nat with cnt by lia.
      destruct (decide (j = cnt)) as [->|Hne].
      - rewrite list_lookup_insert_eq by lia. rewrite <- Hv. apply P2. lia.
      - rewrite list_lookup_insert_ne by lia. apply P3. lia. }
    intros j Hj. replace (U + cnt - U)%nat with cnt by lia.
    rewrite list_lookup_insert_ne by lia. apply P4. lia.
Qed.

Lemma insert_scan_aux inner s n : forall idx,
  (idx + n = keycount inner)%nat ->
  (forall j, (j < idx)%nat -> kle (sep inner j) s) ->
  let r := insert_scan s (ikeys inner) idx n in
  (idx <= r <= keycount inner)%nat /\
  (forall j, (j < r)%nat -> kle (sep inner j) s) /\
  ((r < keycount inner)%nat -> klt s (sep inner r)).
Proof.
  induction n as [|n IH]; intros idx Hn Hle; simpl.
  - repeat split; auto; lia.
  - fold (sep inner idx).
    destruct (compare_le0 (sep inner idx) s) eqn:E.
    + apply compare_le0_spec in E.
      destruct (IH (S idx)) as (H1 & H2 & H3); [lia| |].
      * intros j Hj. destruct (decide (j = idx)) as [->|]; auto. apply Hle. lia.
      * repeat split; auto; lia.
    + apply compare_le0_false in E. repeat split; auto; lia.
Qed.

(** The position found for the split key of child [i0]. *)
Lemma insert_scan_child cfg inner LO HI s i0 :
  inner_ok cfg inner LO HI -> (i0 <= keycount inner)%nat ->
  blt (child_lo inner LO i0) s -> bslt s (child_hi inner HI i0) ->
  insert_scan s (ikeys inner) 0 (keycount inner) = i0.
Proof.
  intros Hok Hi Hlo Hhi.
  destruct (insert_scan_aux inner s (keycount inner) 0) as (H1 & H2 & H3);
    [lia|intros; lia|].
  set (r := insert_scan _ _ _ _) in *.
  destruct (Nat.lt_total r i0) as [Hlt|[->|Hlt]]; [exfalso| done |exfalso].
  - destruct i0 as [|j]; [lia|]. simpl in Hlo.
    assert (kle (sep inner r) (sep inner j)) by (eapply sep_sorted_le; eauto; lia).
    specialize (H3 ltac:(lia)).
    apply (klt_irrefl s). eauto with korder.
  - unfold child_hi in Hhi. destruct (Nat.ltb_spec i0 (keycount inner)); [|lia].
    simpl in Hhi. specialize (H2 _ Hlt).
    apply (klt_irrefl s). eauto with korder.
Qed.
Lemma inner_insert_spec cfg inner new s LO HI i0 :
  inner_ok cfg inner LO HI -> (INNER_KEYS cfg < 255)%nat ->
  (i0 <= keycount inner)%nat ->
  blt (child_lo inner LO i0) s -> bslt s (child_hi inner HI i0) ->
  let inner1 := inner_insert cfg inner new s in
  keycount inner1 = S (keycount inner) /\
  length (ikeys inner1) = (INNER_KEYS cfg + 1)%nat /\
  length (children inner1) = (INNER_KEYS cfg + 2)%nat /\
  (forall j, (j <= keycount inner)%nat ->
     sep inner1 j = if decide (j < i0)%nat then sep inner j
                    else if decide (j = i0) then s else sep inner (j - 1)) /\
  (forall j, (j <= S (keycount inner))%nat ->
     children inner1 !! j =
       if decide (j <= i0)%nat then children inner !! j
       else if decide (j = S i0) then Some (Some new)
            else children inner !! (j - 1)%nat).
Proof.
  intros Hok H255 Hi Hlo Hhi inner1.
  pose proof Hok as ((Hk1 & Hk2) & Hlk & Hlc & _).
  unfold inner1, inner_insert.
  rewrite (insert_scan_child cfg inner LO HI s i0) by done.
  set (kc := keycount inner) in *.
  destruct (shift_lookup (moved_from cfg) (kc - i0) (ikeys inner) i0 ltac:(lia))
    as [HL1 HK].
  destruct (shift_lookup (fun _ => None) (kc - i0) (children inner) (i0 + 1) ltac:(lia))
    as [HL2 HC].
  cbn [keycount ikeys children]. split.
  { rewrite Nat.mod_small by lia. lia. }
  split.
  { rewrite length_insert. unfold move_key. rewrite HL1. done. }
  split.
  { rewrite length_insert. unfold move_child. rewrite HL2. done. }
  split.
  - intros j Hj. unfold sep at 1. cbn [ikeys].
    destruct (decide (j = i0)) as [->|Hne].
    + rewrite list_lookup_insert_eq by (unfold move_key; rewrite HL1; lia).
      rewrite decide_False by lia. done.
    + rewrite list_lookup_insert_ne by done. unfold move_key.
      rewrite (HK j Hne).
      destruct (decide (j < i0)%nat).
      * rewrite decide_False by lia. done.
      * rewrite decide_True by lia. done.
  - intros j Hj.
    destruct (decide (j = S i0)) as [->|Hne].
    + rewrite decide_False by lia.
      replace (i0 + 1)%nat with (S i0) by lia.
      rewrite list_lookup_insert_eq; [done|].
      unfold move_child. replace (S i0) with (i0 + 1)%nat by lia. rewrite HL2. lia.
    + rewrite list_lookup_insert_ne by lia. unfold move_child.
      rewrite (HC j ltac:(lia)).
      destruct (decide (j <= i0)%nat).
      * rewrite decide_False by lia. done.
      * rewrite decide_True by lia. done.
Qed.
(** ** Changing the routing nodes under the invariant *)

Lemma leaf_part_frame cfg st st' G G' CV H :
  Inv_gen cfg st G CV H ->
  pleaves st' = pleaves st -> leaves_prealloc st' = leaves_prealloc st ->
  head st' = head st ->
  (forall x, get_leafnode st' x = get_leafnode st x) ->
  (forall x lo hi, G' x = Some (O, lo, hi) <-> G x = Some (O, lo, hi)) ->
  (forall x lo hi, G' x = Some (O, lo, hi) ->
     exists ln, get_leafnode st' x = Some ln /\ leaf_ok cfg st' ln lo hi) /\
  (forall x y lnx lny lox hix loy hiy,
     G' x = Some (O, lox, hix) -> G' y = Some (O, loy, hiy) ->
     get_leafnode st' x = Some lnx -> get_leafnode st' y = Some lny ->
     leaf lnx = leaf lny -> x = y) /\
  (NoDup (leaves_prealloc st') /\
   forall lf, lf ∈ leaves_prealloc st' ->
     leaf_all_empty cfg st' lf /\ ~ owned st' G' lf) /\
  (forall lf pl, pleaves st' !! lf = Some pl ->
     owned st' G' lf \/ slots pl = replicate (LEAF_KEYS cfg) None) /\
  chain_ok cfg st' /\ NDEBUG cfg = true.
Proof.
  intros HI Hpl Hpre Hhd Hgl HG0.
  assert (Hown : forall lf, owned st' G' lf <-> owned st G lf).
  { intros lf. unfold owned. split; intros (x & ln & lo & hi & HG & Hl & E);
      exists x, ln, lo, hi; rewrite ?Hgl, ?HG0 in *; auto. }
  split; [|split; [|split; [|split; [|split]]]].
  - intros x lo hi HG. apply HG0 in HG.
    destruct (inv_leaf _ _ _ _ _ HI _ _ _ HG) as (ln & Hl & Hok).
    exists ln. rewrite Hgl. split; [done|].
    eapply leaf_ok_pool_eq; [|exact Hok]. rewrite Hpl. done.
  - intros x y lnx lny lox hix loy hiy HGx HGy. rewrite !Hgl.
    apply HG0 in HGx, HGy. eapply (inv_leaf_distinct _ _ _ _ _ HI); eauto.
  - rewrite Hpre. destruct (inv_prealloc _ _ _ _ _ HI) as [Hnd Hp].
    split; [done|]. intros lf Hin. destruct (Hp _ Hin) as [He Hno].
    rewrite Hown. split; [|done]. unfold leaf_all_empty. rewrite Hpl. done.
  - intros lf pl. rewrite Hpl, Hown. apply (inv_owned _ _ _ _ _ HI).
  - destruct (inv_chain _ _ _ _ _ HI) as [Hh Hc].
    unfold chain_ok. rewrite Hhd, Hpl. auto.
  - exact (inv_ndebug _ _ _ _ _ HI).
Qed.

Lemma update_parent_Some st c n q :
  nodes st !! c = Some n ->
  update_parent st c q = Some (set_nodes st (<[c := set_parent n q]> (nodes st))).
Proof. intros Hn. unfold update_parent. rewrite Hn. reflexivity. Qed.

Lemma update_inner_Some st p pn inner :
  nodes st !! p = Some pn ->
  update_inner st p inner
  = Some (set_nodes st (<[p := {| parent := parent pn; kind := InnerNode inner |}]>
                          (nodes st))).
Proof. intros Hn. unfold update_inner. rewrite Hn. reflexivity. Qed.

(** The three readers in terms of the node stored at an index. *)
Lemma get_leafnode_node st x :
  get_leafnode st x = match nodes st !! x with
                      | Some n => match kind n with
                                  | LeafNode ln => Some ln
                                  | InnerNode _ => None
                                  end
                      | None => None
                      end.
Proof. unfold get_leafnode. destruct (nodes st !! x) as [[? [?|?]]|]; done. Qed.

Lemma get_inner_node st x :
  get_inner st x = match nodes st !! x with
                   | Some n => match kind n with
                               | LeafNode _ => None
                               | InnerNode inner => Some inner
                               end
                   | None => None
                   end.
Proof. unfold get_inner. destruct (nodes st !! x) as [[? [?|?]]|]; done. Qed.

Lemma parent_of_node st x :
  parent_of st x = match nodes st !! x with
                   | Some n => parent n
                   | None => None
                   end.
Proof. unfold parent_of. destruct (nodes st !! x); done. Qed.

(** Re-parenting the children moved to a new inner node. *)
Lemma reparent_spec (nc : list (option nat)) U ni : forall idxs st0,
  (forall i, i ∈ idxs ->
     exists c, mjoin (nc !! (i - U)%nat) = Some c /\ (c < length (nodes st0))%nat) ->
  exists st1,
    for_each idxs (fun i st' => c ← mjoin (nc !! (i - U)%nat);
                                update_parent st' c (Some ni)) st0 = Some st1 /\
    tree_top st1 = tree_top st0 /\ leaves_prealloc st1 = leaves_prealloc st0 /\
    pleaves st1 = pleaves st0 /\ head st1 = head st0 /\
    length (nodes st1) = length (nodes st0) /\
    (forall x, (exists i, i ∈ idxs /\ mjoin (nc !! (i - U)%nat) = Some x) ->
       nodes st1 !! x = (fun n => set_parent n (Some ni)) <$> nodes st0 !! x) /\
    (forall x, (forall i, i ∈ idxs -> mjoin (nc !! (i - U)%nat) <> Some x) ->
       nodes st1 !! x = nodes st0 !! x).
Proof.
  induction idxs as [|i idxs IH]; intros st0 Hall; simpl.
  - exists st0. repeat split; auto. intros x (i & Hin & _). inversion Hin.
  - destruct (Hall i ltac:(left)) as (c & Hc & Hlt).
    rewrite Hc. simpl.
    destruct (lookup_lt_is_Some_2 _ _ Hlt) as [n Hn].
    rewrite (update_parent_Some _ _ _ _ Hn).
    set (st0' := set_nodes st0 _).
    destruct (IH st0') as (st1 & -> & Ht & Hp & Hpl & Hh & Hlen & Hin & Hout).
    { intros j Hj. destruct (Hall j ltac:(right; done)) as (c' & Hc' & Hlt').
      exists c'. split; [done|]. unfold st0'. simpl. rewrite length_insert. done. }
    exists st1. split; [done|]. repeat (split; [done|]).
    split; [rewrite Hlen; unfold st0'; simpl; rewrite length_insert; done|].
    split.
    + intros x (j & Hj & Hx).
      destruct (decide (Exists (fun k => mjoin (nc !! (k - U)%nat) = Some x) idxs))
        as [Hex|Hnex]; rewrite Exists_exists in *.
      * rewrite (Hin x Hex). unfold st0'. simpl.
        destruct (decide (x = c)) as [->|Hne].
        -- rewrite list_lookup_insert_eq by done. rewrite Hn. done.
        -- rewrite list_lookup_insert_ne by done. done.
      * rewrite (Hout x).
        -- apply elem_of_cons in Hj as [->|Hj]; [|destruct Hnex; eauto].
           assert (x = c) as -> by congruence.
           unfold st0'. simpl. rewrite list_lookup_insert_eq by done.
           rewrite Hn. done.
        -- intros k Hk Hkx. apply Hnex. eauto.
    + intros x Hx. rewrite (Hout x).
      * unfold st0'. simpl. rewrite list_lookup_insert_ne; [done|].
        intros ->. apply (Hx i); [left|done].
      * intros k Hk. apply Hx. right. done.
Qed.
Lemma Inv_gen_intro cfg st G CV H :
  match tree_top st with
  | Some t => CV t = Some (H, None, None) /\ parent_of st t = None /\
              (t < length (nodes st))%nat /\ (H < length (nodes st))%nat
  | None => forall x, G x = None
  end ->
  (forall x d lo hi, G x = Some (d, lo, hi) ->
     (x < length (nodes st))%nat /\ (d <= H)%nat) ->
  (forall x d lo hi, G x = Some (S d, lo, hi) ->
     exists inner, get_inner st x = Some inner /\ inner_ok cfg inner lo hi /\
       forall i, (i <= keycount inner)%nat ->
         exists c, children inner !! i = Some (Some c) /\
                   CV c = Some (d, child_lo inner lo i, child_hi inner hi i) /\
                   parent_of st c = Some x) ->
  (forall x d lo hi, CV x = Some (d, lo, hi) -> tree_top st <> Some x ->
     exists p inner i plo phi,
       parent_of st x = Some p /\ G p = Some (S d, plo, phi) /\
       get_inner st p = Some inner /\ (i <= keycount inner)%nat /\
       children inner !! i = Some (Some x)) ->
  ((forall x lo hi, G x = Some (O, lo, hi) ->
      exists ln, get_leafnode st x = Some ln /\ leaf_ok cfg st ln lo hi) /\
   (forall x y lnx lny lox hix loy hiy,
      G x = Some (O, lox, hix) -> G y = Some (O, loy, hiy) ->
      get_leafnode st x = Some lnx -> get_leafnode st y = Some lny ->
      leaf lnx = leaf lny -> x = y) /\
   (NoDup (leaves_prealloc st) /\
    forall lf, lf ∈ leaves_prealloc st ->
      leaf_all_empty cfg st lf /\ ~ owned st G lf) /\
   (forall lf pl, pleaves st !! lf = Some pl ->
      owned st G lf \/ slots pl = replicate (LEAF_KEYS cfg) None) /\
   chain_ok cfg st /\ NDEBUG cfg = true) ->
  Inv_gen cfg st G CV H.
Proof. intros ? ? ? ? (? & ? & ? & ? & ? & ?). constructor; auto. Qed.

Lemma routing_only_trans st st' st'' G G' G'' :
  routing_only st st' G G' -> routing_only st' st'' G' G'' ->
  routing_only st st'' G G''.
Proof.
  intros (A1 & A2 & A3 & A4 & A5 & A6) (B1 & B2 & B3 & B4 & B5 & B6).
  split; [congruence|]. split; [congruence|]. split; [congruence|].
  split; [intros x; rewrite B4; apply A4|]. split; [|lia].
  intros x l h. rewrite B5. apply A5.
Qed.

Section Pending.
Variable cfg : Config.
Hypothesis Hcfg : cfg_ok cfg.
Variables (st : MVTree) (G CV : ghost) (H : nat).
Hypothesis HI : Inv_gen cfg st G CV H.
Variables (n new : nat) (s : string) (d : nat) (lo hi : bound).
Hypothesis HP : pending st G CV n new s d lo hi.

Lemma pending_CV_n : CV n = Some (d, lo, hi).
  Proof. pose proof HP as (_ & _ & HCV & _). rewrite HCV, decide_True; done. Qed.

Lemma pending_CV_new : CV new = None.
  Proof.
    pose proof HP as (_ & _ & HCV & _ & _ & Hne & _).
    rewrite HCV, decide_False, decide_True; done.
  Qed.

Lemma pending_CV_other x : x <> n -> x <> new -> CV x = G x.
  Proof.
    intros H1 H2. pose proof HP as (_ & _ & HCV & _).
    rewrite HCV, !decide_False; done.
  Qed.

Lemma pending_CV_live x dx lx hx :
    CV x = Some (dx, lx, hx) -> x <> new /\ (x <> n -> G x = Some (dx, lx, hx)).
  Proof.
    intros Hx. split.
    - intros ->. rewrite pending_CV_new in Hx. discriminate.
    - intros Hn. rewrite <- pending_CV_other; auto.
      intros ->. rewrite pending_CV_new in Hx. discriminate.
  Qed.

Lemma pending_top : exists t, tree_top st = Some t.
  Proof.
    pose proof (inv_top _ _ _ _ _ HI) as Ht.
    destruct (tree_top st) as [t|]; eauto.
    pose proof HP as (HGn & _). rewrite Ht in HGn. discriminate.
  Qed.

Lemma pending_n_lt : (n < length (nodes st))%nat /\ (d <= H)%nat.
  Proof. pose proof HP as (HGn & _). apply (inv_valid _ _ _ _ _ HI _ _ _ _ HGn). Qed.

Lemma pending_new_lt : (new < length (nodes st))%nat.
  Proof. pose proof HP as (_ & HGnew & _). apply (inv_valid _ _ _ _ _ HI _ _ _ _ HGnew). Qed.

  (** Without a parent, [n] is the top. *)
Lemma pending_root :
    parent_of st n = None ->
    tree_top st = Some n /\ d = H /\ lo = None /\ hi = None.
  Proof.
    intros Hp. destruct pending_top as [t Ht].
    assert (t = n) as ->.
    { destruct (decide (t = n)) as [|Hne]; [done|]. exfalso.
      destruct (inv_parent _ _ _ _ _ HI _ _ _ _ pending_CV_n) as (p & ? & ? & ? & ? & Hpp & _).
      - rewrite Ht. congruence.
      - congruence. }
    split; [done|].
    pose proof (inv_top _ _ _ _ _ HI) as Htop. rewrite Ht in Htop.
    destruct Htop as (HCVt & _). rewrite pending_CV_n in HCVt.
    injection HCVt as -> -> ->. done.
  Qed.

  (** With a parent, [n] is one of its children. *)
Lemma pending_parent p :
    parent_of st n = Some p ->
    exists inner i LO HI,
      G p = Some (S d, LO, HI) /\ get_inner st p = Some inner /\
      inner_ok cfg inner LO HI /\ (i <= keycount inner)%nat /\
      children inner !! i = Some (Some n) /\
      lo = child_lo inner LO i /\ hi = child_hi inner HI i /\
      tree_top st <> Some n /\ p <> n /\ p <> new /\ CV p = G p /\
      (forall j, (j <= keycount inner)%nat ->
         exists c, children inner !! j = Some (Some c) /\
                   CV c = Some (d, child_lo inner LO j, child_hi inner HI j) /\
                   parent_of st c = Some p).
  Proof.
    intros Hp.
    assert (Hnt : tree_top st <> Some n).
    { intros Ht. pose proof (inv_top _ _ _ _ _ HI) as Htop. rewrite Ht in Htop.
      destruct Htop as (_ & Hpn & _). congruence. }
    destruct (inv_parent _ _ _ _ _ HI _ _ _ _ pending_CV_n Hnt)
      as (p' & inner & i & LO & HI' & Hp' & HGp & Hin & Hi & Hc).
    assert (p' = p) as -> by congruence.
    destruct (inv_inner _ _ _ _ _ HI _ _ _ _ HGp) as (inner' & Hin' & Hok & Hch).
    assert (inner' = inner) as -> by congruence.
    destruct (Hch _ Hi) as (c & Hc' & HCVc & _).
    assert (c = n) as -> by congruence.
    rewrite pending_CV_n in HCVc. injection HCVc as E1 E2.
    assert (p <> n).
    { intros ->. pose proof HP as (HGn & _). rewrite HGn in HGp.
      injection HGp as E. lia. }
    assert (p <> new).
    { intros ->. pose proof HP as (_ & HGnew & _). rewrite HGnew in HGp.
      injection HGp as E. lia. }
    exists inner, i, LO, HI'. repeat (split; [done|]).
    split; [apply pending_CV_other; done|]. exact Hch.
  Qed.
End Pending.
Section SplitRoot.
Variable cfg : Config.
Hypothesis Hcfg : cfg_ok cfg.
Variables (st : MVTree) (G CV : ghost) (H : nat).
Hypothesis HI : Inv_gen cfg st G CV H.
Variables (n new : nat) (s : string) (d : nat) (lo hi : bound).
Hypothesis HP : pending st G CV n new s d lo hi.
Hypothesis Hroot : parent_of st n = None.

Let top := length (nodes st).
Let G' : ghost := fun x => if decide (x = top) then Some (S H, None, None) else G x.

Lemma IUAS_root fuel :
    exists st',
      InnerUpdateAfterSplit cfg (S fuel) st n new s = Some st' /\
      Inv_gen cfg st' G' G' (S H) /\ routing_only st st' G G'.
  Proof.
    destruct (pending_root cfg st G CV H HI n new s d lo hi HP Hroot)
      as (Ht & Ed & El & Eh).
    pose proof HP as (HGn & HGnew & HCV & Hlo & Hhi & Hne & Hpar).
    rewrite Ed, El in HGn. rewrite Ed, Eh in HGnew.
    destruct (pending_n_lt cfg st G CV H HI n new s d lo hi HP) as [Hnlt _].
    pose proof (pending_new_lt cfg st G CV H HI n new s d lo hi HP) as Hnewlt.
    destruct (lookup_lt_is_Some_2 _ _ Hnlt) as [nn Hnn].
    destruct (lookup_lt_is_Some_2 _ _ Hnewlt) as [nnew Hnnew].
    assert (Hpnn : parent nn = None).
    { rewrite parent_of_node, Hnn in Hroot. done. }
    pose proof (inv_top _ _ _ _ _ HI) as Htop. rewrite Ht in Htop.
    destruct Htop as (_ & _ & _ & HHlt).
    destruct Hcfg as (HL & (HI2 & HI255) & HIe).
    set (topnode := {| parent := None;
                       kind := InnerNode
                         {| keycount := 1;
                            ikeys := <[0%nat := s]> (ikeys (new_MVInnerNode cfg));
                            children := <[1%nat := Some new]>
                                          (<[0%nat := tree_top st]>
                                             (children (new_MVInnerNode cfg))) |} |}).
    set (ns' := <[new := set_parent nnew (Some top)]>
                  (<[n := set_parent nn (Some top)]> (nodes st)) ++ [topnode]).
    exists (set_tree_top (set_nodes st ns') (Some top)).
    assert (Hlk : forall x, ns' !! x =
              if decide (x = top) then Some topnode
              else if decide (x = new) then Some (set_parent nnew (Some top))
              else if decide (x = n) then Some (set_parent nn (Some top))
              else nodes st !! x).
    { intros x. unfold ns'. destruct (decide (x = top)) as [->|Hx].
      - rewrite lookup_app_r by (rewrite !length_insert; unfold top; lia).
        rewrite !length_insert. unfold top. rewrite Nat.sub_diag. done.
      - destruct (decide (x < top)%nat).
        + rewrite lookup_app_l by (rewrite !length_insert; done).
          destruct (decide (x = new)) as [->|Hx2].
          * rewrite list_lookup_insert_eq by (rewrite length_insert; done). done.
          * rewrite list_lookup_insert_ne by done.
            destruct (decide (x = n)) as [->|Hx3].
            -- rewrite list_lookup_insert_eq by done. done.
            -- rewrite list_lookup_insert_ne by done. done.
        + rewrite lookup_ge_None_2
            by (rewrite length_app, !length_insert; simpl; unfold top in *; lia).
          rewrite !decide_False by (unfold top in *; lia).
          symmetry. apply lookup_ge_None_2. unfold top in *. lia. }
    assert (Hlen' : length ns' = S top).
    { unfold ns'. rewrite length_app, !length_insert. simpl. unfold top. lia. }
    assert (Hgl : forall x, get_leafnode (set_tree_top (set_nodes st ns') (Some top)) x
                            = get_leafnode st x).
    { intros x. rewrite !get_leafnode_node. simpl. rewrite Hlk.
      destruct (decide (x = top)) as [->|]; simpl.
      - rewrite (lookup_ge_None_2 (nodes st) top) by (unfold top; lia). done.
      - destruct (decide (x = new)) as [->|]; [rewrite Hnnew; done|].
        destruct (decide (x = n)) as [->|]; [rewrite Hnn; done|]. done. }
    assert (Hgi : forall x, x <> top ->
              get_inner (set_tree_top (set_nodes st ns') (Some top)) x = get_inner st x).
    { intros x Hx. rewrite !get_inner_node. simpl. rewrite Hlk.
      rewrite decide_False by done.
      destruct (decide (x = new)) as [->|]; [rewrite Hnnew; done|].
      destruct (decide (x = n)) as [->|]; [rewrite Hnn; done|]. done. }
    assert (Hpo : forall x, x <> top -> x <> new -> x <> n ->
              parent_of (set_tree_top (set_nodes st ns') (Some top)) x = parent_of st x).
    { intros x H1 H2 H3. rewrite !parent_of_node. simpl. rewrite Hlk.
      rewrite !decide_False by done. done. }
    assert (HG0 : forall x l h, G' x = Some (O, l, h) <-> G x = Some (O, l, h)).
    { intros x l h. unfold G'. destruct (decide (x = top)) as [->|]; [|done].
      split; [discriminate|]. intros HG.
      destruct (inv_valid _ _ _ _ _ HI _ _ _ _ HG). unfold top in *. lia. }
    assert (HRO : routing_only st (set_tree_top (set_nodes st ns') (Some top)) G G').
    { unfold routing_only. split_and!; try done.
      simpl. rewrite Hlen'. unfold top. lia. }
    split.
    { cbn [InnerUpdateAfterSplit]. rewrite Hnn. simpl. rewrite Hpnn.
      unfold debug_assert. rewrite (inv_ndebug _ _ _ _ _ HI). cbn [orb].
      rewrite (update_parent_Some _ _ _ _ Hnn). simpl.
      rewrite (update_parent_Some _ new nnew).
      2:{ simpl. rewrite list_lookup_insert_ne by done. done. }
      unfold debug_assert_invariants. rewrite (inv_ndebug _ _ _ _ _ HI).
      reflexivity. }
    split; [|exact HRO].
    apply Inv_gen_intro.
    - simpl. unfold G'. rewrite decide_True by done. split; [done|]. split.
      + rewrite parent_of_node. simpl. rewrite Hlk, decide_True by done. done.
      + rewrite Hlen'. lia.
    - intros x dx lx hx. unfold G'. simpl. rewrite Hlen'.
      destruct (decide (x = top)) as [->|].
      + intros [= <- <- <-]. lia.
      + intros HG. destruct (inv_valid _ _ _ _ _ HI _ _ _ _ HG). unfold top. lia.
    - intros x dx lx hx. unfold G' at 1.
      destruct (decide (x = top)) as [->|Hx].
      + intros [= <- <- <-]. eexists. split.
        { rewrite get_inner_node. simpl. rewrite Hlk, decide_True by done. done. }
        split.
        { unfold inner_ok. simpl. rewrite !length_insert, !length_replicate.
          split; [lia|]. split; [done|]. split; [done|]. split.
          - intros i j Hij. lia.
          - intros i Hi. done. }
        simpl. intros i Hi.
        destruct i as [|[|i]]; [| |lia].
        * exists n. split.
          { rewrite list_lookup_insert_ne by done.
            rewrite list_lookup_insert_eq by (rewrite length_replicate; lia).
            rewrite Ht. done. }
          unfold G'. rewrite decide_False by (unfold top; lia).
          unfold child_lo, child_hi, sep. simpl.
          rewrite list_lookup_insert_eq by (rewrite length_replicate; lia). simpl. split; [done|].
          rewrite parent_of_node. simpl. rewrite Hlk.
          rewrite decide_False by (unfold top; lia).
          rewrite decide_False by done. rewrite decide_True by done. done.
        * exists new. split.
          { rewrite list_lookup_insert_eq; [done|].
            rewrite length_insert, length_replicate. lia. }
          unfold G'. rewrite decide_False by (unfold top; lia).
          unfold child_lo, child_hi, sep. simpl.
          rewrite list_lookup_insert_eq by (rewrite length_replicate; lia). simpl. split; [done|].
          rewrite parent_of_node. simpl. rewrite Hlk.
          rewrite decide_False by (unfold top; lia).
          rewrite decide_True by done. done.
      + intros HG.
        destruct (inv_inner _ _ _ _ _ HI _ _ _ _ HG) as (inner & Hin & Hok & Hch).
        exists inner. rewrite Hgi by done. split; [done|]. split; [done|].
        intros i Hi. destruct (Hch _ Hi) as (c & Hc & HCVc & Hpc).
        assert (c <> n) by (intros ->; congruence).
        assert (c <> new).
        { intros ->. rewrite (pending_CV_new st G CV n new s d lo hi HP) in HCVc.
          discriminate. }
        assert (c <> top) by (apply parent_of_lt in Hpc; unfold top; lia).
        exists c. split; [done|]. split.
        * unfold G'. rewrite decide_False by done.
          rewrite <- (pending_CV_other st G CV n new s d lo hi HP) by done. done.
        * rewrite Hpo by done. done.
    - intros x dx lx hx. unfold G' at 1. simpl.
      destruct (decide (x = top)) as [->|Hx]; [intros _ Hnt; congruence|].
      intros HG _.
      destruct (decide (x = n)) as [->|Hxn].
      { exists top. eexists. exists O, None, None.
        rewrite HGn in HG. injection HG as <- <- <-.
        split; [rewrite parent_of_node; simpl; rewrite Hlk;
                rewrite decide_False by (unfold top; lia);
                rewrite decide_False by done; rewrite decide_True by done; done|].
        split; [unfold G'; rewrite decide_True by done; done|].
        split; [rewrite get_inner_node; simpl; rewrite Hlk, decide_True by done; done|].
        simpl. split; [lia|].
        rewrite list_lookup_insert_ne by done.
        rewrite list_lookup_insert_eq by (rewrite length_replicate; lia).
        rewrite Ht. done. }
      destruct (decide (x = new)) as [->|Hxnew].
      { exists top. eexists. exists 1%nat, None, None.
        rewrite HGnew in HG. injection HG as <- <- <-.
        split; [rewrite parent_of_node; simpl; rewrite Hlk;
                rewrite decide_False by (unfold top; lia);
                rewrite decide_True by done; done|].
        split; [unfold G'; rewrite decide_True by done; done|].
        split; [rewrite get_inner_node; simpl; rewrite Hlk, decide_True by done; done|].
        simpl. split; [lia|].
        rewrite list_lookup_insert_eq; [done|].
        rewrite length_insert, length_replicate. lia. }
      rewrite <- (pending_CV_other st G CV n new s d lo hi HP) in HG by done.
      destruct (inv_parent _ _ _ _ _ HI _ _ _ _ HG)
        as (p & inner & i & plo & phi & Hp & HGp & Hin & Hi & Hc).
      { rewrite Ht. congruence. }
      destruct (inv_valid _ _ _ _ _ HI _ _ _ _ HGp) as [Hplt _].
      exists p, inner, i, plo, phi.
      rewrite Hpo by done. split; [done|].
      split; [unfold G'; rewrite decide_False by (unfold top; lia); done|].
      rewrite Hgi by (unfold top; lia). done.
    - eapply leaf_part_frame; eauto.
  Qed.
End SplitRoot.
Lemma blt_lo_le a b k : lo_le a b -> blt b k -> blt a k.
Proof.
  destruct a, b; simpl; try tauto; eauto with korder.
Qed.

Lemma bslt_hi_le a b k : bslt k a -> hi_le a b -> bslt k b.
Proof.
  destruct a, b; simpl; try tauto; eauto with korder.
Qed.

(** The parent of a split child once the split key and the new sibling are
    in its arrays, before it is known whether it must split itself. *)
Section Wide.
Variable cfg : Config.
Hypothesis Hcfg : cfg_ok cfg.
Variables (st : MVTree) (G CV : ghost) (H : nat).
Hypothesis HI : Inv_gen cfg st G CV H.
Variables (n new : nat) (s : string) (d : nat) (lo hi : bound).
Hypothesis HP : pending st G CV n new s d lo hi.
Variables (p : nat) (inner : MVInnerNode) (i0 : nat) (LO HI' : bound).
Hypothesis Hp : parent_of st n = Some p.
Hypothesis HGp : G p = Some (S d, LO, HI').
Hypothesis Hin : get_inner st p = Some inner.
Hypothesis Hok : inner_ok cfg inner LO HI'.
Hypothesis Hi0 : (i0 <= keycount inner)%nat.
Hypothesis Hci0 : children inner !! i0 = Some (Some n).
Hypothesis Elo : lo = child_lo inner LO i0.
Hypothesis Ehi : hi = child_hi inner HI' i0.
Hypothesis Hch : forall j, (j <= keycount inner)%nat ->
    exists c, children inner !! j = Some (Some c) /\
              CV c = Some (d, child_lo inner LO j, child_hi inner HI' j) /\
              parent_of st c = Some p.

Let inner1 := inner_insert cfg inner new s.
Let kc := keycount inner.

Lemma wide_spec :
    keycount inner1 = S kc /\
    length (ikeys inner1) = (INNER_KEYS cfg + 1)%nat /\
    length (children inner1) = (INNER_KEYS cfg + 2)%nat /\
    (forall j, (j <= kc)%nat ->
       sep inner1 j = if decide (j < i0)%nat then sep inner j
                      else if decide (j = i0) then s else sep inner (j - 1)) /\
    (forall j, (j <= S kc)%nat ->
       children inner1 !! j =
         if decide (j <= i0)%nat then children inner !! j
         else if decide (j = S i0) then Some (Some new)
              else children inner !! (j - 1)%nat).
  Proof.
    pose proof HP as (_ & _ & _ & Hlo & Hhi & _).
    apply (inner_insert_spec cfg inner new s LO HI' i0); auto.
    - apply Hcfg.
    - rewrite <- Elo. done.
    - rewrite <- Ehi. done.
  Qed.

Lemma wide_sorted i j :
    (i < j < S kc)%nat -> klt (sep inner1 i) (sep inner1 j).
  Proof.
    intros Hij. destruct wide_spec as (_ & _ & _ & Hsep & _).
    pose proof HP as (_ & _ & _ & Hlo & Hhi & _).
    rewrite Elo in Hlo. rewrite Ehi in Hhi.
    pose proof Hok as (_ & _ & _ & Hsorted & _).
    rewrite !Hsep by lia.
    destruct (decide (i < i0)%nat); destruct (decide (j < i0)%nat); try lia.
    - apply Hsorted. lia.
    - destruct i0 as [|i1]; [lia|]. simpl in Hlo.
      assert (kle (sep inner i) (sep inner i1))
        by (eapply sep_sorted_le; eauto; fold kc; lia).
      destruct (decide (j = S i1)); [eauto with korder|].
      assert (klt (sep inner i) (sep inner (j - 1))) by (apply Hsorted; fold kc; lia).
      done.
    - destruct (decide (i = i0)) as [->|]; destruct (decide (j = i0)); try lia.
      + unfold child_hi in Hhi. fold kc in Hhi.
        destruct (Nat.ltb_spec i0 kc); [|lia]. simpl in Hhi.
        assert (kle (sep inner i0) (sep inner (j - 1)))
          by (eapply sep_sorted_le; eauto; fold kc; lia).
        eauto with korder.
      + apply Hsorted. fold kc. lia.
  Qed.

Lemma wide_bounds i :
    (i < S kc)%nat -> blt LO (sep inner1 i) /\ bslt (sep inner1 i) HI'.
  Proof.
    intros Hi. destruct wide_spec as (_ & _ & _ & Hsep & _).
    pose proof HP as (_ & _ & _ & Hlo & Hhi & _).
    pose proof Hok as (_ & _ & _ & _ & Hb).
    rewrite Hsep by lia.
    destruct (decide (i < i0)%nat); [apply Hb; fold kc; lia|].
    destruct (decide (i = i0)) as [->|]; [|apply Hb; fold kc; lia].
    split.
    - eapply blt_lo_le; [|exact Hlo]. rewrite Elo.
      eapply child_lo_nest; eauto.
    - eapply bslt_hi_le; [exact Hhi|]. rewrite Ehi.
      eapply child_hi_nest; eauto.
  Qed.

Lemma child_lo_distinct j j' :
    (j < j' <= kc)%nat -> child_lo inner LO j <> child_lo inner LO j'.
  Proof.
    intros Hj E. pose proof Hok as (_ & _ & _ & Hsorted & Hb).
    destruct j' as [|j1]; [lia|]. simpl in E.
    destruct j as [|j0]; simpl in E.
    - destruct (Hb j1 ltac:(fold kc; lia)) as [Hl _]. rewrite E in Hl. simpl in Hl.
      apply (klt_irrefl _ Hl).
    - injection E as E. apply (klt_irrefl (sep inner j0)).
      rewrite E at 2. apply Hsorted. fold kc. lia.
  Qed.

Lemma old_child_not_pending j c :
    (j <= kc)%nat -> j <> i0 -> children inner !! j = Some (Some c) ->
    c <> n /\ c <> new /\
    G c = Some (d, child_lo inner LO j, child_hi inner HI' j) /\
    parent_of st c = Some p.
  Proof.
    intros Hj Hne Hc. destruct (Hch _ Hj) as (c' & Hc' & HCV & Hpc).
    assert (c' = c) as -> by congruence.
    assert (c <> new).
    { intros ->. rewrite (pending_CV_new st G CV n new s d lo hi HP) in HCV.
      discriminate. }
    assert (c <> n).
    { intros ->. rewrite (pending_CV_n st G CV n new s d lo hi HP) in HCV.
      injection HCV as E1 E2. rewrite Elo in E1.
      destruct (Nat.lt_total j i0) as [Hlt|[?|Hlt]]; [|done|].
      - apply (child_lo_distinct j i0); [fold kc in Hi0; lia|done].
      - apply (child_lo_distinct i0 j); [lia|done]. }
    repeat (split; [done|]). split; [|done].
    rewrite <- (pending_CV_other st G CV n new s d lo hi HP) by done. done.
  Qed.

Lemma wide_children j :
    (j <= S kc)%nat ->
    exists c, children inner1 !! j = Some (Some c) /\
              G c = Some (d, child_lo inner1 LO j, child_hi inner1 HI' j) /\
              parent_of st c = Some p.
  Proof.
    intros Hj. destruct wide_spec as (Hkc1 & _ & _ & Hsep & Hc1).
    pose proof HP as (HGn & HGnew & _ & _ & _ & _ & Hpar).
    rewrite (Hc1 j Hj).
    assert (Hlo1 : forall k, (k <= S kc)%nat ->
              child_lo inner1 LO k =
                if decide (k <= i0)%nat then child_lo inner LO k
                else if decide (k = S i0) then Some s
                     else child_lo inner LO (k - 1)).
    { intros k Hk. destruct k as [|k]; cbn [child_lo].
      - rewrite decide_True by lia. done.
      - rewrite Hsep by lia.
        destruct (decide (k < i0)%nat); [rewrite decide_True by lia; done|].
        destruct (decide (k = i0)) as [->|];
          [rewrite decide_False by lia; rewrite decide_True by lia; done|].
        rewrite !decide_False by lia.
        destruct k as [|k]; [lia|]. replace (S (S k) - 1)%nat with (S k) by lia.
        cbn [child_lo]. replace (S k - 1)%nat with k by lia. done. }
    assert (Hhi1 : forall k, (k <= S kc)%nat ->
              child_hi inner1 HI' k =
                if decide (k < i0)%nat then child_hi inner HI' k
                else if decide (k = i0) then Some s
                     else child_hi inner HI' (k - 1)).
    { intros k Hk. unfold child_hi. rewrite Hkc1. fold kc.
      destruct (decide (k < i0)%nat).
      - destruct (Nat.ltb_spec k (S kc)); [|lia].
        destruct (Nat.ltb_spec k kc); [|lia].
        rewrite Hsep by lia. rewrite decide_True by lia. done.
      - destruct (decide (k = i0)) as [->|].
        + destruct (Nat.ltb_spec i0 (S kc)); [|lia].
          rewrite Hsep by lia. rewrite decide_False by lia.
          rewrite decide_True by lia. done.
        + destruct (Nat.ltb_spec k (S kc)); destruct (Nat.ltb_spec (k - 1) kc);
            try lia; [|done].
          rewrite Hsep by lia. rewrite !decide_False by lia. done. }
    rewrite Hlo1, Hhi1 by done.
    destruct (decide (j < i0)%nat) as [C1|C1];
      [|destruct (decide (j = i0)) as [C2|C2];
        [|destruct (decide (j = S i0)) as [C3|C3]]];
      repeat first [rewrite decide_True by lia | rewrite decide_False by lia].
    - destruct (Hch j ltac:(fold kc; lia)) as (c & Hc & _).
      destruct (old_child_not_pending j c) as (_ & _ & HGc & Hpc); auto; [lia|lia|].
      exists c. auto.
    - subst j. exists n. rewrite <- Elo. split; [done|]. split; [done|]. done.
    - subst j. exists new. replace (S i0 - 1)%nat with i0 by lia. rewrite <- Ehi.
      split; [done|]. split; [done|]. congruence.
    - destruct (Hch (j - 1)%nat ltac:(fold kc; lia)) as (c & Hc & _).
      destruct (old_child_not_pending (j - 1)%nat c) as (_ & _ & HGc & Hpc);
        auto; [lia|lia|].
      exists c. auto.
  Qed.

Lemma wide_child_lo_distinct j j' :
    (j < j' <= S kc)%nat -> child_lo inner1 LO j <> child_lo inner1 LO j'.
  Proof.
    intros Hj E. destruct j' as [|j1]; [lia|]. simpl in E.
    destruct j as [|j0]; simpl in E.
    - destruct (wide_bounds j1 ltac:(lia)) as [Hl _]. rewrite E in Hl. simpl in Hl.
      apply (klt_irrefl _ Hl).
    - injection E as E. apply (klt_irrefl (sep inner1 j0)).
      rewrite E at 2. apply wide_sorted. lia.
  Qed.

Lemma wide_children_inj j j' c :
    (j <= S kc)%nat -> (j' <= S kc)%nat ->
    children inner1 !! j = Some (Some c) -> children inner1 !! j' = Some (Some c) ->
    j = j'.
  Proof.
    intros Hj Hj' Hc Hc'.
    destruct (wide_children j Hj) as (c1 & Hc1 & HG1 & _).
    destruct (wide_children j' Hj') as (c2 & Hc2 & HG2 & _).
    assert (c1 = c) as -> by congruence. assert (c2 = c) as -> by congruence.
    rewrite HG1 in HG2. injection HG2 as E _.
    destruct (Nat.lt_total j j') as [Hlt|[?|Hlt]]; [|done|].
    - destruct (wide_child_lo_distinct j j'); [lia|done].
    - destruct (wide_child_lo_distinct j' j); [lia|done].
  Qed.
  (** The node of [n], the node of its parent, and the top. *)
Lemma wide_nodes :
    exists nn pn t,
      nodes st !! n = Some nn /\ parent nn = Some p /\
      nodes st !! p = Some pn /\ kind pn = InnerNode inner /\
      tree_top st = Some t /\ t <> n /\ t <> new /\ G t = Some (H, None, None) /\
      p <> n /\ p <> new.
  Proof.
    assert (Hp' := Hp). rewrite parent_of_node in Hp'.
    destruct (nodes st !! n) as [nn|] eqn:Hnn; [|discriminate].
    assert (Hin' := Hin). rewrite get_inner_node in Hin'.
    destruct (nodes st !! p) as [pn|] eqn:Hpn; [|discriminate].
    destruct (kind pn) as [|inner'] eqn:Hk; [discriminate|].
    injection Hin' as ->.
    destruct (pending_top cfg st G CV H HI n new s d lo hi HP) as [t Ht].
    pose proof (inv_top _ _ _ _ _ HI) as Htop. rewrite Ht in Htop.
    destruct Htop as (HCVt & Hpt & _).
    assert (t <> n) by (intros ->; congruence).
    assert (t <> new).
    { intros ->. rewrite (pending_CV_new st G CV n new s d lo hi HP) in HCVt.
      discriminate. }
    assert (p <> n).
    { intros ->. pose proof HP as (HGn & _). rewrite HGn in HGp.
      injection HGp as E. lia. }
    assert (p <> new).
    { intros ->. pose proof HP as (_ & HGnew & _). rewrite HGnew in HGp.
      injection HGp as E. lia. }
    exists nn, pn, t. repeat (split; [done|]).
    split; [|done].
    rewrite <- (pending_CV_other st G CV n new s d lo hi HP) by done. done.
  Qed.

  (** Children of nodes other than [p] are not part of the pending split. *)
Lemma other_child x dx lx hx innerx i c :
    x <> p -> G x = Some (S dx, lx, hx) -> get_inner st x = Some innerx ->
    (i <= keycount innerx)%nat -> children innerx !! i = Some (Some c) ->
    c <> n /\ c <> new /\ parent_of st c = Some x /\
    CV c = Some (dx, child_lo innerx lx i, child_hi innerx hx i).
  Proof.
    intros Hx HGx Hix Hi Hc.
    destruct (inv_inner _ _ _ _ _ HI _ _ _ _ HGx) as (inner' & Hin' & _ & Hchx).
    assert (inner' = innerx) as -> by congruence.
    destruct (Hchx _ Hi) as (c' & Hc' & HCV & Hpc).
    assert (c' = c) as -> by congruence.
    split; [intros ->; congruence|]. split; [|done].
    intros ->. rewrite (pending_CV_new st G CV n new s d lo hi HP) in HCV.
    discriminate.
  Qed.

Lemma IUAS_insert fuel :
    (S kc <= INNER_KEYS cfg)%nat ->
    exists st',
      InnerUpdateAfterSplit cfg (S fuel) st n new s = Some st' /\
      Inv_gen cfg st' G G H /\ routing_only st st' G G.
  Proof.
    intros Hfit.
    destruct wide_nodes as (nn & pn & t & Hnn & Hpnn & Hpn & Hkpn & Ht & Htn & Htnew
                            & HGt & Hpn' & Hpnew).
    destruct wide_spec as (Hkc1 & Hlk1 & Hlc1 & Hsep1 & Hch1).
    set (pnode := {| parent := parent pn; kind := InnerNode inner1 |}).
    set (st' := set_nodes st (<[p := pnode]> (nodes st))).
    assert (Hplt : (p < length (nodes st))%nat) by (eapply lookup_lt_Some; eauto).
    assert (Hlk : forall x, nodes st' !! x = if decide (x = p) then Some pnode
                                             else nodes st !! x).
    { intros x. unfold st'. simpl. destruct (decide (x = p)) as [->|].
      - rewrite list_lookup_insert_eq by done. done.
      - rewrite list_lookup_insert_ne by done. done. }
    assert (Hgl : forall x, get_leafnode st' x = get_leafnode st x).
    { intros x. rewrite !get_leafnode_node, Hlk.
      destruct (decide (x = p)) as [->|]; [|done]. rewrite Hpn, Hkpn. done. }
    assert (Hpo : forall x, parent_of st' x = parent_of st x).
    { intros x. rewrite !parent_of_node, Hlk.
      destruct (decide (x = p)) as [->|]; [|done]. rewrite Hpn. done. }
    assert (Hgi : forall x, get_inner st' x = if decide (x = p) then Some inner1
                                              else get_inner st x).
    { intros x. rewrite !get_inner_node, Hlk.
      destruct (decide (x = p)) as [->|]; done. }
    assert (HRO : routing_only st st' G G).
    { unfold routing_only. split_and!; try done.
      unfold st'. simpl. rewrite length_insert. lia. }
    exists st'. split.
    { cbn [InnerUpdateAfterSplit]. rewrite Hnn. cbn [mbind option_bind].
      rewrite Hpnn, Hpn. cbn [mbind option_bind]. rewrite Hin.
      cbn [mbind option_bind]. fold inner1. rewrite Hkc1.
      destruct (Nat.leb_spec (S kc) (INNER_KEYS cfg)); [|lia].
      rewrite (debug_assert_ndebug cfg _ (inv_ndebug _ _ _ _ _ HI)).
      rewrite (update_inner_Some _ _ _ _ Hpn). done. }
    split; [|exact HRO].
    pose proof (inv_top _ _ _ _ _ HI) as Htop. rewrite Ht in Htop.
    destruct Htop as (_ & Hpt & Htlt & HHlt).
    apply Inv_gen_intro.
    - change (tree_top st') with (tree_top st). rewrite Ht.
      rewrite Hpo. unfold st'. simpl. rewrite length_insert. done.
    - intros x dx lx hx HG. unfold st'. simpl. rewrite length_insert.
      apply (inv_valid _ _ _ _ _ HI _ _ _ _ HG).
    - intros x dx lx hx HG. rewrite Hgi.
      destruct (decide (x = p)) as [->|Hx].
      + rewrite HGp in HG. injection HG as <- <- <-.
        exists inner1. split; [done|]. split.
        * unfold inner_ok. rewrite Hkc1. split; [lia|].
          split; [done|]. split; [done|].
          split; [apply wide_sorted|apply wide_bounds].
        * rewrite Hkc1. intros i Hi.
          destruct (wide_children i Hi) as (c & Hc & HGc & Hpc).
          exists c. rewrite Hpo. done.
      + destruct (inv_inner _ _ _ _ _ HI _ _ _ _ HG) as (innerx & Hix & Hokx & Hchx).
        exists innerx. split; [done|]. split; [done|].
        intros i Hi. destruct (Hchx _ Hi) as (c & Hc & HCVc & Hpc).
        destruct (other_child x dx lx hx innerx i c) as (Hcn & Hcnew & _ & _); auto.
        exists c. rewrite Hpo. split; [done|]. split; [|done].
        rewrite <- (pending_CV_other st G CV n new s d lo hi HP) by done. done.
    - intros x dx lx hx HG Hnt. change (tree_top st') with (tree_top st) in Hnt.
      pose proof HP as (HGn & HGnew & _ & _ & _ & _ & Hpar).
      destruct (decide (x = new)) as [->|Hxnew].
      { rewrite HGnew in HG. injection HG as <- <- <-.
        exists p, inner1, (S i0), LO, HI'. rewrite Hpo, Hgi, decide_True by done.
        split; [congruence|]. split; [done|]. split; [done|].
        rewrite Hkc1. split; [fold kc in Hi0; lia|].
        rewrite Hch1 by (fold kc in Hi0; lia).
        rewrite decide_False by lia. rewrite decide_True by done. done. }
      assert (HCVx : exists lx' hx', CV x = Some (dx, lx', hx')).
      { destruct (decide (x = n)) as [->|Hxn].
        - rewrite (pending_CV_n st G CV n new s d lo hi HP).
          rewrite HGn in HG. injection HG as <- <- <-. eauto.
        - rewrite (pending_CV_other st G CV n new s d lo hi HP) by done. eauto. }
      destruct HCVx as (lx' & hx' & HCVx).
      destruct (inv_parent _ _ _ _ _ HI _ _ _ _ HCVx Hnt)
        as (p' & inner' & i & plo & phi & Hp' & HGp' & Hin' & Hi & Hc).
      exists p'. rewrite Hpo, Hgi.
      destruct (decide (p' = p)) as [->|Hpne].
      + assert (inner' = inner) as -> by congruence.
        rewrite HGp in HGp'. injection HGp' as <- <- <-.
        destruct (decide (i <= i0)%nat).
        * exists inner1, i, LO, HI'. repeat (split; [done|]).
          rewrite Hkc1. split; [fold kc in Hi; lia|].
          rewrite Hch1 by (fold kc in Hi; lia). rewrite decide_True by done. done.
        * exists inner1, (S i), LO, HI'. repeat (split; [done|]).
          rewrite Hkc1. split; [fold kc in Hi; lia|].
          rewrite Hch1 by (fold kc in Hi; lia). rewrite !decide_False by lia.
          replace (S i - 1)%nat with i by lia. done.
      + exists inner', i, plo, phi. done.
    - eapply leaf_part_frame; eauto; try done.
  Qed.
  (** *** The parent splits *)

Lemma midpoints :
    INNER_KEYS_UPPER cfg = S (INNER_KEYS_MIDPOINT cfg) /\
    (INNER_KEYS_MIDPOINT cfg + INNER_KEYS_UPPER cfg = S (INNER_KEYS cfg))%nat /\
    (1 <= INNER_KEYS_MIDPOINT cfg <= INNER_KEYS cfg)%nat.
  Proof.
    destruct Hcfg as (_ & (H2 & _) & [m Hm]).
    unfold INNER_KEYS_MIDPOINT, INNER_KEYS_UPPER. rewrite Hm.
    replace (2 * m + 2)%nat with ((m + 1) * 2)%nat by lia.
    rewrite Nat.div_mul by lia. lia.
  Qed.

Hypothesis Hfull : (INNER_KEYS cfg < S kc)%nat.

Let U := INNER_KEYS_UPPER cfg.
Let Mid := INNER_KEYS_MIDPOINT cfg.
Let ni := length (nodes st).

Lemma split_sizes :
    kc = INNER_KEYS cfg /\ U = S Mid /\ (Mid + U = S kc)%nat /\ (1 <= Mid)%nat.
  Proof.
    destruct midpoints as (E1 & E2 & E3).
    pose proof Hok as ((_ & Hk) & _). fold kc in Hk. unfold U, Mid. lia.
  Qed.

Lemma split_arrays :
    exists ik nk ic nc,
      split_move_keys cfg (ikeys inner1) (ikeys (new_MVInnerNode cfg)) (keycount inner1)
      = (ik, nk) /\
      split_move_children cfg (children inner1) (children (new_MVInnerNode cfg))
                          (keycount inner1) = (ic, nc) /\
      length ik = (INNER_KEYS cfg + 1)%nat /\ length nk = (INNER_KEYS cfg + 1)%nat /\
      length ic = (INNER_KEYS cfg + 2)%nat /\ length nc = (INNER_KEYS cfg + 2)%nat /\
      (forall j, (j < U)%nat -> ik !! j = ikeys inner1 !! j) /\
      (forall j, (j < Mid)%nat -> nk !! j = ikeys inner1 !! (U + j)%nat) /\
      (forall j, (j < U)%nat -> ic !! j = children inner1 !! j) /\
      (forall j, (j <= Mid)%nat -> nc !! j = children inner1 !! (U + j)%nat).
  Proof.
    destruct wide_spec as (Hkc1 & Hlk1 & Hlc1 & _).
    destruct split_sizes as (Ekc & EU & Esum & HM).
    unfold split_move_keys, split_move_children. rewrite Hkc1. fold U.
    replace (S kc - U)%nat with Mid by lia.
    replace (S kc + 1 - U)%nat with (S Mid) by lia.
    pose proof (split_lookup (moved_from cfg) U Mid (ikeys inner1)
                  (ikeys (new_MVInnerNode cfg))) as HK.
    pose proof (split_lookup (fun _ => None) U (S Mid) (children inner1)
                  (children (new_MVInnerNode cfg))) as HC.
    cbv zeta in HK, HC.
    assert (L1 : length (ikeys (new_MVInnerNode cfg)) = (INNER_KEYS cfg + 1)%nat)
      by apply length_replicate.
    assert (L2 : length (children (new_MVInnerNode cfg)) = (INNER_KEYS cfg + 2)%nat)
      by apply length_replicate.
    destruct (fold_left _ (seq U Mid) _) as [ik nk].
    destruct (fold_left _ (seq U (S Mid)) _) as [ic nc].
    cbn [fst snd] in HK, HC.
    destruct HK as (K1 & K2 & K3 & _ & K5 & _); [lia|lia|].
    destruct HC as (C1 & C2 & C3 & _ & C5 & _); [lia|lia|].
    exists ik, nk, ic, nc. split_and!; try done; try lia.
    intros j Hj. apply C5. lia.
  Qed.
Lemma IUAS_split fuel :
    exists st2 G2 CV2 Msep,
      InnerUpdateAfterSplit cfg (S fuel) st n new s
      = InnerUpdateAfterSplit cfg fuel st2 p ni Msep /\
      Inv_gen cfg st2 G2 CV2 H /\
      pending st2 G2 CV2 p ni Msep (S d) LO HI' /\
      routing_only st st2 G G2.
  Proof.
    destruct wide_nodes as (nn & pn & t & Hnn & Hpnn & Hpn & Hkpn & Ht & Htn & Htnew
                            & HGt & Hpn' & Hpnew).
    destruct wide_spec as (Hkc1 & Hlk1 & Hlc1 & Hsep1 & Hch1).
    destruct split_sizes as (Ekc & EU & Esum & HM).
    destruct split_arrays
      as (ik & nk & ic & nc & Esk & Esc & Lik & Lnk & Lic & Lnc & Kik & Knk & Kic & Knc).
    set (pin := {| keycount := Mid; ikeys := ik; children := ic |}).
    set (nin := {| keycount := Mid; ikeys := nk; children := nc |}).
    set (Msep := sep inner1 Mid).
    assert (HMsep : ik !! Mid = Some Msep).
    { rewrite Kik by lia. unfold Msep, sep.
      destruct (lookup_lt_is_Some_2 (ikeys inner1) Mid ltac:(lia)) as [v ->]. done. }
    assert (Hplt : (p < length (nodes st))%nat) by (eapply lookup_lt_Some; eauto).
    set (pnode := {| parent := parent pn; kind := InnerNode pin |}).
    set (ninode := {| parent := parent pn; kind := InnerNode nin |}).
    set (st1 := set_nodes st (<[p := pnode]> (nodes st))).
    set (st0 := push_node st1 ninode).
    assert (Hlen0 : length (nodes st0) = S ni).
    { unfold st0, st1, push_node. simpl. rewrite length_app, length_insert. simpl.
      unfold ni. lia. }
    assert (Hlk0 : forall x, nodes st0 !! x =
              if decide (x = p) then Some pnode
              else if decide (x = ni) then Some ninode else nodes st !! x).
    { intros x. unfold st0, st1, push_node. simpl.
      destruct (decide (x < ni)%nat).
      - rewrite lookup_app_l by (rewrite length_insert; done).
        destruct (decide (x = p)) as [->|].
        + rewrite list_lookup_insert_eq by done. done.
        + rewrite list_lookup_insert_ne by done. rewrite decide_False by lia. done.
      - rewrite decide_False by (unfold ni in *; lia).
        destruct (decide (x = ni)) as [->|].
        + rewrite lookup_app_r by (rewrite length_insert; done).
          rewrite length_insert. unfold ni. rewrite Nat.sub_diag. done.
        + rewrite !lookup_ge_None_2; [done|unfold ni in *; lia|].
          rewrite length_app, length_insert. simpl. unfold ni in *. lia. }
    assert (HMCiff : forall x,
              (exists i, i ∈ seq U (S Mid) /\ mjoin (nc !! (i - U)%nat) = Some x) <->
              (exists j, (U <= j <= S kc)%nat /\ children inner1 !! j = Some (Some x))).
    { intros x. split.
      - intros (i & Hi & Hx). apply elem_of_seq in Hi. exists i. split; [lia|].
        rewrite Knc in Hx by lia. replace (U + (i - U))%nat with i in Hx by lia.
        destruct (children inner1 !! i) as [[c|]|]; simpl in Hx; congruence.
      - intros (j & Hj & Hx). exists j. split; [apply elem_of_seq; lia|].
        rewrite Knc by lia. replace (U + (j - U))%nat with j by lia. rewrite Hx. done. }
    assert (HMC : forall x,
              (exists i, i ∈ seq U (S Mid) /\ mjoin (nc !! (i - U)%nat) = Some x) ->
              x <> p /\ x <> ni /\ parent_of st x = Some p /\ exists dl dh, G x = Some (d, dl, dh)).
    { intros x Hx. apply HMCiff in Hx as (j & Hj & Hx).
      destruct (wide_children j ltac:(lia)) as (c & Hc & HGc & Hpc).
      assert (c = x) as -> by congruence.
      split; [intros ->; rewrite HGp in HGc; injection HGc as E; lia|].
      split; [apply parent_of_lt in Hpc; unfold ni; lia|]. eauto. }
    destruct (reparent_spec nc U ni (seq U (S Mid)) st0)
      as (st2 & Hfe & Htt2 & Hpre2 & Hpl2 & Hhd2 & Hlen2 & Hin2 & Hout2).
    { intros i Hi.
      apply elem_of_seq in Hi.
      destruct (wide_children i ltac:(lia)) as (c & Hc & _ & Hpc).
      exists c. rewrite Knc by lia. replace (U + (i - U))%nat with i by lia.
      rewrite Hc. split; [done|]. rewrite Hlen0. apply parent_of_lt in Hpc.
      unfold ni. lia. }
    set (G2 := fun x => if decide (x = p) then Some (S d, LO, Some Msep)
                        else if decide (x = ni) then Some (S d, Some Msep, HI')
                        else G x).
    set (CV2 := fun x => if decide (x = p) then Some (S d, LO, HI')
                         else if decide (x = ni) then @None (nat * bound * bound)
                         else G x).
    exists st2, G2, CV2, Msep.
    (* node lookups in the final state *)
    assert (Hlk2in : forall x nx,
              (exists i, i ∈ seq U (S Mid) /\ mjoin (nc !! (i - U)%nat) = Some x) ->
              nodes st !! x = Some nx ->
              nodes st2 !! x = Some (set_parent nx (Some ni))).
    { intros x nx Hx Hnx. rewrite (Hin2 x Hx), Hlk0.
      destruct (HMC x Hx) as (H1 & H2 & _). rewrite !decide_False by done.
      rewrite Hnx. done. }
    assert (Hlk2out : forall x,
              ~ (exists i, i ∈ seq U (S Mid) /\ mjoin (nc !! (i - U)%nat) = Some x) ->
              nodes st2 !! x = if decide (x = p) then Some pnode
                               else if decide (x = ni) then Some ninode
                               else nodes st !! x).
    { intros x Hx. rewrite Hout2; [apply Hlk0|]. intros i Hi E. apply Hx. eauto. }
    assert (Hdec : forall x,
              (exists i, i ∈ seq U (S Mid) /\ mjoin (nc !! (i - U)%nat) = Some x) \/
              ~ (exists i, i ∈ seq U (S Mid) /\ mjoin (nc !! (i - U)%nat) = Some x)).
    { intros x.
      destruct (decide (Exists (fun i => mjoin (nc !! (i - U)%nat) = Some x)
                               (seq U (S Mid)))) as [E|E];
        rewrite Exists_exists in E; auto. }
    assert (Hkind : forall x, x <> p -> x <> ni ->
              kind <$> nodes st2 !! x = kind <$> nodes st !! x).
    { intros x H1 H2. destruct (Hdec x) as [Hx|Hx].
      - destruct (HMC x Hx) as (_ & _ & Hpx & _).
        rewrite parent_of_node in Hpx.
        destruct (nodes st !! x) as [nx|] eqn:Hnx; [|discriminate].
        rewrite (Hlk2in x nx Hx Hnx). done.
      - rewrite (Hlk2out x Hx), !decide_False by done. done. }
    assert (Hp2 : nodes st2 !! p = Some pnode).
    { rewrite Hlk2out; [rewrite decide_True; done|].
      intros Hx. destruct (HMC p Hx) as (Hne & _). done. }
    assert (Hni2 : nodes st2 !! ni = Some ninode).
    { rewrite Hlk2out; [rewrite decide_False by (unfold ni; lia); rewrite decide_True; done|].
      intros Hx. destruct (HMC ni Hx) as (_ & Hne & _). done. }
    assert (Hgl : forall x, get_leafnode st2 x = get_leafnode st x).
    { intros x. rewrite !get_leafnode_node.
      destruct (decide (x = p)) as [->|H1]; [rewrite Hp2, Hpn, Hkpn; done|].
      destruct (decide (x = ni)) as [->|H2].
      { rewrite Hni2. rewrite (lookup_ge_None_2 (nodes st) ni) by (unfold ni; lia). done. }
      pose proof (Hkind x H1 H2) as Hk.
      destruct (nodes st2 !! x), (nodes st !! x); simpl in Hk; try congruence.
      injection Hk as ->. done. }
    assert (Hgi : forall x, get_inner st2 x = if decide (x = p) then Some pin
                                              else if decide (x = ni) then Some nin
                                              else get_inner st x).
    { intros x. rewrite !get_inner_node.
      destruct (decide (x = p)) as [->|H1]; [rewrite Hp2; done|].
      destruct (decide (x = ni)) as [->|H2]; [rewrite Hni2; done|].
      pose proof (Hkind x H1 H2) as Hk.
      destruct (nodes st2 !! x), (nodes st !! x); simpl in Hk; try congruence.
      injection Hk as ->. done. }
    assert (Hpo_in : forall x,
              (exists i, i ∈ seq U (S Mid) /\ mjoin (nc !! (i - U)%nat) = Some x) ->
              parent_of st2 x = Some ni).
    { intros x Hx. destruct (HMC x Hx) as (_ & _ & Hpx & _).
      rewrite parent_of_node in Hpx.
      destruct (nodes st !! x) as [nx|] eqn:Hnx; [|discriminate].
      rewrite parent_of_node, (Hlk2in x nx Hx Hnx). done. }
    assert (Hpo_out : forall x,
              ~ (exists i, i ∈ seq U (S Mid) /\ mjoin (nc !! (i - U)%nat) = Some x) ->
              x <> ni -> parent_of st2 x = parent_of st x).
    { intros x Hx Hne. rewrite !parent_of_node, (Hlk2out x Hx).
      destruct (decide (x = p)) as [->|]; [rewrite Hpn; done|].
      rewrite decide_False by done. done. }
    assert (Hpo_notp : forall x q, parent_of st x = Some q -> q <> p ->
              parent_of st2 x = Some q).
    { intros x q Hq Hne. rewrite Hpo_out; [done| |].
      - intros Hx. destruct (HMC x Hx) as (_ & _ & Hpx & _). congruence.
      - apply parent_of_lt in Hq. unfold ni. lia. }
    assert (HG2_0 : forall x l h, G2 x = Some (O, l, h) <-> G x = Some (O, l, h)).
    { intros x l h. unfold G2.
      destruct (decide (x = p)) as [->|]; [rewrite HGp; split; discriminate|].
      destruct (decide (x = ni)) as [->|]; [|done].
      split; [discriminate|]. intros HG.
      destruct (inv_valid _ _ _ _ _ HI _ _ _ _ HG). unfold ni in *. lia. }
    assert (HRO : routing_only st st2 G G2).
    { unfold routing_only. split_and!; try done.
      rewrite Hlen2, Hlen0. unfold ni. lia. }
    split.
    { cbn [InnerUpdateAfterSplit]. rewrite Hnn. cbn [mbind option_bind].
      rewrite Hpnn, Hpn. cbn [mbind option_bind]. rewrite Hin.
      cbn [mbind option_bind]. fold inner1.
      destruct (Nat.leb_spec (keycount inner1) (INNER_KEYS cfg)); [lia|].
      rewrite Esk, Esc. fold Mid. rewrite HMsep. cbn [mbind option_bind].
      rewrite (update_inner_Some _ _ _ _ Hpn). cbn [mbind option_bind].
      fold pin. fold pnode. fold st1. fold nin. fold ninode. fold st0. fold U.
      rewrite Hkc1. replace (S kc + 1 - U)%nat with (S Mid) by lia.
      fold ni. rewrite Hfe. cbn [mbind option_bind].
      rewrite !(debug_assert_ndebug cfg _ (inv_ndebug _ _ _ _ _ HI)). done. }
    split; [|split; [|exact HRO]].
    2:{ unfold pending, G2, CV2. rewrite !decide_True by done.
        rewrite (decide_False (P := ni = p)) by (unfold ni; lia).
        rewrite decide_True by done.
        split; [done|]. split; [done|]. split.
        { intros x. repeat case_decide; done. }
        destruct (wide_bounds Mid ltac:(lia)) as [B1 B2].
        split; [done|]. split; [done|]. split; [unfold ni; lia|].
        rewrite !parent_of_node, Hp2, Hni2. done. }
    pose proof (inv_top _ _ _ _ _ HI) as Htop. rewrite Ht in Htop.
    destruct Htop as (HCVt & Hpt & Htlt & HHlt).
    apply Inv_gen_intro.
    - rewrite Htt2. change (tree_top st0) with (tree_top st). rewrite Ht.
      split.
      { unfold CV2. destruct (decide (t = p)) as [->|].
        - rewrite <- HGt. done.
        - rewrite decide_False by (unfold ni; lia). done. }
      split.
      { rewrite Hpo_out; [done| |unfold ni; lia].
        intros Hx. destruct (HMC t Hx) as (_ & _ & Hpx & _). congruence. }
      rewrite Hlen2, Hlen0. unfold ni. lia.
    - intros x dx lx hx. unfold G2. rewrite Hlen2, Hlen0.
      destruct (inv_valid _ _ _ _ _ HI _ _ _ _ HGp) as [_ Hd].
      destruct (decide (x = p)) as [->|]; [intros [= <- <- <-]; unfold ni; lia|].
      destruct (decide (x = ni)) as [->|]; [intros [= <- <- <-]; lia|].
      intros HG. destruct (inv_valid _ _ _ _ _ HI _ _ _ _ HG). unfold ni. lia.
    - intros x dx lx hx. unfold G2 at 1. rewrite Hgi.
      destruct (decide (x = p)) as [->|Hxp]; [|destruct (decide (x = ni)) as [->|Hxni]].
      + intros [= <- <- <-]. exists pin. split; [done|]. split.
        { unfold inner_ok, pin. cbn [keycount ikeys children].
          split; [lia|]. split; [done|]. split; [done|].
          assert (Hs : forall i, (i < U)%nat ->
                    sep {| keycount := Mid; ikeys := ik; children := ic |} i
                    = sep inner1 i).
          { intros i Hi. unfold sep. cbn [ikeys]. rewrite Kik by done. done. }
          split.
          - intros i j Hij. rewrite !Hs by lia. apply wide_sorted. lia.
          - intros i Hi. rewrite Hs by lia.
            destruct (wide_bounds i ltac:(lia)) as [B1 _]. split; [done|].
            simpl. apply wide_sorted. lia. }
        unfold pin at 1. cbn [keycount]. intros i Hi.
        destruct (wide_children i ltac:(lia)) as (c & Hc & HGc & Hpc).
        exists c. split; [unfold pin; cbn [children]; rewrite Kic by lia; done|].
        assert (Hcp : c <> p) by (intros ->; rewrite HGp in HGc; injection HGc as E; lia).
        assert (Hcni : c <> ni) by (apply parent_of_lt in Hpc; unfold ni; lia).
        split.
        * unfold CV2. rewrite !decide_False by done. rewrite HGc. f_equal. f_equal.
          { f_equal. destruct i as [|i]; [done|]. cbn [child_lo]. f_equal.
            unfold sep, pin. cbn [ikeys]. rewrite Kik by lia. done. }
          { unfold child_hi. rewrite Hkc1. unfold pin at 1. cbn [keycount].
            destruct (Nat.ltb_spec i (S kc)); [|lia].
            destruct (Nat.ltb_spec i Mid).
            - f_equal. unfold sep, pin. cbn [ikeys]. rewrite Kik by lia. done.
            - replace i with Mid by lia. done. }
        * rewrite Hpo_out; [done| |done].
          intros Hx. apply HMCiff in Hx as (j & Hj & Hx).
          assert (i = j) by (eapply wide_children_inj; eauto; lia). lia.
      + intros [= <- <- <-]. exists nin. split; [done|].
        assert (Hs : forall i, (i < Mid)%nat -> sep nin i = sep inner1 (U + i)).
        { intros i Hi. unfold sep, nin. cbn [ikeys]. rewrite Knk by done. done. }
        split.
        { unfold inner_ok. change (keycount nin) with Mid.
          change (ikeys nin) with nk. change (children nin) with nc.
          split; [lia|]. split; [done|]. split; [done|]. split.
          - intros i j Hij. rewrite !Hs by lia. apply wide_sorted. lia.
          - intros i Hi. rewrite Hs by lia.
            destruct (wide_bounds (U + i) ltac:(lia)) as [_ B2]. split; [|done].
            simpl. apply wide_sorted. lia. }
        change (keycount nin) with Mid. intros i Hi.
        destruct (wide_children (U + i) ltac:(lia)) as (c & Hc & HGc & Hpc).
        exists c. split; [unfold nin; cbn [children]; rewrite Knc by lia; done|].
        assert (Hcp : c <> p) by (intros ->; rewrite HGp in HGc; injection HGc as E; lia).
        assert (Hcni : c <> ni) by (apply parent_of_lt in Hpc; unfold ni; lia).
        split.
        * unfold CV2. rewrite !decide_False by done. rewrite HGc. f_equal. f_equal.
          { f_equal. destruct i as [|i].
            - rewrite EU. replace (S Mid + 0)%nat with (S Mid) by lia. done.
            - replace (U + S i)%nat with (S (U + i)) by lia. cbn [child_lo].
              rewrite Hs by lia. done. }
          { unfold child_hi. rewrite Hkc1. change (keycount nin) with Mid.
            destruct (Nat.ltb_spec i Mid); destruct (Nat.ltb_spec (U + i) (S kc));
              try lia; [|done].
            rewrite Hs by lia. done. }
        * apply Hpo_in. apply HMCiff. exists (U + i)%nat. split; [lia|done].
      + intros HG.
        destruct (inv_inner _ _ _ _ _ HI _ _ _ _ HG) as (innerx & Hix & Hokx & Hchx).
        exists innerx. split; [done|]. split; [done|].
        intros i Hi. destruct (Hchx _ Hi) as (c & Hc & HCVc & Hpc).
        destruct (other_child x dx lx hx innerx i c) as (Hcn & Hcnew & _ & _); auto.
        exists c. split; [done|]. split; [|apply Hpo_notp; done].
        unfold CV2. destruct (decide (c = p)) as [->|Hcp].
        * rewrite <- HGp.
          rewrite <- (pending_CV_other st G CV n new s d lo hi HP) by done. done.
        * rewrite decide_False by (apply parent_of_lt in Hpc; unfold ni; lia).
          rewrite <- (pending_CV_other st G CV n new s d lo hi HP) by done. done.
    - intros x dx lx hx. unfold CV2 at 1. rewrite Htt2.
      change (tree_top st0) with (tree_top st).
      destruct (decide (x = p)) as [->|Hxp].
      { intros [= <- <- <-] Hnt.
        assert (HCVp : CV p = Some (S d, LO, HI')).
        { rewrite (pending_CV_other st G CV n new s d lo hi HP) by done. done. }
        destruct (inv_parent _ _ _ _ _ HI _ _ _ _ HCVp Hnt)
          as (pp & innerpp & i & plo & phi & Hpp & HGpp & Hinpp & Hi & Hc).
        assert (pp <> p) by (intros ->; rewrite HGp in HGpp; injection HGpp as E; lia).
        assert (pp <> ni) by (destruct (inv_valid _ _ _ _ _ HI _ _ _ _ HGpp); unfold ni; lia).
        exists pp, innerpp, i, plo, phi.
        split; [apply Hpo_notp; done|].
        split; [unfold G2; rewrite !decide_False by done; done|].
        rewrite Hgi, !decide_False by done. done. }
      destruct (decide (x = ni)) as [->|Hxni]; [discriminate|].
      intros HG Hnt.
      pose proof HP as (HGn & HGnew & _ & _ & _ & _ & Hpar).
      assert (Hcase : parent_of st x = Some p \/
                      exists q, parent_of st x = Some q /\ q <> p /\
                        exists innerq i qlo qhi,
                          G q = Some (S dx, qlo, qhi) /\ get_inner st q = Some innerq /\
                          (i <= keycount innerq)%nat /\
                          children innerq !! i = Some (Some x)).
      { destruct (decide (x = new)) as [->|Hxnew]; [left; congruence|].
        destruct (decide (x = n)) as [->|Hxn]; [left; done|].
        rewrite <- (pending_CV_other st G CV n new s d lo hi HP) in HG by done.
        destruct (inv_parent _ _ _ _ _ HI _ _ _ _ HG Hnt)
          as (q & innerq & i & qlo & qhi & Hq & HGq & Hinq & Hi & Hc).
        destruct (decide (q = p)) as [->|]; [left; done|].
        right. exists q. eauto 10. }
      destruct Hcase as [Hxp'|(q & Hq & Hqp & innerq & i & qlo & qhi & HGq & Hinq & Hi & Hc)].
      + (* a child of the node that splits *)
        assert (Hidx : exists j, (j <= S kc)%nat /\ children inner1 !! j = Some (Some x)).
        { pose proof HP as (_ & _ & _ & _ & _ & _ & _).
          destruct (decide (x = new)) as [->|Hxnew].
          { exists (S i0). split; [fold kc in Hi0; lia|].
            rewrite Hch1 by (fold kc in Hi0; lia).
            rewrite decide_False by lia. rewrite decide_True by done. done. }
          assert (HCVx : exists lx' hx', CV x = Some (dx, lx', hx')).
          { destruct (decide (x = n)) as [->|Hxn].
            - rewrite (pending_CV_n st G CV n new s d lo hi HP).
              rewrite HGn in HG. injection HG as <- <- <-. eauto.
            - rewrite (pending_CV_other st G CV n new s d lo hi HP) by done. eauto. }
          destruct HCVx as (lx' & hx' & HCVx).
          destruct (inv_parent _ _ _ _ _ HI _ _ _ _ HCVx Hnt)
            as (q & innerq & i & qlo & qhi & Hq & HGq & Hinq & Hi & Hc).
          assert (q = p) as -> by congruence.
          assert (innerq = inner) as -> by congruence.
          destruct (decide (i <= i0)%nat).
          - exists i. split; [fold kc in Hi; lia|].
            rewrite Hch1 by (fold kc in Hi; lia). rewrite decide_True by done. done.
          - exists (S i). split; [fold kc in Hi; lia|].
            rewrite Hch1 by (fold kc in Hi; lia). rewrite !decide_False by lia.
            replace (S i - 1)%nat with i by lia. done. }
        destruct Hidx as (j & Hj & Hcj).
        destruct (wide_children j Hj) as (c & Hc & HGc & _).
        assert (c = x) as -> by congruence.
        rewrite HG in HGc. injection HGc as Ed _ _. subst dx.
        destruct (decide (j < U)%nat).
        * exists p, pin, j, LO, (Some Msep).
          split.
          { rewrite Hpo_out; [done| |done].
            intros Hx. apply HMCiff in Hx as (j' & Hj' & Hx).
            assert (j = j') by (eapply wide_children_inj; eauto; lia). lia. }
          split; [unfold G2; rewrite decide_True by done; done|].
          split; [rewrite Hgi, decide_True by done; done|].
          unfold pin. cbn [keycount children]. split; [lia|].
          rewrite Kic by lia. done.
        * exists ni, nin, (j - U)%nat, (Some Msep), HI'.
          split; [apply Hpo_in, HMCiff; exists j; split; [lia|done]|].
          split; [unfold G2; rewrite decide_False by (unfold ni; lia);
                  rewrite decide_True by done; done|].
          split; [rewrite Hgi, decide_False by (unfold ni; lia);
                  rewrite decide_True by done; done|].
          unfold nin. cbn [keycount children]. split; [lia|].
          rewrite Knc by lia. replace (U + (j - U))%nat with j by lia. done.
      + exists q, innerq, i, qlo, qhi.
        assert (q <> ni) by (destruct (inv_valid _ _ _ _ _ HI _ _ _ _ HGq); unfold ni; lia).
        split; [apply Hpo_notp; done|].
        split; [unfold G2; rewrite !decide_False by done; done|].
        rewrite Hgi, !decide_False by done. done.
    - eapply leaf_part_frame; eauto; try done.
  Qed.
End Wide.

(** [InnerUpdateAfterSplit] climbs at most to the root: with fuel for the
    levels above the split node it returns a tree that satisfies the
    invariant again, and it touched routing nodes only. *)
Lemma IUAS_spec cfg (Hcfg : cfg_ok cfg) fuel :
  forall st G CV H n new s d lo hi,
    Inv_gen cfg st G CV H -> pending st G CV n new s d lo hi ->
    (H - d < fuel)%nat ->
    exists st' G' H',
      InnerUpdateAfterSplit cfg fuel st n new s = Some st' /\
      Inv_gen cfg st' G' G' H' /\ routing_only st st' G G'.
Proof.
  induction fuel as [|fuel IH]; intros st G CV H n new s d lo hi HI HP Hf; [lia|].
  destruct (parent_of st n) as [p|] eqn:Hp.
  - destruct (pending_parent cfg st G CV H HI n new s d lo hi HP p Hp)
      as (inner & i0 & LO & HI' & HGp & Hin & Hok & Hi0 & Hci0 & Elo & Ehi & _ & _ & _ & _ & Hch).
    destruct (le_lt_dec (S (keycount inner)) (INNER_KEYS cfg)) as [Hfit|Hfull].
    + destruct (IUAS_insert cfg Hcfg st G CV H HI n new s d lo hi HP p inner i0 LO HI'
                  Hp HGp Hin Hok Hi0 Hci0 Elo Ehi Hch fuel Hfit) as (st' & E & HI2 & HRO).
      exists st', G, H. done.
    + destruct (IUAS_split cfg Hcfg st G CV H HI n new s d lo hi HP p inner i0 LO HI'
                  Hp HGp Hin Hok Hi0 Hci0 Elo Ehi Hch Hfull fuel)
        as (st2 & G2 & CV2 & Msep & E & HI2 & HP2 & HRO).
      destruct (inv_valid _ _ _ _ _ HI _ _ _ _ HGp) as [_ Hd].
      destruct (IH st2 G2 CV2 H p (length (nodes st)) Msep (S d) LO HI' HI2 HP2 ltac:(lia))
        as (st' & G' & H' & E' & HI3 & HRO').
      exists st', G', H'. rewrite E. split; [done|]. split; [done|].
      eapply routing_only_trans; eauto.
  - destruct (IUAS_root cfg Hcfg st G CV H HI n new s d lo hi HP Hp fuel)
      as (st' & E & HI2 & HRO).
    eexists st', _, _. eauto.
Qed.

(** ** Sorting the keys of a full leaf *)

Lemma insert_key_perm x l : Permutation (insert_key x l) (x :: l).
Proof.
  induction l as [|y l IH]; simpl; [done|].
  destruct (compare_lt0 y x); [|done].
  rewrite IH. apply perm_swap.
Qed.

Lemma sort_keys_perm l : Permutation (sort_keys l) l.
Proof.
  induction l as [|x l IH]; simpl; [done|].
  rewrite insert_key_perm. constructor. done.
Qed.

Lemma insert_key_sorted x l :
  StronglySorted kle l -> StronglySorted kle (insert_key x l).
Proof.
  induction 1 as [|y l Hs IH Hall]; simpl.
  - constructor; constructor.
  - destruct (compare_lt0 y x) eqn:E.
    + apply compare_lt0_spec in E. constructor; [done|].
      rewrite insert_key_perm. constructor; [apply klt_kle; done|done].
    + apply compare_lt0_false in E. constructor; [constructor; done|].
      constructor; [done|].
      eapply List.Forall_impl; [|exact Hall]. intros z Hz. eapply kle_trans; eauto.
Qed.

Lemma sort_keys_sorted l : StronglySorted kle (sort_keys l).
Proof.
  induction l as [|x l IH]; simpl; [constructor|]. apply insert_key_sorted, IH.
Qed.

Lemma sorted_lookup_le l :
  StronglySorted kle l ->
  forall i j a b, (i < j)%nat -> l !! i = Some a -> l !! j = Some b -> kle a b.
Proof.
  induction 1 as [|x l Hs IH Hall]; intros i j a b Hij Ha Hb; [done|].
  destruct j as [|j]; [lia|]. simpl in Hb.
  destruct i as [|i]; simpl in Ha.
  - injection Ha as <-. rewrite List.Forall_forall in Hall. apply Hall.
    apply list_elem_of_In. eapply list_elem_of_lookup_2; eauto.
  - eapply IH; [|eauto|eauto]. lia.
Qed.

(** The element at an index below the last of the sorted sequence of
    pairwise different keys is one of the keys, and a greater key exists. *)
Lemma sorted_index_facts l M sk :
  NoDup l -> (S M < length l)%nat -> sort_keys l !! M = Some sk ->
  sk ∈ l /\ exists k', k' ∈ l /\ klt sk k'.
Proof.
  intros Hnd HM Hsk.
  pose proof (sort_keys_perm l) as Hp.
  split; [rewrite <- Hp; eapply list_elem_of_lookup_2; eauto|].
  assert (Hlen : length (sort_keys l) = length l) by (apply Permutation_length; done).
  destruct (lookup_lt_is_Some_2 (sort_keys l) (S M) ltac:(lia)) as [k' Hk'].
  exists k'. split; [rewrite <- Hp; eapply list_elem_of_lookup_2; eauto|].
  pose proof (sorted_lookup_le _ (sort_keys_sorted l) M (S M) sk k' ltac:(lia) Hsk Hk') as Hle.
  apply kle_iff in Hle as [Hlt| ->]; [done|].
  assert (Hnd' : NoDup (sort_keys l)) by (rewrite Hp; done).
  pose proof (NoDup_lookup _ _ _ _ Hnd' Hsk Hk'). lia.
Qed.

(** ** The loop of LeafSplitFull *)

Lemma split_move_step cfg st1 y pn ln pl lf nx sk j st' :
  (y < length (nodes st1))%nat -> leaf ln <> lf -> (j < LEAF_KEYS cfg)%nat ->
  length (hashes ln) = LEAF_KEYS cfg -> length (keys ln) = LEAF_KEYS cfg ->
  length (slots pl) = LEAF_KEYS cfg ->
  moved_state cfg st1 y pn ln pl lf nx sk (S j) st' ->
  exists st'',
    split_move y (length (nodes st1)) sk j st' = Some st'' /\
    moved_state cfg st1 y pn ln pl lf nx sk j st''.
Proof.
  intros Hy Hne Hj Lh Lk Ls
    (lnA & lnB & plA & plB & Htt & Hpre & Hhd & Hlen & Hlk & Hplen & Hplk
     & ElA & ElB & EnA & EnB & LhA & LkA & LsA & LhB & LkB & LsB & Hslots).
  assert (Hynew : y <> (length (nodes st1))) by lia.
  assert (HyA : nodes st' !! y = Some {| parent := pn; kind := LeafNode lnA |}).
  { rewrite Hlk, decide_True; done. }
  assert (HnB : nodes st' !! (length (nodes st1)) = Some {| parent := pn; kind := LeafNode lnB |}).
  { rewrite Hlk, decide_False by lia. rewrite decide_True; done. }
  assert (HpA : pleaves st' !! leaf ln = Some plA).
  { rewrite Hplk, decide_True; done. }
  assert (HpB : pleaves st' !! lf = Some plB).
  { rewrite Hplk, decide_False by done. rewrite decide_True; done. }
  pose proof (Hslots j Hj) as Hcur.
  rewrite bool_decide_eq_false_2 in Hcur by lia. cbn [andb] in Hcur.
  destruct Hcur as (HhA & HkA & HsA & HhB & HkB & HsB).
  destruct (lookup_lt_is_Some_2 (keys ln) j ltac:(lia)) as [k Hk].
  destruct (lookup_lt_is_Some_2 (hashes ln) j ltac:(lia)) as [h Hh].
  destruct (lookup_lt_is_Some_2 (slots pl) j ltac:(lia)) as [s Hs].
  unfold split_move. rewrite !get_leafnode_node, HyA, HnB. cbn [kind mbind option_bind].
  rewrite HkA, Hk. cbn [mbind option_bind].
  destruct (compare_gt0 k sk) eqn:Egt.
  - rewrite HhA, Hh. cbn [mbind option_bind].
    unfold read_pslot. rewrite ElA, ElB, HpA, HpB. cbn [mbind option_bind].
    rewrite HsA, Hs, HsB. cbn [mbind option_bind].
    unfold update_pslot. rewrite HpB. cbn [mbind option_bind].
    rewrite HsB. cbn [mbind option_bind].
    cbn [pleaves set_pleaves].
    rewrite list_lookup_insert_ne by done. rewrite HpA. cbn [mbind option_bind].
    rewrite HsA, Hs. cbn [mbind option_bind].
    unfold update_leafnode. cbn [nodes set_pleaves set_nodes].
    rewrite HnB. cbn [mbind option_bind parent nodes set_nodes].
    rewrite list_lookup_insert_ne by lia. rewrite HyA. cbn [mbind option_bind parent].
    eexists. split; [reflexivity|].
    exists {| hashes := <[j := 0]> (hashes lnA);
              keys := <[j := EmptyString]> (keys lnA); leaf := leaf ln |},
           {| hashes := <[j := h]> (hashes lnB);
              keys := <[j := k]> (keys lnB); leaf := lf |},
           {| slots := <[j := None]> (slots plA); next := next plA |},
           {| slots := <[j := s]> (slots plB); next := next plB |}.
    cbn [nodes tree_top leaves_prealloc pleaves head set_nodes set_pleaves
         hashes keys leaf slots next].
    rewrite !length_insert.
    split_and!; try done.
    + intros x. destruct (decide (x = y)) as [->|Hxy].
      * rewrite list_lookup_insert_eq by (rewrite length_insert, Hlen; lia). done.
      * rewrite list_lookup_insert_ne by done.
        destruct (decide (x = (length (nodes st1)))) as [->|Hxn].
        { rewrite list_lookup_insert_eq by (rewrite Hlen; lia). done. }
        rewrite list_lookup_insert_ne by done.
        rewrite Hlk, !decide_False by done. done.
    + intros l. destruct (decide (l = leaf ln)) as [->|Hl].
      * rewrite list_lookup_insert_eq; [done|].
        rewrite length_insert. eapply lookup_lt_Some; eauto.
      * rewrite list_lookup_insert_ne by done.
        destruct (decide (l = lf)) as [->|Hl2].
        { rewrite list_lookup_insert_eq; [done|]. eapply lookup_lt_Some; eauto. }
        rewrite list_lookup_insert_ne by done.
        rewrite Hplk, !decide_False by done. done.
    + intros slot Hslot. pose proof (Hslots slot Hslot) as Hc.
      destruct (decide (slot = j)) as [->|Hsj].
      * rewrite bool_decide_eq_true_2 by lia. rewrite Hk. cbn [default from_option id andb].
        rewrite Egt.
        rewrite !list_lookup_insert_eq by lia. rewrite Hh, Hs. done.
      * rewrite !list_lookup_insert_ne by done.
        destruct (decide (j <= slot)%nat).
        { rewrite bool_decide_eq_true_2 by lia.
          rewrite bool_decide_eq_true_2 in Hc by lia. done. }
        { rewrite bool_decide_eq_false_2 by lia.
          rewrite bool_decide_eq_false_2 in Hc by lia. done. }
  - exists st'. split; [done|].
    exists lnA, lnB, plA, plB. split_and!; try done.
    intros slot Hslot. pose proof (Hslots slot Hslot) as Hc.
    destruct (decide (slot = j)) as [->|Hsj].
    + rewrite Hk. cbn [default from_option id]. rewrite Egt, andb_false_r.
      rewrite bool_decide_eq_false_2 in Hc by lia. cbn [andb] in Hc. rewrite Hk in Hc. exact Hc.
    + destruct (decide (j <= slot)%nat).
      { rewrite bool_decide_eq_true_2 by lia.
        rewrite bool_decide_eq_true_2 in Hc by lia. done. }
      { rewrite bool_decide_eq_false_2 by lia.
        rewrite bool_decide_eq_false_2 in Hc by lia. done. }
Qed.

Lemma split_move_loop cfg st1 y pn ln pl lf nx sk :
  (y < length (nodes st1))%nat -> leaf ln <> lf ->
  length (hashes ln) = LEAF_KEYS cfg -> length (keys ln) = LEAF_KEYS cfg ->
  length (slots pl) = LEAF_KEYS cfg ->
  forall j st', (j <= LEAF_KEYS cfg)%nat ->
    moved_state cfg st1 y pn ln pl lf nx sk j st' ->
    exists st3,
      for_each (rev (seq 0 j)) (split_move y (length (nodes st1)) sk) st' = Some st3 /\
      moved_state cfg st1 y pn ln pl lf nx sk 0 st3.
Proof.
  intros Hy Hne Lh Lk Ls. induction j as [|j IH]; intros st' Hj HM.
  - exists st'. done.
  - rewrite seq_S, rev_app_distr. cbn [rev app for_each Nat.add].
    destruct (split_move_step cfg st1 y pn ln pl lf nx sk j st') as (st'' & -> & HM');
      auto; try lia.
    apply IH; [lia|done].
Qed.

Lemma split_body_moved cfg st y p ln pl st1 lf nx hash key value sk :
  nodes st !! y = Some {| parent := p; kind := LeafNode ln |} ->
  length (hashes ln) = LEAF_KEYS cfg -> length (keys ln) = LEAF_KEYS cfg ->
  length (slots pl) = LEAF_KEYS cfg ->
  obtain_leaf cfg st = (st1, lf) -> nodes st1 = nodes st ->
  leaf ln <> lf -> pleaves st1 !! leaf ln = Some pl ->
  pleaves st1 !! lf = Some {| slots := replicate (LEAF_KEYS cfg) None; next := nx |} ->
  exists st3,
    moved_state cfg st1 y p ln pl lf nx sk 0 st3 /\
    split_body cfg st y hash key value sk
    = LeafFillEmptySlot cfg st3
        (if compare_gt0 key sk then length (nodes st) else y) hash key value.
Proof.
  intros Hy Lh Lk Ls Hob Hn Hne Hpl Hlf.
  assert (Hylt : (y < length (nodes st1))%nat)
    by (rewrite Hn; eapply lookup_lt_Some; eauto).
  set (node := {| parent := p; kind := LeafNode (new_MVLeafNode cfg lf) |}).
  destruct (split_move_loop cfg st1 y p ln pl lf nx sk Hylt Hne Lh Lk Ls
              (LEAF_KEYS cfg) (push_node st1 node)) as (st3 & Hloop & HM); [lia| |].
  { exists ln, (new_MVLeafNode cfg lf), pl,
      {| slots := replicate (LEAF_KEYS cfg) None; next := nx |}.
    unfold push_node. cbn [nodes tree_top leaves_prealloc pleaves head set_nodes
                           hashes keys leaf slots next new_MVLeafNode].
    rewrite length_app, !length_replicate. cbn [length].
    split_and!; try done; try lia.
    - intros x. destruct (decide (x = y)) as [->|Hxy].
      + rewrite lookup_app_l by done. rewrite Hn. done.
      + destruct (decide (x = length (nodes st1))) as [->|Hxn].
        * rewrite lookup_app_r by lia. rewrite Nat.sub_diag. done.
        * destruct (decide (x < length (nodes st1))%nat).
          { rewrite lookup_app_l by done. done. }
          { rewrite !lookup_ge_None_2; [done|lia|].
            rewrite length_app. cbn [length]. lia. }
    - intros l. destruct (decide (l = leaf ln)) as [->|]; [done|].
      destruct (decide (l = lf)) as [->|]; done.
    - intros slot Hslot. rewrite bool_decide_eq_false_2 by lia. cbn [andb].
      rewrite !lookup_replicate_2 by done. done. }
  exists st3. split; [done|].
  unfold split_body. rewrite Hy. cbn [mbind option_bind]. rewrite Hob.
  cbn [parent]. fold node. rewrite <- Hn. rewrite Hloop. done.
Qed.

(** ** The split key *)

Lemma split_key_exists cfg ln key :
  length (keys ln) = LEAF_KEYS cfg ->
  exists sk, split_key_of cfg ln key = Some sk.
Proof.
  intros Lk. unfold split_key_of. apply lookup_lt_is_Some_2.
  rewrite (Permutation_length (sort_keys_perm _)), length_app, Lk. cbn [length].
  unfold LEAF_KEYS_MIDPOINT.
  pose proof (Nat.Div0.div_le_upper_bound (LEAF_KEYS cfg) 2 (LEAF_KEYS cfg)). lia.
Qed.

Lemma split_key_facts cfg ln key sk :
  (1 <= LEAF_KEYS cfg)%nat -> length (keys ln) = LEAF_KEYS cfg ->
  NoDup (keys ln ++ [key]) -> split_key_of cfg ln key = Some sk ->
  (sk = key \/ sk ∈ keys ln) /\
  (exists k', (k' = key \/ k' ∈ keys ln) /\ klt sk k') /\
  (compare_gt0 key sk = true -> exists j, keys ln !! j = Some sk) /\
  (compare_gt0 key sk = false ->
   exists j k, keys ln !! j = Some k /\ compare_gt0 k sk = true).
Proof.
  intros HL Lk Hnd Hsk. unfold split_key_of in Hsk.
  destruct (sorted_index_facts (keys ln ++ [key]) (LEAF_KEYS_MIDPOINT cfg) sk Hnd)
    as (Hin & k' & Hk' & Hlt); [|done|].
  { rewrite length_app, Lk. cbn [length]. unfold LEAF_KEYS_MIDPOINT.
    assert (LEAF_KEYS cfg / 2 < LEAF_KEYS cfg)%nat by (apply Nat.div_lt; lia). lia. }
  assert (Hmem : forall x, x ∈ keys ln ++ [key] -> x = key \/ x ∈ keys ln).
  { intros x Hx. apply elem_of_app in Hx as [?|Hx]; [auto|].
    apply list_elem_of_singleton in Hx. auto. }
  split; [auto|]. split; [eauto|]. split.
  - intros Hgt. apply compare_gt0_spec in Hgt.
    destruct (Hmem _ Hin) as [->|Hs]; [destruct (klt_irrefl _ Hgt)|].
    apply list_elem_of_lookup_1 in Hs. done.
  - intros Hle. apply compare_gt0_false in Hle.
    destruct (Hmem _ Hk') as [->|Hs].
    + apply kle_not_klt in Hle. done.
    + apply list_elem_of_lookup_1 in Hs as [j Hj]. exists j, k'. split; [done|].
      apply compare_gt0_spec. done.
Qed.

Lemma LeafFillSpecificSlot_parent_of st y hash key value slot st' :
  LeafFillSpecificSlot st y hash key value slot = Some st' ->
  forall x, parent_of st' x = parent_of st x.
Proof.
  unfold LeafFillSpecificSlot. intros Hf x.
  apply bind_Some in Hf as (ln & Hln & Hf).
  apply bind_Some in Hf as (h & Hh & Hf).
  apply bind_Some in Hf as (st1 & Hst1 & Hf).
  apply bind_Some in Hf as (s & Hs & Hf).
  unfold update_leafnode in Hst1. apply bind_Some in Hst1 as (n & Hn & [= <-]).
  unfold update_pslot in Hf. apply bind_Some in Hf as (pl & Hpl & Hf).
  apply bind_Some in Hf as (s0 & Hs0 & [= <-]).
  rewrite !parent_of_node. cbn [nodes set_pleaves set_nodes].
  destruct (decide (x = y)) as [->|Hne].
  - rewrite list_lookup_insert_eq by (eapply lookup_lt_Some; eauto).
    rewrite Hn. done.
  - rewrite list_lookup_insert_ne by done. done.
Qed.

(** ** Splitting a full leaf *)
Section SplitLeaf.
Variable cfg : Config.
Hypothesis Hcfg : cfg_ok cfg.
Variables (st : MVTree) (G : ghost) (H : nat).
Hypothesis HI : Inv_gen cfg st G G H.
Variables (t y : nat) (lo hi : bound) (key value : string).
Variables (p : option nat) (ln : MVLeafNode) (pl : MVLeaf).
Hypothesis Ht : tree_top st = Some t.
Hypothesis HG : G y = Some (O, lo, hi).
Hypothesis Hy : nodes st !! y = Some {| parent := p; kind := LeafNode ln |}.
Hypothesis Hpl : pleaves st !! leaf ln = Some pl.
Hypothesis Hok : leaf_ok_pl cfg ln pl lo hi.
Hypothesis Hfull : forall j, (j < LEAF_KEYS cfg)%nat ->
    exists b, slots pl !! j = Some (Some b) /\ slot_key b <> key.
Hypothesis Hlo : blt lo key.
Hypothesis Hhi : ble key hi.
Hypothesis Hsk : small key.
Hypothesis Hsv : small value.

Lemma full_slot j :
    (j < LEAF_KEYS cfg)%nat ->
    exists b, slots pl !! j = Some (Some b) /\ block_ok cfg b /\
              hashes ln !! j = Some (ph b) /\ keys ln !! j = Some (slot_key b) /\
              blt lo (slot_key b) /\ ble (slot_key b) hi /\ slot_key b <> key.
  Proof.
    intros Hj. destruct (Hfull j Hj) as (b & Hb & Hne).
    pose proof Hok as (_ & _ & _ & Hsl & _). specialize (Hsl j Hj).
    rewrite Hb in Hsl. exists b. tauto.
  Qed.

Lemma full_lengths :
    length (hashes ln) = LEAF_KEYS cfg /\ length (keys ln) = LEAF_KEYS cfg /\
    length (slots pl) = LEAF_KEYS cfg.
  Proof. pose proof Hok as (? & ? & ? & _). done. Qed.

Lemma full_key_elem k :
    k ∈ keys ln ->
    exists j b, (j < LEAF_KEYS cfg)%nat /\ slots pl !! j = Some (Some b) /\
                slot_key b = k /\ keys ln !! j = Some k /\
                blt lo k /\ ble k hi /\ k <> key.
  Proof.
    intros Hk. apply list_elem_of_lookup_1 in Hk as [j Hj].
    destruct full_lengths as (_ & Lk & _).
    assert (Hlt : (j < LEAF_KEYS cfg)%nat) by (rewrite <- Lk; eapply lookup_lt_Some; eauto).
    destruct (full_slot j Hlt) as (b & Hb & _ & _ & Hkb & Hl & Hh & Hne).
    assert (slot_key b = k) as <- by congruence.
    exists j, b. done.
  Qed.

Lemma full_keys_nodup : NoDup (keys ln ++ [key]).
  Proof.
    destruct full_lengths as (_ & Lk & _).
    apply NoDup_app. split; [|split].
    - apply NoDup_alt. intros i j k Hi Hj.
      assert (Hil : (i < LEAF_KEYS cfg)%nat) by (rewrite <- Lk; eapply lookup_lt_Some; eauto).
      assert (Hjl : (j < LEAF_KEYS cfg)%nat) by (rewrite <- Lk; eapply lookup_lt_Some; eauto).
      destruct (full_slot i Hil) as (bi & Hbi & _ & _ & Hki & _).
      destruct (full_slot j Hjl) as (bj & Hbj & _ & _ & Hkj & _).
      pose proof Hok as (_ & _ & _ & _ & Hu).
      eapply Hu; eauto. congruence.
    - intros k Hk Hk'. apply list_elem_of_singleton in Hk'.
      destruct (full_key_elem k Hk) as (_ & _ & _ & _ & _ & _ & _ & _ & Hne). done.
    - apply NoDup_singleton.
  Qed.

Lemma key_absent v : ~ contents st key v.
  Proof.
    intros (lf0 & slot & b & Hr & Hk & _).
    assert (Hyl : get_leafnode st y = Some ln) by (apply get_leafnode_Some; eauto).
    pose proof (routed_location cfg st G H HI key y lo hi ln lf0 slot b HG Hlo Hhi Hyl Hr Hk)
      as ->.
    unfold read_pslot in Hr. rewrite Hpl in Hr. cbn [mbind option_bind] in Hr.
    destruct full_lengths as (_ & _ & Ls).
    assert (Hlt : (slot < LEAF_KEYS cfg)%nat) by (rewrite <- Ls; eapply lookup_lt_Some; eauto).
    destruct (Hfull slot Hlt) as (b' & Hb' & Hne). congruence.
  Qed.

Variable sk : string.
Hypothesis Hsplit : split_key_of cfg ln key = Some sk.

Lemma split_key_range : blt lo sk /\ bslt sk hi.
  Proof.
    destruct Hcfg as (HL & _). destruct full_lengths as (_ & Lk & _).
    destruct (split_key_facts cfg ln key sk HL Lk full_keys_nodup Hsplit)
      as (Hin & (k' & Hk' & Hlt) & _).
    split.
    - destruct Hin as [->|Hin]; [done|].
      destruct (full_key_elem _ Hin) as (_ & _ & _ & _ & _ & _ & Hl & _). done.
    - assert (Hk'hi : ble k' hi).
      { destruct Hk' as [->|Hin']; [done|].
        destruct (full_key_elem _ Hin') as (_ & _ & _ & _ & _ & _ & _ & Hh & _). done. }
      destruct hi as [h|]; [|done]. simpl in *. eauto with korder.
  Qed.

Section Moved.
Variables (st1 : MVTree) (lf : nat) (nx : option nat) (st3 : MVTree).
Hypothesis Hob : obtain_leaf cfg st = (st1, lf).
Hypothesis Hlf : pleaves st1 !! lf
      = Some {| slots := replicate (LEAF_KEYS cfg) None; next := nx |}.
Hypothesis HM : moved_state cfg st1 y p ln pl lf nx sk 0 st3.

Let new := length (nodes st).
Let G1 : ghost := fun x =>
      if decide (x = y) then Some (O, lo, Some sk)
      else if decide (x = new) then Some (O, Some sk, hi) else G x.

Lemma moved_base :
      nodes st1 = nodes st /\ tree_top st1 = tree_top st /\
      ~ owned st G lf /\ owned st G (leaf ln) /\ leaf ln <> lf /\
      (forall i, i <> lf -> pleaves st1 !! i = pleaves st !! i) /\
      chain_ok cfg st1 /\ (y < new)%nat /\ G new = None /\
      get_leafnode st y = Some ln.
    Proof.
      destruct (obtain_leaf_spec _ _ _ _ _ _ _ HI Hob)
        as (Hn & Htt & _ & Hno & Hother & Hchain & _).
      assert (Hyl : get_leafnode st y = Some ln) by (apply get_leafnode_Some; eauto).
      assert (Hown : owned st G (leaf ln)) by (exists y, ln, lo, hi; done).
      split_and!; try done.
      - intros E. apply Hno. rewrite <- E. done.
      - eapply lookup_lt_Some; eauto.
      - destruct (G new) as [[[d l] h]|] eqn:E; [|done].
        destruct (inv_valid _ _ _ _ _ HI _ _ _ _ E). unfold new in *. lia.
    Qed.

Lemma moved_parts :
      exists lnA lnB plA plB,
        nodes st3 !! y = Some {| parent := p; kind := LeafNode lnA |} /\
        nodes st3 !! new = Some {| parent := p; kind := LeafNode lnB |} /\
        pleaves st3 !! leaf ln = Some plA /\ pleaves st3 !! lf = Some plB /\
        leaf lnA = leaf ln /\ leaf lnB = lf /\
        next plA = next pl /\ next plB = nx /\
        leaf_ok_pl cfg lnA plA lo (Some sk) /\
        leaf_ok_pl cfg lnB plB (Some sk) hi /\
        (forall slot b, slots plA !! slot = Some (Some b) ->
                        slots pl !! slot = Some (Some b)) /\
        (forall slot b, slots plB !! slot = Some (Some b) ->
                        slots pl !! slot = Some (Some b)) /\
        (forall slot b, slots pl !! slot = Some (Some b) ->
                        slots plA !! slot = Some (Some b) \/
                        slots plB !! slot = Some (Some b)) /\
        (forall slot k, keys ln !! slot = Some k -> compare_gt0 k sk = true ->
                        hashes lnA !! slot = Some 0) /\
        (forall slot k, keys ln !! slot = Some k -> compare_gt0 k sk = false ->
                        hashes lnB !! slot = Some 0).
    Proof.
      destruct moved_base as (Hn & Htt & Hno & Hown & Hne & Hother & Hchain & Hylt & HGnew & Hyl).
      destruct full_lengths as (Lh & Lk & Ls).
      destruct HM as (lnA & lnB & plA & plB & Htt3 & Hpre & Hhd & Hlen & Hlk & Hplen & Hplk
                      & ElA & ElB & EnA & EnB & LhA & LkA & LsA & LhB & LkB & LsB & Hslots).
      exists lnA, lnB, plA, plB.
      assert (Hcase : forall slot, (slot < LEAF_KEYS cfg)%nat ->
                exists b, slots pl !! slot = Some (Some b) /\ block_ok cfg b /\
                  hashes ln !! slot = Some (ph b) /\ keys ln !! slot = Some (slot_key b) /\
                  blt lo (slot_key b) /\ ble (slot_key b) hi /\
                  ((compare_gt0 (slot_key b) sk = true /\
                    hashes lnA !! slot = Some 0 /\ keys lnA !! slot = Some EmptyString /\
                    slots plA !! slot = Some None /\
                    hashes lnB !! slot = Some (ph b) /\
                    keys lnB !! slot = Some (slot_key b) /\
                    slots plB !! slot = Some (Some b)) \/
                   (compare_gt0 (slot_key b) sk = false /\
                    hashes lnA !! slot = Some (ph b) /\
                    keys lnA !! slot = Some (slot_key b) /\
                    slots plA !! slot = Some (Some b) /\
                    hashes lnB !! slot = Some 0 /\ keys lnB !! slot = Some EmptyString /\
                    slots plB !! slot = Some None))).
      { intros slot Hslot. destruct (full_slot slot Hslot) as (b & Hb & Hbok & Hh & Hk & Hl & Hhh & _).
        exists b. split_and!; try done.
        pose proof (Hslots slot Hslot) as Hc.
        rewrite bool_decide_eq_true_2 in Hc by lia. cbn [andb] in Hc.
        rewrite Hk in Hc. cbn [default from_option id] in Hc.
        rewrite Hh, Hb in Hc.
        destruct (compare_gt0 (slot_key b) sk); [left|right]; tauto. }
      assert (HltA : forall slot s, slots plA !! slot = Some s -> (slot < LEAF_KEYS cfg)%nat).
      { intros slot s Hs. rewrite <- LsA. eapply lookup_lt_Some; eauto. }
      assert (HltB : forall slot s, slots plB !! slot = Some s -> (slot < LEAF_KEYS cfg)%nat).
      { intros slot s Hs. rewrite <- LsB. eapply lookup_lt_Some; eauto. }
      assert (HA : forall slot b, slots plA !! slot = Some (Some b) ->
                slots pl !! slot = Some (Some b) /\ compare_gt0 (slot_key b) sk = false).
      { intros slot b Hs.
        destruct (Hcase slot (HltA _ _ Hs)) as (b' & Hb' & _ & _ & _ & _ & _ & [Hc|Hc]).
        - destruct Hc as (_ & _ & _ & Hn' & _). congruence.
        - destruct Hc as (Hgt & _ & _ & Hs' & _).
          assert (b' = b) as -> by congruence. done. }
      assert (HB : forall slot b, slots plB !! slot = Some (Some b) ->
                slots pl !! slot = Some (Some b) /\ compare_gt0 (slot_key b) sk = true).
      { intros slot b Hs.
        destruct (Hcase slot (HltB _ _ Hs)) as (b' & Hb' & _ & _ & _ & _ & _ & [Hc|Hc]).
        - destruct Hc as (Hgt & _ & _ & _ & _ & _ & Hs').
          assert (b' = b) as -> by congruence. done.
        - destruct Hc as (_ & _ & _ & _ & _ & _ & Hn'). congruence. }
      pose proof Hok as (_ & _ & _ & _ & Hu).
      split; [rewrite Hlk, decide_True; done|].
      split; [rewrite Hlk, decide_False by (unfold new in Hylt; lia);
              rewrite Hn; fold new; rewrite decide_True; done|].
      split; [rewrite Hplk, decide_True; done|].
      split; [rewrite Hplk, decide_False by done; rewrite decide_True; done|].
      split_and!; try done.
      - unfold leaf_ok_pl. split_and!; try done.
        + intros slot Hslot.
          destruct (Hcase slot Hslot) as (b & Hb & Hbok & _ & _ & Hl & _ & [Hc|Hc]).
          * destruct Hc as (_ & -> & -> & -> & _). done.
          * destruct Hc as (Hgt & -> & -> & -> & _). split_and!; try done.
            simpl. apply compare_gt0_false. done.
        + intros s1 s2 b1 b2 H1 H2 E.
          apply HA in H1 as [H1 _]. apply HA in H2 as [H2 _]. eapply Hu; eauto.
      - unfold leaf_ok_pl. split_and!; try done.
        + intros slot Hslot.
          destruct (Hcase slot Hslot) as (b & Hb & Hbok & _ & _ & _ & Hh' & [Hc|Hc]).
          * destruct Hc as (Hgt & _ & _ & _ & -> & -> & ->). split_and!; try done.
            simpl. apply compare_gt0_spec. done.
          * destruct Hc as (_ & _ & _ & _ & -> & -> & ->). done.
        + intros s1 s2 b1 b2 H1 H2 E.
          apply HB in H1 as [H1 _]. apply HB in H2 as [H2 _]. eapply Hu; eauto.
      - intros slot b Hs. apply HA in Hs. tauto.
      - intros slot b Hs. apply HB in Hs. tauto.
      - intros slot b Hs.
        assert (Hslot : (slot < LEAF_KEYS cfg)%nat)
          by (rewrite <- Ls; eapply lookup_lt_Some; eauto).
        destruct (Hcase slot Hslot) as (b' & Hb' & _ & _ & _ & _ & _ & [Hc|Hc]);
          assert (b' = b) as -> by congruence; tauto.
      - intros slot k Hk Hgt.
        assert (Hslot : (slot < LEAF_KEYS cfg)%nat)
          by (rewrite <- Lk; eapply lookup_lt_Some; eauto).
        destruct (Hcase slot Hslot) as (b' & _ & _ & _ & Hk' & _ & _ & [Hc|Hc]).
        + tauto.
        + destruct Hc as (Hle & _). congruence.
      - intros slot k Hk Hgt.
        assert (Hslot : (slot < LEAF_KEYS cfg)%nat)
          by (rewrite <- Lk; eapply lookup_lt_Some; eauto).
        destruct (Hcase slot Hslot) as (b' & _ & _ & _ & Hk' & _ & _ & [Hc|Hc]).
        + destruct Hc as (Hle & _). congruence.
        + tauto.
    Qed.

Lemma moved_frame :
      tree_top st3 = Some t /\ leaves_prealloc st3 = leaves_prealloc st1 /\
      head st3 = head st1 /\ length (nodes st3) = S new /\
      (forall x, x <> y -> x <> new -> nodes st3 !! x = nodes st !! x) /\
      length (pleaves st3) = length (pleaves st1) /\
      (forall l, l <> leaf ln -> l <> lf -> pleaves st3 !! l = pleaves st !! l).
    Proof.
      destruct moved_base as (Hn & Htt & Hno & Hown & Hne & Hother & Hchain & Hylt & HGnew & Hyl).
      destruct HM as (lnA & lnB & plA & plB & Htt3 & Hpre & Hhd & Hlen & Hlk & Hplen & Hplk & _).
      split_and!; try done.
      - congruence.
      - rewrite Hlen, Hn. done.
      - intros x Hxy Hxn. rewrite Hlk, decide_False by done.
        rewrite Hn. fold new. rewrite decide_False by done. done.
      - intros l H1 H2. rewrite Hplk, !decide_False by done. auto.
    Qed.

Lemma moved_leafof x lo' hi' lnx :
      G1 x = Some (O, lo', hi') -> get_leafnode st3 x = Some lnx ->
      (x = y /\ leaf lnx = leaf ln) \/ (x = new /\ leaf lnx = lf) \/
      (x <> y /\ x <> new /\ G x = Some (O, lo', hi') /\
       get_leafnode st x = Some lnx /\ leaf lnx <> leaf ln /\ leaf lnx <> lf).
    Proof.
      destruct moved_base as (Hn & Htt & Hno & Hown & Hne & Hother & Hchain & Hylt & HGnew & Hyl).
      destruct moved_parts as (lnA & lnB & plA & plB & HyA & HnB & _ & _ & ElA & ElB & _).
      destruct moved_frame as (_ & _ & _ & _ & Hlk & _).
      unfold G1. intros HG1 Hl. rewrite get_leafnode_node in Hl.
      destruct (decide (x = y)) as [->|Hxy].
      { left. rewrite HyA in Hl. injection Hl as <-. done. }
      destruct (decide (x = new)) as [->|Hxn].
      { right. left. rewrite HnB in Hl. injection Hl as <-. done. }
      right. right. rewrite Hlk in Hl by done. rewrite <- get_leafnode_node in Hl.
      split_and!; try done.
      - intros E. apply Hxy. symmetry.
        eapply (inv_leaf_distinct _ _ _ _ _ HI y x); eauto.
      - intros E. apply Hno. exists x, lnx, lo', hi'. done.
    Qed.

Lemma moved_owned l :
      owned st3 G1 l <-> l = leaf ln \/ l = lf \/ owned st G l.
    Proof.
      destruct moved_base as (Hn & Htt & Hno & Hown & Hne & Hother & Hchain & Hylt & HGnew & Hyl).
      destruct moved_parts as (lnA & lnB & plA & plB & HyA & HnB & _ & _ & ElA & ElB & _).
      destruct moved_frame as (_ & _ & _ & _ & Hlk & _).
      split.
      - intros (x & lnx & lo' & hi' & HG1 & Hl & <-).
        destruct (moved_leafof _ _ _ _ HG1 Hl) as [[_ E]|[[_ E]|(_ & _ & HGx & Hlx & _)]];
          auto.
        right. right. exists x, lnx, lo', hi'. done.
      - intros [->|[->|(x & lnx & lo' & hi' & HGx & Hl & <-)]].
        + exists y, lnA, lo, (Some sk). unfold G1. rewrite decide_True by done.
          rewrite get_leafnode_node, HyA. done.
        + exists new, lnB, (Some sk), hi. unfold G1.
          rewrite decide_False by (unfold new in *; lia). rewrite decide_True by done.
          rewrite get_leafnode_node, HnB. done.
        + destruct (decide (x = y)) as [->|Hxy].
          { assert (lnx = ln) as -> by congruence.
            exists y, lnA, lo, (Some sk). unfold G1. rewrite decide_True by done.
            rewrite get_leafnode_node, HyA. done. }
          assert (Hxn : x <> new) by (intros ->; congruence).
          exists x, lnx, lo', hi'. unfold G1. rewrite !decide_False by done.
          rewrite get_leafnode_node, Hlk by done. rewrite <- get_leafnode_node. done.
    Qed.

Lemma moved_Inv : Inv_gen cfg st3 G1 G H.
    Proof.
      destruct moved_base as (Hn & Htt & Hno & Hown & Hne & Hother & Hchain & Hylt & HGnew & Hyl).
      destruct moved_parts as (lnA & lnB & plA & plB & HyA & HnB & HpA & HpB & ElA & ElB
                               & EnA & EnB & HokA & HokB & _).
      destruct moved_frame as (Ht3 & Hpre & Hhd & Hlen & Hlk & Hplen & Hplk).
      destruct (obtain_leaf_spec _ _ _ _ _ _ _ HI Hob)
        as (_ & _ & _ & _ & _ & _ & Hnd & Hpre1).
      apply (Inv_gen_leaf_frame cfg st st3 G G1 G H t HI Ht Ht3).
      - rewrite Hlen. unfold new. lia.
      - intros x Hx. rewrite !parent_of_node.
        destruct (decide (x = y)) as [->|Hxy]; [rewrite HyA, Hy; done|].
        rewrite Hlk by (unfold new; lia). done.
      - intros x Hx. rewrite !get_inner_node.
        destruct (decide (x = y)) as [->|Hxy]; [rewrite HyA, Hy; done|].
        rewrite Hlk by (unfold new; lia). done.
      - intros x d lo' hi'. unfold G1.
        destruct (decide (x = y)) as [->|Hxy]; [rewrite HG; split; discriminate|].
        destruct (decide (x = new)) as [->|Hxn]; [rewrite HGnew; split; discriminate|].
        done.
      - intros x lo' hi' HG1.
        unfold G1 in HG1.
        destruct (decide (x = y)) as [->|Hxy].
        { injection HG1 as <- <-. split; [rewrite Hlen; lia|].
          exists lnA. rewrite get_leafnode_node, HyA. split; [done|].
          apply leaf_ok_iff. exists plA. rewrite ElA. done. }
        destruct (decide (x = new)) as [->|Hxn].
        { injection HG1 as <- <-. split; [rewrite Hlen; lia|].
          exists lnB. rewrite get_leafnode_node, HnB. split; [done|].
          apply leaf_ok_iff. exists plB. rewrite ElB. done. }
        destruct (inv_valid _ _ _ _ _ HI _ _ _ _ HG1) as [Hxlt _].
        split; [rewrite Hlen; unfold new; lia|].
        destruct (inv_leaf _ _ _ _ _ HI _ _ _ HG1) as (lnx & Hlx & Hokx).
        exists lnx. rewrite get_leafnode_node, Hlk by done.
        rewrite <- get_leafnode_node. split; [done|].
        eapply leaf_ok_pool_eq; [|exact Hokx]. apply Hplk.
        + intros E. apply Hxy. symmetry.
          eapply (inv_leaf_distinct _ _ _ _ _ HI y x); eauto.
        + intros E. apply Hno. exists x, lnx, lo', hi'. done.
      - intros x x' lnx lnx' lox hix lox' hix' HGx HGx' Hlx Hlx' E.
        destruct (moved_leafof _ _ _ _ HGx Hlx)
          as [[-> E1]|[[-> E1]|(N1 & N2 & HGo & Hlo' & N3 & N4)]];
        destruct (moved_leafof _ _ _ _ HGx' Hlx')
          as [[-> E2]|[[-> E2]|(M1 & M2 & HGo' & Hlo'' & M3 & M4)]];
          try done; try congruence.
        eapply (inv_leaf_distinct _ _ _ _ _ HI x x'); eauto.
      - rewrite Hpre. split; [done|]. intros l Hl.
        destruct (Hpre1 l Hl) as [Hllf Hl0].
        destruct (inv_prealloc _ _ _ _ _ HI) as [_ Hp0].
        destruct (Hp0 l Hl0) as [(pl0 & Hpl0 & He) Hnown].
        assert (Hlln : l <> leaf ln) by (intros ->; done).
        split.
        + exists pl0. rewrite Hplk by done. done.
        + rewrite moved_owned. tauto.
      - intros l pl' Hl. rewrite moved_owned.
        destruct (decide (l = leaf ln)); [auto|].
        destruct (decide (l = lf)); [auto|].
        rewrite Hplk in Hl by done.
        destruct (inv_owned _ _ _ _ _ HI _ _ Hl); auto.
      - destruct Hchain as [Hh Hc]. split.
        + rewrite Hhd, Hplen. done.
        + intros i pl' Hi.
          destruct (decide (i = leaf ln)) as [->|Hi1].
          { assert (pl' = plA) as -> by congruence.
            rewrite EnA. destruct HokA as (_ & _ & LsA & _). split; [|done].
            apply (Hc (leaf ln) pl). rewrite Hother by done. done. }
          destruct (decide (i = lf)) as [->|Hi2].
          { assert (pl' = plB) as -> by congruence.
            rewrite EnB. destruct HokB as (_ & _ & LsB & _). split; [|done].
            apply (Hc lf _ Hlf). }
          rewrite Hplk in Hi by done. rewrite <- Hother in Hi by done.
          apply (Hc i pl' Hi).
    Qed.

Lemma moved_contents k v : contents st3 k v <-> contents st k v.
    Proof.
      destruct moved_base as (Hn & Htt & Hno & Hown & Hne & Hother & Hchain & Hylt & HGnew & Hyl).
      destruct moved_parts as (lnA & lnB & plA & plB & HyA & HnB & HpA & HpB & ElA & ElB
                               & EnA & EnB & HokA & HokB & HA & HB & HAB & _).
      destruct moved_frame as (Ht3 & Hpre & Hhd & Hlen & Hlk & Hplen & Hplk).
      unfold contents, read_pslot. split.
      - intros (l & slot & b & Hr & Hk & Hv).
        destruct (decide (l = leaf ln)) as [->|H1].
        { rewrite HpA in Hr. cbn [mbind option_bind] in Hr. apply HA in Hr.
          exists (leaf ln), slot, b. rewrite Hpl. done. }
        destruct (decide (l = lf)) as [->|H2].
        { rewrite HpB in Hr. cbn [mbind option_bind] in Hr. apply HB in Hr.
          exists (leaf ln), slot, b. rewrite Hpl. done. }
        rewrite Hplk in Hr by done. exists l, slot, b. done.
      - intros (l & slot & b & Hr & Hk & Hv).
        destruct (decide (l = leaf ln)) as [->|H1].
        { rewrite Hpl in Hr. cbn [mbind option_bind] in Hr.
          destruct (HAB _ _ Hr) as [Hs|Hs].
          - exists (leaf ln), slot, b. rewrite HpA. done.
          - exists lf, slot, b. rewrite HpB. done. }
        destruct (decide (l = lf)) as [->|H2].
        { destruct (pleaves st !! lf) as [pl0|] eqn:E; [|done].
          cbn [mbind option_bind] in Hr.
          destruct (inv_owned _ _ _ _ _ HI _ _ E) as [?|He]; [done|].
          rewrite He in Hr. apply lookup_replicate in Hr as [? _]. done. }
        exists l, slot, b. rewrite Hplk by done. done.
    Qed.

Lemma moved_fill_at T lnT plT loT hiT j0 :
      G1 T = Some (O, loT, hiT) ->
      nodes st3 !! T = Some {| parent := p; kind := LeafNode lnT |} ->
      pleaves st3 !! leaf lnT = Some plT ->
      leaf_ok_pl cfg lnT plT loT hiT ->
      blt loT key -> ble key hiT -> hashes lnT !! j0 = Some 0 ->
      exists st4,
        LeafFillEmptySlot cfg st3 T (PearsonHash cfg key) key value = Some st4 /\
        Inv_gen cfg st4 G1 G H /\
        (forall x, parent_of st4 x = parent_of st3 x) /\
        forall k v, contents st4 k v <->
                    (k = key /\ v = value) \/ (k <> key /\ contents st k v).
    Proof.
      intros HGT HT HpT HokT HloT HhiT Hj0.
      destruct moved_frame as (Ht3 & _).
      assert (Habs : forall l j b, read_pslot st3 l j = Some (Some b) -> slot_key b <> key).
      { intros l j b Hr E. apply (key_absent (slot_val b)). apply moved_contents.
        exists l, j, b. done. }
      unfold LeafFillEmptySlot. rewrite get_leafnode_node, HT. cbn [kind mbind option_bind].
      destruct (scan_down _ _) as [e|] eqn:Esc.
      - destruct (scan_down_Some _ _ _ Esc) as (He & Hpe & _).
        destruct (hashes lnT !! e) as [h|] eqn:Hh; [|discriminate].
        apply Z.eqb_eq in Hpe. subst h.
        destruct (fill_at cfg st3 G1 G H moved_Inv t T p lnT plT loT hiT Ht3 HGT HT HpT HokT
                    e He 0 key value) as (st4 & Hf & HI4 & _ & Hc); auto.
        + intros Hz. destruct Hz. reflexivity.
        + intros j b _ Hb. apply (Habs (leaf lnT) j b). unfold read_pslot.
          rewrite HpT. done.
        + intros l j b _ Hr. eapply Habs; eauto.
        + exists st4. split; [done|]. split; [done|].
          split; [eapply LeafFillSpecificSlot_parent_of; eauto|].
          intros k v. rewrite Hc. rewrite moved_contents. done.
      - pose proof Hok as Hok'. destruct HokT as (LhT & _).
        assert (Hlt : (j0 < LEAF_KEYS cfg)%nat)
          by (rewrite <- LhT; eapply lookup_lt_Some; eauto).
        pose proof (scan_down_None _ _ Esc j0 Hlt) as Hn. cbv beta in Hn.
        rewrite Hj0 in Hn. discriminate.
    Qed.

Lemma moved_fill :
      exists st4,
        LeafFillEmptySlot cfg st3 (if compare_gt0 key sk then new else y)
          (PearsonHash cfg key) key value = Some st4 /\
        Inv_gen cfg st4 G1 G H /\ pending st4 G1 G y new sk O lo hi /\
        tree_top st4 = Some t /\
        forall k v, contents st4 k v <->
                    (k = key /\ v = value) \/ (k <> key /\ contents st k v).
    Proof.
      destruct moved_base as (Hn & Htt & Hno & Hown & Hne & Hother & Hchain & Hylt & HGnew & Hyl).
      destruct moved_parts as (lnA & lnB & plA & plB & HyA & HnB & HpA & HpB & ElA & ElB
                               & EnA & EnB & HokA & HokB & HA & HB & HAB & HmA & HmB).
      destruct Hcfg as (HL & _). destruct full_lengths as (_ & Lk & _).
      destruct (split_key_facts cfg ln key sk HL Lk full_keys_nodup Hsplit)
        as (_ & _ & Hnew & Hold).
      destruct split_key_range as [Hlos Hshi].
      assert (HG1y : G1 y = Some (O, lo, Some sk)) by (unfold G1; rewrite decide_True; done).
      assert (HG1n : G1 new = Some (O, Some sk, hi)).
      { unfold G1. rewrite decide_False by lia. rewrite decide_True; done. }
      assert (Hfin : exists st4,
        LeafFillEmptySlot cfg st3 (if compare_gt0 key sk then new else y)
          (PearsonHash cfg key) key value = Some st4 /\
        Inv_gen cfg st4 G1 G H /\
        (forall x, parent_of st4 x = parent_of st3 x) /\
        forall k v, contents st4 k v <->
                    (k = key /\ v = value) \/ (k <> key /\ contents st k v)).
      { destruct (compare_gt0 key sk) eqn:Egt.
        - destruct (Hnew eq_refl) as [j Hj].
          apply (moved_fill_at new lnB plB (Some sk) hi j); auto.
          + rewrite ElB. done.
          + simpl. apply compare_gt0_spec. done.
          + apply (HmB j sk Hj). apply compare_gt0_false. apply kle_refl.
        - destruct (Hold eq_refl) as (j & k & Hj & Hgt).
          apply (moved_fill_at y lnA plA lo (Some sk) j); auto.
          + rewrite ElA. done.
          + simpl. apply compare_gt0_false. done.
          + apply (HmA j k Hj Hgt). }
      destruct Hfin as (st4 & Hf & HI4 & Hpar & Hc).
      exists st4. split; [done|]. split; [done|]. split.
      - unfold pending. split; [done|]. split; [done|]. split.
        { intros x. unfold G1. destruct (decide (x = y)) as [->|]; [done|].
          destruct (decide (x = new)) as [->|]; done. }
        split; [done|]. split; [done|]. split; [lia|].
        rewrite !Hpar, !parent_of_node, HyA, HnB. done.
      - split; [|done].
        pose proof (inv_top _ _ _ _ _ HI4) as Htop.
        destruct (tree_top st4) as [t4|] eqn:E.
        + destruct moved_frame as (Ht3 & _).
          unfold LeafFillEmptySlot in Hf.
          destruct (get_leafnode st3 _); [|discriminate]. cbn [mbind option_bind] in Hf.
          destruct (scan_down _ _).
          * unfold LeafFillSpecificSlot in Hf.
            repeat (apply bind_Some in Hf as (? & ? & Hf)).
            unfold update_pslot in Hf. repeat (apply bind_Some in Hf as (? & ? & Hf)).
            injection Hf as <-. unfold update_leafnode in *.
            repeat match goal with
                   | Hx : _ ≫= _ = Some _ |- _ => apply bind_Some in Hx as (? & ? & Hx)
                   end.
            match goal with Hx : Some _ = Some _ |- _ => injection Hx as <- end.
            cbn in E. congruence.
          * injection Hf as <-. congruence.
        + rewrite Htop in HG1y. discriminate.
    Qed.
End Moved.

Lemma split_body_spec :
    exists st4 G1,
      split_body cfg st y (PearsonHash cfg key) key value sk = Some st4 /\
      Inv_gen cfg st4 G1 G H /\
      pending st4 G1 G y (length (nodes st)) sk O lo hi /\
      tree_top st4 = Some t /\
      forall k v, contents st4 k v <->
                  (k = key /\ v = value) \/ (k <> key /\ contents st k v).
  Proof.
    destruct (obtain_leaf cfg st) as [st1 lf] eqn:Hob.
    destruct (obtain_leaf_spec _ _ _ _ _ _ _ HI Hob)
      as (Hn & Htt & [nx Hlf] & Hno & Hother & _).
    destruct full_lengths as (Lh & Lk & Ls).
    assert (Hne : leaf ln <> lf).
    { intros E. apply Hno. exists y, ln, lo, hi. split; [done|].
      split; [apply get_leafnode_Some; eauto|done]. }
    destruct (split_body_moved cfg st y p ln pl st1 lf nx (PearsonHash cfg key) key value sk
                Hy Lh Lk Ls Hob Hn Hne) as (st3 & HM & Hsb); [rewrite Hother; done|done|].
    destruct (moved_fill st1 lf nx st3 Hob Hlf HM) as (st4 & Hf & HI4 & HP4 & Ht4 & Hc).
    eexists st4, _. rewrite Hsb. split; [exact Hf|]. split; [exact HI4|]. done.
  Qed.
End SplitLeaf.

Lemma contents_pleaves_eq st st' k v :
  pleaves st' = pleaves st -> contents st' k v <-> contents st k v.
Proof. unfold contents, read_pslot. intros ->. done. Qed.

Lemma LeafSplitFull_spec cfg st G H t y lo hi key value p ln pl :
  cfg_ok cfg -> Inv_gen cfg st G G H -> tree_top st = Some t ->
  G y = Some (O, lo, hi) ->
  nodes st !! y = Some {| parent := p; kind := LeafNode ln |} ->
  pleaves st !! leaf ln = Some pl -> leaf_ok_pl cfg ln pl lo hi ->
  (forall j, (j < LEAF_KEYS cfg)%nat ->
     exists b, slots pl !! j = Some (Some b) /\ slot_key b <> key) ->
  blt lo key -> ble key hi -> small key -> small value ->
  exists st' G' H',
    LeafSplitFull cfg true st y (PearsonHash cfg key) key value = Some (st', true) /\
    Inv_gen cfg st' G' G' H' /\
    forall k v, contents st' k v <->
                (k = key /\ v = value) \/ (k <> key /\ contents st k v).
Proof.
  intros Hcfg HI Ht HG Hy Hpl Hok Hfull Hlo Hhi Hsk Hsv.
  pose proof Hok as (_ & Lk & _).
  destruct (split_key_exists cfg ln key Lk) as [sk Hsplit].
  destruct (split_body_spec cfg Hcfg st G H HI t y lo hi key value p ln pl
              Ht HG Hy Hpl Hok Hfull Hlo Hhi Hsk Hsv sk Hsplit)
    as (st4 & G1 & Hsb & HI4 & HP4 & Ht4 & Hc).
  pose proof (inv_top _ _ _ _ _ HI4) as Htop. rewrite Ht4 in Htop.
  destruct Htop as (_ & _ & _ & HHlt).
  destruct (IUAS_spec cfg Hcfg (length (nodes st4)) st4 G1 G H y (length (nodes st)) sk
              O lo hi HI4 HP4 ltac:(lia)) as (st5 & G' & H' & HU & HI5 & HRO).
  exists st5, G', H'. split.
  - unfold LeafSplitFull. rewrite (proj2 (get_leafnode_Some st y ln)) by eauto.
    cbn [mbind option_bind]. rewrite Hsplit. cbn [mbind option_bind].
    unfold exec_tx. rewrite Hsb. cbn [mbind option_bind]. rewrite HU. done.
  - split; [done|]. intros k v. rewrite <- Hc.
    apply contents_pleaves_eq. destruct HRO as (E & _). done.
Qed.

(** [Put] on a tree that satisfies the invariant returns, keeps the
    invariant, and changes the stored pairs at [key] only. *)
Lemma Put_spec cfg st G H key value :
  cfg_ok cfg -> Inv_gen cfg st G G H -> small key -> small value ->
  exists st' G' H',
    Put cfg st key value = Some st' /\ Inv_gen cfg st' G' G' H' /\
    forall k v, contents st' k v <->
                (k = key /\ v = value) \/ (k <> key /\ contents st k v).
Proof.
  intros Hcfg HI Hsk Hsv.
  destruct (tree_top st) as [t|] eqn:Ht; [|eapply Put_empty; eauto].
  pose proof (LeafSearch_spec cfg st G H HI key) as Hs. rewrite Ht in Hs.
  destruct Hs as (y & lo & hi & Hs & HG & Hlo & Hhi).
  unfold Put, Put_tx. rewrite Hs.
  destruct (LeafFillSlotForKey_spec cfg st G H HI t y lo hi key value Ht HG Hlo Hhi Hsk Hsv)
    as [(st' & -> & HI' & _ & Hc)|(-> & p & ln & pl & Hy & Hpl & Hok & Hfull)].
  - exists st', G, H. done.
  - destruct (LeafSplitFull_spec cfg st G H t y lo hi key value p ln pl)
      as (st' & G' & H' & -> & HI' & Hc); auto.
    exists st', G', H'. done.
Qed.

(** ** The routing code does not look at the pool *)

Lemma update_parent_with_pool st P hd c q :
  update_parent (with_pool st P hd) c q
  = (fun s => with_pool s P hd) <$> update_parent st c q.
Proof.
  unfold update_parent. cbn [nodes with_pool].
  destruct (nodes st !! c); done.
Qed.

Lemma update_inner_with_pool st P hd c inner :
  update_inner (with_pool st P hd) c inner
  = (fun s => with_pool s P hd) <$> update_inner st c inner.
Proof.
  unfold update_inner. cbn [nodes with_pool].
  destruct (nodes st !! c); done.
Qed.

Lemma for_each_with_pool P hd (f : nat -> MVTree -> option MVTree) idxs :
  (forall i s, f i (with_pool s P hd) = (fun s' => with_pool s' P hd) <$> f i s) ->
  forall st, for_each idxs f (with_pool st P hd)
             = (fun s' => with_pool s' P hd) <$> for_each idxs f st.
Proof.
  intros Hf. induction idxs as [|i idxs IH]; intros st; cbn [for_each]; [done|].
  rewrite Hf. destruct (f i st) as [s'|]; cbn; [apply IH|done].
Qed.

Lemma IUAS_with_pool cfg P hd fuel : forall st n new s,
  InnerUpdateAfterSplit cfg fuel (with_pool st P hd) n new s
  = (fun s' => with_pool s' P hd) <$> InnerUpdateAfterSplit cfg fuel st n new s.
Proof.
  induction fuel as [|fuel IH]; intros st n new s; [done|].
  cbn [InnerUpdateAfterSplit]. cbn [nodes tree_top with_pool].
  destruct (nodes st !! n) as [nn|]; [|done]. cbn [mbind option_bind].
  destruct (parent nn) as [inner_id|].
  - destruct (nodes st !! inner_id) as [pn|]; [|done]. cbn [mbind option_bind].
    change (get_inner (with_pool st P hd) inner_id) with (get_inner st inner_id).
    destruct (get_inner st inner_id) as [inner|]; [|done]. cbn [mbind option_bind].
    destruct (_ <=? _)%nat.
    { destruct (debug_assert_invariants _ _); [apply update_inner_with_pool|done]. }
    destruct (split_move_keys _ _ _ _) as [ik nk].
    destruct (split_move_children _ _ _ _) as [ic nc].
    destruct (ik !! _) as [nsk|]; [|done]. cbn [mbind option_bind].
    rewrite update_inner_with_pool.
    destruct (update_inner st inner_id _) as [st1|]; [|done].
    cbn [fmap option_fmap option_map mbind option_bind].
    change (push_node (with_pool st1 P hd) ?x) with (with_pool (push_node st1 x) P hd).
    rewrite for_each_with_pool.
    + destruct (for_each _ _ _) as [st2|]; [|done].
      cbn [fmap option_fmap option_map mbind option_bind].
      destruct (_ && _); [apply IH|done].
    + intros i s0. destruct (mjoin _) as [c|]; [|done]. cbn [mbind option_bind].
      apply update_parent_with_pool.
  - destruct (debug_assert _ _); [|done].
    rewrite update_parent_with_pool.
    destruct (update_parent st n _) as [st1|]; [|done].
    cbn [fmap option_fmap option_map mbind option_bind].
    rewrite update_parent_with_pool.
    destruct (update_parent st1 new _) as [st2|]; [|done].
    cbn [fmap option_fmap option_map mbind option_bind].
    destruct (debug_assert_invariants _ _); done.
Qed.

Lemma with_pool_id st : with_pool st (pleaves st) (head st) = st.
Proof. destruct st; done. Qed.

Lemma IUAS_pool_unchanged cfg fuel st n new s st' :
  InnerUpdateAfterSplit cfg fuel st n new s = Some st' ->
  pleaves st' = pleaves st /\ head st' = head st.
Proof.
  intros Hu. pose proof (IUAS_with_pool cfg (pleaves st) (head st) fuel st n new s) as E.
  rewrite with_pool_id, Hu in E. injection E as ->. done.
Qed.

Lemma Inv_gen_leaf_frame_tracked cfg st st' G G' CV H t :
  Inv_gen cfg st G CV H ->
  tree_top st = Some t ->
  tree_top st' = Some t ->
  (length (nodes st) <= length (nodes st'))%nat ->
  (forall x, CV x <> None -> parent_of st' x = parent_of st x) ->
  (forall x d lo hi, G x = Some (S d, lo, hi) -> get_inner st' x = get_inner st x) ->
  (forall x d lo hi, G' x = Some (S d, lo, hi) <-> G x = Some (S d, lo, hi)) ->
  (forall x lo hi, G' x = Some (O, lo, hi) ->
     (x < length (nodes st'))%nat /\
     exists ln, get_leafnode st' x = Some ln /\ leaf_ok cfg st' ln lo hi) ->
  (forall x y lnx lny lox hix loy hiy,
     G' x = Some (O, lox, hix) -> G' y = Some (O, loy, hiy) ->
     get_leafnode st' x = Some lnx -> get_leafnode st' y = Some lny ->
     leaf lnx = leaf lny -> x = y) ->
  (NoDup (leaves_prealloc st') /\
   forall lf, lf ∈ leaves_prealloc st' ->
     leaf_all_empty cfg st' lf /\ ~ owned st' G' lf) ->
  (forall lf pl, pleaves st' !! lf = Some pl ->
     owned st' G' lf \/ slots pl = replicate (LEAF_KEYS cfg) None) ->
  chain_ok cfg st' ->
  Inv_gen cfg st' G' CV H.
Proof.
  intros HI Ht Ht' Hlen Hpar Hinn HGS HGO Hdist Hpre Hown Hchain.
  pose proof (inv_top _ _ _ _ _ HI) as Htop. rewrite Ht in Htop.
  destruct Htop as (HCVt & Hpt & Htlt & HHlt).
  constructor;
    [| | | | |exact Hdist|exact Hpre|exact Hown|exact Hchain
    |exact (inv_ndebug _ _ _ _ _ HI)].
  - rewrite Ht'. repeat split; auto; try lia. rewrite Hpar; [auto|congruence].
  - intros x d lo hi HG. destruct d as [|d].
    + split; [|lia]. apply (HGO _ _ _ HG).
    + apply HGS in HG. destruct (inv_valid _ _ _ _ _ HI _ _ _ _ HG). split; lia.
  - intros x d lo hi HG. apply HGS in HG.
    destruct (inv_inner _ _ _ _ _ HI _ _ _ _ HG) as (inner & Hi & Hok & Hch).
    exists inner. rewrite (Hinn _ _ _ _ HG). split; [done|]. split; [done|].
    intros i Hile. destruct (Hch _ Hile) as (c & Hc & HCV & Hp).
    exists c. split; [done|]. split; [done|].
    rewrite Hpar; [auto|congruence].
  - intros x lo hi HG. apply (HGO _ _ _ HG).
  - intros x d lo hi HCV Hnt. rewrite Ht' in Hnt. rewrite <- Ht in Hnt.
    destruct (inv_parent _ _ _ _ _ HI _ _ _ _ HCV Hnt)
      as (p & inner & i & plo & phi & Hp & HGp & Hi & Hile & Hc).
    exists p, inner, i, plo, phi.
    rewrite Hpar by congruence.
    rewrite (Hinn _ _ _ _ HGp). split; [done|]. split; [apply HGS; done|]. auto.
Qed.

(** ** The pool of a tree that satisfies the invariant *)

Lemma Inv_pool_ok cfg st G H : Inv_gen cfg st G G H -> pool_ok cfg st.
Proof.
  intros HI. split; [apply (inv_chain _ _ _ _ _ HI)|]. split; [|split].
  - intros lf slot b Hr.
    destruct (located cfg st G H HI lf slot b Hr)
      as (_ & _ & _ & _ & _ & _ & _ & _ & _ & _ & _ & _ & ? & _). done.
  - apply (location_unique cfg st G H HI).
  - intros lf1 lf2 s1 s1' s2 s2' b1 b1' b2 b2' Hne H1 H1' H2 H2' Hlt.
    destruct (located cfg st G H HI _ _ _ H1)
      as (y1 & ln1 & lo1 & hi1 & pl1 & HG1 & Hl1 & El1 & _ & _ & _ & _ & _ & Hlo1 & Hhi1).
    destruct (located cfg st G H HI _ _ _ H1')
      as (y1' & ln1' & lo1' & hi1' & pl1' & HG1' & Hl1' & El1' & _ & _ & _ & _ & _ & Hlo1' & Hhi1').
    destruct (located cfg st G H HI _ _ _ H2)
      as (y2 & ln2 & lo2 & hi2 & pl2 & HG2 & Hl2 & El2 & _ & _ & _ & _ & _ & Hlo2 & Hhi2).
    destruct (located cfg st G H HI _ _ _ H2')
      as (y2' & ln2' & lo2' & hi2' & pl2' & HG2' & Hl2' & El2' & _ & _ & _ & _ & _ & Hlo2' & Hhi2').
    assert (y1' = y1) as ->
      by (eapply (inv_leaf_distinct _ _ _ _ _ HI); eauto; congruence).
    assert (y2' = y2) as ->
      by (eapply (inv_leaf_distinct _ _ _ _ _ HI); eauto; congruence).
    rewrite HG1 in HG1'. injection HG1' as <- <-.
    rewrite HG2 in HG2'. injection HG2' as <- <-.
    assert (Hy : y1 <> y2) by (intros ->; congruence).
    destruct (live_ranges_disjoint cfg st G H HI H O y1 y2 lo1 hi1 lo2 hi2
                ltac:(lia) HG1 HG2 Hy) as [Hb|Hb].
    + destruct hi1 as [h1|], lo2 as [l2|]; simpl in *; try done.
      eauto with korder.
    + exfalso. destruct hi2 as [h2|], lo1 as [l1|]; simpl in *; try done.
      assert (klt (slot_key b1) (slot_key b1)) by eauto with korder.
      eapply klt_irrefl; eauto.
Qed.

(** ** Walking the persistent list *)

Lemma walk_leaves_chain cfg st :
  chain_ok cfg st ->
  forall n fuel, (n <= length (pleaves st))%nat -> (n <= fuel)%nat ->
    walk_leaves fuel (pleaves st) (match n with O => None | S j => Some j end)
    = Some (rev (seq 0 n)).
Proof.
  intros [_ Hc]. induction n as [|n IH]; intros fuel Hn Hf.
  - destruct fuel; done.
  - destruct fuel as [|fuel]; [lia|]. cbn [walk_leaves].
    destruct (lookup_lt_is_Some_2 (pleaves st) n ltac:(lia)) as [pl Hpl].
    rewrite Hpl. cbn [mbind option_bind].
    destruct (Hc n pl Hpl) as [-> _].
    rewrite IH by lia. cbn [mbind option_bind].
    rewrite seq_S, rev_app_distr. done.
Qed.

Lemma persistent_list_chain cfg st :
  chain_ok cfg st ->
  persistent_list st = Some (rev (seq 0 (length (pleaves st)))).
Proof.
  intros Hc. unfold persistent_list. destruct Hc as [Hh Hc'].
  rewrite Hh. apply (walk_leaves_chain cfg st); [split; done|lia|lia].
Qed.

(** ** Recover: the slot loop *)

Lemma recover_slots_spec (L : nat) p :
  (forall slot b, slots p !! slot = Some (Some b) -> ph b <> 0) ->
  forall n ln e m ln' e' m',
    (n <= L)%nat -> length (hashes ln) = L -> length (keys ln) = L ->
    recover_slots p n ln e m = (ln', e', m') ->
    leaf ln' = leaf ln /\ length (hashes ln') = L /\ length (keys ln') = L /\
    (forall slot, (slot < n)%nat ->
       match mjoin (slots p !! slot) with
       | Some b => hashes ln' !! slot = Some (ph b) /\
                   keys ln' !! slot = Some (slot_key b)
       | None => hashes ln' !! slot = hashes ln !! slot /\
                 keys ln' !! slot = keys ln !! slot
       end) /\
    (forall slot, (n <= slot)%nat ->
       hashes ln' !! slot = hashes ln !! slot /\ keys ln' !! slot = keys ln !! slot) /\
    (e' = true <-> e = true /\ forall slot, (slot < n)%nat -> mjoin (slots p !! slot) = None) /\
    (e' = false ->
       ((e = false /\ m' = m) \/
        exists slot b, (slot < n)%nat /\ slots p !! slot = Some (Some b) /\ slot_key b = m') /\
       (e = false -> kle m m') /\
       forall slot b, (slot < n)%nat -> slots p !! slot = Some (Some b) ->
                      kle (slot_key b) m').
Proof.
  intros Hnz. induction n as [|n IH]; intros ln e m ln' e' m' Hn Lh Lk Hr.
  - cbn [recover_slots] in Hr. injection Hr as <- <- <-.
    split_and!; try done.
    + intros slot Hs. lia.
    + split; [intros ->; split; [done|intros; lia]|tauto].
    + intros ->. split_and!; [auto|intros; apply kle_refl|intros; lia].
  - cbn [recover_slots] in Hr.
    destruct (mjoin (slots p !! n)) as [b|] eqn:Eb.
    + assert (Hb : slots p !! n = Some (Some b)).
      { destruct (slots p !! n) as [[b'|]|]; simpl in Eb; congruence. }
      unfold slot_hash in Hr.
      destruct (Z.eqb_spec (ph b) 0) as [E0|_]; [destruct (Hnz _ _ Hb E0)|].
      cbn [hashes keys leaf] in Hr.
      apply IH in Hr; [|lia|cbn [hashes]; rewrite length_insert; done
                       |cbn [keys]; rewrite length_insert; done].
      cbn [hashes keys leaf] in Hr.
      destruct Hr as (El & Lh' & Lk' & Hlow & Hhigh & He & Hmax).
      split_and!; try done.
      * intros slot Hs. destruct (decide (slot = n)) as [->|Hne].
        { rewrite Eb. destruct (Hhigh n ltac:(lia)) as [-> ->].
          rewrite !list_lookup_insert_eq by lia. done. }
        specialize (Hlow slot ltac:(lia)).
        destruct (mjoin (slots p !! slot)); [done|].
        rewrite !list_lookup_insert_ne in Hlow by done. done.
      * intros slot Hs. destruct (Hhigh slot ltac:(lia)) as [-> ->].
        rewrite !list_lookup_insert_ne by lia. done.
      * split.
        { intros E. apply He in E as [? _]. done. }
        { intros [_ Hall]. specialize (Hall n ltac:(lia)). congruence. }
      * intros E. destruct (Hmax E) as (Hin & Hle & Hall).
        specialize (Hle eq_refl).
        assert (Hkb : kle (slot_key b) m' /\ (e = false -> kle m m')).
        { destruct e; [split; [done|discriminate]|].
          destruct (compare_lt0 m (slot_key b)) eqn:Ec.
          - apply compare_lt0_spec in Ec. split; [done|]. intros _.
            eauto with korder.
          - apply compare_lt0_false in Ec. split; [|done]. eauto with korder. }
        destruct Hkb as [Hkb Hm]. split_and!; try done.
        { destruct Hin as [[_ ->]|(slot & b' & Hs & Hb' & Hk)].
          - destruct e; [right; exists n, b; split_and!; [lia|done|done]|].
            destruct (compare_lt0 m (slot_key b)).
            + right. exists n, b. split_and!; [lia|done|done].
            + left. done.
          - right. exists slot, b'. split_and!; [lia|done|done]. }
        { intros slot b' Hs Hb'. destruct (decide (slot = n)) as [->|Hne].
          - assert (b' = b) as -> by congruence. done.
          - apply (Hall slot b'); [lia|done]. }
    + apply IH in Hr; [|lia|done|done].
      destruct Hr as (El & Lh' & Lk' & Hlow & Hhigh & He & Hmax).
      split_and!; try done.
      * intros slot Hs. destruct (decide (slot = n)) as [->|Hne].
        { rewrite Eb. apply Hhigh. lia. }
        apply Hlow. lia.
      * intros slot Hs. apply Hhigh. lia.
      * rewrite He. split; intros [? Hall]; (split; [done|]).
        { intros slot Hs. destruct (decide (slot = n)) as [->|Hne]; [done|].
          apply Hall. lia. }
        { intros slot Hs. apply Hall. lia. }
      * intros E. destruct (Hmax E) as (Hin & Hle & Hall). split_and!; try done.
        { destruct Hin as [?|(slot & b' & Hs & Hb' & Hk)]; [auto|].
          right. exists slot, b'. split_and!; [lia|done|done]. }
        { intros slot b' Hs Hb'. destruct (decide (slot = n)) as [->|Hne].
          - rewrite Hb' in Eb. discriminate.
          - apply (Hall slot b'); [lia|done]. }
Qed.

(** The leaf node [Recover] builds for a leaf of a pool written by the
    engine, whether the leaf is empty, and its highest key. *)
Lemma recover_slots_leaf cfg p lf ln e m :
  length (slots p) = LEAF_KEYS cfg ->
  (forall slot b, slots p !! slot = Some (Some b) -> block_ok cfg b) ->
  (forall s1 s2 b1 b2, slots p !! s1 = Some (Some b1) -> slots p !! s2 = Some (Some b2) ->
     slot_key b1 = slot_key b2 -> s1 = s2) ->
  recover_slots p (LEAF_KEYS cfg) (new_MVLeafNode cfg lf) true EmptyString = (ln, e, m) ->
  leaf ln = lf /\ leaf_ok_pl cfg ln p None None /\
  (e = true -> slots p = replicate (LEAF_KEYS cfg) None) /\
  (e = false -> leaf_max p m).
Proof.
  intros Ls Hbok Hu Hr.
  apply (recover_slots_spec (LEAF_KEYS cfg)) in Hr;
    [|intros slot b Hb; eapply block_ok_hash_nonzero; eauto|lia
     |cbn; apply length_replicate|cbn; apply length_replicate].
  destruct Hr as (El & Lh & Lk & Hlow & _ & He & Hmax).
  split; [done|]. split; [|split].
  - unfold leaf_ok_pl. split_and!; try done.
    intros slot Hs. specialize (Hlow slot Hs).
    destruct (slots p !! slot) as [[b|]|] eqn:Eb; cbn [mjoin option_join] in Hlow.
    + destruct Hlow as [-> ->]. split_and!; try done. eapply Hbok; eauto.
    + cbn in Hlow. rewrite !lookup_replicate_2 in Hlow by done. done.
    + cbn in Hlow. rewrite !lookup_replicate_2 in Hlow by done. done.
  - intros ->. destruct He as [He _]. destruct (He eq_refl) as [_ Hall].
    apply list_eq. intros i. destruct (decide (i < LEAF_KEYS cfg)%nat) as [Hi|Hi].
    + rewrite lookup_replicate_2 by done. specialize (Hall i Hi).
      destruct (lookup_lt_is_Some_2 (slots p) i ltac:(lia)) as [s Hsl].
      rewrite Hsl in *. destruct s; [discriminate|done].
    + rewrite !lookup_ge_None_2; [done|rewrite length_replicate; lia|lia].
  - intros ->. destruct (Hmax eq_refl) as (Hin & _ & Hall).
    destruct Hin as [[? _]|(slot & b & Hs & Hb & Hk)]; [done|].
    split; [eauto|]. intros slot' b' Hb'. apply (Hall slot' b'); [|done].
    rewrite <- Ls. eapply lookup_lt_Some; eauto.
Qed.

(** ** Recover: the loop over the leaves *)

Lemma leaf_of_node st x p ln :
  nodes st !! x = Some {| parent := p; kind := LeafNode ln |} -> leaf_of st x = leaf ln.
Proof. intros Hx. unfold leaf_of. rewrite get_leafnode_node, Hx. done. Qed.

Lemma recover_leaves_spec cfg P hd :
  (forall l pl, P !! l = Some pl -> length (slots pl) = LEAF_KEYS cfg) ->
  (forall l pl slot b, P !! l = Some pl -> slots pl !! slot = Some (Some b) ->
     block_ok cfg b) ->
  (forall l pl s1 s2 b1 b2, P !! l = Some pl ->
     slots pl !! s1 = Some (Some b1) -> slots pl !! s2 = Some (Some b2) ->
     slot_key b1 = slot_key b2 -> s1 = s2) ->
  forall ids st leaves seen,
    NoDup ids -> (forall l, l ∈ ids -> (l ∉ seen) /\ (l < length P)%nat) ->
    recovered cfg P hd seen st leaves ->
    exists st' leaves',
      recover_leaves cfg ids st leaves = Some (st', leaves') /\
      recovered cfg P hd (rev ids ++ seen) st' leaves'.
Proof.
  intros HLs Hbok Hu. induction ids as [|l ids IH]; intros st leaves seen Hnd Hids HR.
  - exists st, leaves. done.
  - apply NoDup_cons in Hnd as [Hl Hnd].
    destruct (Hids l ltac:(left)) as [Hlseen Hllt].
    pose proof HR as (HP & Hhd & Htt & Hndp & Hndl & Hpre & Hlv & Hinj & Hcov).
    destruct (lookup_lt_is_Some_2 P l Hllt) as [p Hp].
    cbn [recover_leaves]. rewrite HP, Hp. cbn [mbind option_bind].
    destruct (recover_slots p (LEAF_KEYS cfg) (new_MVLeafNode cfg l) true EmptyString)
      as [[ln e] m] eqn:Hrs.
    destruct (recover_slots_leaf cfg p l ln e m (HLs _ _ Hp)
                (fun slot b => Hbok l p slot b Hp)
                (fun s1 s2 b1 b2 => Hu l p s1 s2 b1 b2 Hp) Hrs)
      as (El & Hok & Hempty & Hmax).
    assert (Hxlt : forall x m0, (x, m0) ∈ leaves -> (x < length (nodes st))%nat).
    { intros x m0 Hx. destruct (Hlv _ _ Hx) as (lnx & plx & Hnx & _).
      eapply lookup_lt_Some; eauto. }
    assert (Hlseen' : forall x m0, (x, m0) ∈ leaves -> leaf_of st x ∈ seen).
    { intros x m0 Hx. destruct (Hlv _ _ Hx) as (lnx & plx & Hnx & Hs & _).
      rewrite (leaf_of_node _ _ _ _ Hnx). done. }
    set (seen' := l :: seen).
    assert (Hgoal : forall st1 leaves1, recovered cfg P hd seen' st1 leaves1 ->
              exists st' leaves',
                recover_leaves cfg ids st1 leaves1 = Some (st', leaves') /\
                recovered cfg P hd (rev (l :: ids) ++ seen) st' leaves').
    { intros st1 leaves1 HR1.
      destruct (IH st1 leaves1 seen' Hnd) as (st' & leaves' & E & HR'); [|done|].
      - intros l' Hl'. destruct (Hids l' ltac:(right; done)) as [? ?].
        split; [|done]. unfold seen'. intros Hin. apply elem_of_cons in Hin as [->|?]; done.
      - exists st', leaves'. split; [done|].
        cbn [rev]. rewrite <- app_assoc. done. }
    destruct e.
    + apply Hgoal. unfold recovered.
      cbn [pleaves head tree_top leaves_prealloc nodes].
      split_and!; try done.
      * apply NoDup_cons. split; [|done]. intros Hin. apply Hpre in Hin as [? _]. done.
      * intros l' Hl'. apply elem_of_cons in Hl' as [->|Hl'].
        { split; [left|]. exists p. split; [done|]. apply Hempty. done. }
        destruct (Hpre _ Hl') as [? ?]. split; [right; done|done].
      * intros x m0 Hx. destruct (Hlv _ _ Hx) as (lnx & plx & Hnx & Hs & Hrest).
        exists lnx, plx. split; [done|]. split; [right; done|done].
      * intros l' pl' Hl' Hpl'. apply elem_of_cons in Hl' as [->|Hl'].
        { left. assert (pl' = p) as -> by congruence. apply Hempty. done. }
        destruct (Hcov _ _ Hl' Hpl') as [?|(x & m0 & Hx & Hlf)]; [auto|].
        right. exists x, m0. done.
    + apply Hgoal. unfold recovered, push_node.
      cbn [pleaves head tree_top leaves_prealloc nodes set_nodes].
      set (node := {| parent := None; kind := LeafNode ln |}).
      assert (Hold : forall x, (x < length (nodes st))%nat ->
                (nodes st ++ [node]) !! x = nodes st !! x)
        by (intros x Hx; apply lookup_app_l; done).
      assert (Hnew : (nodes st ++ [node]) !! length (nodes st) = Some node).
      { rewrite lookup_app_r by lia. rewrite Nat.sub_diag. done. }
      assert (Hlo_old : forall x m0, (x, m0) ∈ leaves ->
                leaf_of (set_nodes st (nodes st ++ [node])) x = leaf_of st x).
      { intros x m0 Hx. unfold leaf_of. rewrite !get_leafnode_node.
        cbn [nodes set_nodes]. rewrite Hold by eauto. done. }
      assert (Hlo_new : leaf_of (set_nodes st (nodes st ++ [node])) (length (nodes st)) = l).
      { unfold leaf_of. rewrite get_leafnode_node. cbn [nodes set_nodes].
        rewrite Hnew. done. }
      split_and!; try done.
      * rewrite map_app. apply NoDup_app. split; [done|]. split; [|apply NoDup_singleton].
        intros x Hx Hx'. cbn in Hx'. apply list_elem_of_singleton in Hx'. subst x.
        apply list_elem_of_fmap in Hx as ([x m0] & E & Hx). cbn in E.
        apply Hxlt in Hx. lia.
      * intros l' Hl'. destruct (Hpre _ Hl') as [? ?]. split; [right; done|done].
      * intros x m0 Hx. apply elem_of_app in Hx as [Hx|Hx].
        { destruct (Hlv _ _ Hx) as (lnx & plx & Hnx & Hs & Hrest).
          exists lnx, plx. rewrite Hold by eauto.
          split; [done|]. split; [right; done|done]. }
        apply list_elem_of_singleton in Hx. injection Hx as -> ->.
        exists ln, p. rewrite Hnew, El. split; [done|]. split; [left|].
        split; [done|]. split; [done|]. apply Hmax. done.
      * intros x m0 x' m0' Hx Hx' E.
        apply elem_of_app in Hx as [Hx|Hx]; apply elem_of_app in Hx' as [Hx'|Hx'].
        { rewrite (Hlo_old _ _ Hx), (Hlo_old _ _ Hx') in E. eauto. }
        { apply list_elem_of_singleton in Hx'. injection Hx' as -> ->.
          rewrite (Hlo_old _ _ Hx), Hlo_new in E.
          destruct Hlseen. rewrite <- E. eauto. }
        { apply list_elem_of_singleton in Hx. injection Hx as -> ->.
          rewrite (Hlo_old _ _ Hx'), Hlo_new in E.
          destruct Hlseen. rewrite E. eauto. }
        { apply list_elem_of_singleton in Hx. apply list_elem_of_singleton in Hx'.
          congruence. }
      * intros l' pl' Hl' Hpl'. apply elem_of_cons in Hl' as [->|Hl'].
        { right. exists (length (nodes st)), m. split; [|done].
          apply elem_of_app. right. left. }
        destruct (Hcov _ _ Hl' Hpl') as [?|(x & m0 & Hx & Hlf)]; [auto|].
        right. exists x, m0. split; [apply elem_of_app; auto|].
        rewrite (Hlo_old _ _ Hx). done.
Qed.

(** ** Recover: sorting the recovered leaves *)

Lemma insert_leaf_perm x l : Permutation (insert_leaf x l) (x :: l).
Proof.
  induction l as [|y l IH]; simpl; [done|].
  destruct (compare_lt0 (snd y) (snd x)); [|done].
  rewrite IH. apply perm_swap.
Qed.

Lemma sort_leaves_perm l : Permutation (sort_leaves l) l.
Proof.
  induction l as [|x l IH]; simpl; [done|].
  rewrite insert_leaf_perm. constructor. done.
Qed.

Lemma insert_leaf_sorted x l :
  StronglySorted (fun a b => kle (snd a) (snd b)) l ->
  StronglySorted (fun a b => kle (snd a) (snd b)) (insert_leaf x l).
Proof.
  induction 1 as [|y l Hs IH Hall]; simpl.
  - constructor; constructor.
  - destruct (compare_lt0 (snd y) (snd x)) eqn:E.
    + apply compare_lt0_spec in E. constructor; [done|].
      rewrite insert_leaf_perm. constructor; [apply klt_kle; done|done].
    + apply compare_lt0_false in E. constructor; [constructor; done|].
      constructor; [done|].
      eapply List.Forall_impl; [|exact Hall]. intros z Hz. eapply kle_trans; eauto.
Qed.

Lemma sort_leaves_sorted l :
  StronglySorted (fun a b => kle (snd a) (snd b)) (sort_leaves l).
Proof.
  induction l as [|x l IH]; simpl; [constructor|]. apply insert_leaf_sorted, IH.
Qed.

Lemma sorted_strict {A} (f : A -> string) (l : list A) :
  StronglySorted (fun a b => kle (f a) (f b)) l -> NoDup (map f l) ->
  StronglySorted (fun a b => klt (f a) (f b)) l.
Proof.
  induction 1 as [|x l Hs IH Hall]; intros Hnd; [constructor|].
  cbn in Hnd. apply NoDup_cons in Hnd as [Hx Hnd].
  constructor; [auto|].
  rewrite List.Forall_forall in *. intros y Hy.
  specialize (Hall y Hy). apply kle_iff in Hall as [?|E]; [done|].
  destruct Hx. rewrite E. apply list_elem_of_fmap. exists y. split; [done|].
  apply list_elem_of_In. done.
Qed.

(** ** Recover: installing the recovered leaves *)

Lemma mask_pool_lookup cfg E P l :
  mask_pool cfg E P !! l =
  (fun pl => if bool_decide (l ∈ E)
             then {| slots := replicate (LEAF_KEYS cfg) None; next := next pl |}
             else pl) <$> P !! l.
Proof. unfold mask_pool. apply list_lookup_imap. Qed.

Lemma mask_pool_out cfg E P l : l ∉ E -> mask_pool cfg E P !! l = P !! l.
Proof.
  intros Hl. rewrite mask_pool_lookup, bool_decide_eq_false_2 by done.
  destruct (P !! l); done.
Qed.

Lemma mask_pool_in cfg E P l pl :
  l ∈ E -> P !! l = Some pl ->
  mask_pool cfg E P !! l
  = Some {| slots := replicate (LEAF_KEYS cfg) None; next := next pl |}.
Proof.
  intros Hl Hp. rewrite mask_pool_lookup, bool_decide_eq_true_2, Hp by done. done.
Qed.

Lemma mask_pool_nil cfg P : mask_pool cfg [] P = P.
Proof.
  apply list_eq. intros l. rewrite mask_pool_out; [done|]. apply not_elem_of_nil.
Qed.

Lemma mask_pool_length cfg E P : length (mask_pool cfg E P) = length P.
Proof. unfold mask_pool. apply length_imap. Qed.

Lemma mask_pool_chain cfg E sp st :
  chain_ok cfg sp ->
  chain_ok cfg (with_pool st (mask_pool cfg E (pleaves sp)) (head sp)).
Proof.
  intros [Hh Hc]. split; cbn [head pleaves with_pool].
  - rewrite mask_pool_length. done.
  - intros i pl. rewrite mask_pool_lookup.
    destruct (pleaves sp !! i) as [pl0|] eqn:E0; [|done].
    cbn. intros [= <-]. destruct (Hc _ _ E0) as [Hn Hl].
    destruct (bool_decide _); cbn [next slots]; [|done].
    rewrite length_replicate. done.
Qed.

Lemma leaf_ok_pl_narrow cfg ln pl lo hi lo' hi' :
  leaf_ok_pl cfg ln pl lo hi ->
  (forall slot b, slots pl !! slot = Some (Some b) ->
     blt lo' (slot_key b) /\ ble (slot_key b) hi') ->
  leaf_ok_pl cfg ln pl lo' hi'.
Proof.
  intros (Lh & Lk & Ls & Hsl & Hu) Hr. unfold leaf_ok_pl. split_and!; try done.
  intros slot Hs. specialize (Hsl slot Hs).
  destruct (slots pl !! slot) as [[b|]|] eqn:E; try done.
  destruct (Hr _ _ E). tauto.
Qed.

Lemma leaf_of_with_pool st P hd x : leaf_of (with_pool st P hd) x = leaf_of st x.
Proof. done. Qed.

Lemma leaf_of_Some st x ln : get_leafnode st x = Some ln -> leaf_of st x = leaf ln.
Proof. unfold leaf_of. intros ->. done. Qed.

(** ** The top node and its parent pointer *)

Lemma update_parent_frame st c q st1 :
  update_parent st c q = Some st1 ->
  pleaves st1 = pleaves st /\ head st1 = head st /\
  leaves_prealloc st1 = leaves_prealloc st /\ tree_top st1 = tree_top st /\
  length (nodes st1) = length (nodes st) /\
  (forall x, get_leafnode st1 x = get_leafnode st x) /\
  (forall x, get_inner st1 x = get_inner st x).
Proof.
  unfold update_parent. destruct (nodes st !! c) as [n|] eqn:Hn; [|discriminate].
  cbn [mbind option_bind]. intros [= <-].
  cbn [pleaves head leaves_prealloc tree_top nodes set_nodes].
  rewrite length_insert. split_and!; try done.
  - intros x. rewrite !get_leafnode_node. cbn [nodes set_nodes].
    destruct (decide (x = c)) as [->|].
    + rewrite list_lookup_insert_eq by (eapply lookup_lt_Some; eauto). rewrite Hn. done.
    + rewrite list_lookup_insert_ne by done. done.
  - intros x. rewrite !get_inner_node. cbn [nodes set_nodes].
    destruct (decide (x = c)) as [->|].
    + rewrite list_lookup_insert_eq by (eapply lookup_lt_Some; eauto). rewrite Hn. done.
    + rewrite list_lookup_insert_ne by done. done.
Qed.

Lemma parent_of_push st n x :
  parent_of (push_node st n) x
  = if decide (x = length (nodes st)) then parent n else parent_of st x.
Proof.
  rewrite !parent_of_node. unfold push_node. cbn [nodes set_nodes].
  destruct (decide (x = length (nodes st))) as [->|Hne].
  - rewrite lookup_app_r by lia. rewrite Nat.sub_diag. done.
  - destruct (decide (x < length (nodes st))%nat).
    + rewrite lookup_app_l by done. done.
    + rewrite !lookup_ge_None_2; [done|lia|rewrite length_app; simpl; lia].
Qed.

Lemma parent_of_insert st x y n n' :
  nodes st !! y = Some n ->
  parent_of (set_nodes st (<[y := n']> (nodes st))) x
  = if decide (x = y) then parent n' else parent_of st x.
Proof.
  intros Hy. rewrite !parent_of_node. cbn [nodes set_nodes].
  destruct (decide (x = y)) as [->|].
  - rewrite list_lookup_insert_eq by (eapply lookup_lt_Some; eauto). done.
  - rewrite list_lookup_insert_ne by done. done.
Qed.

Lemma parent_of_update_parent st c q st1 x :
  update_parent st c q = Some st1 ->
  parent_of st1 x = if decide (x = c) then q else parent_of st x.
Proof.
  unfold update_parent. destruct (nodes st !! c) as [n|] eqn:Hn; [|discriminate].
  cbn [mbind option_bind]. intros [= <-].
  rewrite (parent_of_insert st x c n _ Hn). done.
Qed.

Lemma Inv_top_unlinked cfg st G CV H : Inv_gen cfg st G CV H -> top_unlinked st.
Proof.
  intros HI t Ht. pose proof (inv_top _ _ _ _ _ HI) as Htop. rewrite Ht in Htop.
  destruct Htop as (_ & Hp & Hlt & _). split; [done|]. intros p Hp'. congruence.
Qed.

Lemma Inv_top_linked cfg st G H : Inv_gen cfg st G G H -> top_linked st.
Proof.
  intros HI t inner Ht Hin.
  pose proof (inv_top _ _ _ _ _ HI) as Htop. rewrite Ht in Htop.
  destruct Htop as (HGt & _).
  destruct H as [|H].
  { destruct (inv_leaf _ _ _ _ _ HI _ _ _ HGt) as (ln & Hl & _).
    destruct (get_leafnode_inner _ _ _ _ Hl Hin). }
  destruct (inv_inner _ _ _ _ _ HI _ _ _ _ HGt) as (inner' & Hin' & Hok & Hch).
  assert (inner' = inner) as -> by congruence.
  destruct Hok as ((Hkc & _) & _).
  destruct (Hch O ltac:(lia)) as (c0 & Hc0 & HG0 & Hp0).
  destruct (Hch 1%nat ltac:(lia)) as (c1 & Hc1 & HG1 & _).
  exists c0. split; [done|]. split; [done|].
  rewrite Hc1. intros [= ->]. rewrite HG0 in HG1. cbn in HG1. discriminate.
Qed.

Section RecoverStep.
Variable cfg : Config.
Hypothesis Hcfg : cfg_ok cfg.
Variable sp : MVTree.
Hypothesis Hpool : pool_ok cfg sp.
Let P := pleaves sp.
Let hd := head sp.
Variables (st : MVTree) (G : ghost) (H : nat) (lo : bound).
Variables (prev : nat) (mprev : string) (next : nat) (mnext : string).
Variable rest : list (nat * string).
Let E := pending_leaves st ((next, mnext) :: rest).
Let E' := pending_leaves st rest.
Let stM := with_pool st (mask_pool cfg E P) hd.
Hypothesis HI : Inv_gen cfg stM G G H.
Hypothesis HGp : G prev = Some (O, lo, None).
Variables (lnp : MVLeafNode) (plp : MVLeaf).
Hypothesis Hlp : get_leafnode st prev = Some lnp.
Hypothesis Hplp : P !! leaf lnp = Some plp.
Hypothesis Hmaxp : leaf_max plp mprev.
Hypothesis Hrest : forall x m, (x, m) ∈ (next, mnext) :: rest ->
    exists ln pl, get_leafnode st x = Some ln /\ P !! leaf ln = Some pl /\
      leaf_ok_pl cfg ln pl None None /\ leaf_max pl m /\ G x = None /\
      ~ owned stM G (leaf ln).
Hypothesis HndE : NoDup E.
Hypothesis Hlt : klt mprev mnext.
Hypothesis Hpre : forall l, l ∈ leaves_prealloc st ->
    exists pl, P !! l = Some pl /\ slots pl = replicate (LEAF_KEYS cfg) None.

Lemma recover_step_base :
    exists lnn pln pp pq t,
      get_leafnode st next = Some lnn /\ P !! leaf lnn = Some pln /\
      leaf_ok_pl cfg lnn pln None None /\ leaf_max pln mnext /\ G next = None /\
      ~ owned stM G (leaf lnn) /\
      E = leaf lnn :: E' /\ (leaf lnn ∉ E') /\ NoDup E' /\
      (forall l, owned stM G l -> l ∉ E) /\
      owned stM G (leaf lnp) /\
      leaf_ok_pl cfg lnp plp lo None /\
      nodes st !! prev = Some {| parent := pp; kind := LeafNode lnp |} /\
      nodes st !! next = Some {| parent := pq; kind := LeafNode lnn |} /\
      prev <> next /\ tree_top st = Some t /\ leaf lnp <> leaf lnn.
  Proof.
    destruct (Hrest next mnext ltac:(left))
      as (lnn & pln & Hln & Hpln & Hokn & Hmaxn & HGn & Hnown).
    assert (HEn : E = leaf lnn :: E').
    { unfold E, E', pending_leaves. cbn [map fst]. rewrite (leaf_of_Some _ _ _ Hln). done. }
    pose proof HndE as Hnd. rewrite HEn in Hnd. apply NoDup_cons in Hnd as [Hnin Hnd'].
    assert (HownE : forall l, owned stM G l -> l ∉ E).
    { intros l Hown Hin. unfold E, pending_leaves in Hin.
      apply list_elem_of_fmap in Hin as ([x m] & El & Hx). cbn [fst] in El.
      destruct (Hrest x m Hx) as (ln' & pl' & Hl' & _ & _ & _ & _ & Hno).
      rewrite (leaf_of_Some _ _ _ Hl') in El. subst l. done. }
    assert (Hownp : owned stM G (leaf lnp)) by (exists prev, lnp, lo, None; done).
    assert (Hokp : leaf_ok_pl cfg lnp plp lo None).
    { destruct (inv_leaf _ _ _ _ _ HI _ _ _ HGp) as (ln0 & Hl0 & Hok0).
      change (get_leafnode stM prev) with (get_leafnode st prev) in Hl0.
      assert (ln0 = lnp) as -> by congruence.
      apply leaf_ok_iff in Hok0 as (pl0 & Hpl0 & Hok0).
      change (pleaves stM) with (mask_pool cfg E P) in Hpl0.
      rewrite mask_pool_out in Hpl0 by auto.
      assert (pl0 = plp) as -> by congruence. done. }
    apply get_leafnode_Some in Hlp as Hnp. destruct Hnp as [pp Hnp].
    apply get_leafnode_Some in Hln as Hnn. destruct Hnn as [pq Hnn].
    assert (Hne : prev <> next) by (intros ->; congruence).
    pose proof (inv_top _ _ _ _ _ HI) as Htop.
    change (tree_top stM) with (tree_top st) in Htop.
    destruct (tree_top st) as [t|] eqn:Et; [|rewrite Htop in HGp; done].
    exists lnn, pln, pp, pq, t. split_and!; try done.
    intros El. apply (HownE _ Hownp). rewrite HEn, El. left.
  Qed.

Lemma recover_step :
    exists st2 G' H',
      (pn ← nodes st !! prev;
       st1 ← update_parent st next (parent pn);
       InnerUpdateAfterSplit cfg (length (nodes st1)) st1 prev next mprev) = Some st2 /\
      Inv_gen cfg (with_pool st2 (mask_pool cfg E' P) hd) G' G' H' /\
      pleaves st2 = pleaves st /\ head st2 = head st /\
      leaves_prealloc st2 = leaves_prealloc st /\
      (forall x, get_leafnode st2 x = get_leafnode st x) /\
      G' next = Some (O, Some mprev, None) /\
      (forall x ln, x <> prev -> x <> next -> G x = None ->
                    get_leafnode st x = Some ln -> G' x = None) /\
      (forall l, owned (with_pool st2 (mask_pool cfg E' P) hd) G' l ->
                 l = leaf_of st next \/ owned stM G l).
  Proof.
    destruct recover_step_base
      as (lnn & pln & pp & pq & t & Hln & Hpln & Hokn & Hmaxn & HGn & Hnown & HEn & Hnin
          & Hnd' & HownE & Hownp & Hokp & Hnp & Hnn & Hne & Ht & Hlne).
    destruct Hpool as (Hchain & Hbok & Huniq & Hsep).
    set (node1 := {| parent := pp; kind := LeafNode lnn |}).
    set (st1 := set_nodes st (<[next := node1]> (nodes st))).
    set (st1M := with_pool st1 (mask_pool cfg E' P) hd).
    set (G1 := fun x => if decide (x = prev) then Some (O, lo, Some mprev)
                        else if decide (x = next) then Some (O, Some mprev, @None string)
                        else G x).
    assert (Hnlt : (next < length (nodes st))%nat) by (eapply lookup_lt_Some; eauto).
    assert (Hlk1 : forall x, nodes st1 !! x = if decide (x = next) then Some node1
                                              else nodes st !! x).
    { intros x. unfold st1. cbn [nodes set_nodes].
      destruct (decide (x = next)) as [->|].
      - rewrite list_lookup_insert_eq by done. done.
      - rewrite list_lookup_insert_ne by done. done. }
    assert (Hgl1 : forall x, get_leafnode st1 x = get_leafnode st x).
    { intros x. rewrite !get_leafnode_node, Hlk1.
      destruct (decide (x = next)) as [->|]; [rewrite Hnn|]; done. }
    assert (Hgi1 : forall x, get_inner st1 x = get_inner st x).
    { intros x. rewrite !get_inner_node, Hlk1.
      destruct (decide (x = next)) as [->|]; [rewrite Hnn|]; done. }
    assert (Hpo1 : forall x, x <> next -> parent_of st1 x = parent_of st x).
    { intros x Hx. rewrite !parent_of_node, Hlk1, decide_False by done. done. }
    assert (Hmask : forall l, l <> leaf lnn ->
              mask_pool cfg E' P !! l = mask_pool cfg E P !! l).
    { intros l Hl. rewrite !mask_pool_lookup. destruct (P !! l); [|done].
      cbn [fmap option_fmap option_map]. rewrite HEn. destruct (decide (l ∈ E')).
      - rewrite !bool_decide_eq_true_2; [done|right; done|done].
      - rewrite !bool_decide_eq_false_2; [done| |done].
        intros Hin. apply elem_of_cons in Hin as [?|?]; done. }
    assert (Hmaskn : mask_pool cfg E' P !! leaf lnn = Some pln)
      by (rewrite mask_pool_out; done).
    assert (HpE' : leaf lnp ∉ E').
    { intros Hin. apply (HownE _ Hownp). rewrite HEn. right. done. }
    assert (Hmaskp : mask_pool cfg E' P !! leaf lnp = Some plp)
      by (rewrite mask_pool_out; done).
    destruct Hmaxp as [(sp0 & bp & Hbp & Hkp) Hallp].
    destruct Hmaxn as [(sn0 & bn & Hbn & Hkn) Halln].
    assert (Hoknew : leaf_ok_pl cfg lnn pln (Some mprev) None).
    { apply (leaf_ok_pl_narrow cfg lnn pln None None); [done|].
      intros slot b Hb. split; [|done]. simpl. rewrite <- Hkp.
      apply (Hsep (leaf lnp) (leaf lnn) sp0 sp0 sn0 slot bp bp bn b); try done.
      - unfold read_pslot. fold P. rewrite Hplp. done.
      - unfold read_pslot. fold P. rewrite Hplp. done.
      - unfold read_pslot. fold P. rewrite Hpln. done.
      - unfold read_pslot. fold P. rewrite Hpln. done.
      - rewrite Hkp, Hkn. done. }
    assert (Hokprev : leaf_ok_pl cfg lnp plp lo (Some mprev)).
    { apply (leaf_ok_pl_narrow cfg lnp plp lo None); [done|].
      intros slot b Hb. split; [|apply Hallp with slot; done].
      pose proof Hokp as (_ & _ & Ls & Hsl & _).
      assert (Hs : (slot < LEAF_KEYS cfg)%nat) by (rewrite <- Ls; eapply lookup_lt_Some; eauto).
      specialize (Hsl slot Hs). rewrite Hb in Hsl. tauto. }
    assert (Hclass : forall x lo' hi' lnx,
              G1 x = Some (O, lo', hi') -> get_leafnode st1 x = Some lnx ->
              (x = next /\ lnx = lnn) \/
              (x <> next /\ owned stM G (leaf lnx) /\ leaf lnx <> leaf lnn /\
               exists lo0 hi0, G x = Some (O, lo0, hi0))).
    { intros x lo' hi' lnx HG1 Hl. rewrite Hgl1 in Hl. unfold G1 in HG1.
      destruct (decide (x = next)) as [->|Hxn]; [left; split; [done|congruence]|].
      right. split; [done|].
      assert (HGx : exists lo0 hi0, G x = Some (O, lo0, hi0)).
      { destruct (decide (x = prev)) as [->|]; eauto. }
      destruct HGx as (lo0 & hi0 & HGx).
      assert (Hown : owned stM G (leaf lnx)) by (exists x, lnx, lo0, hi0; done).
      split; [done|]. split; [|eauto]. intros El. apply (HownE _ Hown).
      rewrite HEn, El. left. }
    assert (Hown1 : forall l, owned st1M G1 l <-> l = leaf lnn \/ owned stM G l).
    { intros l. split.
      - intros (x & lnx & lo' & hi' & HG1 & Hl & <-).
        change (get_leafnode st1M x) with (get_leafnode st1 x) in Hl.
        destruct (Hclass _ _ _ _ HG1 Hl) as [[_ ->]|(_ & ? & _)]; auto.
      - intros [->|(x & lnx & lo' & hi' & HGx & Hl & <-)].
        + exists next, lnn, (Some mprev), None. unfold G1.
          rewrite decide_False by done. rewrite decide_True by done.
          split; [done|]. split; [|done].
          change (get_leafnode st1M next) with (get_leafnode st1 next).
          rewrite Hgl1. done.
        + change (get_leafnode stM x) with (get_leafnode st x) in Hl.
          assert (Hxn : x <> next) by (intros ->; congruence).
          destruct (decide (x = prev)) as [->|Hxp].
          * exists prev, lnx, lo, (Some mprev). unfold G1. rewrite decide_True by done.
            split; [done|]. split; [|done].
            change (get_leafnode st1M prev) with (get_leafnode st1 prev).
            rewrite Hgl1. done.
          * exists x, lnx, lo', hi'. unfold G1. rewrite !decide_False by done.
            split; [done|]. split; [|done].
            change (get_leafnode st1M x) with (get_leafnode st1 x).
            rewrite Hgl1. done. }
    assert (HI1 : Inv_gen cfg st1M G1 G H).
    { apply (Inv_gen_leaf_frame_tracked cfg stM st1M G G1 G H t HI); try done.
      - unfold st1M, st1, stM. cbn [nodes with_pool set_nodes].
        rewrite length_insert. done.
      - intros x Hx. change (parent_of st1M x) with (parent_of st1 x).
        change (parent_of stM x) with (parent_of st x). apply Hpo1. intros ->. done.
      - intros x d lo' hi' _. change (get_inner st1M x) with (get_inner st1 x).
        change (get_inner stM x) with (get_inner st x). apply Hgi1.
      - intros x d lo' hi'. unfold G1.
        destruct (decide (x = prev)) as [->|]; [rewrite HGp; split; discriminate|].
        destruct (decide (x = next)) as [->|]; [rewrite HGn; split; discriminate|].
        done.
      - intros x lo' hi' HG1.
        change (get_leafnode st1M x) with (get_leafnode st1 x).
        change (length (nodes st1M)) with (length (nodes st1)).
        unfold st1 at 1. cbn [nodes set_nodes]. rewrite length_insert.
        unfold G1 in HG1.
        destruct (decide (x = prev)) as [->|Hxp].
        { injection HG1 as <- <-. split; [eapply lookup_lt_Some; eauto|].
          exists lnp. rewrite Hgl1. split; [done|].
          apply leaf_ok_iff. exists plp. done. }
        destruct (decide (x = next)) as [->|Hxn].
        { injection HG1 as <- <-. split; [done|].
          exists lnn. rewrite Hgl1. split; [done|].
          apply leaf_ok_iff. exists pln. done. }
        destruct (inv_valid _ _ _ _ _ HI _ _ _ _ HG1) as [Hxlt _].
        split; [done|].
        destruct (inv_leaf _ _ _ _ _ HI _ _ _ HG1) as (lnx & Hlx & Hokx).
        exists lnx. rewrite Hgl1. split; [done|].
        eapply leaf_ok_pool_eq; [|exact Hokx].
        apply Hmask. intros El.
        assert (Hown : owned stM G (leaf lnx)) by (exists x, lnx, lo', hi'; done).
        apply (HownE _ Hown). rewrite HEn, El. left.
      - intros x x' lnx lnx' lox hix lox' hix' HGx HGx' Hlx Hlx' El.
        change (get_leafnode st1M x) with (get_leafnode st1 x) in Hlx.
        change (get_leafnode st1M x') with (get_leafnode st1 x') in Hlx'.
        destruct (Hclass _ _ _ _ HGx Hlx) as [[-> ->]|(N1 & N2 & N3 & lo0 & hi0 & HG0)];
        destruct (Hclass _ _ _ _ HGx' Hlx') as [[-> ->]|(M1 & M2 & M3 & lo0' & hi0' & HG0')];
          try done; try congruence.
        rewrite Hgl1 in Hlx, Hlx'.
        eapply (inv_leaf_distinct _ _ _ _ _ HI x x'); eauto.
      - destruct (inv_prealloc _ _ _ _ _ HI) as [Hndp Hp0].
        split; [done|]. intros l Hl.
        change (leaves_prealloc st1M) with (leaves_prealloc st) in Hl.
        destruct (Hp0 l Hl) as [(pl0 & Hpl0 & He) Hnown0].
        assert (Hlne' : l <> leaf lnn).
        { intros ->. destruct (Hpre _ Hl) as (pl' & Hpl' & He').
          assert (pl' = pln) as -> by congruence.
          rewrite He' in Hbn. apply lookup_replicate in Hbn as [? _]. done. }
        split.
        + exists pl0. split; [|done].
          change (pleaves st1M) with (mask_pool cfg E' P). rewrite Hmask by done. done.
        + rewrite Hown1. tauto.
      - intros l pl0 Hl. rewrite Hown1.
        destruct (decide (l = leaf lnn)) as [->|Hl']; [auto|].
        change (pleaves st1M) with (mask_pool cfg E' P) in Hl.
        rewrite Hmask in Hl by done.
        destruct (inv_owned _ _ _ _ _ HI _ _ Hl); auto.
      - apply mask_pool_chain. done. }
    assert (HP1 : pending st1M G1 G prev next mprev O lo None).
    { unfold pending, G1. rewrite decide_True by done.
      rewrite (decide_False (P := next = prev)) by done. rewrite decide_True by done.
      split; [done|]. split; [done|]. split.
      { intros x. destruct (decide (x = prev)) as [->|]; [done|].
        destruct (decide (x = next)) as [->|]; done. }
      split.
      { pose proof Hokp as (_ & _ & Ls & Hsl & _).
        assert (Hs : (sp0 < LEAF_KEYS cfg)%nat) by (rewrite <- Ls; eapply lookup_lt_Some; eauto).
        specialize (Hsl sp0 Hs). rewrite Hbp in Hsl. rewrite <- Hkp. tauto. }
      split; [done|]. split; [done|].
      change (parent_of st1M next) with (parent_of st1 next).
      change (parent_of st1M prev) with (parent_of st1 prev).
      rewrite !parent_of_node, !Hlk1. rewrite decide_True by done.
      rewrite decide_False by done. rewrite Hnp. done. }
    pose proof (inv_top _ _ _ _ _ HI1) as Htop1.
    change (tree_top st1M) with (tree_top st) in Htop1. rewrite Ht in Htop1.
    destruct Htop1 as (_ & _ & _ & HHlt).
    destruct (IUAS_spec cfg Hcfg (length (nodes st1)) st1M G1 G H prev next mprev O lo None
                HI1 HP1 ltac:(change (length (nodes st1M)) with (length (nodes st1)) in HHlt; lia))
      as (st2M & G' & H' & HU & HI2 & HRO).
    unfold st1M in HU. rewrite IUAS_with_pool in HU.
    destruct (InnerUpdateAfterSplit cfg (length (nodes st1)) st1 prev next mprev)
      as [st2|] eqn:HU2; [|discriminate].
    cbn in HU. injection HU as <-.
    destruct (IUAS_pool_unchanged _ _ _ _ _ _ _ HU2) as [Hpl2 Hhd2].
    destruct HRO as (_ & Hpre2 & _ & Hgl2 & HG0 & _).
    exists st2, G', H'. split.
    { rewrite Hnp. cbn [mbind option_bind parent].
      rewrite (update_parent_Some _ _ _ _ Hnn). cbn [mbind option_bind].
      unfold set_parent. cbn [kind]. fold node1. fold st1. exact HU2. }
    split; [exact HI2|]. split; [done|]. split; [done|]. split; [done|].
    split.
    { intros x. rewrite <- Hgl1. apply (Hgl2 x). }
    split.
    { apply HG0. unfold G1. rewrite decide_False by done. rewrite decide_True; done. }
    split.
    { intros x ln Hxp Hxn HGx Hl.
      destruct (G' x) as [[[d l'] h']|] eqn:EG; [|done]. exfalso.
      destruct d as [|d].
      - apply HG0 in EG. unfold G1 in EG. rewrite !decide_False in EG by done. congruence.
      - destruct (inv_inner _ _ _ _ _ HI2 _ _ _ _ EG) as (inner & Hin & _).
        pose proof (Hgl2 x) as Hgx.
        change (get_leafnode st1M x) with (get_leafnode st1 x) in Hgx.
        rewrite Hgl1, Hl in Hgx.
        eapply get_leafnode_inner; eauto. }
    intros l (x & lnx & lo' & hi' & HGx & Hl & <-).
    apply HG0 in HGx. rewrite Hgl2 in Hl.
    assert (Hown : owned st1M G1 (leaf lnx)) by (exists x, lnx, lo', hi'; done).
    apply Hown1 in Hown as [->|?]; [|auto].
    left. rewrite (leaf_of_Some _ _ _ Hln). done.
  Qed.
End RecoverStep.

Lemma pending_leaves_ext st st' rest :
  (forall x, get_leafnode st' x = get_leafnode st x) ->
  pending_leaves st' rest = pending_leaves st rest.
Proof.
  intros Hg. unfold pending_leaves. apply map_ext. intros [x m].
  unfold leaf_of. rewrite Hg. done.
Qed.

Lemma recover_build_spec cfg (Hcfg : cfg_ok cfg) sp (Hpool : pool_ok cfg sp) :
  forall rest st G H lo prev mprev lnp plp,
    Inv_gen cfg (with_pool st (mask_pool cfg (pending_leaves st rest) (pleaves sp))
                           (head sp)) G G H ->
    pleaves st = pleaves sp -> head st = head sp ->
    G prev = Some (O, lo, None) -> get_leafnode st prev = Some lnp ->
    pleaves sp !! leaf lnp = Some plp -> leaf_max plp mprev ->
    (forall x m, (x, m) ∈ rest ->
       exists ln pl, get_leafnode st x = Some ln /\ pleaves sp !! leaf ln = Some pl /\
         leaf_ok_pl cfg ln pl None None /\ leaf_max pl m /\ G x = None /\
         ~ owned (with_pool st (mask_pool cfg (pending_leaves st rest) (pleaves sp))
                            (head sp)) G (leaf ln)) ->
    NoDup (pending_leaves st rest) ->
    StronglySorted (fun a b => klt (snd a) (snd b)) ((prev, mprev) :: rest) ->
    (forall l, l ∈ leaves_prealloc st ->
       exists pl, pleaves sp !! l = Some pl /\
                  slots pl = replicate (LEAF_KEYS cfg) None) ->
    exists st' G' H',
      recover_build cfg rest st prev mprev = Some st' /\
      Inv_gen cfg st' G' G' H' /\ pleaves st' = pleaves sp /\ head st' = head sp /\
      recover_build_tops cfg rest st prev mprev.
Proof.
  induction rest as [|[next mnext] rest IH];
    intros st G H lo prev mprev lnp plp HI Hpl Hhd HGp Hlp Hplp Hmaxp Hrest Hnd Hsort Hpre.
  - exists st, G, H. split; [done|]. split; [|done].
    cbn [pending_leaves map] in HI. rewrite mask_pool_nil in HI.
    rewrite <- Hpl, <- Hhd, with_pool_id in HI. done.
  - apply StronglySorted_inv in Hsort as [Hsort Hall].
    assert (Hlt : klt mprev mnext).
    { apply Forall_inv in Hall. done. }
    destruct (recover_step cfg Hcfg sp Hpool st G H lo prev mprev next mnext rest
                HI HGp lnp plp Hlp Hplp Hmaxp Hrest Hnd Hlt Hpre)
      as (st2 & G' & H' & Hstep & HI2 & Hpl2 & Hhd2 & Hpre2 & Hgl2 & HGn' & Hnone & Hown2).
    destruct (Hrest next mnext ltac:(left))
      as (lnn & pln & Hln & Hpln & Hokn & Hmaxn & HGn & Hnown).
    assert (HEn : pending_leaves st ((next, mnext) :: rest)
                  = leaf lnn :: pending_leaves st rest).
    { unfold pending_leaves. cbn [map fst]. rewrite (leaf_of_Some _ _ _ Hln). done. }
    pose proof Hnd as Hnd0. rewrite HEn in Hnd0. apply NoDup_cons in Hnd0 as [Hnin Hnd'].
    destruct (IH st2 G' H' (Some mprev) next mnext lnn pln)
      as (st' & G'' & H'' & Hrb & HI' & Hpl' & Hhd' & Htops); try done.
    + rewrite (pending_leaves_ext st st2) by done. done.
    + congruence.
    + congruence.
    + rewrite Hgl2. done.
    + intros x m Hx.
      destruct (Hrest x m ltac:(right; done))
        as (ln & pl & Hl & Hp & Hok & Hmax & HGx & Hno).
      assert (Hlx : leaf ln ∈ pending_leaves st rest).
      { unfold pending_leaves. apply list_elem_of_fmap. exists (x, m).
        cbn [fst]. rewrite (leaf_of_Some _ _ _ Hl). done. }
      exists ln, pl. rewrite Hgl2. split_and!; try done.
      * apply (Hnone x ln); try done; intros ->; congruence.
      * rewrite (pending_leaves_ext st st2) by done. intros Hown.
        apply Hown2 in Hown as [El|?]; [|done].
        rewrite (leaf_of_Some _ _ _ Hln) in El. rewrite El in Hlx. done.
    + rewrite (pending_leaves_ext st st2) by done. done.
    + rewrite Hpre2. done.
    + exists st', G'', H''. split.
      { cbn [recover_build].
        destruct (nodes st !! prev) as [pn|]; [|discriminate].
        cbn [mbind option_bind] in *.
        destruct (update_parent st next (parent pn)) as [st1|]; [|discriminate].
        cbn [mbind option_bind] in *. rewrite Hstep. cbn [mbind option_bind]. done. }
      split; [done|]. split; [done|]. split; [done|].
      cbn [recover_build_tops]. intros pn st1 st2' Hpn E1 Eu.
      rewrite Hpn in Hstep. cbn [mbind option_bind] in Hstep.
      rewrite E1 in Hstep. cbn [mbind option_bind] in Hstep.
      assert (st2' = st2) as -> by congruence.
      split; [|split; [exact (Inv_top_linked _ _ _ _ HI2)|exact Htops]].
      pose proof (Inv_top_unlinked _ _ _ _ _ HI) as Hun.
      pose proof (inv_top _ _ _ _ _ HI) as Htop.
      intros t Ht.
      pose proof (parent_of_update_parent _ _ _ _ t E1) as Hp.
      apply update_parent_frame in E1 as (_ & _ & _ & A4 & A5 & _).
      rewrite A4 in Ht.
      change (tree_top (with_pool st ?a ?b)) with (tree_top st) in Htop.
      rewrite Ht in Htop. destruct Htop as (HGt & _).
      assert (Hne : t <> next) by (intros ->; congruence).
      rewrite decide_False in Hp by done. rewrite A5, Hp.
      apply (Hun t Ht).
Qed.

(** ** Recover *)

Section RecoverTop.
Variable cfg : Config.
Hypothesis Hcfg : cfg_ok cfg.
Hypothesis Hndebug : NDEBUG cfg = true.
Variable sp : MVTree.
Hypothesis Hpool : pool_ok cfg sp.
Let P := pleaves sp.
Let hd := head sp.
Variables (st1 : MVTree) (leaves : list (nat * string)).
Hypothesis HR : recovered cfg P hd (rev (rev (seq 0 (length P))) ++ []) st1 leaves.

Lemma recovered_seen l : (l < length P)%nat -> l ∈ rev (rev (seq 0 (length P))) ++ [].
  Proof.
    intros Hl. rewrite app_nil_r, rev_involutive. apply elem_of_seq. lia.
  Qed.

Lemma recovered_none :
    sort_leaves leaves = [] ->
    Inv_gen cfg (set_tree_top st1 None) (fun _ => None) (fun _ => None) O.
  Proof.
    intros Hs. assert (leaves = []) as ->.
    { apply Permutation_nil. rewrite <- Hs. apply sort_leaves_perm. }
    destruct HR as (HP & Hhd & Htt & Hndp & Hndl & Hpre & Hlv & Hinj & Hcov).
    destruct Hpool as (Hchain & _).
    constructor; try done.
    - split; [done|]. intros l Hl. destruct (Hpre l Hl) as [_ (pl & Hpl & He)].
      split.
      + exists pl. cbn [pleaves set_tree_top]. rewrite HP. done.
      + intros (x & ln & lo & hi & HG & _). done.
    - intros l pl Hl. right. cbn [pleaves set_tree_top] in Hl. rewrite HP in Hl.
      destruct (Hcov l pl) as [?|(x & m & Hx & _)]; [| |done|].
      + apply recovered_seen. eapply lookup_lt_Some; eauto.
      + done.
      + apply elem_of_nil in Hx. done.
    - destruct Hchain as [Hh Hc]. split; cbn [head pleaves set_tree_top].
      + rewrite Hhd, HP. done.
      + rewrite HP. done.
  Qed.

Variables (first : nat) (m0 : string) (rest : list (nat * string)).
Hypothesis Hsorted : sort_leaves leaves = (first, m0) :: rest.

Let stT := set_tree_top st1 (Some first).
Let E := pending_leaves stT rest.
Let G0 : ghost := fun x => if decide (x = first) then Some (O, None, None) else None.

Lemma recovered_facts :
    pleaves st1 = P /\ head st1 = hd /\
    NoDup (first :: map fst rest) /\
    (forall x m, (x, m) ∈ (first, m0) :: rest ->
       exists ln pl,
         nodes st1 !! x = Some {| parent := None; kind := LeafNode ln |} /\
         P !! leaf ln = Some pl /\ leaf_ok_pl cfg ln pl None None /\ leaf_max pl m) /\
    (forall x m x' m', (x, m) ∈ (first, m0) :: rest -> (x', m') ∈ (first, m0) :: rest ->
       leaf_of st1 x = leaf_of st1 x' -> x = x') /\
    (forall l pl, P !! l = Some pl ->
       slots pl = replicate (LEAF_KEYS cfg) None \/
       exists x m, (x, m) ∈ (first, m0) :: rest /\ leaf_of st1 x = l) /\
    NoDup (leaves_prealloc st1) /\
    (forall l, l ∈ leaves_prealloc st1 ->
       exists pl, P !! l = Some pl /\ slots pl = replicate (LEAF_KEYS cfg) None).
  Proof.
    destruct HR as (HP & Hhd & Htt & Hndp & Hndl & Hpre & Hlv & Hinj & Hcov).
    pose proof (sort_leaves_perm leaves) as Hperm. rewrite Hsorted in Hperm.
    assert (Hmem : forall xm, xm ∈ (first, m0) :: rest <-> xm ∈ leaves).
    { intros xm. rewrite Hperm. done. }
    split; [done|]. split; [done|]. split.
    { change (first :: map fst rest) with (map fst ((first, m0) :: rest)).
      rewrite Hperm. done. }
    split.
    { intros x m Hx. apply Hmem in Hx.
      destruct (Hlv _ _ Hx) as (ln & pl & ? & _ & ? & ? & ?). eauto 10. }
    split.
    { intros x m x' m' Hx Hx'. apply Hmem in Hx, Hx'. eauto. }
    split.
    { intros l pl Hl. destruct (Hcov l pl) as [?|(x & m & Hx & E0)]; [|done|auto|].
      - apply recovered_seen. eapply lookup_lt_Some; eauto.
      - right. exists x, m. split; [apply Hmem; done|done]. }
    split; [done|]. intros l Hl. apply Hpre in Hl as [_ ?]. done.
  Qed.

Lemma recovered_E x m ln :
    (x, m) ∈ rest -> get_leafnode st1 x = Some ln -> leaf ln ∈ E.
  Proof.
    intros Hx Hl. unfold E, pending_leaves. apply list_elem_of_fmap.
    exists (x, m). cbn [fst]. split; [|done].
    change (leaf_of stT x) with (leaf_of st1 x). rewrite (leaf_of_Some _ _ _ Hl). done.
  Qed.

Lemma recovered_E_inv l :
    l ∈ E -> exists x m, (x, m) ∈ rest /\ leaf_of st1 x = l.
  Proof.
    unfold E, pending_leaves. intros Hl.
    apply list_elem_of_fmap in Hl as ([x m] & -> & Hx). eauto.
  Qed.

Lemma recovered_first :
    exists ln pl,
      nodes st1 !! first = Some {| parent := None; kind := LeafNode ln |} /\
      P !! leaf ln = Some pl /\ leaf_ok_pl cfg ln pl None None /\ leaf_max pl m0 /\
      leaf ln ∉ E.
  Proof.
    destruct recovered_facts as (_ & _ & Hnd & Hlv & Hinj & _).
    destruct (Hlv first m0 ltac:(left)) as (ln & pl & Hn & Hp & Hok & Hmax).
    exists ln, pl. split_and!; try done.
    intros Hin. apply recovered_E_inv in Hin as (x & m & Hx & El).
    rewrite <- (leaf_of_node _ _ _ _ Hn) in El.
    assert (x = first) as ->
      by (eapply (Hinj x m first m0); [right; done|left|done]).
    apply NoDup_cons in Hnd as [Hnin _]. apply Hnin.
    apply list_elem_of_fmap. exists (first, m). done.
  Qed.

Lemma recovered_masked : Inv_gen cfg (with_pool stT (mask_pool cfg E P) hd) G0 G0 O.
  Proof.
    destruct recovered_facts as (HP & Hhd & Hnd & Hlv & Hinj & Hcov & Hndp & Hpre).
    destruct recovered_first as (ln & pl & Hn & Hp & Hok & Hmax & HnE).
    destruct Hpool as (Hchain & _).
    assert (Hgl : get_leafnode stT first = Some ln).
    { apply get_leafnode_Some. eauto. }
    assert (Hown : forall l, owned (with_pool stT (mask_pool cfg E P) hd) G0 l -> l = leaf ln).
    { intros l (x & lnx & lo & hi & HG & Hl & <-). unfold G0 in HG.
      destruct (decide (x = first)) as [->|]; [|done].
      change (get_leafnode (with_pool stT (mask_pool cfg E P) hd) first)
        with (get_leafnode stT first) in Hl. congruence. }
    apply Inv_gen_intro.
    - unfold stT. cbn [tree_top with_pool set_tree_top]. unfold G0. rewrite decide_True by done.
      split; [done|]. split.
      { rewrite parent_of_node. unfold stT. cbn [nodes with_pool set_tree_top].
        rewrite Hn. done. }
      unfold stT. cbn [nodes with_pool set_tree_top].
      assert (first < length (nodes st1))%nat by (eapply lookup_lt_Some; eauto). lia.
    - intros x d lo hi. unfold G0. destruct (decide (x = first)) as [->|]; [|done].
      intros [= <- <- <-]. split; [|lia]. unfold stT. cbn [nodes with_pool set_tree_top].
      eapply lookup_lt_Some; eauto.
    - intros x d lo hi. unfold G0. destruct (decide (x = first)); done.
    - intros x d lo hi. unfold G0. destruct (decide (x = first)) as [->|]; [|done].
      intros _ Hnt. destruct Hnt. done.
    - split_and!.
      + intros x lo hi. unfold G0. destruct (decide (x = first)) as [->|]; [|done].
        intros [= <- <-]. exists ln. split; [done|].
        apply leaf_ok_iff. exists pl. split; [|done].
        cbn [pleaves with_pool]. rewrite mask_pool_out by done. done.
      + intros x y lnx lny lox hix loy hiy. unfold G0.
        destruct (decide (x = first)) as [->|]; [|done].
        destruct (decide (y = first)) as [->|]; done.
      + done.
      + intros l Hl. destruct (Hpre l Hl) as (pl0 & Hpl0 & He).
        split.
        * cbn [pleaves with_pool]. unfold leaf_all_empty. cbn [pleaves with_pool].
          rewrite mask_pool_lookup, Hpl0. cbn [fmap option_fmap option_map].
          destruct (bool_decide _); eexists; (split; [reflexivity|done]).
        * intros Ho. apply Hown in Ho. subst l.
          assert (pl0 = pl) as -> by congruence.
          destruct Hmax as [(s & b & Hb & _) _]. rewrite He in Hb.
          apply lookup_replicate in Hb as [? _]. done.
      + intros l plM Hl. cbn [pleaves with_pool] in Hl.
        rewrite mask_pool_lookup in Hl.
        destruct (P !! l) as [pl0|] eqn:Hpl0; [|done].
        cbn [fmap option_fmap option_map] in Hl. injection Hl as <-.
        destruct (decide (l ∈ E)) as [HlE|HlE].
        { rewrite bool_decide_eq_true_2 by done. right. done. }
        rewrite bool_decide_eq_false_2 by done.
        destruct (Hcov l pl0 Hpl0) as [?|(x & m & Hx & El)]; [auto|].
        apply elem_of_cons in Hx as [[= -> ->]|Hx].
        * left. exists first, ln, None, None. unfold G0. rewrite decide_True by done.
          split; [done|]. split; [done|].
          rewrite <- El. symmetry. eapply leaf_of_node; eauto.
        * destruct HlE. destruct (Hlv x m ltac:(right; done)) as (lnx & plx & Hnx & _).
          rewrite (leaf_of_node _ _ _ _ Hnx) in El. subst l.
          eapply recovered_E; eauto. apply get_leafnode_Some. eauto.
      + apply mask_pool_chain. done.
      + exact Hndebug.
  Qed.
End RecoverTop.

(** [Recover] on the pool of a tree that satisfied the invariant builds a
    tree that satisfies it, and leaves the pool as it found it. *)
Lemma Recover_spec cfg sp :
  cfg_ok cfg -> NDEBUG cfg = true -> pool_ok cfg sp ->
  exists st' G' H',
    Recover cfg {| nodes := []; tree_top := None; leaves_prealloc := [];
                   pleaves := pleaves sp; head := head sp |} = Some st' /\
    Inv_gen cfg st' G' G' H' /\ pleaves st' = pleaves sp /\ head st' = head sp /\
    forall ids st1 leaves first m0 rest,
      persistent_list {| nodes := []; tree_top := None; leaves_prealloc := [];
                         pleaves := pleaves sp; head := head sp |} = Some ids ->
      recover_leaves cfg ids
        {| nodes := []; tree_top := None; leaves_prealloc := [];
           pleaves := pleaves sp; head := head sp |} [] = Some (st1, leaves) ->
      sort_leaves leaves = (first, m0) :: rest ->
      recover_build_tops cfg rest (set_tree_top st1 (Some first)) first m0.
Proof.
  intros Hcfg Hndebug Hpool. pose proof Hpool as (Hchain & Hbok & Huniq & Hsep).
  set (st0 := {| nodes := []; tree_top := None; leaves_prealloc := [];
                 pleaves := pleaves sp; head := head sp |}).
  assert (Hchain0 : chain_ok cfg st0) by exact Hchain.
  unfold Recover. rewrite (persistent_list_chain cfg st0 Hchain0).
  cbn [mbind option_bind]. change (pleaves st0) with (pleaves sp).
  destruct (recover_leaves_spec cfg (pleaves sp) (head sp)) with
    (ids := rev (seq 0 (length (pleaves sp)))) (st := st0)
    (leaves := @nil (nat * string)) (seen := @nil nat)
    as (st1 & leaves & Hrl & HR).
  { intros l pl Hl. destruct Hchain as [_ Hc]. apply (Hc l pl Hl). }
  { intros l pl slot b Hl Hb. apply (Hbok l slot b). unfold read_pslot.
    rewrite Hl. done. }
  { intros l pl s1 s2 b1 b2 Hl H1 H2 E.
    destruct (Huniq l s1 b1 l s2 b2); auto; unfold read_pslot; rewrite Hl; done. }
  { apply NoDup_ListNoDup. apply NoDup_rev. apply NoDup_ListNoDup. apply NoDup_seq. }
  { intros l Hl. split; [apply not_elem_of_nil|].
    apply list_elem_of_In, in_rev, list_elem_of_In, elem_of_seq in Hl. lia. }
  { unfold recovered. cbn [pleaves head tree_top leaves_prealloc nodes st0].
    split_and!; try done; try apply NoDup_nil_2.
    - intros l Hl. apply elem_of_nil in Hl. done.
    - intros x m Hx. apply elem_of_nil in Hx. done.
    - intros x m x' m' Hx. apply elem_of_nil in Hx. done.
    - intros l pl Hl. apply elem_of_nil in Hl. done. }
  rewrite Hrl. cbn [mbind option_bind].
  assert (Hsame : forall ids st1' leaves',
            Some (rev (seq 0 (length (pleaves sp)))) = Some ids ->
            recover_leaves cfg ids st0 [] = Some (st1', leaves') ->
            st1' = st1 /\ leaves' = leaves).
  { intros ids st1' leaves' Hids Hrl'. injection Hids as <-.
    rewrite Hrl in Hrl'. injection Hrl' as <- <-. done. }
  destruct (sort_leaves leaves) as [|[first m0] rest] eqn:Hs.
  - exists (set_tree_top st1 None), (fun _ => None), O.
    split; [done|]. split; [eapply recovered_none; eauto|].
    destruct HR as (HP & Hhd & _). split; [done|]. split; [done|].
    intros ids st1' leaves' first m0 rest Hids Hrl' Hs'.
    destruct (Hsame _ _ _ Hids Hrl') as [-> ->]. congruence.
  - destruct (recovered_facts cfg sp st1 leaves HR first m0 rest Hs)
      as (HP & Hhd & Hnd & Hlv & Hinj & Hcov & Hndp & Hpre).
    destruct (recovered_first cfg sp st1 leaves HR first m0 rest Hs)
      as (ln & pl & Hn & Hp & Hok & Hmax & HnE).
    set (stT := set_tree_top st1 (Some first)).
    set (G0 := fun x => if decide (x = first) then Some (O, @None string, @None string)
                        else None).
    apply NoDup_cons in Hnd as [Hfirst Hndr].
    assert (Hglf : get_leafnode stT first = Some ln) by (apply get_leafnode_Some; eauto).
    destruct (recover_build_spec cfg Hcfg sp Hpool rest stT G0 O None first m0 ln pl)
      as (st' & G' & H' & Hrb & HI' & Hpl' & Hhd' & Htops); try done.
    + eapply recovered_masked; eauto.
    + unfold G0. rewrite decide_True; done.
    + intros x m Hx.
      destruct (Hlv x m ltac:(right; done)) as (lnx & plx & Hnx & Hpx & Hokx & Hmaxx).
      exists lnx, plx.
      assert (Hxf : x <> first).
      { intros ->. apply Hfirst. apply list_elem_of_fmap. exists (first, m). done. }
      split; [apply get_leafnode_Some; eauto|]. split_and!; try done.
      * unfold G0. rewrite decide_False; done.
      * intros (y & lny & lo & hi & HG & Hl & El). unfold G0 in HG.
        destruct (decide (y = first)) as [->|]; [|done].
        change (get_leafnode _ first) with (get_leafnode stT first) in Hl.
        assert (lny = ln) as -> by congruence.
        apply Hxf. eapply (Hinj x m first m0); [right; done|left|].
        rewrite (leaf_of_node _ _ _ _ Hnx), (leaf_of_node _ _ _ _ Hn). done.
    + unfold pending_leaves.
      change (map (fun xm => leaf_of stT (fst xm)) rest)
        with ((fun xm : nat * string => leaf_of st1 (fst xm)) <$> rest).
      apply NoDup_fmap_2_strong; [|eapply NoDup_fmap_1; exact Hndr].
      intros [x m] [x' m'] Hx Hx' E. cbn [fst] in E.
      assert (x = x') as ->
        by (eapply (Hinj x m x' m'); [right; done|right; done|done]).
      f_equal.
      destruct (Hlv x' m ltac:(right; done)) as (ln1 & pl1 & Hn1 & Hp1 & _ & Hm1).
      destruct (Hlv x' m' ltac:(right; done)) as (ln2 & pl2 & Hn2 & Hp2 & _ & Hm2).
      assert (ln2 = ln1) as -> by congruence.
      assert (pl2 = pl1) as -> by congruence.
      destruct Hm1 as [(s1 & b1 & Hb1 & <-) Hall1].
      destruct Hm2 as [(s2 & b2 & Hb2 & <-) Hall2].
      apply kle_antisym; [eapply Hall2|eapply Hall1]; eauto.
    + apply (sorted_strict snd); [rewrite <- Hs; apply sort_leaves_sorted|].
      change (map snd ((first, m0) :: rest))
        with (snd <$> ((first, m0) :: rest) : list string).
      apply NoDup_fmap_2_strong.
      * intros [x m] [x' m'] Hx Hx' E. cbn [snd] in E. subst m'.
        destruct (Hlv x m Hx) as (ln1 & pl1 & Hn1 & Hp1 & _ & Hm1).
        destruct (Hlv x' m Hx') as (ln2 & pl2 & Hn2 & Hp2 & _ & Hm2).
        destruct Hm1 as [(s1 & b1 & Hb1 & Hk1) _].
        destruct Hm2 as [(s2 & b2 & Hb2 & Hk2) _].
        destruct (Huniq (leaf ln1) s1 b1 (leaf ln2) s2 b2) as [El _].
        { unfold read_pslot. rewrite Hp1. done. }
        { unfold read_pslot. rewrite Hp2. done. }
        { congruence. }
        f_equal. eapply (Hinj x m x' m); [done|done|].
        rewrite (leaf_of_node _ _ _ _ Hn1), (leaf_of_node _ _ _ _ Hn2). done.
      * eapply (NoDup_fmap_1 fst). cbn [fmap list_fmap]. apply NoDup_cons. done.
    + exists st', G', H'. split; [done|]. split; [done|]. split; [done|].
      split; [done|].
      intros ids st1' leaves' first' m0' rest' Hids Hrl' Hs'.
      destruct (Hsame _ _ _ Hids Hrl') as [-> ->].
      rewrite Hs in Hs'. injection Hs' as <- <- <-. exact Htops.
Qed.

(** ** Sequences of operations *)

Lemma reopen_spec cfg st G H :
  cfg_ok cfg -> Inv_gen cfg st G G H ->
  exists st' G' H',
    reopen cfg st = Some st' /\ Inv_gen cfg st' G' G' H' /\
    pleaves st' = pleaves st /\ head st' = head st.
Proof.
  intros Hcfg HI. unfold reopen.
  destruct (Recover_spec cfg st Hcfg (inv_ndebug _ _ _ _ _ HI))
    as (st' & G' & H' & Hr & HI' & Hpl & Hhd & _).
  { eapply Inv_pool_ok; eauto. }
  exists st', G', H'. done.
Qed.

Lemma Inv_fresh cfg :
  NDEBUG cfg = true -> Inv_gen cfg fresh (fun _ => None) (fun _ => None) O.
Proof.
  intros Hndebug. constructor; try done.
  - split; [apply NoDup_nil_2|]. intros lf Hl. apply elem_of_nil in Hl. done.
Qed.

Lemma fresh_no_contents k v : ~ contents fresh k v.
Proof. intros (lf & slot & b & Hr & _). done. Qed.

Lemma step_spec cfg st o (m : string -> option string) :
  cfg_ok cfg -> Inv cfg st -> op_small o ->
  (forall k v, contents st k v <-> m k = Some v) ->
  exists st',
    step cfg st o = Some st' /\ Inv cfg st' /\
    forall k v, contents st' k v <-> model [o] m k = Some v.
Proof.
  intros Hcfg (G & H & HI) Hsm Hc. destruct o as [key value|key|]; cbn [step model].
  - destruct Hsm as [Hsk Hsv].
    destruct (Put_spec cfg st G H key value Hcfg HI Hsk Hsv)
      as (st' & G' & H' & -> & HI' & Hc').
    exists st'. split; [done|]. split; [exists G', H'; done|].
    intros k v. rewrite Hc'. destruct (String.eqb_spec k key) as [->|Hne].
    + split; [intros [[_ ->]|[? _]]; done|]. intros [= ->]. auto.
    + rewrite <- Hc. split; [intros [[? _]|[_ ?]]; done|]. auto.
  - destruct (Remove_spec cfg st G H HI key) as (st' & -> & HI' & _ & Hc').
    exists st'. split; [done|]. split; [exists G, H; done|].
    intros k v. rewrite Hc'. destruct (String.eqb_spec k key) as [->|Hne].
    + split; [intros [? _]; done|done].
    + rewrite <- Hc. tauto.
  - destruct (reopen_spec cfg st G H Hcfg HI) as (st' & G' & H' & -> & HI' & Hpl & _).
    exists st'. split; [done|]. split; [exists G', H'; done|].
    intros k v. rewrite <- Hc. apply contents_pleaves_eq. done.
Qed.

Lemma run_spec cfg ops : forall st (m : string -> option string),
  cfg_ok cfg -> Inv cfg st -> Forall op_small ops ->
  (forall k v, contents st k v <-> m k = Some v) ->
  exists st',
    run cfg ops st = Some st' /\ Inv cfg st' /\
    forall k v, contents st' k v <-> model ops m k = Some v.
Proof.
  induction ops as [|o ops IH]; intros st m Hcfg HI Hsm Hc.
  - exists st. done.
  - apply Forall_cons in Hsm as [Ho Hsm].
    destruct (step_spec cfg st o m Hcfg HI Ho Hc) as (st1 & Hs & HI1 & Hc1).
    destruct (IH st1 (model [o] m) Hcfg HI1 Hsm Hc1) as (st' & Hr & HI' & Hc').
    exists st'. cbn [run]. rewrite Hs. cbn [mbind option_bind].
    split; [done|]. split; [done|].
    intros k v. rewrite Hc'. destruct o; done.
Qed.

Lemma run_fresh cfg ops :
  cfg_ok cfg -> NDEBUG cfg = true -> Forall op_small ops ->
  exists st,
    run cfg ops fresh = Some st /\ Inv cfg st /\
    forall k v, contents st k v <-> model ops (fun _ => None) k = Some v.
Proof.
  intros Hcfg Hndebug Hsm. apply run_spec; try done.
  - exists (fun _ => None), O. apply Inv_fresh, Hndebug.
  - intros k v. split; [intros Hc; destruct (fresh_no_contents _ _ Hc)|done].
Qed.

Lemma Get_model cfg st (m : string -> option string) k s :
  Inv cfg st -> (forall k v, contents st k v <-> m k = Some v) ->
  Get cfg st k s = Some (match m k with
                         | Some v => (OK, (s ++ v)%string)
                         | None => (NOT_FOUND, s)
                         end).
Proof.
  intros (G & H & HI) Hc. destruct (m k) as [v|] eqn:E.
  - apply (Get_found cfg st G H HI). apply Hc. done.
  - apply (Get_not_found cfg st G H HI). intros v Hv. apply Hc in Hv. congruence.
Qed.

(** ** The separator invariant on the heap *)

Lemma ble_hi_le k a b : ble k a -> hi_le a b -> ble k b.
Proof. destruct a, b; simpl; try tauto; eauto with korder. Qed.

Lemma leafnode_keys_elem ln k :
  k ∈ leafnode_keys ln ->
  exists slot h, hashes ln !! slot = Some h /\ h <> 0 /\ keys ln !! slot = Some k.
Proof.
  unfold leafnode_keys. intros Hk.
  apply list_elem_of_omap in Hk as ([h k'] & Hin & Hf).
  apply list_elem_of_lookup_1 in Hin as [slot Hs].
  apply lookup_zip_with_Some in Hs as (x & y & [= <- <-] & Hh & Hk').
  cbn [fst snd] in Hf. destruct (Z.eqb_spec h 0); [done|].
  injection Hf as <-. eauto.
Qed.

Lemma subtree_range cfg st G H :
  Inv_gen cfg st G G H ->
  forall d fuel x lo hi,
    G x = Some (d, lo, hi) -> (d < fuel)%nat ->
    separators_hold fuel (nodes st) x /\
    Forall (fun k => blt lo k /\ ble k hi) (subtree_keys fuel (nodes st) x).
Proof.
  intros HI. induction d as [|d IH]; intros fuel x lo hi HG Hf;
    (destruct fuel as [|fuel]; [lia|]).
  - destruct (inv_leaf _ _ _ _ _ HI _ _ _ HG) as (ln & Hl & Hok).
    apply get_leafnode_Some in Hl as [p Hn].
    cbn [separators_hold subtree_keys]. rewrite Hn. split; [done|].
    apply List.Forall_forall. intros k Hk. apply list_elem_of_In in Hk.
    apply leafnode_keys_elem in Hk as (slot & h & Hh & Hnz & Hk).
    destruct Hok as (Lh & _ & pl & _ & _ & Hsl & _).
    assert (Hs : (slot < LEAF_KEYS cfg)%nat) by (rewrite <- Lh; eapply lookup_lt_Some; eauto).
    specialize (Hsl slot Hs).
    destruct (slots pl !! slot) as [[b|]|].
    + destruct Hsl as (_ & _ & Hkb & ? & ?).
      assert (k = slot_key b) as -> by congruence. done.
    + destruct Hsl as [Hz _]. congruence.
    + destruct Hsl as [Hz _]. congruence.
  - destruct (inv_inner _ _ _ _ _ HI _ _ _ _ HG) as (inner & Hin & Hok & Hch).
    apply get_inner_Some in Hin as [p Hn].
    cbn [separators_hold subtree_keys]. rewrite Hn.
    pose proof Hok as (_ & _ & _ & Hsorted & _).
    assert (Hchild : forall i, (i <= keycount inner)%nat ->
              exists c, children inner !! i = Some (Some c) /\
                separators_hold fuel (nodes st) c /\
                Forall (fun k => blt (child_lo inner lo i) k /\
                                 ble k (child_hi inner hi i))
                       (subtree_keys fuel (nodes st) c)).
    { intros i Hi. destruct (Hch i Hi) as (c & Hc & HGc & _).
      exists c. split; [done|]. apply (IH fuel c _ _ HGc). lia. }
    split; [split; [done|]|].
    + intros i Hi. destruct (Hchild i Hi) as (c & Hc & Hsep & Hall).
      exists c. split; [done|]. split; [done|]. split.
      * intros Hlt. eapply List.Forall_impl; [|exact Hall].
        intros k [_ Hk]. unfold child_hi in Hk.
        destruct (Nat.ltb_spec i (keycount inner)); [done|lia].
      * intros Hpos. eapply List.Forall_impl; [|exact Hall].
        intros k [Hk _]. destruct i as [|i]; [lia|].
        cbn [child_lo] in Hk. replace (S i - 1)%nat with i by lia. done.
    + apply Forall_concat. apply Forall_fmap. apply List.Forall_forall.
      intros c Hc. apply list_elem_of_In in Hc.
      apply list_elem_of_omap in Hc as (oc & Hoc & Eoc). cbn in Eoc. subst oc.
      apply elem_of_take in Hoc as (i & Hi & Hlt).
      destruct (Hchild i ltac:(lia)) as (c' & Hc' & _ & Hall).
      assert (c' = c) as -> by congruence. cbn.
      eapply List.Forall_impl; [|exact Hall].
      intros k [Hk1 Hk2]. split.
      * eapply blt_lo_le; [|exact Hk1]. eapply child_lo_nest; eauto. lia.
      * eapply ble_hi_le; [exact Hk2|]. eapply child_hi_nest; eauto. lia.
Qed.

Lemma Inv_separator_invariant cfg st : Inv cfg st -> separator_invariant st.
Proof.
  intros (G & H & HI). unfold separator_invariant.
  pose proof (inv_top _ _ _ _ _ HI) as Htop.
  destruct (tree_top st) as [t|]; [|done].
  destruct Htop as (HGt & _ & _ & HH).
  apply (subtree_range cfg st G H HI H _ t None None HGt HH).
Qed.

(** ** Listing the pool *)

Lemma ListAllKeys_pool cfg st st' out :
  pleaves st' = pleaves st -> head st' = head st ->
  ListAllKeys cfg st' out = ListAllKeys cfg st out.
Proof.
  intros Hp Hh. unfold ListAllKeys, all_blocks, persistent_list. rewrite Hp, Hh. done.
Qed.

Lemma ListAllKeys_returns cfg st out :
  chain_ok cfg st -> exists keys, ListAllKeys cfg st out = Some (out ++ keys).
Proof.
  intros Hc. unfold ListAllKeys, all_blocks.
  rewrite (persistent_list_chain cfg st Hc). cbn [mbind option_bind]. eauto.
Qed.

(** * The assertions *)

(** ** The assertions of the inner nodes *)

Lemma inner_tidy_assert cfg inner :
  inner_tidy cfg inner -> assert_invariants cfg inner = true.
Proof.
  intros (_ & _ & Hkc & Hsep & Hch & Hnull). unfold assert_invariants.
  rewrite !andb_true_iff. split_and!.
  - apply Nat.leb_le, Hkc.
  - apply forallb_forall. intros i Hi. apply in_seq in Hi.
    apply andb_true_iff. split.
    + specialize (Hsep i ltac:(lia)). unfold sep in Hsep.
      destruct (default EmptyString (ikeys inner !! i)); [done|reflexivity].
    + destruct (Hch i ltac:(lia)) as [c ->]. reflexivity.
  - destruct (Hch (keycount inner) ltac:(lia)) as [c ->]. reflexivity.
  - apply forallb_forall. intros i Hi. apply in_seq in Hi.
    rewrite (Hnull i) by lia. reflexivity.
Qed.

Lemma midpoints_even cfg :
  cfg_ok cfg ->
  INNER_KEYS_UPPER cfg = S (INNER_KEYS_MIDPOINT cfg) /\
  (INNER_KEYS_MIDPOINT cfg + INNER_KEYS_UPPER cfg = S (INNER_KEYS cfg))%nat /\
  (1 <= INNER_KEYS_MIDPOINT cfg <= INNER_KEYS cfg)%nat.
Proof.
  intros (_ & (H2 & _) & [m Hm]).
  unfold INNER_KEYS_MIDPOINT, INNER_KEYS_UPPER. rewrite Hm.
  replace (2 * m + 2)%nat with ((m + 1) * 2)%nat by lia.
  rewrite Nat.div_mul by lia. lia.
Qed.

(** The entries a split moves out of the old array are left moved-from. *)
Lemma split_lookup_src {A} (mv : A -> A) U cnt : forall (ia na : list A),
  (U + cnt <= length ia)%nat -> (cnt <= length na)%nat ->
  let r := fold_left
             (fun '(ia, na) i =>
                match ia !! i with
                | Some v => (<[i := mv v]> ia, <[(i - U)%nat := v]> na)
                | None => (ia, na)
                end) (seq U cnt) (ia, na) in
  forall j, (U <= j < U + cnt)%nat -> fst r !! j = mv <$> ia !! j.
Proof.
  induction cnt as [|cnt IH]; intros ia na Hi Hn; cbv zeta.
  - intros j Hj. lia.
  - rewrite seq_S, fold_left_app. simpl.
    pose proof (IH ia na ltac:(lia) ltac:(lia)) as IH'. cbv zeta in IH'.
    destruct (split_lookup mv U cnt ia na ltac:(lia) ltac:(lia))
      as (L1 & _ & _ & P2 & _).
    destruct (fold_left _ (seq U cnt) (ia, na)) as [ia' na']. simpl in *.
    destruct (lookup_lt_is_Some_2 ia' (U + cnt)%nat ltac:(lia)) as [v Hv].
    rewrite Hv. simpl. intros j Hj.
    destruct (decide (j = U + cnt)%nat) as [->|Hne].
    + rewrite list_lookup_insert_eq by lia.
      rewrite <- (P2 (U + cnt)%nat) by lia. rewrite Hv. reflexivity.
    + rewrite list_lookup_insert_ne by lia. apply IH'. lia.
Qed.

Lemma inner_insert_tidy cfg inner new s :
  (INNER_KEYS cfg < 255)%nat -> inner_tidy cfg inner -> s <> EmptyString ->
  let inner1 := inner_insert cfg inner new s in
  length (ikeys inner1) = (INNER_KEYS cfg + 1)%nat /\
  length (children inner1) = (INNER_KEYS cfg + 2)%nat /\
  keycount inner1 = S (keycount inner) /\
  (forall i, (i < S (keycount inner))%nat -> sep inner1 i <> EmptyString) /\
  (forall i, (i <= S (keycount inner))%nat ->
     exists c, children inner1 !! i = Some (Some c)) /\
  (forall i, (S (keycount inner) < i)%nat -> mjoin (children inner1 !! i) = None).
Proof.
  intros H255 (Hlk & Hlc & Hkc & Hsep & Hch & Hnull) Hs inner1.
  unfold inner1, inner_insert.
  destruct (insert_scan_aux inner s (keycount inner) 0 eq_refl
              ltac:(intros j Hj; lia)) as [Hi0 _].
  cbv zeta in Hi0.
  set (i0 := insert_scan s (ikeys inner) 0 (keycount inner)) in *.
  set (kc := keycount inner) in *.
  destruct (shift_lookup (moved_from cfg) (kc - i0) (ikeys inner) i0 ltac:(lia))
    as [HL1 HK].
  destruct (shift_lookup (fun _ => None) (kc - i0) (children inner) (i0 + 1) ltac:(lia))
    as [HL2 HC].
  cbn [keycount ikeys children]. split.
  { rewrite length_insert. unfold move_key. rewrite HL1. done. }
  split.
  { rewrite length_insert. unfold move_child. rewrite HL2. done. }
  split.
  { rewrite Nat.mod_small by lia. lia. }
  split; [|split].
  - intros j Hj. unfold sep. cbn [ikeys].
    destruct (decide (j = i0)) as [->|Hne].
    + rewrite list_lookup_insert_eq by (unfold move_key; rewrite HL1; lia). done.
    + rewrite list_lookup_insert_ne by done. unfold move_key.
      rewrite (HK j Hne).
      destruct (decide (i0 < j <= i0 + (kc - i0))%nat).
      * apply (Hsep (j - 1)%nat). lia.
      * apply (Hsep j). lia.
  - intros j Hj.
    destruct (decide (j = i0 + 1)%nat) as [->|Hne].
    + exists new. rewrite list_lookup_insert_eq; [done|].
      unfold move_child. rewrite HL2. lia.
    + rewrite list_lookup_insert_ne by lia. unfold move_child.
      rewrite (HC j ltac:(lia)).
      destruct (decide (i0 + 1 < j <= i0 + 1 + (kc - i0))%nat).
      * apply (Hch (j - 1)%nat). lia.
      * apply (Hch j). lia.
  - intros j Hj.
    rewrite list_lookup_insert_ne by lia. unfold move_child.
    rewrite (HC j ltac:(lia)).
    rewrite decide_False by lia. apply Hnull. lia.
Qed.

Lemma split_tidy cfg inner1 ik nk ic nc :
  cfg_ok cfg ->
  length (ikeys inner1) = (INNER_KEYS cfg + 1)%nat ->
  length (children inner1) = (INNER_KEYS cfg + 2)%nat ->
  keycount inner1 = S (INNER_KEYS cfg) ->
  (forall i, (i < S (INNER_KEYS cfg))%nat -> sep inner1 i <> EmptyString) ->
  (forall i, (i <= S (INNER_KEYS cfg))%nat ->
     exists c, children inner1 !! i = Some (Some c)) ->
  split_move_keys cfg (ikeys inner1) (ikeys (new_MVInnerNode cfg))
                  (keycount inner1) = (ik, nk) ->
  split_move_children cfg (children inner1) (children (new_MVInnerNode cfg))
                      (keycount inner1) = (ic, nc) ->
  inner_tidy cfg {| keycount := INNER_KEYS_MIDPOINT cfg; ikeys := ik;
                    children := ic |} /\
  inner_tidy cfg {| keycount := INNER_KEYS_MIDPOINT cfg; ikeys := nk;
                    children := nc |} /\
  exists nsk, ik !! INNER_KEYS_MIDPOINT cfg = Some nsk /\ nsk <> EmptyString.
Proof.
  intros Hcfg Hlk Hlc Hkc Hsep Hch.
  destruct (midpoints_even cfg Hcfg) as (EU & Esum & HM).
  unfold split_move_keys, split_move_children. rewrite Hkc.
  set (U := INNER_KEYS_UPPER cfg) in *. set (Mid := INNER_KEYS_MIDPOINT cfg) in *.
  replace (S (INNER_KEYS cfg) - U)%nat with Mid by lia.
  replace (S (INNER_KEYS cfg) + 1 - U)%nat with (S Mid) by lia.
  assert (L1 : length (ikeys (new_MVInnerNode cfg)) = (INNER_KEYS cfg + 1)%nat)
    by apply length_replicate.
  assert (L2 : length (children (new_MVInnerNode cfg)) = (INNER_KEYS cfg + 2)%nat)
    by apply length_replicate.
  pose proof (split_lookup (moved_from cfg) U Mid (ikeys inner1)
                (ikeys (new_MVInnerNode cfg)) ltac:(lia) ltac:(lia)) as HK.
  pose proof (split_lookup (fun _ => None) U (S Mid) (children inner1)
                (children (new_MVInnerNode cfg)) ltac:(lia) ltac:(lia)) as HC.
  pose proof (split_lookup_src (fun _ => None) U (S Mid) (children inner1)
                (children (new_MVInnerNode cfg)) ltac:(lia) ltac:(lia)) as HS.
  cbv zeta in HK, HC, HS.
  destruct (fold_left _ (seq U Mid) _) as [ik' nk'].
  destruct (fold_left _ (seq U (S Mid)) _) as [ic' nc'].
  cbn [fst snd] in HK, HC, HS.
  intros [= <- <-] [= <- <-].
  destruct HK as (K1 & K2 & K3 & _ & K5 & _).
  destruct HC as (C1 & C2 & C3 & _ & C5 & C6).
  split; [|split].
  - unfold inner_tidy, sep. cbn [keycount ikeys children].
    split; [lia|]. split; [lia|]. split; [lia|]. split; [|split].
    + intros i Hi. rewrite K3 by lia. apply (Hsep i). lia.
    + intros i Hi. rewrite C3 by lia. apply Hch. lia.
    + intros i Hi. destruct (decide (i < U + S Mid)%nat).
      * rewrite HS by lia. destruct (children inner1 !! i); reflexivity.
      * rewrite lookup_ge_None_2 by lia. reflexivity.
  - unfold inner_tidy, sep. cbn [keycount ikeys children].
    split; [lia|]. split; [lia|]. split; [lia|]. split; [|split].
    + intros i Hi. rewrite K5 by lia. apply (Hsep (U + i)%nat). lia.
    + intros i Hi. rewrite C5 by lia. apply Hch. lia.
    + intros i Hi. rewrite C6 by lia. unfold new_MVInnerNode. cbn [children].
      destruct (replicate _ _ !! i) as [c|] eqn:E; [|reflexivity].
      apply lookup_replicate in E as [-> _]. reflexivity.
  - destruct (lookup_lt_is_Some_2 ik' Mid ltac:(lia)) as [nsk Hn].
    exists nsk. split; [done|]. rewrite K3 in Hn by lia.
    specialize (Hsep Mid ltac:(lia)). unfold sep in Hsep. rewrite Hn in Hsep.
    exact Hsep.
Qed.

(** ** Changing parent pointers *)

Lemma reparent_frame (f : nat -> option nat) q idxs : forall st st1,
  for_each idxs (fun i st' => c ← f i; update_parent st' c q) st = Some st1 ->
  pleaves st1 = pleaves st /\ head st1 = head st /\
  leaves_prealloc st1 = leaves_prealloc st /\ tree_top st1 = tree_top st /\
  length (nodes st1) = length (nodes st) /\
  (forall x, get_leafnode st1 x = get_leafnode st x) /\
  (forall x, get_inner st1 x = get_inner st x).
Proof.
  induction idxs as [|i idxs IH]; intros st st1; cbn [for_each].
  - intros [= <-]. done.
  - destruct (f i) as [c|]; [|discriminate]. cbn [mbind option_bind].
    destruct (update_parent st c q) as [st0|] eqn:E; [|discriminate].
    intros Hfe. apply IH in Hfe as (A1 & A2 & A3 & A4 & A5 & A6 & A7).
    apply update_parent_frame in E as (B1 & B2 & B3 & B4 & B5 & B6 & B7).
    split_and!; try congruence; intros x; rewrite ?A6, ?A7; auto.
Qed.

(** ** Steps that leave the inner nodes alone *)

Lemma routing_kept_refl st : routing_kept st st.
Proof. split; auto. Qed.

Lemma routing_kept_trans st st' st'' :
  routing_kept st st' -> routing_kept st' st'' -> routing_kept st st''.
Proof. intros [A1 A2] [B1 B2]. split; [congruence|auto]. Qed.

Lemma routing_kept_nodes st st' :
  nodes st' = nodes st -> tree_top st' = tree_top st -> routing_kept st st'.
Proof.
  intros Hn Ht. split; [done|]. intros x inner. unfold get_inner. rewrite Hn. done.
Qed.

Lemma tidy_kept cfg st st' : routing_kept st st' -> tidy cfg st -> tidy cfg st'.
Proof. intros [_ Hk] Ht x inner Hx. apply (Ht x), Hk, Hx. Qed.

Lemma checked_kept cfg st st' :
  routing_kept st st' -> checked cfg st -> checked cfg st'.
Proof. intros [_ Hk] Ht x inner Hx. apply (Ht x), Hk, Hx. Qed.

Lemma update_pslot_kept st lf slot s st' :
  update_pslot st lf slot s = Some st' -> routing_kept st st'.
Proof.
  unfold update_pslot. destruct (pleaves st !! lf) as [pl|]; [|discriminate].
  cbn [mbind option_bind]. destruct (slots pl !! slot); [|discriminate].
  cbn [mbind option_bind]. intros [= <-]. apply routing_kept_nodes; done.
Qed.

Lemma update_leafnode_kept st id ln st' :
  update_leafnode st id ln = Some st' -> routing_kept st st'.
Proof.
  unfold update_leafnode. destruct (nodes st !! id) as [n|] eqn:Hn; [|discriminate].
  cbn [mbind option_bind]. intros [= <-]. split; [done|].
  intros x inner. rewrite !get_inner_node. cbn [nodes set_nodes].
  destruct (decide (x = id)) as [->|Hne].
  - rewrite list_lookup_insert_eq by (eapply lookup_lt_Some; eauto). done.
  - rewrite list_lookup_insert_ne by done. done.
Qed.

Lemma push_leafnode_kept st p ln :
  routing_kept st (push_node st {| parent := p; kind := LeafNode ln |}).
Proof.
  split; [done|]. intros x inner. rewrite !get_inner_node.
  unfold push_node. cbn [nodes set_nodes].
  destruct (decide (x < length (nodes st))%nat).
  - rewrite lookup_app_l by done. done.
  - rewrite lookup_app_r by lia.
    destruct (x - length (nodes st))%nat as [|k]; done.
Qed.

Lemma obtain_leaf_kept cfg st st1 lf :
  obtain_leaf cfg st = (st1, lf) -> routing_kept st st1.
Proof.
  unfold obtain_leaf. destruct (leaves_prealloc st);
    intros [= <- <-]; apply routing_kept_nodes; done.
Qed.

Lemma for_each_kept (f : nat -> MVTree -> option MVTree) idxs :
  (forall i a a', f i a = Some a' -> routing_kept a a') ->
  forall st st', for_each idxs f st = Some st' -> routing_kept st st'.
Proof.
  intros Hf. induction idxs as [|i idxs IH]; intros st st'; cbn [for_each].
  - intros [= <-]. apply routing_kept_refl.
  - destruct (f i st) as [a|] eqn:E; [|discriminate]. intros Hr.
    eapply routing_kept_trans; [eapply Hf; eauto|eapply IH; eauto].
Qed.

Lemma LeafFillSpecificSlot_kept st y hash key value slot st' :
  LeafFillSpecificSlot st y hash key value slot = Some st' -> routing_kept st st'.
Proof.
  unfold LeafFillSpecificSlot.
  destruct (get_leafnode st y) as [ln|]; [|discriminate]. cbn [mbind option_bind].
  destruct (hashes ln !! slot) as [h|]; [|discriminate]. cbn [mbind option_bind].
  destruct (update_leafnode st y _) as [st1|] eqn:E1; [|discriminate].
  cbn [mbind option_bind].
  destruct (read_pslot st1 (leaf ln) slot) as [s|]; [|discriminate].
  cbn [mbind option_bind]. intros E2.
  eapply routing_kept_trans;
    [eapply update_leafnode_kept; eauto|eapply update_pslot_kept; eauto].
Qed.

Lemma LeafFillEmptySlot_kept cfg st y hash key value st' :
  LeafFillEmptySlot cfg st y hash key value = Some st' -> routing_kept st st'.
Proof.
  unfold LeafFillEmptySlot.
  destruct (get_leafnode st y) as [ln|]; [|discriminate]. cbn [mbind option_bind].
  destruct (scan_down _ _) as [slot|].
  - apply LeafFillSpecificSlot_kept.
  - intros [= <-]. apply routing_kept_refl.
Qed.

Lemma split_move_kept y new sk slot st st' :
  split_move y new sk slot st = Some st' -> routing_kept st st'.
Proof.
  unfold split_move.
  destruct (get_leafnode st y) as [src|]; [|discriminate]. cbn [mbind option_bind].
  destruct (get_leafnode st new) as [dst|]; [|discriminate]. cbn [mbind option_bind].
  destruct (keys src !! slot) as [k|]; [|discriminate]. cbn [mbind option_bind].
  destruct (compare_gt0 k sk); [|intros [= <-]; apply routing_kept_refl].
  destruct (hashes src !! slot) as [h|]; [|discriminate]. cbn [mbind option_bind].
  destruct (read_pslot st (leaf src) slot) as [s1|]; [|discriminate].
  cbn [mbind option_bind].
  destruct (read_pslot st (leaf dst) slot) as [s2|]; [|discriminate].
  cbn [mbind option_bind].
  destruct (update_pslot st (leaf dst) slot s1) as [st1|] eqn:E1; [|discriminate].
  cbn [mbind option_bind].
  destruct (update_pslot st1 (leaf src) slot s2) as [st2|] eqn:E2; [|discriminate].
  cbn [mbind option_bind].
  destruct (update_leafnode st2 new _) as [st3|] eqn:E3; [|discriminate].
  cbn [mbind option_bind]. intros E4.
  eapply routing_kept_trans; [eapply update_pslot_kept; eauto|].
  eapply routing_kept_trans; [eapply update_pslot_kept; eauto|].
  eapply routing_kept_trans;
    [eapply update_leafnode_kept; eauto|eapply update_leafnode_kept; eauto].
Qed.

Lemma split_body_kept cfg st y hash key value sk st' :
  split_body cfg st y hash key value sk = Some st' -> routing_kept st st'.
Proof.
  unfold split_body.
  destruct (nodes st !! y) as [n|]; [|discriminate]. cbn [mbind option_bind].
  destruct (obtain_leaf cfg st) as [st1 lf] eqn:Eo.
  destruct (for_each _ _ _) as [st3|] eqn:Ef; [|discriminate].
  cbn [mbind option_bind]. intros El.
  eapply routing_kept_trans; [eapply obtain_leaf_kept; eauto|].
  eapply routing_kept_trans; [apply push_leafnode_kept|].
  eapply routing_kept_trans; [|eapply LeafFillEmptySlot_kept; eauto].
  eapply for_each_kept; [|exact Ef].
  intros i a a'. apply split_move_kept.
Qed.

(** ** Inner nodes after the steps of InnerUpdateAfterSplit *)

Lemma get_inner_insert st id n x :
  (id < length (nodes st))%nat ->
  get_inner (set_nodes st (<[id := n]> (nodes st))) x
  = if decide (x = id)
    then match kind n with InnerNode i => Some i | LeafNode _ => None end
    else get_inner st x.
Proof.
  intros Hid. rewrite !get_inner_node. cbn [nodes set_nodes].
  destruct (decide (x = id)) as [->|Hne].
  - rewrite list_lookup_insert_eq by done. done.
  - rewrite list_lookup_insert_ne by done. done.
Qed.

Lemma get_inner_push st n x :
  get_inner (push_node st n) x
  = if decide (x = length (nodes st))
    then match kind n with InnerNode i => Some i | LeafNode _ => None end
    else get_inner st x.
Proof.
  rewrite !get_inner_node. unfold push_node. cbn [nodes set_nodes].
  destruct (decide (x = length (nodes st))) as [->|Hne].
  - rewrite lookup_app_r by lia. rewrite Nat.sub_diag. done.
  - destruct (decide (x < length (nodes st))%nat).
    + rewrite lookup_app_l by done. done.
    + rewrite !lookup_ge_None_2; [done|lia|rewrite length_app; simpl; lia].
Qed.

Lemma reparent_parent (f : nat -> option nat) q idxs : forall st st1,
  for_each idxs (fun i st' => c ← f i; update_parent st' c q) st = Some st1 ->
  forall x, parent_of st1 x = parent_of st x \/ parent_of st1 x = q.
Proof.
  induction idxs as [|i idxs IH]; intros st st1; cbn [for_each].
  - intros [= <-]. auto.
  - destruct (f i) as [c|]; [|discriminate]. cbn [mbind option_bind].
    destruct (update_parent st c q) as [st0|] eqn:E; [|discriminate].
    intros Hfe x. destruct (IH _ _ Hfe x) as [Hx|Hx]; [|auto].
    rewrite Hx, (parent_of_update_parent _ _ _ _ x E).
    destruct (decide (x = c)); auto.
Qed.

Lemma debug_assert_tidy cfg inner :
  inner_tidy cfg inner -> debug_assert_invariants cfg inner = true.
Proof.
  intros Ht. unfold debug_assert_invariants.
  rewrite (inner_tidy_assert cfg inner Ht). apply orb_true_r.
Qed.

Lemma tidy_checked cfg st : tidy cfg st -> checked cfg st.
Proof. intros Ht x inner Hx. apply debug_assert_tidy, (Ht x), Hx. Qed.

Lemma klt_nonempty a b : klt a b -> b <> EmptyString.
Proof.
  intros Hl ->. unfold klt, compare in Hl.
  destruct a; simpl in Hl; discriminate.
Qed.

(** ** The engine with and without the assertions *)

Ltac nd_norm cfg :=
  change (INNER_KEYS (with_NDEBUG cfg)) with (INNER_KEYS cfg) in *;
  change (LEAF_KEYS (with_NDEBUG cfg)) with (LEAF_KEYS cfg) in *;
  change (INNER_KEYS_UPPER (with_NDEBUG cfg)) with (INNER_KEYS_UPPER cfg) in *;
  change (INNER_KEYS_MIDPOINT (with_NDEBUG cfg))
    with (INNER_KEYS_MIDPOINT cfg) in *;
  change (new_MVInnerNode (with_NDEBUG cfg)) with (new_MVInnerNode cfg) in *;
  change (inner_insert (with_NDEBUG cfg)) with (inner_insert cfg) in *;
  change (split_move_keys (with_NDEBUG cfg)) with (split_move_keys cfg) in *;
  change (split_move_children (with_NDEBUG cfg))
    with (split_move_children cfg) in *;
  change (PearsonHash (with_NDEBUG cfg)) with (PearsonHash cfg) in *;
  change (LeafFillSlotForKey (with_NDEBUG cfg))
    with (LeafFillSlotForKey cfg) in *;
  change (split_body (with_NDEBUG cfg)) with (split_body cfg) in *;
  change (split_key_of (with_NDEBUG cfg)) with (split_key_of cfg) in *;
  change (obtain_leaf (with_NDEBUG cfg)) with (obtain_leaf cfg) in *;
  change (new_MVLeafNode (with_NDEBUG cfg)) with (new_MVLeafNode cfg) in *;
  change (recover_leaves (with_NDEBUG cfg)) with (recover_leaves cfg) in *.

Lemma debug_assert_with_NDEBUG cfg inner :
  debug_assert_invariants (with_NDEBUG cfg) inner = true.
Proof. reflexivity. Qed.

(** A walk that returns with the assertions returns the same without
    them. *)
Lemma LeafSearch_loop_sim cfg fuel ns : forall x key y,
  LeafSearch_loop cfg fuel ns x key = Some y ->
  LeafSearch_loop (with_NDEBUG cfg) fuel ns x key = Some y.
Proof.
  induction fuel as [|fuel IH]; intros x key y; [discriminate|].
  cbn [LeafSearch_loop]. destruct (ns !! x) as [[p [ln|inner]]|]; try done.
  rewrite debug_assert_with_NDEBUG.
  destruct (debug_assert_invariants cfg inner); [|discriminate].
  destruct (children inner !! _) as [[c|]|]; try done. apply IH.
Qed.

Lemma LeafSearch_sim cfg st key r :
  LeafSearch cfg st key = Some r -> LeafSearch (with_NDEBUG cfg) st key = Some r.
Proof.
  unfold LeafSearch. destruct (tree_top st) as [t|]; [|done].
  destruct (LeafSearch_loop cfg _ _ _ _) as [y|] eqn:E; [|discriminate].
  rewrite (LeafSearch_loop_sim _ _ _ _ _ _ E). done.
Qed.

(** On a heap whose inner nodes pass the assertions the walk is the walk
    without them. *)
Lemma LeafSearch_loop_checked cfg st fuel : forall x key,
  checked cfg st ->
  LeafSearch_loop cfg fuel (nodes st) x key
  = LeafSearch_loop (with_NDEBUG cfg) fuel (nodes st) x key.
Proof.
  induction fuel as [|fuel IH]; intros x key Hc; [done|].
  cbn [LeafSearch_loop].
  destruct (nodes st !! x) as [[p [ln|inner]]|] eqn:Hx; try done.
  rewrite debug_assert_with_NDEBUG.
  rewrite (Hc x inner) by (apply get_inner_Some; eauto).
  destruct (children inner !! _) as [[c|]|]; try done. apply IH, Hc.
Qed.

Lemma LeafSearch_checked cfg st key :
  checked cfg st -> LeafSearch cfg st key = LeafSearch (with_NDEBUG cfg) st key.
Proof.
  intros Hc. unfold LeafSearch. destruct (tree_top st) as [t|]; [|done].
  rewrite (LeafSearch_loop_checked cfg st _ _ _ Hc). done.
Qed.

(** [InnerUpdateAfterSplit] with the assertions: when it returns it
    returns what it returns without them, and every inner node it made or
    changed has passed its assertions. *)
Lemma IUAS_sim cfg fuel : forall st n new s st',
  InnerUpdateAfterSplit cfg fuel st n new s = Some st' ->
  InnerUpdateAfterSplit (with_NDEBUG cfg) fuel st n new s = Some st' /\
  (checked cfg st -> checked cfg st').
Proof.
  induction fuel as [|fuel IH]; intros st n new s st' Hu; [discriminate|].
  cbn [InnerUpdateAfterSplit] in Hu |- *. nd_norm cfg.
  destruct (nodes st !! n) as [nn|]; [|discriminate].
  cbn [mbind option_bind] in Hu |- *.
  destruct (parent nn) as [inner_id|].
  - destruct (nodes st !! inner_id) as [pn|] eqn:Hpn; [|discriminate].
    cbn [mbind option_bind] in Hu |- *.
    destruct (get_inner st inner_id) as [inner|] eqn:Hin; [|discriminate].
    cbn [mbind option_bind] in Hu |- *.
    assert (Hlt : (inner_id < length (nodes st))%nat)
      by (eapply lookup_lt_Some; eauto).
    destruct (_ <=? _)%nat.
    + rewrite debug_assert_with_NDEBUG.
      destruct (debug_assert_invariants cfg _) eqn:Ea; [|discriminate].
      split; [done|]. intros Hc x inner' Hx.
      rewrite (update_inner_Some _ _ _ _ Hpn) in Hu. injection Hu as <-.
      rewrite get_inner_insert in Hx by done.
      destruct (decide (x = inner_id)) as [->|]; [|eapply Hc; eauto].
      cbn [kind] in Hx. injection Hx as <-. done.
    + destruct (split_move_keys _ _ _ _) as [ik nk].
      destruct (split_move_children _ _ _ _) as [ic nc].
      destruct (ik !! _) as [nsk|]; [|discriminate].
      cbn [mbind option_bind] in Hu |- *.
      rewrite (update_inner_Some _ _ _ _ Hpn) in Hu |- *.
      cbn [mbind option_bind] in Hu |- *.
      destruct (for_each _ _ _) as [st2|] eqn:Hfe; [|discriminate].
      cbn [mbind option_bind] in Hu |- *.
      rewrite !debug_assert_with_NDEBUG. cbn [andb].
      destruct (debug_assert_invariants cfg _) eqn:Ea1; [|discriminate].
      destruct (debug_assert_invariants cfg _) eqn:Ea2 in Hu; [|discriminate].
      cbn [andb] in Hu. destruct (IH _ _ _ _ _ Hu) as [Hnd Hch].
      split; [done|]. intros Hc. apply Hch. intros x inner' Hx.
      apply reparent_frame in Hfe as (_ & _ & _ & _ & _ & _ & A7).
      rewrite A7, get_inner_push in Hx. cbn [nodes set_nodes kind] in Hx.
      rewrite length_insert in Hx.
      destruct (decide (x = length (nodes st))) as [->|].
      { injection Hx as <-. done. }
      rewrite get_inner_insert in Hx by done.
      destruct (decide (x = inner_id)) as [->|]; [|eapply Hc; eauto].
      cbn [kind] in Hx. injection Hx as <-. done.
  - change (debug_assert (with_NDEBUG cfg) ?c) with true.
    destruct (debug_assert cfg _); [|discriminate].
    destruct (update_parent st n _) as [st1|] eqn:E1; [|discriminate].
    cbn [mbind option_bind] in Hu |- *.
    destruct (update_parent st1 new _) as [st2|] eqn:E2; [|discriminate].
    cbn [mbind option_bind] in Hu |- *.
    rewrite debug_assert_with_NDEBUG.
    destruct (debug_assert_invariants cfg _) eqn:Ea; [|discriminate].
    split; [done|]. injection Hu as <-. intros Hc x inner' Hx.
    apply update_parent_frame in E1 as (_ & _ & _ & _ & _ & _ & A7).
    apply update_parent_frame in E2 as (_ & _ & _ & _ & _ & _ & B7).
    change (get_inner (set_tree_top ?a ?t) x) with (get_inner a x) in Hx.
    rewrite get_inner_push in Hx. cbn [kind] in Hx.
    destruct (decide (x = length (nodes st2))) as [->|].
    { injection Hx as <-. done. }
    rewrite B7, A7 in Hx. eapply Hc; eauto.
Qed.

(** [InnerUpdateAfterSplit] on a tidy heap with a non-empty split key: no
    assertion fails, and the heap stays tidy.  The node that is met without
    a parent is the top: the top of the result has the old top as its
    first child, linked back to it, and only the two nodes of the call
    were linked. *)
Lemma IUAS_tidy cfg (Hcfg : cfg_ok cfg) fuel : forall st n new s st',
  tidy cfg st -> s <> EmptyString -> is_Some (tree_top st) ->
  top_unlinked st -> top_linked st' ->
  InnerUpdateAfterSplit (with_NDEBUG cfg) fuel st n new s = Some st' ->
  InnerUpdateAfterSplit cfg fuel st n new s = Some st' /\
  tidy cfg st' /\ is_Some (tree_top st').
Proof.
  pose proof Hcfg as (_ & (HI2 & HI255) & _).
  induction fuel as [|fuel IH]; intros st n new s st' Ht Hs Htop Hun Hli Hu;
    [discriminate|].
  cbn [InnerUpdateAfterSplit] in Hu |- *. nd_norm cfg.
  destruct (nodes st !! n) as [nn|] eqn:Hnn; [|discriminate].
  cbn [mbind option_bind] in Hu |- *.
  destruct (parent nn) as [inner_id|] eqn:Hpnn.
  - destruct (nodes st !! inner_id) as [pn|] eqn:Hpn; [|discriminate].
    cbn [mbind option_bind] in Hu |- *.
    destruct (get_inner st inner_id) as [inner|] eqn:Hin; [|discriminate].
    cbn [mbind option_bind] in Hu |- *.
    assert (Hlt : (inner_id < length (nodes st))%nat)
      by (eapply lookup_lt_Some; eauto).
    pose proof (Ht _ _ Hin) as Hti.
    destruct (inner_insert_tidy cfg inner new s HI255 Hti Hs)
      as (L1 & L2 & Hkc1 & Hsep1 & Hch1 & Hnull1).
    cbv zeta in L1, L2, Hkc1, Hsep1, Hch1, Hnull1.
    set (inner1 := inner_insert cfg inner new s) in *.
    destruct (Nat.leb_spec (keycount inner1) (INNER_KEYS cfg)) as [Hle|Hgt].
    + rewrite debug_assert_with_NDEBUG in Hu.
      assert (Ht1 : inner_tidy cfg inner1).
      { unfold inner_tidy. rewrite Hkc1. split_and!; try done. lia. }
      rewrite (debug_assert_tidy cfg inner1 Ht1).
      split; [done|]. rewrite (update_inner_Some _ _ _ _ Hpn) in Hu.
      injection Hu as <-. split; [|done].
      intros x inner' Hx. rewrite get_inner_insert in Hx by done.
      destruct (decide (x = inner_id)) as [->|]; [|eapply Ht; eauto].
      cbn [kind] in Hx. injection Hx as <-. done.
    + assert (Hkc : keycount inner1 = S (INNER_KEYS cfg)).
      { destruct Hti as (_ & _ & ? & _). lia. }
      destruct (split_move_keys _ _ _ _) as [ik nk] eqn:Esk.
      destruct (split_move_children _ _ _ _) as [ic nc] eqn:Esc.
      destruct (split_tidy cfg inner1 ik nk ic nc Hcfg L1 L2 Hkc)
        as (HtA & HtB & nsk & Hnsk & Hnsk0); try done.
      { intros i Hi. apply Hsep1. lia. }
      { intros i Hi. apply Hch1. lia. }
      rewrite Hnsk in Hu |- *. cbn [mbind option_bind] in Hu |- *.
      rewrite (update_inner_Some _ _ _ _ Hpn) in Hu |- *.
      cbn [mbind option_bind] in Hu |- *.
      destruct (for_each _ _ _) as [st2|] eqn:Hfe; [|discriminate].
      cbn [mbind option_bind] in Hu |- *.
      rewrite !debug_assert_with_NDEBUG in Hu. cbn [andb] in Hu.
      rewrite (debug_assert_tidy cfg _ HtA), (debug_assert_tidy cfg _ HtB).
      cbn [andb].
      pose proof (reparent_parent _ _ _ _ _ Hfe) as Hpar.
      apply reparent_frame in Hfe as (_ & _ & _ & A4 & A5 & _ & A7).
      cbn [push_node nodes set_nodes tree_top] in A4, A5.
      rewrite length_app, length_insert in A5. cbn [length] in A5.
      apply (IH st2 inner_id _ nsk st'); try done.
      * intros x inner' Hx.
        rewrite A7, get_inner_push in Hx. cbn [nodes set_nodes kind] in Hx.
        rewrite length_insert in Hx.
        destruct (decide (x = length (nodes st))) as [->|].
        { injection Hx as <-. done. }
        rewrite get_inner_insert in Hx by done.
        destruct (decide (x = inner_id)) as [->|]; [|eapply Ht; eauto].
        cbn [kind] in Hx. injection Hx as <-. done.
      * rewrite A4. done.
      * intros t Htt. rewrite A4 in Htt. destruct (Hun t Htt) as [Htl Htp].
        rewrite A5. split; [lia|]. intros p Hp.
        destruct (Hpar t) as [E|E]; rewrite E in Hp.
        -- rewrite parent_of_push in Hp. cbn [nodes set_nodes] in Hp.
           rewrite length_insert in Hp.
           rewrite decide_False in Hp by lia.
           rewrite (parent_of_insert st t inner_id pn _ Hpn) in Hp.
           destruct (decide (t = inner_id)) as [->|].
           ++ cbn [parent] in Hp. specialize (Htp p).
              rewrite parent_of_node, Hpn in Htp. specialize (Htp Hp). lia.
           ++ specialize (Htp p Hp). lia.
        -- injection Hp as <-. lia.
  - change (debug_assert (with_NDEBUG cfg) ?c) with true in Hu.
    destruct (update_parent st n _) as [st1|] eqn:E1; [|discriminate].
    cbn [mbind option_bind] in Hu |- *.
    destruct (update_parent st1 new _) as [st2|] eqn:E2; [|discriminate].
    cbn [mbind option_bind] in Hu |- *.
    rewrite debug_assert_with_NDEBUG in Hu. injection Hu as <-.
    destruct Htop as [t Htt].
    pose proof (parent_of_update_parent _ _ _ _ t E1) as P1.
    pose proof (parent_of_update_parent _ _ _ _ t E2) as P2.
    apply update_parent_frame in E1 as (_ & _ & _ & _ & A5 & _ & A7).
    apply update_parent_frame in E2 as (_ & _ & _ & _ & B5 & _ & B7).
    assert (Htn : t = n).
    { destruct (Hun t Htt) as [Htl Htp].
      destruct (Hli (length (nodes st))
                  {| keycount := 1;
                     ikeys := <[0%nat := s]> (ikeys (new_MVInnerNode cfg));
                     children := <[1%nat := Some new]>
                                   (<[0%nat := tree_top st]>
                                      (children (new_MVInnerNode cfg))) |})
        as (c & Hc0 & Hpc & Hc1).
      { done. }
      { change (get_inner (set_tree_top ?a ?t0) ?x) with (get_inner a x).
        rewrite get_inner_push, B5, A5. rewrite decide_True by done. done. }
      cbn [children] in Hc0, Hc1. unfold new_MVInnerNode in Hc0, Hc1.
      cbn [children] in Hc0, Hc1.
      rewrite list_lookup_insert_ne in Hc0 by done.
      rewrite list_lookup_insert_eq in Hc0 by (rewrite length_replicate; lia).
      rewrite list_lookup_insert_eq in Hc1
        by (rewrite length_insert, length_replicate; lia).
      rewrite Htt in Hc0. injection Hc0 as <-.
      assert (Hne : t <> new) by congruence.
      change (parent_of (set_tree_top ?a ?t0) ?x) with (parent_of a x) in Hpc.
      rewrite parent_of_push, B5, A5 in Hpc.
      rewrite decide_False in Hpc by lia.
      rewrite P2, decide_False in Hpc by done. rewrite P1 in Hpc.
      destruct (decide (t = n)) as [|Hn]; [done|].
      specialize (Htp _ Hpc). lia. }
    subst t. unfold debug_assert.
    rewrite (bool_decide_eq_true_2 _ Htt), orb_true_r.
    assert (Htn : inner_tidy cfg
              {| keycount := 1;
                 ikeys := <[0%nat := s]> (ikeys (new_MVInnerNode cfg));
                 children := <[1%nat := Some new]>
                               (<[0%nat := tree_top st]>
                                  (children (new_MVInnerNode cfg))) |}).
    { unfold inner_tidy, sep, new_MVInnerNode.
      cbn [keycount ikeys children].
      rewrite !length_insert, !length_replicate. split_and!; try done; try lia.
      - intros i Hi. assert (i = O) as -> by lia.
        rewrite list_lookup_insert_eq by (rewrite length_replicate; lia). done.
      - intros i Hi. destruct i as [|[|i]]; [| |lia].
        + exists n. rewrite list_lookup_insert_ne by done.
          rewrite list_lookup_insert_eq by (rewrite length_replicate; lia).
          rewrite Htt. done.
        + exists new. rewrite list_lookup_insert_eq; [done|].
          rewrite length_insert, length_replicate. lia.
      - intros i Hi. rewrite !list_lookup_insert_ne by lia.
        destruct (replicate _ _ !! i) as [c|] eqn:E; [|done].
        apply lookup_replicate in E as [-> _]. done. }
    rewrite (debug_assert_tidy cfg _ Htn). split; [done|].
    split; [|cbn [tree_top set_tree_top]; eauto].
    intros x inner' Hx.
    change (get_inner (set_tree_top ?a ?t) x) with (get_inner a x) in Hx.
    rewrite get_inner_push in Hx. cbn [kind] in Hx.
    destruct (decide (x = length (nodes st2))) as [->|].
    { injection Hx as <-. done. }
    rewrite B7, A7 in Hx. eapply Ht; eauto.
Qed.

Lemma with_NDEBUG_id cfg : NDEBUG cfg = true -> with_NDEBUG cfg = cfg.
Proof. destruct cfg as [? ? ? ? ? nd]. cbn. intros ->. reflexivity. Qed.

Lemma checked_ndebug cfg st : NDEBUG cfg = true -> checked cfg st.
Proof. intros Hnd x inner _. apply debug_assert_ndebug, Hnd. Qed.

Lemma Get_checked cfg st k s :
  checked cfg st -> Get cfg st k s = Get (with_NDEBUG cfg) st k s.
Proof. intros Hc. unfold Get. rewrite (LeafSearch_checked cfg st k Hc). done. Qed.

Lemma Get_limit_checked cfg st limit k vb v :
  checked cfg st ->
  Get_limit cfg st limit k vb v = Get_limit (with_NDEBUG cfg) st limit k vb v.
Proof.
  intros Hc. unfold Get_limit. rewrite (LeafSearch_checked cfg st k Hc). done.
Qed.

Lemma exec_tx_true st body r :
  exec_tx true st body = Some r -> exists st', body = Some st' /\ r = (st', true).
Proof.
  unfold exec_tx. destruct body as [st'|]; [|discriminate].
  cbn [mbind option_bind]. intros [= <-]. eauto.
Qed.

Lemma LeafFillSlotForKey_kept cfg st y hash key value st' r :
  LeafFillSlotForKey cfg true st y hash key value = Some (st', r) ->
  routing_kept st st'.
Proof.
  unfold LeafFillSlotForKey.
  destruct (get_leafnode st y) as [ln|]; [|discriminate]. cbn [mbind option_bind].
  destruct (fill_scan _ _ _ _ _) as [le km].
  destruct (match km with Some s => Some s | None => le end) as [slot|].
  - destruct (exec_tx true st _) as [[st1 ok]|] eqn:E; [|discriminate].
    intros [= <- <-]. apply exec_tx_true in E as (st2 & E & [= -> ->]).
    eapply LeafFillSpecificSlot_kept; eauto.
  - intros [= <- <-]. apply routing_kept_refl.
Qed.

(** *** Operations that return with the assertions compiled in *)

Lemma LeafSplitFull_sim cfg st y hash key value st' ok :
  LeafSplitFull cfg true st y hash key value = Some (st', ok) ->
  LeafSplitFull (with_NDEBUG cfg) true st y hash key value = Some (st', ok) /\
  (checked cfg st -> checked cfg st').
Proof.
  unfold LeafSplitFull. nd_norm cfg.
  destruct (get_leafnode st y) as [ln|]; [|discriminate]. cbn [mbind option_bind].
  destruct (split_key_of cfg ln key) as [sk|]; [|discriminate].
  cbn [mbind option_bind].
  destruct (exec_tx true st _) as [[st1 ok1]|] eqn:E; [|discriminate].
  apply exec_tx_true in E as (st2 & E & [= -> ->]).
  destruct (InnerUpdateAfterSplit cfg _ _ _ _ _) as [st3|] eqn:Eu; [|discriminate].
  cbn [mbind option_bind]. intros [= <- <-].
  destruct (IUAS_sim _ _ _ _ _ _ _ Eu) as [-> Hch]. split; [done|].
  intros Hc. apply Hch. eapply checked_kept; [|exact Hc].
  eapply split_body_kept; eauto.
Qed.

Lemma Put_sim cfg st key value st' :
  Put cfg st key value = Some st' ->
  Put (with_NDEBUG cfg) st key value = Some st' /\
  (checked cfg st -> checked cfg st').
Proof.
  unfold Put, Put_tx. nd_norm cfg.
  destruct (LeafSearch cfg st key) as [r|] eqn:Es; [|discriminate].
  rewrite (LeafSearch_sim _ _ _ _ Es). destruct r as [y|].
  - destruct (LeafFillSlotForKey cfg true st y _ key value) as [[st1 r]|] eqn:Ef;
      [|discriminate].
    pose proof (LeafFillSlotForKey_kept _ _ _ _ _ _ _ _ Ef) as Hk.
    destruct r.
    + cbn. intros [= <-]. split; [done|]. apply checked_kept, Hk.
    + destruct (LeafSplitFull cfg true st y _ key value) as [[st2 ok]|] eqn:El;
        [|discriminate].
      destruct (LeafSplitFull_sim _ _ _ _ _ _ _ _ El) as [-> Hch].
      cbn. intros [= <-]. split; [done|]. exact Hch.
    + cbn. intros [= <-]. split; [done|]. apply checked_kept, Hk.
  - destruct (obtain_leaf cfg st) as [st1 lf] eqn:Eo.
    destruct (exec_tx true st _) as [[st3 ok]|] eqn:E; [|discriminate].
    apply exec_tx_true in E as (st4 & E & [= -> ->]).
    cbn. intros [= <-]. split; [done|]. intros Hc x inner Hx.
    change (get_inner (set_tree_top ?a ?t) x) with (get_inner a x) in Hx.
    apply LeafFillSpecificSlot_kept in E as [_ E]. apply E in Hx.
    apply push_leafnode_kept in Hx.
    apply obtain_leaf_kept in Eo as [_ Eo]. apply Eo in Hx. eapply Hc; eauto.
Qed.

Lemma Remove_kept cfg st key st' :
  Remove cfg st key = Some st' -> routing_kept st st'.
Proof.
  unfold Remove, Remove_tx.
  destruct (LeafSearch cfg st key) as [[y|]|]; [| |discriminate].
  - destruct (get_leafnode st y) as [ln|]; [|discriminate]. cbn [mbind option_bind].
    destruct (scan_down _ _) as [slot|].
    + destruct (update_leafnode st y _) as [st1|] eqn:E1; [|discriminate].
      cbn [mbind option_bind].
      destruct (exec_tx true st1 _) as [[st2 ok]|] eqn:E; [|discriminate].
      apply exec_tx_true in E as (st3 & E & [= -> ->]).
      cbn. intros [= <-].
      eapply routing_kept_trans; [eapply update_leafnode_kept; eauto|].
      destruct (read_pslot st1 (leaf ln) slot) as [s|]; [|discriminate].
      cbn [mbind option_bind] in E. eapply update_pslot_kept; eauto.
    + cbn. intros [= <-]. apply routing_kept_refl.
  - cbn. intros [= <-]. apply routing_kept_refl.
Qed.

Lemma Remove_sim cfg st key st' :
  Remove cfg st key = Some st' ->
  Remove (with_NDEBUG cfg) st key = Some st' /\
  (checked cfg st -> checked cfg st').
Proof.
  intros Hr. split; [|apply checked_kept; eapply Remove_kept; eauto].
  revert Hr. unfold Remove, Remove_tx. nd_norm cfg.
  destruct (LeafSearch cfg st key) as [r|] eqn:Es; [|discriminate].
  rewrite (LeafSearch_sim _ _ _ _ Es). done.
Qed.

Lemma recover_build_sim cfg rest : forall st prev m st',
  recover_build cfg rest st prev m = Some st' ->
  recover_build (with_NDEBUG cfg) rest st prev m = Some st' /\
  (checked cfg st -> checked cfg st').
Proof.
  induction rest as [|[next mnext] rest IH]; intros st prev m st'; cbn [recover_build].
  - intros [= <-]. done.
  - destruct (nodes st !! prev) as [pn|]; [|discriminate]. cbn [mbind option_bind].
    destruct (update_parent st next _) as [st1|] eqn:E1; [|discriminate].
    cbn [mbind option_bind].
    destruct (InnerUpdateAfterSplit cfg _ _ _ _ _) as [st2|] eqn:Eu; [|discriminate].
    cbn [mbind option_bind]. intros Hr.
    destruct (IUAS_sim _ _ _ _ _ _ _ Eu) as [-> Hch]. cbn [mbind option_bind].
    destruct (IH _ _ _ _ Hr) as [-> Hch']. split; [done|].
    intros Hc. apply Hch', Hch. intros x inner Hx.
    apply update_parent_frame in E1 as (_ & _ & _ & _ & _ & _ & A7).
    rewrite A7 in Hx. eapply Hc; eauto.
Qed.

Lemma recover_leaves_no_inner cfg ids : forall st leaves st' leaves',
  recover_leaves cfg ids st leaves = Some (st', leaves') ->
  (forall x, get_inner st x = None) ->
  tree_top st' = tree_top st /\ forall x, get_inner st' x = None.
Proof.
  induction ids as [|lf ids IH]; intros st leaves st' leaves'; cbn [recover_leaves].
  - intros [= <- <-]. done.
  - destruct (pleaves st !! lf) as [p|]; [|discriminate]. cbn [mbind option_bind].
    destruct (recover_slots _ _ _ _ _) as [[ln e] m].
    destruct e; intros Hr Hn; apply IH in Hr as [Ht Hr]; try done.
    intros x. destruct (get_inner _ x) as [inner|] eqn:E; [|done].
    apply push_leafnode_kept in E. rewrite Hn in E. done.
Qed.

Lemma reopen_sim cfg st st' :
  reopen cfg st = Some st' ->
  reopen (with_NDEBUG cfg) st = Some st' /\ checked cfg st'.
Proof.
  unfold reopen, Recover. nd_norm cfg.
  destruct (persistent_list _) as [ids|]; [|discriminate]. cbn [mbind option_bind].
  destruct (recover_leaves cfg ids _ []) as [[st1 leaves]|] eqn:Erl; [|discriminate].
  cbn [mbind option_bind].
  apply recover_leaves_no_inner in Erl as [_ Hno]; [|done].
  destruct (sort_leaves leaves) as [|[first m0] rest].
  - intros [= <-]. split; [done|]. intros x inner Hx.
    change (get_inner (set_tree_top ?a ?t) x) with (get_inner a x) in Hx.
    rewrite Hno in Hx. done.
  - intros Hr. destruct (recover_build_sim _ _ _ _ _ _ Hr) as [-> Hch].
    split; [done|]. apply Hch. intros x inner Hx.
    change (get_inner (set_tree_top ?a ?t) x) with (get_inner a x) in Hx.
    rewrite Hno in Hx. done.
Qed.

Lemma step_sim cfg st o st' :
  step cfg st o = Some st' ->
  step (with_NDEBUG cfg) st o = Some st' /\ (checked cfg st -> checked cfg st').
Proof.
  destruct o as [key value|key|]; cbn [step].
  - apply Put_sim.
  - apply Remove_sim.
  - intros Hr. destruct (reopen_sim _ _ _ Hr). done.
Qed.

Lemma run_sim cfg ops : forall st st',
  run cfg ops st = Some st' ->
  run (with_NDEBUG cfg) ops st = Some st' /\ (checked cfg st -> checked cfg st').
Proof.
  induction ops as [|o ops IH]; intros st st'; cbn [run].
  - intros [= <-]. done.
  - destruct (step cfg st o) as [st1|] eqn:Es; [|discriminate].
    cbn [mbind option_bind]. intros Hr.
    destruct (step_sim _ _ _ _ Es) as [-> Hc1]. cbn [mbind option_bind].
    destruct (IH _ _ Hr) as [-> Hc2]. auto.
Qed.

Lemma checked_fresh cfg : checked cfg fresh.
Proof. intros x inner Hx. done. Qed.

(** *** Operations on which no assertion fails *)

Lemma LeafSplitFull_tidy cfg st y hash key value st' ok :
  cfg_ok cfg -> tidy cfg st -> is_Some (tree_top st) ->
  (forall ln sk, get_leafnode st y = Some ln ->
     split_key_of cfg ln key = Some sk -> sk <> EmptyString) ->
  (forall ln sk st4, get_leafnode st y = Some ln ->
     split_key_of cfg ln key = Some sk ->
     split_body cfg st y hash key value sk = Some st4 -> top_unlinked st4) ->
  top_linked st' ->
  LeafSplitFull (with_NDEBUG cfg) true st y hash key value = Some (st', ok) ->
  LeafSplitFull cfg true st y hash key value = Some (st', ok) /\ tidy cfg st'.
Proof.
  intros Hcfg Ht Htop Hsk Hun Hli. unfold LeafSplitFull. nd_norm cfg.
  destruct (get_leafnode st y) as [ln|] eqn:Hl; [|discriminate].
  cbn [mbind option_bind].
  destruct (split_key_of cfg ln key) as [sk|] eqn:Esk; [|discriminate].
  cbn [mbind option_bind].
  destruct (exec_tx true st _) as [[st1 ok1]|] eqn:E; [|discriminate].
  apply exec_tx_true in E as (st2 & E & [= -> ->]).
  destruct (InnerUpdateAfterSplit (with_NDEBUG cfg) _ _ _ _ _) as [st3|] eqn:Eu;
    [|discriminate].
  cbn [mbind option_bind]. intros [= -> <-].
  pose proof (split_body_kept _ _ _ _ _ _ _ _ E) as Hk.
  destruct (IUAS_tidy cfg Hcfg _ _ _ _ _ _ (tidy_kept _ _ _ Hk Ht)
              (Hsk _ _ eq_refl Esk) ltac:(rewrite (proj1 Hk); exact Htop)
              (Hun _ _ _ eq_refl Esk E) Hli Eu)
    as (-> & Ht3 & _).
  done.
Qed.

(** The split key of a full leaf is not the empty key when no key is
    empty, and when the leaf has two slots or more. *)
Lemma split_key_nonempty cfg lo hi key ln pl sk :
  leaf_ok_pl cfg ln pl lo hi ->
  (forall j, (j < LEAF_KEYS cfg)%nat ->
     exists b, slots pl !! j = Some (Some b) /\ slot_key b <> key) ->
  (key <> EmptyString /\
   (forall j b, slots pl !! j = Some (Some b) -> slot_key b <> EmptyString)) \/
  (2 <= LEAF_KEYS cfg)%nat ->
  split_key_of cfg ln key = Some sk -> sk <> EmptyString.
Proof.
  intros Hok Hfull Hmode Hsk. unfold split_key_of in Hsk.
  destruct (full_lengths cfg lo hi ln pl Hok) as (_ & Hlk & _).
  destruct Hmode as [[Hkey Hkeys]|HL].
  - apply list_elem_of_lookup_2 in Hsk. rewrite sort_keys_perm in Hsk.
    apply elem_of_app in Hsk as [Hin|Hin].
    + apply list_elem_of_lookup_1 in Hin as [j Hj].
      assert (Hjl : (j < LEAF_KEYS cfg)%nat)
        by (rewrite <- Hlk; eapply lookup_lt_Some; eauto).
      destruct (full_slot cfg lo hi key ln pl Hok Hfull j Hjl)
        as (b & Hb & _ & _ & Hkb & _).
      assert (sk = slot_key b) as -> by congruence. eapply Hkeys; eauto.
    + apply list_elem_of_singleton in Hin as ->. done.
  - pose proof (full_keys_nodup cfg lo hi key ln pl Hok Hfull) as Hnd.
    pose proof (sort_keys_perm (keys ln ++ [key])) as Hperm.
    pose proof (Permutation_length Hperm) as Hlen.
    rewrite length_app, Hlk in Hlen. cbn [length] in Hlen.
    rewrite <- Hperm in Hnd.
    assert (HM : (1 <= LEAF_KEYS_MIDPOINT cfg)%nat).
    { unfold LEAF_KEYS_MIDPOINT.
      apply (Nat.div_le_lower_bound (LEAF_KEYS cfg) 2 1); lia. }
    destruct (lookup_lt_is_Some_2 (sort_keys (keys ln ++ [key])) O ltac:(lia))
      as [k0 Hk0].
    pose proof (sorted_lookup_le _ (sort_keys_sorted _) O (LEAF_KEYS_MIDPOINT cfg)
                  k0 sk ltac:(lia) Hk0 Hsk) as Hle.
    apply kle_iff in Hle as [Hlt| ->]; [eapply klt_nonempty; eauto|].
    pose proof (NoDup_lookup _ _ _ _ Hnd Hk0 Hsk). lia.
Qed.

Lemma Put_tidy cfg st G H key value st' :
  cfg_ok cfg -> Inv_gen (with_NDEBUG cfg) st G G H -> tidy cfg st ->
  small key -> small value ->
  (key <> EmptyString /\ (forall k v, contents st k v -> k <> EmptyString)) \/
  (2 <= LEAF_KEYS cfg)%nat ->
  Put (with_NDEBUG cfg) st key value = Some st' ->
  Put cfg st key value = Some st' /\ tidy cfg st'.
Proof.
  intros Hcfg HI Ht Hsk Hsv Hmode.
  pose proof (tidy_checked cfg st Ht) as Hc.
  unfold Put, Put_tx. rewrite (LeafSearch_checked cfg st key Hc). nd_norm cfg.
  pose proof (LeafSearch_spec (with_NDEBUG cfg) st G H HI key) as Hs.
  destruct (tree_top st) as [t|] eqn:Et.
  - destruct Hs as (y & lo & hi & -> & HG & Hlo & Hhi).
    destruct (LeafFillSlotForKey_spec (with_NDEBUG cfg) st G H HI t y lo hi key value
                Et HG Hlo Hhi Hsk Hsv)
      as [(st1 & Hf & _)|(Hf & p & ln & pl & Hy & Hpl & Hok & Hfull)];
      nd_norm cfg; rewrite Hf.
    + cbn. intros [= <-]. split; [done|]. eapply tidy_kept; [|exact Ht].
      eapply LeafFillSlotForKey_kept; eauto.
    + destruct (LeafSplitFull (with_NDEBUG cfg) true st y _ key value)
        as [[st2 ok]|] eqn:El; [|discriminate].
      destruct (LeafSplitFull_tidy cfg st y (PearsonHash cfg key) key value st2 ok
                  Hcfg Ht) as [-> Ht2];
        [rewrite Et; eauto| | | |exact El|].
      * intros ln' sk Hl' Esk.
        assert (ln' = ln) as ->.
        { apply get_leafnode_Some in Hl' as [p' Hl']. congruence. }
        apply (split_key_nonempty cfg lo hi key ln pl sk Hok Hfull); [|done].
        destruct Hmode as [[Hkey Hkeys]|HL]; [left|right; done].
        split; [done|]. intros j b Hb. apply (Hkeys _ (slot_val b)).
        exists (leaf ln), j, b. unfold read_pslot. rewrite Hpl. done.
      * intros ln' sk st4 Hl' Esk Hsb.
        assert (ln' = ln) as ->.
        { apply get_leafnode_Some in Hl' as [p' Hl']. congruence. }
        destruct (split_body_spec (with_NDEBUG cfg) Hcfg st G H HI t y lo hi key value
                    p ln pl Et HG Hy Hpl Hok Hfull Hlo Hhi Hsk Hsv sk Esk)
          as (st4' & G1 & Hsb' & HI4 & _).
        nd_norm cfg. assert (st4' = st4) as -> by congruence.
        eapply Inv_top_unlinked; eauto.
      * destruct (LeafSplitFull_spec (with_NDEBUG cfg) st G H t y lo hi key value p ln pl
                    Hcfg HI Et HG Hy Hpl Hok Hfull Hlo Hhi Hsk Hsv)
          as (st5 & G' & H' & Hl5 & HI5 & _).
        nd_norm cfg. assert (st2 = st5) as -> by congruence.
        eapply Inv_top_linked; eauto.
      * cbn. intros [= <-]. done.
  - rewrite Hs. intros Hp. split; [exact Hp|].
    destruct (obtain_leaf cfg st) as [st1 lf] eqn:Eo.
    destruct (exec_tx true st _) as [[st3 ok]|] eqn:E; [|discriminate].
    apply exec_tx_true in E as (st4 & E & [= -> ->]).
    cbn in Hp. injection Hp as <-. intros x inner Hx.
    change (get_inner (set_tree_top ?a ?t) x) with (get_inner a x) in Hx.
    apply LeafFillSpecificSlot_kept in E as [_ E]. apply E in Hx.
    apply push_leafnode_kept in Hx.
    apply obtain_leaf_kept in Eo as [_ Eo]. apply Eo in Hx. eapply Ht; eauto.
Qed.

Lemma Remove_tidy cfg st key st' :
  tidy cfg st -> Remove (with_NDEBUG cfg) st key = Some st' ->
  Remove cfg st key = Some st' /\ tidy cfg st'.
Proof.
  intros Ht Hr.
  assert (E : Remove cfg st key = Some st').
  { revert Hr. unfold Remove, Remove_tx.
    rewrite (LeafSearch_checked cfg st key (tidy_checked cfg st Ht)). done. }
  split; [exact E|]. eapply tidy_kept; [|exact Ht]. eapply Remove_kept; eauto.
Qed.

Lemma recover_build_tidy cfg (Hcfg : cfg_ok cfg) rest : forall st prev m st',
  tidy cfg st -> is_Some (tree_top st) -> m <> EmptyString ->
  Forall (fun xm : nat * string => snd xm <> EmptyString) rest ->
  recover_build_tops (with_NDEBUG cfg) rest st prev m ->
  recover_build (with_NDEBUG cfg) rest st prev m = Some st' ->
  recover_build cfg rest st prev m = Some st' /\ tidy cfg st'.
Proof.
  induction rest as [|[next mnext] rest IH];
    intros st prev m st' Ht Htop Hm Hrest Htops; cbn [recover_build].
  - intros [= <-]. done.
  - apply Forall_cons in Hrest as [Hmn Hrest]. cbn [snd] in Hmn.
    cbn [recover_build_tops] in Htops.
    destruct (nodes st !! prev) as [pn|] eqn:Hpn; [|discriminate].
    cbn [mbind option_bind].
    destruct (update_parent st next _) as [st1|] eqn:E1; [|discriminate].
    cbn [mbind option_bind].
    destruct (InnerUpdateAfterSplit (with_NDEBUG cfg) _ _ _ _ _) as [st2|] eqn:Eu;
      [|discriminate].
    cbn [mbind option_bind]. intros Hr.
    destruct (Htops pn st1 st2 eq_refl E1 Eu) as (Hun & Hli & Htops').
    apply update_parent_frame in E1 as (_ & _ & _ & A4 & _ & _ & A7).
    destruct (IUAS_tidy cfg Hcfg _ _ _ _ _ _
                ltac:(intros x inner Hx; rewrite A7 in Hx; eapply Ht; eauto)
                Hm ltac:(rewrite A4; exact Htop) Hun Hli Eu) as (-> & Ht2 & Htop2).
    cbn [mbind option_bind]. eapply IH; eauto.
Qed.

Lemma recover_slots_max p n : forall ln e m ln' e' m',
  recover_slots p n ln e m = (ln', e', m') -> e' = false ->
  (e = false /\ m' = m) \/
  exists slot b, slots p !! slot = Some (Some b) /\ slot_key b = m'.
Proof.
  induction n as [|slot IH]; intros ln e m ln' e' m'; cbn [recover_slots].
  - intros [= <- <- <-] ->. auto.
  - destruct (slots p !! slot) as [[b|]|] eqn:Hb; cbn [mjoin option_join];
      try (apply IH).
    destruct (slot_hash b =? 0); [apply IH|].
    intros Hr He'. destruct (IH _ _ _ _ _ _ Hr He') as [[_ ->]|?]; [|auto].
    destruct e; [right; eauto|].
    destruct (compare_lt0 m (slot_key b)); [right; eauto|left; done].
Qed.

Lemma recover_leaves_max cfg ids : forall st leaves st' leaves',
  recover_leaves cfg ids st leaves = Some (st', leaves') ->
  forall x m, (x, m) ∈ leaves' ->
    (x, m) ∈ leaves \/
    exists lf slot b, read_pslot st lf slot = Some (Some b) /\ slot_key b = m.
Proof.
  induction ids as [|lf ids IH]; intros st leaves st' leaves'; cbn [recover_leaves].
  - intros [= <- <-]. auto.
  - destruct (pleaves st !! lf) as [p|] eqn:Hp; [|discriminate].
    cbn [mbind option_bind].
    destruct (recover_slots _ _ _ _ _) as [[ln e] m0] eqn:Hrs.
    destruct e; intros Hr x m Hx;
      destruct (IH _ _ _ _ Hr x m Hx) as [Hin|(lf' & slot & b & Hb & Hk)];
      auto; try (right; exists lf', slot, b; done).
    apply elem_of_app in Hin as [Hin|Hin]; [auto|].
    apply list_elem_of_singleton in Hin as [= -> ->].
    destruct (recover_slots_max _ _ _ _ _ _ _ _ Hrs eq_refl)
      as [[? _]|(slot & b & Hb & Hk)]; [done|].
    right. exists lf, slot, b. unfold read_pslot. rewrite Hp. done.
Qed.

Lemma reopen_tidy cfg st st' :
  cfg_ok cfg -> pool_ok (with_NDEBUG cfg) st ->
  (forall lf slot b, read_pslot st lf slot = Some (Some b) ->
     slot_key b <> EmptyString) ->
  reopen (with_NDEBUG cfg) st = Some st' ->
  reopen cfg st = Some st' /\ tidy cfg st'.
Proof.
  intros Hcfg Hpool Hkeys.
  destruct (Recover_spec (with_NDEBUG cfg) st Hcfg eq_refl Hpool)
    as (_ & _ & _ & _ & _ & _ & _ & Htops).
  revert Htops. unfold reopen, Recover. nd_norm cfg. intros Htops.
  destruct (persistent_list _) as [ids|] eqn:Hids; [|discriminate].
  cbn [mbind option_bind].
  destruct (recover_leaves cfg ids _ []) as [[st1 leaves]|] eqn:Erl; [|discriminate].
  cbn [mbind option_bind].
  pose proof (fun first m0 rest => Htops _ _ _ first m0 rest eq_refl Erl) as Htops'.
  pose proof (recover_leaves_max _ _ _ _ _ _ Erl) as Hmax.
  apply recover_leaves_no_inner in Erl as [_ Hno]; [|done].
  assert (Hne : forall x m, (x, m) ∈ sort_leaves leaves -> m <> EmptyString).
  { intros x m Hx. rewrite sort_leaves_perm in Hx.
    destruct (Hmax x m Hx) as [Hin|(lf & slot & b & Hb & <-)].
    - apply elem_of_nil in Hin. done.
    - apply (Hkeys lf slot b). exact Hb. }
  assert (Htn : forall t, tidy cfg (set_tree_top st1 t)).
  { intros t x inner Hx.
    change (get_inner (set_tree_top ?a ?t) x) with (get_inner a x) in Hx.
    rewrite Hno in Hx. done. }
  destruct (sort_leaves leaves) as [|[first m0] rest].
  - intros [= <-]. done.
  - apply recover_build_tidy; try done.
    + apply (Hne first). left.
    + apply List.Forall_forall. intros [x m] Hx. cbn [snd].
      apply (Hne x). right. apply list_elem_of_In. done.
    + apply (Htops' first m0 rest eq_refl).
Qed.

(** *** Sequences of operations *)

Lemma step_tidy cfg st o (m : string -> option string) st' :
  cfg_ok cfg -> Inv (with_NDEBUG cfg) st ->
  (forall k v, contents st k v <-> m k = Some v) ->
  tidy cfg st -> op_small o ->
  (op_nonempty o /\ (forall k v, m k = Some v -> k <> EmptyString)) \/
  ((2 <= LEAF_KEYS cfg)%nat /\ op_not_reopen o) ->
  step (with_NDEBUG cfg) st o = Some st' ->
  step cfg st o = Some st' /\ tidy cfg st'.
Proof.
  intros Hcfg (G & H & HI) Hc Ht Hsm Hmode.
  destruct o as [key value|key|]; cbn [step].
  - destruct Hsm as [Hsk Hsv].
    apply (Put_tidy cfg st G H key value st' Hcfg HI Ht Hsk Hsv).
    destruct Hmode as [[Hk Hm]|[HL _]]; [left|right; done].
    split; [exact Hk|]. intros k v Hkv. apply (Hm k v), Hc, Hkv.
  - apply Remove_tidy, Ht.
  - destruct Hmode as [[_ Hm]|[_ []]].
    apply reopen_tidy; [done|eapply Inv_pool_ok; eauto|].
    intros lf slot b Hb. apply (Hm (slot_key b) (slot_val b)), Hc.
    exists lf, slot, b. done.
Qed.

Lemma run_tidy cfg ops : forall st (m : string -> option string) st',
  cfg_ok cfg -> Inv (with_NDEBUG cfg) st ->
  (forall k v, contents st k v <-> m k = Some v) ->
  tidy cfg st -> Forall op_small ops ->
  (Forall op_nonempty ops /\ (forall k v, m k = Some v -> k <> EmptyString)) \/
  ((2 <= LEAF_KEYS cfg)%nat /\ Forall op_not_reopen ops) ->
  run (with_NDEBUG cfg) ops st = Some st' ->
  run cfg ops st = Some st' /\ tidy cfg st'.
Proof.
  induction ops as [|o ops IH]; intros st m st' Hcfg HI Hc Ht Hsm Hmode; cbn [run].
  - intros [= <-]. done.
  - apply Forall_cons in Hsm as [Ho Hsm].
    destruct (step_spec (with_NDEBUG cfg) st o m Hcfg HI Ho Hc)
      as (st1 & Hs & HI1 & Hc1).
    rewrite Hs. cbn [mbind option_bind]. intros Hr.
    destruct (step_tidy cfg st o m st1 Hcfg HI Hc Ht Ho) as [-> Ht1]; [|exact Hs|].
    { destruct Hmode as [[Hne Hm]|[HL Hnr]].
      - apply Forall_cons in Hne as [? _]. left. done.
      - apply Forall_cons in Hnr as [? _]. right. done. }
    cbn [mbind option_bind].
    apply (IH st1 (model [o] m) st' Hcfg HI1 Hc1 Ht1 Hsm); [|exact Hr].
    destruct Hmode as [[Hne Hm]|[HL Hnr]].
    + apply Forall_cons in Hne as [Hno Hne]. left. split; [done|].
      intros k v. destruct o as [key value|key|]; cbn [model]; [| |apply Hm].
      * destruct (String.eqb_spec k key) as [->|_]; [intros _; exact Hno|apply Hm].
      * destruct (String.eqb_spec k key); [done|apply Hm].
    + apply Forall_cons in Hnr as [_ Hnr]. right. done.
Qed.

Lemma tidy_fresh cfg : tidy cfg fresh.
Proof. intros x inner Hx. done. Qed.

(** The runs of the engine: without the assertions every run returns,
    with the invariant and the map of the model; with the assertions a
    run that returns returns the same state, whose inner nodes pass their
    assertions; and on the sequences of [assert_free] the run with the
    assertions returns. *)
Lemma run_bridge cfg ops :
  cfg_ok cfg -> Forall op_small ops ->
  exists st0,
    run (with_NDEBUG cfg) ops fresh = Some st0 /\ Inv (with_NDEBUG cfg) st0 /\
    (forall k v, contents st0 k v <-> model ops (fun _ => None) k = Some v) /\
    (assert_free cfg ops -> run cfg ops fresh = Some st0) /\
    (forall st, run cfg ops fresh = Some st -> st = st0 /\ checked cfg st).
Proof.
  intros Hcfg Hsm.
  destruct (run_fresh (with_NDEBUG cfg) ops Hcfg eq_refl Hsm) as (st0 & Hr & HI & Hc).
  exists st0. split; [done|]. split; [done|]. split; [done|]. split.
  - intros [Hnd|Hmode].
    + rewrite (with_NDEBUG_id cfg Hnd) in Hr. done.
    + eapply (run_tidy cfg ops fresh (fun _ => None)); eauto.
      * exists (fun _ => None), O. apply Inv_fresh. done.
      * intros k v. split; [intros Hk; destruct (fresh_no_contents _ _ Hk)|done].
      * apply tidy_fresh.
      * destruct Hmode as [Hne|Hm]; [left|right; done]. split; [done|]. done.
  - intros st Hrun. destruct (run_sim _ _ _ _ Hrun) as [Hnd Hch].
    split; [congruence|]. apply Hch, checked_fresh.
Qed.


(** * Runs from a fresh engine *)

Lemma run_app cfg a b : forall st,
  run cfg (a ++ b) st = run cfg a st ≫= run cfg b.
Proof.
  induction a as [|o a IH]; intros st; cbn [run app]; [done|].
  destruct (step cfg st o) as [st1|]; cbn [mbind option_bind]; [apply IH|done].
Qed.

(** What holds of every state a run reaches: such a state satisfies the
    invariant of the engine without assertions, holds the map of the
    model, and its inner nodes have passed their assertions. *)
Lemma reached cfg ops (P : MVTree -> Prop) :
  cfg_ok cfg -> Forall op_small ops ->
  (forall st,
     Inv (with_NDEBUG cfg) st ->
     (forall k v, contents st k v <-> model ops (fun _ => None) k = Some v) ->
     checked cfg st -> P st) ->
  (assert_free cfg ops -> exists st, run cfg ops fresh = Some st) /\
  (forall st, run cfg ops fresh = Some st -> P st).
Proof.
  intros Hcfg Hsm HP.
  destruct (run_bridge cfg ops Hcfg Hsm) as (st0 & _ & HI & Hc & Hfree & Hall).
  split.
  - intros Hf. exists st0. apply Hfree, Hf.
  - intros st Hr. destruct (Hall st Hr) as [-> Hch]. apply HP; done.
Qed.

(** C1. Sequential map semantics.  A sequence of operations on a fresh
    engine (every [Put] with a key and a value whose sizes fit the 32-bit
    header fields; the sequence may also close and reopen the engine)
    runs to a state when no assertion can fail on it: the assertions are
    compiled out, or no empty key is put, or a leaf has two slots or more
    and the engine is not reopened.  In every state the sequence runs to,
    [Get k] returns [OK] with the value of the most recent [Put k v]
    appended to the output, and [NOT_FOUND] with the output unchanged if
    [k] was never put or was removed last. *)
Theorem sequential_map_semantics (cfg : Config) (ops : list Op) (k s : string) :
  cfg_ok cfg -> Forall op_small ops ->
  (assert_free cfg ops -> exists st, run cfg ops fresh = Some st) /\
  (forall st, run cfg ops fresh = Some st ->
     Get cfg st k s = Some (match model ops (fun _ => None) k with
                            | Some v => (OK, (s ++ v)%string)
                            | None => (NOT_FOUND, s)
                            end)).
Proof.
  intros Hcfg Hsm. apply reached; [done|done|].
  intros st HI Hc Hch. rewrite (Get_checked cfg st k s Hch).
  apply Get_model; done.
Qed.

Lemma sequential_map_semantics_witness :
  exists st,
    run cfg_small [OpPut "" "0"; OpPut "a" "1"; OpPut "b" "2"; OpRemove "a";
                   OpPut "b" "3"; OpPut "c" "4"; OpPut "d" "5"; OpPut "e" "6"] fresh
    = Some st /\
    Get cfg_small st "b" "x"
    = Some (match model [OpPut "" "0"; OpPut "a" "1"; OpPut "b" "2"; OpRemove "a";
                         OpPut "b" "3"; OpPut "c" "4"; OpPut "d" "5"; OpPut "e" "6"]
                        (fun _ => None) "b" with
            | Some v => (OK, ("x" ++ v)%string)
            | None => (NOT_FOUND, "x"%string)
            end).
Proof.
  destruct (sequential_map_semantics cfg_small
              [OpPut "" "0"; OpPut "a" "1"; OpPut "b" "2"; OpRemove "a";
               OpPut "b" "3"; OpPut "c" "4"; OpPut "d" "5"; OpPut "e" "6"] "b" "x")
    as [Hex Hall].
  - unfold cfg_ok. simpl. split; [lia|]. split; [lia|]. exists 1%nat. reflexivity.
  - repeat constructor; vm_compute; reflexivity.
  - destruct Hex as [st Hr].
    + right. right. split; [simpl; lia|]. repeat constructor.
    + exists st. split; [exact Hr|exact (Hall st Hr)].
Defined.

(** C5. Separator invariant: in every state a sequence of operations on
    a fresh engine runs to, leaf and inner-node splits and runs of
    [Recover] included, in every inner node of the volatile tree the
    separators are ascending, every key stored under a child but the last
    is at most the child's separator, and every key under a child but the
    first is above the separator before it.  The sequence runs to a state
    when no assertion can fail on it. *)
Theorem separator_invariant_preserved (cfg : Config) (ops : list Op) :
  cfg_ok cfg -> Forall op_small ops ->
  (assert_free cfg ops -> exists st, run cfg ops fresh = Some st) /\
  (forall st, run cfg ops fresh = Some st -> separator_invariant st).
Proof.
  intros Hcfg Hsm. apply reached; [done|done|].
  intros st (G & H & HI) _ _.
  eapply (Inv_separator_invariant (with_NDEBUG cfg)). exists G, H. exact HI.
Qed.

Lemma separator_invariant_preserved_witness :
  exists st,
    run cfg_small [OpPut "a" "1"; OpPut "b" "2"; OpPut "c" "3"; OpPut "d" "4";
                   OpPut "e" "5"; OpReopen; OpPut "f" "6"] fresh = Some st /\
    separator_invariant st.
Proof.
  destruct (separator_invariant_preserved cfg_small
              [OpPut "a" "1"; OpPut "b" "2"; OpPut "c" "3"; OpPut "d" "4";
               OpPut "e" "5"; OpReopen; OpPut "f" "6"]) as [Hex Hall].
  - unfold cfg_ok. simpl. split; [lia|]. split; [lia|]. exists 1%nat. reflexivity.
  - repeat constructor; vm_compute; reflexivity.
  - destruct Hex as [st Hr].
    + right. left. repeat constructor; discriminate.
    + exists st. split; [exact Hr|exact (Hall st Hr)].
Defined.

(** C10. [Get(key, value)] appends to [*value].  In every state a sequence
    of operations runs to, for every block of the pool, with its key [k]
    and its value [v], and every content [s] of the caller's string,
    [Get k] returns [OK] and leaves [s] followed by [v] in the string;
    the blocks of the pool are the pairs of the map, so the same holds of
    the value the map has for a key. *)
Theorem Get_appends_stored_value (cfg : Config) (ops : list Op) :
  cfg_ok cfg -> Forall op_small ops ->
  (assert_free cfg ops -> exists st, run cfg ops fresh = Some st) /\
  (forall st, run cfg ops fresh = Some st ->
     (forall lf slot b s,
        read_pslot st lf slot = Some (Some b) ->
        Get cfg st (slot_key b) s = Some (OK, (s ++ slot_val b)%string)) /\
     (forall k v s,
        model ops (fun _ => None) k = Some v ->
        (exists lf slot b, read_pslot st lf slot = Some (Some b) /\
                           slot_key b = k /\ slot_val b = v) /\
        Get cfg st k s = Some (OK, (s ++ v)%string))).
Proof.
  intros Hcfg Hsm. apply reached; [done|done|].
  intros st HI Hc Hch.
  assert (Hget : forall k v s, contents st k v ->
            Get cfg st k s = Some (OK, (s ++ v)%string)).
  { intros k v s Hkv. rewrite (Get_checked cfg st k s Hch).
    rewrite (Get_model (with_NDEBUG cfg) st _ k s HI Hc).
    apply Hc in Hkv. rewrite Hkv. done. }
  split.
  - intros lf slot b s Hb. apply Hget. exists lf, slot, b. done.
  - intros k v s Hm. apply Hc in Hm. split; [exact Hm|]. apply Hget, Hm.
Qed.

Lemma Get_appends_stored_value_witness :
  exists st,
    run cfg_small [OpPut "a" "1"; OpPut "b" "22"; OpPut "a" "333"] fresh = Some st /\
    Get cfg_small st "a" "xyz" = Some (OK, "xyz333"%string).
Proof.
  destruct (Get_appends_stored_value cfg_small
              [OpPut "a" "1"; OpPut "b" "22"; OpPut "a" "333"]) as [Hex Hall].
  - unfold cfg_ok. simpl. split; [lia|]. split; [lia|]. exists 1%nat. reflexivity.
  - repeat constructor; vm_compute; reflexivity.
  - destruct Hex as [st Hr].
    + right. left. repeat constructor; discriminate.
    + exists st. split; [exact Hr|].
      apply (proj2 (Hall st Hr) "a"%string "333"%string "xyz"%string). reflexivity.
Defined.
(** * Recovery *)

(** C2. Recovery does not round-trip on every reachable pool.  With the
    assertions compiled in, the engine of the shipped fan-outs that was
    given the empty key and 48 more keys, and from which the 24 keys that
    share the leaf of the empty key after the split were removed, answers
    [Get] for the empty key, but [Recover] on its pool does not return:
    the leaf whose only key is the empty key is installed with the empty
    key as the separator after it, and [assert_invariants] fails on the
    new top node.  Built with [NDEBUG], [Recover] returns with that node as
    the top of the tree.  The same happens with small fan-outs after
    [Put] of the empty key, ["a"], ["b"], ["c"], ["d"] and [Remove] of
    ["a"] and ["b"]. *)
Theorem Recover_aborts_on_empty_separator :
  (let keys48 :=
     map (fun n => String (ascii_of_nat (48 + n)) EmptyString) (seq 0 48) in
   let ops :=
     OpPut "" "v" :: map (fun k => OpPut k "v") keys48
       ++ map OpRemove (take 24 keys48) in
   exists st,
     run cfg_x86 ops fresh = Some st /\
     Get cfg_x86 st "" "" = Some (OK, "v"%string) /\
     reopen cfg_x86 st = None /\
     exists st' top inner,
       reopen (with_NDEBUG cfg_x86) st = Some st' /\
       tree_top st' = Some top /\ get_inner st' top = Some inner /\
       keycount inner = 1%nat /\ sep inner 0 = EmptyString /\
       assert_invariants cfg_x86 inner = false) /\
  (exists st,
     run cfg_small [OpPut "" "0"; OpPut "a" "1"; OpPut "b" "2"; OpPut "c" "3";
                    OpPut "d" "4"; OpRemove "a"; OpRemove "b"] fresh = Some st /\
     Get cfg_small st "" "" = Some (OK, "0"%string) /\
     reopen cfg_small st = None /\
     exists st' top inner,
       reopen (with_NDEBUG cfg_small) st = Some st' /\
       tree_top st' = Some top /\ get_inner st' top = Some inner /\
       keycount inner = 1%nat /\ sep inner 0 = EmptyString /\
       assert_invariants cfg_small inner = false).
Proof.
  split.
  - cbv zeta. eexists. split; [vm_compute; reflexivity|].
    split; [vm_compute; reflexivity|]. split; [vm_compute; reflexivity|].
    eexists _, _, _. split; [vm_compute; reflexivity|].
    split; [vm_compute; reflexivity|]. split; [vm_compute; reflexivity|].
    split; [vm_compute; reflexivity|]. split; vm_compute; reflexivity.
  - eexists. split; [vm_compute; reflexivity|].
    split; [vm_compute; reflexivity|]. split; [vm_compute; reflexivity|].
    eexists _, _, _. split; [vm_compute; reflexivity|].
    split; [vm_compute; reflexivity|]. split; [vm_compute; reflexivity|].
    split; [vm_compute; reflexivity|]. split; vm_compute; reflexivity.
Qed.

(** X13. Recovery round trip where no assertion fails.  When no assertion
    can fail on a sequence of operations followed by a reopening, the
    sequence runs to a state and [Recover] returns on its pool.  Whenever
    a sequence runs to a state and [Recover] returns on its pool, every
    [Get] returns the same result before and after, and [ListAllKeys]
    returns the same keys before and after. *)
Theorem recovery_round_trip (cfg : Config) (ops : list Op) :
  cfg_ok cfg -> Forall op_small ops ->
  (assert_free cfg (ops ++ [OpReopen]) ->
   exists st st', run cfg ops fresh = Some st /\ reopen cfg st = Some st') /\
  (forall st st',
     run cfg ops fresh = Some st -> reopen cfg st = Some st' ->
     (forall k s, exists r, Get cfg st k s = Some r /\ Get cfg st' k s = Some r) /\
     (forall out, exists keys,
        ListAllKeys cfg st out = Some (out ++ keys) /\
        ListAllKeys cfg st' out = Some (out ++ keys))).
Proof.
  intros Hcfg Hsm. split.
  - intros Hf.
    assert (Hsm' : Forall op_small (ops ++ [OpReopen])).
    { apply Forall_app. split; [done|]. repeat constructor. }
    destruct (run_bridge cfg _ Hcfg Hsm') as (st1 & _ & _ & _ & Hfree & _).
    specialize (Hfree Hf). rewrite run_app in Hfree.
    destruct (run cfg ops fresh) as [st|]; [|discriminate].
    cbn [mbind option_bind run step] in Hfree.
    destruct (reopen cfg st) as [st'|] eqn:Hre; [|discriminate].
    exists st, st'. done.
  - intros st st' Hr Hre.
    destruct (run_bridge cfg ops Hcfg Hsm) as (st0 & _ & HI & Hc & _ & Hall).
    destruct (Hall st Hr) as [-> Hch].
    destruct (reopen_sim cfg st0 st' Hre) as [Hre' Hch'].
    pose proof HI as (G & H & HIg).
    destruct (reopen_spec (with_NDEBUG cfg) st0 G H Hcfg HIg)
      as (st'' & G' & H' & Hre'' & HI' & Hpl & Hhd).
    assert (st'' = st') as -> by congruence.
    split.
    + intros k s. eexists.
      rewrite (Get_checked cfg st0 k s Hch), (Get_checked cfg st' k s Hch').
      split; [apply Get_model; eauto|].
      apply Get_model; [exists G', H'; done|].
      intros k0 v. rewrite <- Hc. apply contents_pleaves_eq. done.
    + intros out.
      destruct (ListAllKeys_returns cfg st0 out (inv_chain _ _ _ _ _ HIg))
        as [keys Hk].
      exists keys. split; [done|]. rewrite (ListAllKeys_pool cfg st0 st') by done.
      done.
Qed.

Lemma recovery_round_trip_witness :
  exists st st',
    run cfg_small [OpPut "a" "1"; OpPut "b" "2"; OpPut "c" "3"; OpPut "d" "4";
                   OpPut "e" "5"; OpRemove "a"] fresh = Some st /\
    reopen cfg_small st = Some st' /\
    (forall k s, exists r, Get cfg_small st k s = Some r /\
                           Get cfg_small st' k s = Some r) /\
    (forall out, exists keys,
       ListAllKeys cfg_small st out = Some (out ++ keys) /\
       ListAllKeys cfg_small st' out = Some (out ++ keys)).
Proof.
  destruct (recovery_round_trip cfg_small
              [OpPut "a" "1"; OpPut "b" "2"; OpPut "c" "3"; OpPut "d" "4";
               OpPut "e" "5"; OpRemove "a"]) as [Hex Hall].
  - unfold cfg_ok. simpl. split; [lia|]. split; [lia|]. exists 1%nat. reflexivity.
  - repeat constructor; vm_compute; reflexivity.
  - destruct Hex as (st & st' & Hr & Hre).
    + right. left. repeat constructor; discriminate.
    + exists st, st'. split; [exact Hr|]. split; [exact Hre|exact (Hall st st' Hr Hre)].
Defined.
(** * The leaf split *)

Lemma obtain_leaf_other cfg st st1 lf l pl :
  obtain_leaf cfg st = (st1, lf) ->
  Forall (fun lf' => lf' <> l /\
            exists nx, pleaves st !! lf'
                       = Some {| slots := replicate (LEAF_KEYS cfg) None; next := nx |})
         (leaves_prealloc st) ->
  pleaves st !! l = Some pl ->
  nodes st1 = nodes st /\ l <> lf /\ pleaves st1 !! l = Some pl /\
  exists nx, pleaves st1 !! lf
             = Some {| slots := replicate (LEAF_KEYS cfg) None; next := nx |}.
Proof.
  unfold obtain_leaf. intros Hob Hpre Hl.
  destruct (leaves_prealloc st) as [|lf0 rest].
  - injection Hob as <- <-. cbn [nodes pleaves].
    assert (Hlt : (l < length (pleaves st))%nat) by (eapply lookup_lt_Some; eauto).
    split; [done|]. split; [lia|]. split; [rewrite lookup_app_l; done|].
    exists (head st). rewrite lookup_app_r by lia. rewrite Nat.sub_diag. done.
  - injection Hob as <- <-. cbn [nodes pleaves].
    apply Forall_cons in Hpre as [[Hne Hnx] _]. done.
Qed.

(** The transaction of [LeafSplitFull] on a full leaf, slot by slot. *)
Lemma split_body_algorithm (cfg : Config) (st : MVTree) (y : nat)
    (p : option nat) (ln : MVLeafNode) (pl : MVLeaf) (hash : Z) (key value : string) :
  (1 <= LEAF_KEYS cfg)%nat ->
  nodes st !! y = Some {| parent := p; kind := LeafNode ln |} ->
  pleaves st !! leaf ln = Some pl ->
  length (hashes ln) = LEAF_KEYS cfg -> length (keys ln) = LEAF_KEYS cfg ->
  length (slots pl) = LEAF_KEYS cfg ->
  Forall (fun h => h <> 0) (hashes ln) ->
  NoDup (keys ln ++ [key]) ->
  Forall (fun lf => lf <> leaf ln /\
            exists nx, pleaves st !! lf
                       = Some {| slots := replicate (LEAF_KEYS cfg) None; next := nx |})
         (leaves_prealloc st) ->
  exists sk st4 lnA lnB plA plB e,
    split_key_of cfg ln key = Some sk /\
    StronglySorted kle (sort_keys (keys ln ++ [key])) /\
    Permutation (sort_keys (keys ln ++ [key])) (keys ln ++ [key]) /\
    sort_keys (keys ln ++ [key]) !! LEAF_KEYS_MIDPOINT cfg = Some sk /\
    split_body cfg st y hash key value sk = Some st4 /\
    nodes st4 !! y = Some {| parent := p; kind := LeafNode lnA |} /\
    nodes st4 !! length (nodes st) = Some {| parent := p; kind := LeafNode lnB |} /\
    leaf lnA = leaf ln /\ leaf lnB <> leaf ln /\
    pleaves st4 !! leaf lnA = Some plA /\ pleaves st4 !! leaf lnB = Some plB /\
    (e < LEAF_KEYS cfg)%nat /\
    (exists ke, keys ln !! e = Some ke /\
                compare_gt0 ke sk = negb (compare_gt0 key sk)) /\
    (forall j kj, (e < j)%nat -> keys ln !! j = Some kj ->
       compare_gt0 kj sk = compare_gt0 key sk) /\
    (slots (if compare_gt0 key sk then plB else plA) !! e
     = Some (Some (block_of hash key value)) /\
     hashes (if compare_gt0 key sk then lnB else lnA) !! e = Some hash /\
     keys (if compare_gt0 key sk then lnB else lnA) !! e = Some key) /\
    forall slot k h s,
      keys ln !! slot = Some k -> hashes ln !! slot = Some h ->
      slots pl !! slot = Some s ->
      if compare_gt0 k sk
      then (slots plB !! slot = Some s /\ hashes lnB !! slot = Some h /\
            keys lnB !! slot = Some k) /\
           (if negb (compare_gt0 key sk) && (slot =? e)%nat
            then slots plA !! slot = Some (Some (block_of hash key value)) /\
                 hashes lnA !! slot = Some hash /\ keys lnA !! slot = Some key
            else slots plA !! slot = Some None /\ hashes lnA !! slot = Some 0 /\
                 keys lnA !! slot = Some EmptyString)
      else (slots plA !! slot = Some s /\ hashes lnA !! slot = Some h /\
            keys lnA !! slot = Some k) /\
           (if compare_gt0 key sk && (slot =? e)%nat
            then slots plB !! slot = Some (Some (block_of hash key value)) /\
                 hashes lnB !! slot = Some hash /\ keys lnB !! slot = Some key
            else slots plB !! slot = Some None /\ hashes lnB !! slot = Some 0 /\
                 keys lnB !! slot = Some EmptyString).
Proof.
  intros HL Hy Hpl Lh Lk Ls Hfull Hnd Hpre.
  destruct (split_key_exists cfg ln key Lk) as [sk Hsplit].
  destruct (split_key_facts cfg ln key sk HL Lk Hnd Hsplit) as (_ & _ & Hnew & Hold).
  destruct (obtain_leaf cfg st) as [st1 lf] eqn:Hob.
  destruct (obtain_leaf_other cfg st st1 lf (leaf ln) pl Hob Hpre Hpl)
    as (Hn & Hne & Hpl1 & nx & Hlf).
  destruct (split_body_moved cfg st y p ln pl st1 lf nx hash key value sk
              Hy Lh Lk Ls Hob Hn Hne Hpl1 Hlf) as (st3 & HM & Hsb).
  destruct HM as (lnA & lnB & plA & plB & Htt3 & Hpre3 & Hhd3 & Hlen & Hlk & Hplen & Hplk
                  & ElA & ElB & EnA & EnB & LhA & LkA & LsA & LhB & LkB & LsB & Hslots).
  assert (Hylt : (y < length (nodes st))%nat) by (eapply lookup_lt_Some; eauto).
  rewrite Hn in Hlk.
  assert (HyA : nodes st3 !! y = Some {| parent := p; kind := LeafNode lnA |})
    by (rewrite Hlk, decide_True; done).
  assert (HnB : nodes st3 !! length (nodes st)
                = Some {| parent := p; kind := LeafNode lnB |}).
  { rewrite Hlk, decide_False by lia. rewrite decide_True; done. }
  assert (HpA : pleaves st3 !! leaf ln = Some plA) by (rewrite Hplk, decide_True; done).
  assert (HpB : pleaves st3 !! lf = Some plB).
  { rewrite Hplk, decide_False by done. rewrite decide_True; done. }
  assert (Hmv : forall slot k h s,
            keys ln !! slot = Some k -> hashes ln !! slot = Some h ->
            slots pl !! slot = Some s ->
            (slot < LEAF_KEYS cfg)%nat /\ h <> 0 /\
            if compare_gt0 k sk
            then hashes lnA !! slot = Some 0 /\ keys lnA !! slot = Some EmptyString /\
                 slots plA !! slot = Some None /\
                 hashes lnB !! slot = Some h /\ keys lnB !! slot = Some k /\
                 slots plB !! slot = Some s
            else hashes lnA !! slot = Some h /\ keys lnA !! slot = Some k /\
                 slots plA !! slot = Some s /\
                 hashes lnB !! slot = Some 0 /\ keys lnB !! slot = Some EmptyString /\
                 slots plB !! slot = Some None).
  { intros slot k h s Hk Hh Hs.
    assert (Hslot : (slot < LEAF_KEYS cfg)%nat) by (rewrite <- Lk; eapply lookup_lt_Some; eauto).
    split; [done|]. split.
    { rewrite List.Forall_forall in Hfull. apply Hfull.
      apply list_elem_of_In. eapply list_elem_of_lookup_2; eauto. }
    pose proof (Hslots slot Hslot) as Hc.
    rewrite bool_decide_eq_true_2 in Hc by lia. cbn [andb] in Hc.
    rewrite Hk in Hc. cbn [default from_option id] in Hc. rewrite Hh, Hs in Hc. done. }
  assert (Hlook : forall slot, (slot < LEAF_KEYS cfg)%nat ->
            exists k h s, keys ln !! slot = Some k /\ hashes ln !! slot = Some h /\
                          slots pl !! slot = Some s).
  { intros slot Hslot.
    destruct (lookup_lt_is_Some_2 (keys ln) slot ltac:(lia)) as [k Hk].
    destruct (lookup_lt_is_Some_2 (hashes ln) slot ltac:(lia)) as [h Hh].
    destruct (lookup_lt_is_Some_2 (slots pl) slot ltac:(lia)) as [s Hs]. eauto 10. }
  exists sk.
  destruct (compare_gt0 key sk) eqn:Egt.
  - (* the incoming key goes to the new leaf *)
    destruct (Hnew eq_refl) as [j0 Hj0].
    assert (Hj0lt : (j0 < LEAF_KEYS cfg)%nat) by (rewrite <- Lk; eapply lookup_lt_Some; eauto).
    destruct (Hlook j0 Hj0lt) as (k0 & h0 & s0 & Hk0 & Hh0 & Hs0).
    assert (k0 = sk) as -> by congruence.
    destruct (Hmv j0 sk h0 s0 Hk0 Hh0 Hs0) as (_ & _ & Hc0).
    assert (compare_gt0 sk sk = false) as Hss
      by (apply compare_gt0_false, kle_refl).
    rewrite Hss in Hc0. destruct Hc0 as (_ & _ & _ & HB0 & _).
    destruct (scan_down (LEAF_KEYS cfg)
                (fun slot => match hashes lnB !! slot with
                             | Some h => h =? 0 | None => false end)) as [e|] eqn:Esc.
    2:{ pose proof (scan_down_None _ _ Esc j0 Hj0lt) as Hn0. cbv beta in Hn0.
        rewrite HB0 in Hn0. discriminate. }
    destruct (scan_down_Some _ _ _ Esc) as (He & Hpe & _).
    destruct (hashes lnB !! e) as [he|] eqn:Hhe; [|discriminate].
    apply Z.eqb_eq in Hpe. subst he.
    destruct (lookup_lt_is_Some_2 (slots plB) e ltac:(lia)) as [se Hse].
    assert (HpB' : pleaves st3 !! leaf lnB = Some plB) by (rewrite ElB; done).
    pose proof (LeafFillSpecificSlot_eq st3 (length (nodes st)) p lnB 0 plB e se
                  hash key value HnB Hhe HpB' Hse) as Hfill.
    cbn [Z.eqb] in Hfill.
    eexists _, lnA, _, plA, _, e.
    split; [done|]. split; [apply sort_keys_sorted|]. split; [apply sort_keys_perm|].
    split; [exact Hsplit|]. split.
    { rewrite Hsb. unfold LeafFillEmptySlot. rewrite get_leafnode_node, HnB.
      cbn [kind mbind option_bind]. rewrite Esc. exact Hfill. }
    unfold leaf_write. cbn [nodes pleaves leaf hashes keys slots].
    split; [rewrite list_lookup_insert_ne by lia; done|].
    split; [rewrite list_lookup_insert_eq by (rewrite Hlen, Hn; lia); done|].
    split; [done|]. split; [rewrite ElB; done|].
    split; [rewrite ElA, list_lookup_insert_ne by (rewrite ElB; done); done|].
    split; [rewrite list_lookup_insert_eq by (eapply lookup_lt_Some; eauto); done|].
    split; [done|].
    destruct (scan_down_Some _ _ _ Esc) as (_ & _ & Hhigh).
    split.
    { destruct (Hlook e He) as (ke & h0' & s0' & Hke & Hhe0 & Hse0).
      exists ke. split; [done|].
      destruct (Hmv e ke h0' s0' Hke Hhe0 Hse0) as (_ & Hnz & Hc).
      destruct (compare_gt0 ke sk); [|done].
      destruct Hc as (_ & _ & _ & HB1 & _). congruence. }
    split.
    { intros j kj Hj Hkj.
      assert (Hjl : (j < LEAF_KEYS cfg)%nat)
        by (rewrite <- Lk; eapply lookup_lt_Some; eauto).
      destruct (Hlook j Hjl) as (kj' & hj & sj & Hkj' & Hhj & Hsj).
      assert (kj' = kj) as -> by congruence.
      destruct (Hmv j kj hj sj Hkj Hhj Hsj) as (_ & Hnz & Hc).
      destruct (compare_gt0 kj sk); [done|].
      destruct Hc as (_ & _ & _ & HB1 & _).
      specialize (Hhigh j ltac:(lia)). cbv beta in Hhigh. rewrite HB1 in Hhigh.
      discriminate. }
    split.
    { cbn [slots hashes keys]. rewrite !list_lookup_insert_eq by lia. done. }
    intros slot k h s Hk Hh Hs.
    destruct (Hmv slot k h s Hk Hh Hs) as (Hslot & Hnz & Hc).
    cbn [hashes keys slots].
    destruct (compare_gt0 k sk).
    + destruct Hc as (HA1 & HA2 & HA3 & HB1 & HB2 & HB3).
      assert (Hse' : slot <> e) by (intros ->; congruence).
      rewrite !list_lookup_insert_ne by done. cbn [negb andb]. done.
    + destruct Hc as (HA1 & HA2 & HA3 & HB1 & HB2 & HB3). cbn [andb].
      split; [done|].
      destruct (Nat.eqb_spec slot e) as [->|Hse'].
      * rewrite !list_lookup_insert_eq by lia. done.
      * rewrite !list_lookup_insert_ne by done. done.
  - (* the incoming key stays in the source leaf *)
    destruct (Hold eq_refl) as (j0 & k0 & Hj0 & Hgt0).
    assert (Hj0lt : (j0 < LEAF_KEYS cfg)%nat) by (rewrite <- Lk; eapply lookup_lt_Some; eauto).
    destruct (Hlook j0 Hj0lt) as (k0' & h0 & s0 & Hk0 & Hh0 & Hs0).
    assert (k0' = k0) as -> by congruence.
    destruct (Hmv j0 k0 h0 s0 Hk0 Hh0 Hs0) as (_ & _ & Hc0).
    rewrite Hgt0 in Hc0. destruct Hc0 as (HA0 & _).
    destruct (scan_down (LEAF_KEYS cfg)
                (fun slot => match hashes lnA !! slot with
                             | Some h => h =? 0 | None => false end)) as [e|] eqn:Esc.
    2:{ pose proof (scan_down_None _ _ Esc j0 Hj0lt) as Hn0. cbv beta in Hn0.
        rewrite HA0 in Hn0. discriminate. }
    destruct (scan_down_Some _ _ _ Esc) as (He & Hpe & _).
    destruct (hashes lnA !! e) as [he|] eqn:Hhe; [|discriminate].
    apply Z.eqb_eq in Hpe. subst he.
    destruct (lookup_lt_is_Some_2 (slots plA) e ltac:(lia)) as [se Hse].
    assert (HpA' : pleaves st3 !! leaf lnA = Some plA) by (rewrite ElA; done).
    pose proof (LeafFillSpecificSlot_eq st3 y p lnA 0 plA e se
                  hash key value HyA Hhe HpA' Hse) as Hfill.
    cbn [Z.eqb] in Hfill.
    eexists _, _, lnB, _, plB, e.
    split; [done|]. split; [apply sort_keys_sorted|]. split; [apply sort_keys_perm|].
    split; [exact Hsplit|]. split.
    { rewrite Hsb. unfold LeafFillEmptySlot. rewrite get_leafnode_node, HyA.
      cbn [kind mbind option_bind]. rewrite Esc. exact Hfill. }
    unfold leaf_write. cbn [nodes pleaves leaf hashes keys slots].
    split; [rewrite list_lookup_insert_eq by (rewrite Hlen, Hn; lia); done|].
    split; [rewrite list_lookup_insert_ne by lia; done|].
    split; [done|]. split; [rewrite ElB; done|].
    split; [rewrite list_lookup_insert_eq by (eapply lookup_lt_Some; eauto); done|].
    split; [rewrite ElA, ElB, list_lookup_insert_ne by done; done|].
    split; [done|].
    destruct (scan_down_Some _ _ _ Esc) as (_ & _ & Hhigh).
    split.
    { destruct (Hlook e He) as (ke & h0' & s0' & Hke & Hhe0 & Hse0).
      exists ke. split; [done|].
      destruct (Hmv e ke h0' s0' Hke Hhe0 Hse0) as (_ & Hnz & Hc).
      destruct (compare_gt0 ke sk); [done|].
      destruct Hc as (HA1 & _). congruence. }
    split.
    { intros j kj Hj Hkj.
      assert (Hjl : (j < LEAF_KEYS cfg)%nat)
        by (rewrite <- Lk; eapply lookup_lt_Some; eauto).
      destruct (Hlook j Hjl) as (kj' & hj & sj & Hkj' & Hhj & Hsj).
      assert (kj' = kj) as -> by congruence.
      destruct (Hmv j kj hj sj Hkj Hhj Hsj) as (_ & Hnz & Hc).
      destruct (compare_gt0 kj sk); [|done].
      destruct Hc as (HA1 & _).
      specialize (Hhigh j ltac:(lia)). cbv beta in Hhigh. rewrite HA1 in Hhigh.
      discriminate. }
    split.
    { cbn [slots hashes keys]. rewrite !list_lookup_insert_eq by lia. done. }
    intros slot k h s Hk Hh Hs.
    destruct (Hmv slot k h s Hk Hh Hs) as (Hslot & Hnz & Hc).
    cbn [hashes keys slots].
    destruct (compare_gt0 k sk).
    + destruct Hc as (HA1 & HA2 & HA3 & HB1 & HB2 & HB3). cbn [negb andb].
      split; [done|].
      destruct (Nat.eqb_spec slot e) as [->|Hse'].
      * rewrite !list_lookup_insert_eq by lia. done.
      * rewrite !list_lookup_insert_ne by done. done.
    + destruct Hc as (HA1 & HA2 & HA3 & HB1 & HB2 & HB3).
      assert (Hse' : slot <> e) by (intros ->; congruence).
      rewrite !list_lookup_insert_ne by done. cbn [negb andb]. done.
Qed.

(** [InnerUpdateAfterSplit] keeps the pool and the leaf nodes. *)
Lemma IUAS_frame (cfg : Config) (fuel : nat) :
  forall (st st' : MVTree) (node new_node : nat) (split_key : string),
    InnerUpdateAfterSplit cfg fuel st node new_node split_key = Some st' ->
    pleaves st' = pleaves st /\ head st' = head st /\
    leaves_prealloc st' = leaves_prealloc st /\
    (length (nodes st) <= length (nodes st'))%nat /\
    forall x ln, get_leafnode st x = Some ln -> get_leafnode st' x = Some ln.
Proof.
  induction fuel as [|fuel IH]; intros st st' node new_node split_key Hu;
    [discriminate|].
  cbn [InnerUpdateAfterSplit] in Hu.
  destruct (nodes st !! node) as [n|]; [|discriminate]. cbn [mbind option_bind] in Hu.
  destruct (parent n) as [inner_id|].
  - destruct (nodes st !! inner_id) as [pn|] eqn:Hpn; [|discriminate].
    cbn [mbind option_bind] in Hu.
    destruct (get_inner st inner_id) as [inner|] eqn:Hin; [|discriminate].
    cbn [mbind option_bind] in Hu.
    assert (Hupd : forall inner', let st1 := set_nodes st
                     (<[inner_id := {| parent := parent pn; kind := InnerNode inner' |}]>
                        (nodes st)) in
              length (nodes st1) = length (nodes st) /\
              forall x ln, get_leafnode st x = Some ln -> get_leafnode st1 x = Some ln).
    { intros inner' st1. unfold st1. cbn [nodes set_nodes]. rewrite length_insert.
      split; [done|]. intros x ln Hl. rewrite get_leafnode_node. cbn [nodes set_nodes].
      destruct (decide (x = inner_id)) as [->|].
      - destruct (get_leafnode_inner _ _ _ _ Hl Hin).
      - rewrite list_lookup_insert_ne by done. rewrite <- get_leafnode_node. done. }
    destruct (_ <=? _)%nat.
    + destruct (debug_assert_invariants _ _); [|discriminate].
      rewrite (update_inner_Some _ _ _ _ Hpn) in Hu. injection Hu as <-.
      destruct (Hupd (inner_insert cfg inner new_node split_key)) as [Hlen Hgl].
      split_and!; try done. lia.
    + destruct (split_move_keys _ _ _ _) as [ik nk].
      destruct (split_move_children _ _ _ _) as [ic nc].
      destruct (ik !! _) as [nsk|]; [|discriminate]. cbn [mbind option_bind] in Hu.
      rewrite (update_inner_Some _ _ _ _ Hpn) in Hu. cbn [mbind option_bind] in Hu.
      destruct (for_each _ _ _) as [st2|] eqn:Hfe; [|discriminate].
      cbn [mbind option_bind] in Hu.
      destruct (_ && _); [|discriminate].
      apply reparent_frame in Hfe as (A1 & A2 & A3 & A4 & A5 & A6 & A7).
      apply IH in Hu as (B1 & B2 & B3 & B4 & B5).
      destruct (Hupd {| keycount := INNER_KEYS_MIDPOINT cfg; ikeys := ik; children := ic |})
        as [Hlen Hgl].
      unfold push_node in *. cbn [pleaves head leaves_prealloc nodes set_nodes] in *.
      rewrite length_app in A5. cbn [length] in A5.
      split_and!; try congruence; [lia|].
      intros x ln Hl. apply B5. rewrite A6. apply Hgl in Hl.
      rewrite get_leafnode_node in *. cbn [nodes set_nodes] in *.
      assert (Hx : (x < length (nodes st))%nat).
      { destruct (_ !! x) eqn:E in Hl; [|discriminate].
        apply lookup_lt_Some in E. rewrite length_insert in E. done. }
      rewrite lookup_app_l by (rewrite length_insert; done). done.
  - destruct (debug_assert _ _); [|discriminate].
    destruct (update_parent st node _) as [st1|] eqn:E1; [|discriminate].
    cbn [mbind option_bind] in Hu.
    destruct (update_parent st1 new_node _) as [st2|] eqn:E2; [|discriminate].
    cbn [mbind option_bind] in Hu.
    destruct (debug_assert_invariants _ _); [|discriminate]. injection Hu as <-.
    apply update_parent_frame in E1 as (A1 & A2 & A3 & A4 & A5 & A6 & A7).
    apply update_parent_frame in E2 as (B1 & B2 & B3 & B4 & B5 & B6 & B7).
    unfold push_node. cbn [pleaves head leaves_prealloc nodes set_nodes set_tree_top].
    rewrite length_app. cbn [length].
    split_and!; try congruence; [lia|].
    intros x ln Hl. rewrite <- A6, <- B6 in Hl.
    rewrite get_leafnode_node in *. cbn [nodes set_nodes set_tree_top].
    assert (Hx : (x < length (nodes st2))%nat).
    { destruct (_ !! x) eqn:E in Hl; [|discriminate]. eapply lookup_lt_Some; eauto. }
    rewrite lookup_app_l by done. done.
Qed.


(** A full leaf that does not hold the key gives [LeafFillSlotForKey]
    nothing to fill. *)
Lemma LeafFillSlotForKey_full cfg st y ln pl lo hi key value :
  get_leafnode st y = Some ln -> leaf_ok_pl cfg ln pl lo hi ->
  (forall j, (j < LEAF_KEYS cfg)%nat ->
     exists b, slots pl !! j = Some (Some b) /\ slot_key b <> key) ->
  LeafFillSlotForKey cfg true st y (PearsonHash cfg key) key value
  = Some (st, NotFilled).
Proof.
  intros Hl Hok Hfull. unfold LeafFillSlotForKey. rewrite Hl.
  cbn [mbind option_bind].
  destruct (fill_scan ln (PearsonHash cfg key) key (LEAF_KEYS cfg) None)
    as [le km] eqn:E.
  apply fill_scan_spec in E.
  assert (Hnz : forall j, (j < LEAF_KEYS cfg)%nat ->
            default 0 (hashes ln !! j) <> 0 /\
            default EmptyString (keys ln !! j) <> key).
  { intros j Hj.
    destruct (full_slot cfg lo hi key ln pl Hok Hfull j Hj)
      as (b & _ & Hbok & Hh & Hk & _ & _ & Hne).
    rewrite Hh, Hk. cbn [default from_option id]. split; [|done].
    apply (block_ok_hash_nonzero cfg), Hbok. }
  destruct km as [s|].
  - destruct E as (Hs & _ & _ & Hk). destruct (Hnz s Hs) as [_ Hne]. done.
  - destruct E as [_ E]. destruct le as [e|]; [|done].
    destruct E as [[He He0]|[=]]. destruct (Hnz e He) as [Hne _]. done.
Qed.

(** C4. The leaf split.  The engine has run to a state in which the key
    [key] is routed to a leaf that is full, every slot holding a block
    whose key is not [key]; no assertion can fail on the run followed by
    the [Put].  Then [LeafSplitFull] returns, and so does the [Put], with
    the same state.  The split key is the element at index
    [LEAF_KEYS_MIDPOINT] of the sorted sequence of the [LEAF_KEYS] keys of
    the leaf and the incoming key.  Exactly the slots whose key is above
    the split key are in the new leaf afterwards, each at its slot index
    with its mirror hash and key, and the source leaf keeps the others.
    The incoming pair is stored, with its mirror, in slot [e] of the new
    leaf if its key is above the split key and of the source leaf
    otherwise, [e] being the highest slot that the move left empty on that
    side; every other slot on that side that the move left empty is
    empty. *)
Theorem LeafSplitFull_algorithm (cfg : Config) (ops : list Op)
    (key value : string) (st : MVTree) (y : nat) (ln : MVLeafNode) (pl : MVLeaf) :
  cfg_ok cfg -> Forall op_small ops -> small key -> small value ->
  assert_free cfg (ops ++ [OpPut key value]) ->
  run cfg ops fresh = Some st ->
  LeafSearch cfg st key = Some (Some y) ->
  get_leafnode st y = Some ln -> pleaves st !! leaf ln = Some pl ->
  (forall slot, (slot < LEAF_KEYS cfg)%nat ->
     exists b, slots pl !! slot = Some (Some b) /\ slot_key b <> key) ->
  exists sk st' lnA lnB plA plB e,
    sort_keys (keys ln ++ [key]) !! LEAF_KEYS_MIDPOINT cfg = Some sk /\
    StronglySorted kle (sort_keys (keys ln ++ [key])) /\
    Permutation (sort_keys (keys ln ++ [key])) (keys ln ++ [key]) /\
    LeafSplitFull cfg true st y (PearsonHash cfg key) key value = Some (st', true) /\
    Put cfg st key value = Some st' /\
    get_leafnode st' y = Some lnA /\
    get_leafnode st' (length (nodes st)) = Some lnB /\
    leaf lnA = leaf ln /\ leaf lnB <> leaf ln /\
    pleaves st' !! leaf lnA = Some plA /\ pleaves st' !! leaf lnB = Some plB /\
    (e < LEAF_KEYS cfg)%nat /\
    (exists ke, keys ln !! e = Some ke /\
                compare_gt0 ke sk = negb (compare_gt0 key sk)) /\
    (forall j kj, (e < j)%nat -> keys ln !! j = Some kj ->
       compare_gt0 kj sk = compare_gt0 key sk) /\
    (slots (if compare_gt0 key sk then plB else plA) !! e
     = Some (Some (block_of (PearsonHash cfg key) key value)) /\
     hashes (if compare_gt0 key sk then lnB else lnA) !! e
     = Some (PearsonHash cfg key) /\
     keys (if compare_gt0 key sk then lnB else lnA) !! e = Some key) /\
    forall slot k h s,
      keys ln !! slot = Some k -> hashes ln !! slot = Some h ->
      slots pl !! slot = Some s ->
      if compare_gt0 k sk
      then (slots plB !! slot = Some s /\ hashes lnB !! slot = Some h /\
            keys lnB !! slot = Some k) /\
           (if negb (compare_gt0 key sk) && (slot =? e)%nat
            then slots plA !! slot
                 = Some (Some (block_of (PearsonHash cfg key) key value)) /\
                 hashes lnA !! slot = Some (PearsonHash cfg key) /\
                 keys lnA !! slot = Some key
            else slots plA !! slot = Some None /\ hashes lnA !! slot = Some 0 /\
                 keys lnA !! slot = Some EmptyString)
      else (slots plA !! slot = Some s /\ hashes lnA !! slot = Some h /\
            keys lnA !! slot = Some k) /\
           (if compare_gt0 key sk && (slot =? e)%nat
            then slots plB !! slot
                 = Some (Some (block_of (PearsonHash cfg key) key value)) /\
                 hashes lnB !! slot = Some (PearsonHash cfg key) /\
                 keys lnB !! slot = Some key
            else slots plB !! slot = Some None /\ hashes lnB !! slot = Some 0 /\
                 keys lnB !! slot = Some EmptyString).
Proof.
  intros Hcfg Hsm Hsk Hsv Hfree Hrun Hsearch Hl Hpl Hfull.
  destruct (run_bridge cfg ops Hcfg Hsm) as (st0 & _ & HI & Hc & _ & Hall).
  destruct (Hall st Hrun) as [-> Hch]. destruct HI as (G & H & HI).
  (* the leaf in the invariant *)
  pose proof (LeafSearch_spec (with_NDEBUG cfg) st0 G H HI key) as Hs.
  rewrite <- (LeafSearch_checked cfg st0 key Hch) in Hs.
  destruct (tree_top st0) as [t|] eqn:Et; [|congruence].
  destruct Hs as (y' & lo & hi & Hs & HG & Hlo & Hhi).
  assert (y' = y) as -> by congruence.
  destruct (live_leaf_node (with_NDEBUG cfg) st0 G H HI _ _ _ HG)
    as (p & ln' & pl' & Hy & Hpl' & Hok & _).
  assert (ln' = ln) as ->.
  { apply get_leafnode_Some in Hl as [p' Hl]. congruence. }
  assert (pl' = pl) as -> by congruence.
  change (leaf_ok_pl cfg ln pl lo hi) in Hok.
  destruct (full_lengths cfg lo hi ln pl Hok) as (Lh & Lk & Ls).
  (* the transaction *)
  destruct (split_body_algorithm cfg st0 y p ln pl (PearsonHash cfg key) key value)
    as (sk & st4 & lnA & lnB & plA & plB & e & Hsplit & Hsorted & Hperm & Hmid & Hsb
        & HyA & HnB & ElA & ElB & HpA & HpB & He & Hke & Hhigh & Htarget & Hslots);
    try done.
  { destruct Hcfg as (HL & _). exact HL. }
  { apply Forall_lookup. intros j h Hh.
    assert (Hj : (j < LEAF_KEYS cfg)%nat)
      by (rewrite <- Lh; eapply lookup_lt_Some; eauto).
    destruct (full_slot cfg lo hi key ln pl Hok Hfull j Hj)
      as (b & _ & Hbok & Hh' & _).
    assert (h = ph b) as -> by congruence.
    apply (block_ok_hash_nonzero cfg), Hbok. }
  { eapply full_keys_nodup; eauto. }
  { apply List.Forall_forall. intros lf Hlf. apply list_elem_of_In in Hlf.
    destruct (inv_prealloc _ _ _ _ _ HI) as [_ Hpre].
    destruct (Hpre lf Hlf) as [(pl0 & Hpl0 & He0) Hno]. split.
    - intros ->. apply Hno. exists y, ln, lo, hi. done.
    - exists (next pl0). rewrite Hpl0. destruct pl0; cbn in *. congruence. }
  (* the whole Put returns *)
  assert (Hsm' : Forall op_small (ops ++ [OpPut key value])).
  { apply Forall_app. split; [done|]. repeat constructor; done. }
  destruct (run_bridge cfg _ Hcfg Hsm') as (st1 & _ & _ & _ & Hfree1 & _).
  specialize (Hfree1 Hfree). rewrite run_app, Hrun in Hfree1.
  cbn [mbind option_bind run step] in Hfree1.
  destruct (Put cfg st0 key value) as [st2|] eqn:HPut; [|discriminate].
  clear Hfree1 st1.
  pose proof HPut as HPut'. unfold Put, Put_tx in HPut'.
  rewrite Hsearch, (LeafFillSlotForKey_full cfg st0 y ln pl lo hi key value Hl Hok Hfull)
    in HPut'.
  destruct (LeafSplitFull cfg true st0 y (PearsonHash cfg key) key value)
    as [[st3 ok]|] eqn:HLSF; [|discriminate].
  cbn in HPut'. injection HPut' as ->.
  pose proof HLSF as HLSF'. unfold LeafSplitFull in HLSF'.
  rewrite Hl in HLSF'. cbn [mbind option_bind] in HLSF'.
  rewrite Hsplit in HLSF'. cbn [mbind option_bind] in HLSF'.
  unfold exec_tx in HLSF'. rewrite Hsb in HLSF'. cbn [mbind option_bind] in HLSF'.
  destruct (InnerUpdateAfterSplit cfg _ st4 _ _ _) as [st5|] eqn:HU; [|discriminate].
  cbn [mbind option_bind] in HLSF'. injection HLSF' as -> <-.
  destruct (IUAS_frame cfg _ _ _ _ _ _ HU) as (Fp & _ & _ & _ & Fl).
  exists sk, st2, lnA, lnB, plA, plB, e.
  split; [done|]. split; [done|]. split; [done|]. split; [done|]. split; [done|].
  split; [apply Fl, get_leafnode_Some; eauto|].
  split; [apply Fl, get_leafnode_Some; eauto|].
  rewrite Fp. destruct Htarget as (T1 & T2 & T3). split_and!; done.
Qed.

Lemma LeafSplitFull_algorithm_witness :
  exists sk st' e,
    sort_keys (keys example_ln ++ ["c"%string]) !! LEAF_KEYS_MIDPOINT cfg_small
    = Some sk /\
    LeafSplitFull cfg_small true example_st 0 (PearsonHash cfg_small "c") "c" "3"
    = Some (st', true) /\
    Put cfg_small example_st "c" "3" = Some st' /\
    (e < LEAF_KEYS cfg_small)%nat.
Proof.
  destruct (LeafSplitFull_algorithm cfg_small
              [OpPut "a" "v"; OpPut "b" "v"; OpPut "d" "v"; OpPut "e" "v"]
              "c" "3" example_st 0 example_ln example_pl)
    as (sk & st' & lnA & lnB & plA & plB & e & Hs & _ & _ & Hl & Hp & _ & _ & _ & _
        & _ & _ & He & _).
  - unfold cfg_ok. simpl. split; [lia|]. split; [lia|]. exists 1%nat. reflexivity.
  - repeat constructor; vm_compute; reflexivity.
  - vm_compute. reflexivity.
  - vm_compute. reflexivity.
  - right. left. repeat constructor; discriminate.
  - vm_compute. reflexivity.
  - vm_compute. reflexivity.
  - reflexivity.
  - reflexivity.
  - intros slot Hslot. cbn in Hslot.
    destruct slot as [|[|[|[|slot]]]]; [| | | |lia];
      eexists; (split; [reflexivity|vm_compute; discriminate]).
  - exists sk, st', e. done.
Defined.
(** * Further properties of the code *)

(** ** Leaf operations at their edges *)

(** X3. [LeafFillEmptySlot] on a leaf node without an empty slot changes
    nothing and reports nothing: the pair is not stored. *)
Theorem LeafFillEmptySlot_full_noop (cfg : Config) (st : MVTree) (y : nat)
    (ln : MVLeafNode) (hash : Z) (key value : string) :
  get_leafnode st y = Some ln ->
  Forall (fun h => h <> 0) (hashes ln) ->
  LeafFillEmptySlot cfg st y hash key value = Some st.
Proof.
  intros Hl Hfull. unfold LeafFillEmptySlot. rewrite Hl. cbn [mbind option_bind].
  destruct (scan_down _ _) as [slot|] eqn:E; [|done].
  destruct (scan_down_Some _ _ _ E) as (_ & Hp & _).
  destruct (hashes ln !! slot) as [h|] eqn:Hh; [|discriminate].
  apply Z.eqb_eq in Hp. subst h.
  rewrite List.Forall_forall in Hfull. destruct (Hfull 0); [|done].
  apply list_elem_of_In. eapply list_elem_of_lookup_2; eauto.
Qed.

Lemma LeafFillEmptySlot_full_noop_witness :
  LeafFillEmptySlot cfg_small example_st 0 (PearsonHash cfg_small "c") "c" "3"
  = Some example_st.
Proof.
  apply (LeafFillEmptySlot_full_noop cfg_small example_st 0 example_ln).
  - reflexivity.
  - repeat constructor; intros Hz; vm_compute in Hz; discriminate Hz.
Defined.

(** X4. [Remove] never restructures the tree: the top, the inner nodes,
    the parent links, the preallocated leaves and the list of persistent
    leaves are as before; at most one mirror slot and one persistent slot
    change. *)
Theorem Remove_keeps_routing (cfg : Config) (st st' : MVTree) (key : string) :
  Remove cfg st key = Some st' ->
  tree_top st' = tree_top st /\ leaves_prealloc st' = leaves_prealloc st /\
  head st' = head st /\ length (pleaves st') = length (pleaves st) /\
  length (nodes st') = length (nodes st) /\
  (forall x, get_inner st' x = get_inner st x) /\
  (forall x, parent_of st' x = parent_of st x) /\
  (forall lf pl', pleaves st' !! lf = Some pl' ->
     exists pl, pleaves st !! lf = Some pl /\ next pl' = next pl).
Proof.
  unfold Remove, Remove_tx.
  assert (Hid : tree_top st = tree_top st /\ leaves_prealloc st = leaves_prealloc st /\
    head st = head st /\ length (pleaves st) = length (pleaves st) /\
    length (nodes st) = length (nodes st) /\
    (forall x, get_inner st x = get_inner st x) /\
    (forall x, parent_of st x = parent_of st x) /\
    (forall lf pl', pleaves st !! lf = Some pl' ->
       exists pl, pleaves st !! lf = Some pl /\ next pl' = next pl)) by eauto 10.
  destruct (LeafSearch cfg st key) as [[y|]|]; [| |discriminate].
  - destruct (get_leafnode st y) as [ln|] eqn:Hl; [|discriminate].
    cbn [mbind option_bind].
    destruct (scan_down _ _) as [slot|]; [|intros [= <-]; exact Hid].
    apply get_leafnode_Some in Hl as [p Hy].
    unfold update_leafnode. rewrite Hy. cbn [mbind option_bind].
    unfold exec_tx, read_pslot, update_pslot.
    cbn [pleaves set_nodes].
    destruct (pleaves st !! leaf ln) as [pl|] eqn:Hpl; [|discriminate].
    cbn [mbind option_bind].
    destruct (slots pl !! slot) as [s|]; [|discriminate].
    cbn [mbind option_bind fmap option_fmap option_map fst].
    intros [= <-].
    cbn [tree_top leaves_prealloc head pleaves nodes set_pleaves set_nodes].
    rewrite !length_insert. split_and!; try done.
    + intros x. rewrite !get_inner_node. cbn [nodes set_pleaves set_nodes].
      destruct (decide (x = y)) as [->|].
      * rewrite list_lookup_insert_eq by (eapply lookup_lt_Some; eauto).
        rewrite Hy. done.
      * rewrite list_lookup_insert_ne by done. done.
    + intros x. rewrite !parent_of_node. cbn [nodes set_pleaves set_nodes].
      destruct (decide (x = y)) as [->|].
      * rewrite list_lookup_insert_eq by (eapply lookup_lt_Some; eauto).
        rewrite Hy. done.
      * rewrite list_lookup_insert_ne by done. done.
    + intros lf pl' Hlf. destruct (decide (lf = leaf ln)) as [->|].
      * rewrite list_lookup_insert_eq in Hlf by (eapply lookup_lt_Some; eauto).
        injection Hlf as <-. exists pl. done.
      * rewrite list_lookup_insert_ne in Hlf by done. eauto.
  - intros [= <-]. exact Hid.
Qed.

Lemma Remove_keeps_routing_witness :
  match Remove cfg_small example_st "b" with
  | Some st' =>
      tree_top st' = tree_top example_st /\
      leaves_prealloc st' = leaves_prealloc example_st /\
      head st' = head example_st /\
      length (pleaves st') = length (pleaves example_st) /\
      length (nodes st') = length (nodes example_st) /\
      (forall x, get_inner st' x = get_inner example_st x) /\
      (forall x, parent_of st' x = parent_of example_st x) /\
      (forall lf pl', pleaves st' !! lf = Some pl' ->
         exists pl, pleaves example_st !! lf = Some pl /\ next pl' = next pl)
  | None => False
  end.
Proof.
  destruct (Remove cfg_small example_st "b") as [st'|] eqn:E.
  - apply (Remove_keeps_routing cfg_small example_st st' "b" E).
  - vm_compute in E. discriminate E.
Defined.

(** X5. [InnerUpdateAfterSplit] works on the routing nodes only: whatever
    the depth of the recursion, the persistent leaves, the head of their
    list and the preallocated leaves are untouched, no node is dropped, and
    every leaf node keeps its mirror arrays and its leaf. *)
Theorem InnerUpdateAfterSplit_frame (cfg : Config) (fuel : nat) :
  forall (st st' : MVTree) (node new_node : nat) (split_key : string),
    InnerUpdateAfterSplit cfg fuel st node new_node split_key = Some st' ->
    pleaves st' = pleaves st /\ head st' = head st /\
    leaves_prealloc st' = leaves_prealloc st /\
    (length (nodes st) <= length (nodes st'))%nat /\
    forall x ln, get_leafnode st x = Some ln -> get_leafnode st' x = Some ln.
Proof. apply IUAS_frame. Qed.

Lemma InnerUpdateAfterSplit_frame_witness :
  match InnerUpdateAfterSplit cfg_small 2
          (push_node example_st {| parent := None; kind := LeafNode example_ln |})
          0 1 "b" with
  | Some st' =>
      pleaves st' = pleaves example_st /\ head st' = head example_st /\
      leaves_prealloc st' = leaves_prealloc example_st /\
      (2 <= length (nodes st'))%nat /\
      forall x ln,
        get_leafnode (push_node example_st
                        {| parent := None; kind := LeafNode example_ln |}) x = Some ln ->
        get_leafnode st' x = Some ln
  | None => False
  end.
Proof.
  destruct (InnerUpdateAfterSplit cfg_small 2
              (push_node example_st {| parent := None; kind := LeafNode example_ln |})
              0 1 "b") as [st'|] eqn:E.
  - apply (InnerUpdateAfterSplit_frame cfg_small 2 _ st' 0 1 "b" E).
  - vm_compute in E. discriminate E.
Defined.

(** ** Reachable states *)

Lemma Get_limit_found cfg st G H limit k v valuebytes value :
  Inv_gen cfg st G G H -> contents st k v -> 0 <= limit < 2 ^ 31 ->
  Get_limit cfg st limit k valuebytes value
  = Some (if Z.of_nat (String.length v) <=? limit
          then (OK, Z.of_nat (String.length v),
                memcpy value 0 (list_ascii_of_string v))
          else (FAILED, to_int32 (Z.of_nat (String.length v)), value)).
Proof.
  intros HI Hc Hlim.
  destruct (search_stored cfg st G H HI _ _ Hc)
    as (y & ln & slot & b & Hs & Hl & Hsc & Hr & _ & Hv & Hbok).
  destruct (block_ok_valsize cfg b Hbok) as [Hvs Hsmall].
  unfold Get_limit. rewrite Hs, Hl, Hsc, Hr, Hvs, Hv.
  assert (Hu : to_uint32 limit = limit).
  { unfold to_uint32. apply Z.mod_small. lia. }
  rewrite Hu. destruct (Z.leb_spec (Z.of_nat (String.length v)) limit); [|done].
  f_equal. f_equal. f_equal. unfold to_int32.
  rewrite Z.mod_small by lia.
  destruct (Z.ltb_spec (Z.of_nat (String.length v)) (2 ^ 31)); lia.
Qed.

Lemma Get_limit_not_found cfg st G H limit k valuebytes value :
  Inv_gen cfg st G G H -> (forall v, ~ contents st k v) ->
  Get_limit cfg st limit k valuebytes value = Some (NOT_FOUND, valuebytes, value).
Proof.
  intros HI Hn. unfold Get_limit.
  pose proof (LeafSearch_spec cfg st G H HI k) as Hs.
  destruct (tree_top st) as [t|] eqn:Et; [|rewrite Hs; reflexivity].
  destruct Hs as (y & lo & hi & -> & HG & Hlo & Hhi).
  destruct (inv_leaf _ _ _ _ _ HI _ _ _ HG) as (ln & Hl & Hok).
  rewrite Hl.
  destruct (scan_down _ _) as [slot|] eqn:Es; [|reflexivity].
  exfalso.
  destruct (scan_down_Some _ _ _ Es) as (Hlt & Hm & _).
  pose proof Hok as (_ & _ & pl & Hpl & _).
  destruct (slot_matches_inv cfg st ln lo hi pl slot k Hok Hpl Hlt Hm) as (b & Hb & Hk & _).
  apply (Hn (slot_val b)). exists (leaf ln), slot, b.
  unfold read_pslot. rewrite Hpl. simpl. auto.
Qed.

(** X7. The size-limited [Get] with a limit that is not negative: in
    every state a sequence of operations on a fresh engine runs to, for a
    stored pair it writes the size of the value, returns [OK] with the
    value copied into the buffer when the size is within the limit and
    [FAILED] with the buffer untouched when it is not, and for an absent
    key it returns [NOT_FOUND] and writes nothing.  The sequence runs to
    a state when no assertion can fail on it. *)
Theorem Get_limit_within_limit (cfg : Config) (ops : list Op) (key : string)
    (limit valuebytes : Z) (value : list ascii) :
  cfg_ok cfg -> Forall op_small ops -> 0 <= limit < 2 ^ 31 ->
  (assert_free cfg ops -> exists st, run cfg ops fresh = Some st) /\
  (forall st, run cfg ops fresh = Some st ->
     Get_limit cfg st limit key valuebytes value
     = Some (match model ops (fun _ => None) key with
             | Some v =>
                 if Z.of_nat (String.length v) <=? limit
                 then (OK, Z.of_nat (String.length v),
                       memcpy value 0 (list_ascii_of_string v))
                 else (FAILED, to_int32 (Z.of_nat (String.length v)), value)
             | None => (NOT_FOUND, valuebytes, value)
             end)).
Proof.
  intros Hcfg Hsm Hlim. apply reached; [done|done|].
  intros st (G & H & HI) Hc Hch. rewrite (Get_limit_checked cfg st _ _ _ _ Hch).
  destruct (model ops (fun _ => None) key) as [v|] eqn:E.
  - eapply Get_limit_found; eauto. apply Hc. done.
  - eapply Get_limit_not_found; eauto. intros v Hv. apply Hc in Hv. congruence.
Qed.

Lemma Get_limit_within_limit_witness :
  exists st,
    run cfg_small [OpPut "a" "abcdef"; OpPut "b" "2"] fresh = Some st /\
    Get_limit cfg_small st 3 "a" 0 (list_ascii_of_string "xyz")
    = Some (match model [OpPut "a" "abcdef"; OpPut "b" "2"] (fun _ => None) "a" with
            | Some v =>
                if Z.of_nat (String.length v) <=? 3
                then (OK, Z.of_nat (String.length v),
                      memcpy (list_ascii_of_string "xyz") 0 (list_ascii_of_string v))
                else (FAILED, to_int32 (Z.of_nat (String.length v)),
                      list_ascii_of_string "xyz")
            | None => (NOT_FOUND, 0, list_ascii_of_string "xyz")
            end).
Proof.
  destruct (Get_limit_within_limit cfg_small [OpPut "a" "abcdef"; OpPut "b" "2"] "a" 3 0
              (list_ascii_of_string "xyz")) as [Hex Hall].
  - unfold cfg_ok. simpl. split; [lia|]. split; [lia|]. exists 1%nat. reflexivity.
  - repeat constructor; vm_compute; reflexivity.
  - lia.
  - destruct Hex as [st Hr].
    + right. left. repeat constructor; discriminate.
    + exists st. split; [exact Hr|exact (Hall st Hr)].
Defined.

(** X8. The mirror agrees with the pool: in every state a sequence of
    operations on a fresh engine runs to, in the leaf node [LeafSearch]
    returns for a key, every slot whose persistent slot holds a block has
    the Pearson hash of the block's key and the key itself in the mirror
    arrays, and every other slot has hash 0 and the empty key.  The
    sequence runs to a state when no assertion can fail on it. *)
Theorem mirror_agrees_with_pool (cfg : Config) (ops : list Op) :
  cfg_ok cfg -> Forall op_small ops ->
  (assert_free cfg ops -> exists st, run cfg ops fresh = Some st) /\
  (forall st, run cfg ops fresh = Some st ->
     forall key y, LeafSearch cfg st key = Some (Some y) ->
       exists ln pl,
         get_leafnode st y = Some ln /\ pleaves st !! leaf ln = Some pl /\
         length (hashes ln) = LEAF_KEYS cfg /\ length (keys ln) = LEAF_KEYS cfg /\
         length (slots pl) = LEAF_KEYS cfg /\
         forall slot, (slot < LEAF_KEYS cfg)%nat ->
           match slots pl !! slot with
           | Some (Some b) =>
               hashes ln !! slot = Some (PearsonHash cfg (slot_key b)) /\
               keys ln !! slot = Some (slot_key b)
           | _ => hashes ln !! slot = Some 0 /\ keys ln !! slot = Some EmptyString
           end).
Proof.
  intros Hcfg Hsm. apply reached; [done|done|].
  intros st (G & H & HI) Hc Hch key y Hs.
  rewrite (LeafSearch_checked cfg st key Hch) in Hs.
  pose proof (LeafSearch_spec (with_NDEBUG cfg) st G H HI key) as Hspec.
  destruct (tree_top st) as [t|]; [|congruence].
  destruct Hspec as (y' & lo & hi & Hs' & HG & _).
  assert (y' = y) as -> by congruence.
  destruct (inv_leaf _ _ _ _ _ HI _ _ _ HG) as (ln & Hl & Hok).
  apply leaf_ok_iff in Hok as (pl & Hpl & Lh & Lk & Ls & Hsl & _).
  exists ln, pl. split_and!; try done.
  intros slot Hslot. specialize (Hsl slot Hslot).
  destruct (slots pl !! slot) as [[b|]|]; try done.
  destruct Hsl as (Hbok & Hh & Hk & _).
  pose proof (block_ok_hash (with_NDEBUG cfg) b Hbok) as Hbh.
  change (PearsonHash (with_NDEBUG cfg)) with (PearsonHash cfg) in Hbh.
  rewrite <- Hbh. done.
Qed.

Lemma mirror_agrees_with_pool_witness :
  exists st,
    run cfg_small [OpPut "a" "1"; OpPut "b" "2"; OpRemove "a"] fresh = Some st /\
    forall key y, LeafSearch cfg_small st key = Some (Some y) ->
      exists ln pl,
        get_leafnode st y = Some ln /\ pleaves st !! leaf ln = Some pl /\
        length (hashes ln) = LEAF_KEYS cfg_small /\
        length (keys ln) = LEAF_KEYS cfg_small /\
        length (slots pl) = LEAF_KEYS cfg_small /\
        forall slot, (slot < LEAF_KEYS cfg_small)%nat ->
          match slots pl !! slot with
          | Some (Some b) =>
              hashes ln !! slot = Some (PearsonHash cfg_small (slot_key b)) /\
              keys ln !! slot = Some (slot_key b)
          | _ => hashes ln !! slot = Some 0 /\ keys ln !! slot = Some EmptyString
          end.
Proof.
  destruct (mirror_agrees_with_pool cfg_small
              [OpPut "a" "1"; OpPut "b" "2"; OpRemove "a"]) as [Hex Hall].
  - unfold cfg_ok. simpl. split; [lia|]. split; [lia|]. exists 1%nat. reflexivity.
  - repeat constructor; vm_compute; reflexivity.
  - destruct Hex as [st Hr].
    + right. left. repeat constructor; discriminate.
    + exists st. split; [exact Hr|exact (Hall st Hr)].
Defined.

(** X9. [LeafSearch] in every state a sequence of operations on a fresh
    engine runs to: it returns for every key, with no leaf exactly when
    the tree is empty, and otherwise with a node that is a leaf node.  The
    sequence runs to a state when no assertion can fail on it. *)
Theorem LeafSearch_returns_leaf (cfg : Config) (ops : list Op) :
  cfg_ok cfg -> Forall op_small ops ->
  (assert_free cfg ops -> exists st, run cfg ops fresh = Some st) /\
  (forall st, run cfg ops fresh = Some st ->
     forall key, exists r,
       LeafSearch cfg st key = Some r /\
       (r = None <-> tree_top st = None) /\
       (forall y, r = Some y -> exists ln, get_leafnode st y = Some ln)).
Proof.
  intros Hcfg Hsm. apply reached; [done|done|].
  intros st (G & H & HI) Hc Hch key.
  rewrite (LeafSearch_checked cfg st key Hch).
  pose proof (LeafSearch_spec (with_NDEBUG cfg) st G H HI key) as Hspec.
  destruct (tree_top st) as [t|].
  - destruct Hspec as (y & lo & hi & Hs & HG & _).
    exists (Some y). split; [done|]. split; [split; discriminate|].
    intros y' [= <-]. destruct (inv_leaf _ _ _ _ _ HI _ _ _ HG) as (ln & Hl & _). eauto.
  - exists None. split; [done|]. split; [done|]. discriminate.
Qed.

Lemma LeafSearch_returns_leaf_witness :
  exists st,
    run cfg_small [OpPut "a" "1"; OpPut "b" "2"; OpPut "c" "3"; OpPut "d" "4";
                   OpPut "e" "5"] fresh = Some st /\
    forall key, exists r,
      LeafSearch cfg_small st key = Some r /\
      (r = None <-> tree_top st = None) /\
      (forall y, r = Some y -> exists ln, get_leafnode st y = Some ln).
Proof.
  destruct (LeafSearch_returns_leaf cfg_small
              [OpPut "a" "1"; OpPut "b" "2"; OpPut "c" "3"; OpPut "d" "4";
               OpPut "e" "5"]) as [Hex Hall].
  - unfold cfg_ok. simpl. split; [lia|]. split; [lia|]. exists 1%nat. reflexivity.
  - repeat constructor; vm_compute; reflexivity.
  - destruct Hex as [st Hr].
    + right. left. repeat constructor; discriminate.
    + exists st. split; [exact Hr|exact (Hall st Hr)].
Defined.

(** X10. The blocks of the pool in every state a sequence of operations
    on a fresh engine runs to: each was written by [set] with the Pearson
    hash of its key and holds the value of the last [Put] of that key, and
    no key is stored in two slots.  The sequence runs to a state when no
    assertion can fail on it. *)
Theorem pool_blocks_well_formed (cfg : Config) (ops : list Op) :
  cfg_ok cfg -> Forall op_small ops ->
  (assert_free cfg ops -> exists st, run cfg ops fresh = Some st) /\
  (forall st, run cfg ops fresh = Some st ->
     (forall lf slot b, read_pslot st lf slot = Some (Some b) ->
        b = block_of (PearsonHash cfg (slot_key b)) (slot_key b) (slot_val b) /\
        model ops (fun _ => None) (slot_key b) = Some (slot_val b)) /\
     (forall lf1 s1 b1 lf2 s2 b2,
        read_pslot st lf1 s1 = Some (Some b1) ->
        read_pslot st lf2 s2 = Some (Some b2) ->
        slot_key b1 = slot_key b2 -> lf1 = lf2 /\ s1 = s2)).
Proof.
  intros Hcfg Hsm. apply reached; [done|done|].
  intros st (G & H & HI) Hc Hch. split.
  - intros lf slot b Hb. split.
    + destruct (located (with_NDEBUG cfg) st G H HI lf slot b Hb)
        as (_ & _ & _ & _ & _ & _ & _ & _ & _ & _ & _ & _ & Hbok & _).
      destruct Hbok as (k & v & -> & Hk & Hv).
      rewrite slot_key_block_of, slot_val_block_of by done. done.
    + apply Hc. exists lf, slot, b. done.
  - apply (location_unique (with_NDEBUG cfg) st G H HI).
Qed.

Lemma pool_blocks_well_formed_witness :
  exists st,
    run cfg_small [OpPut "a" "1"; OpPut "b" "2"; OpPut "a" "3"] fresh = Some st /\
    (forall lf slot b, read_pslot st lf slot = Some (Some b) ->
       b = block_of (PearsonHash cfg_small (slot_key b)) (slot_key b) (slot_val b) /\
       model [OpPut "a" "1"; OpPut "b" "2"; OpPut "a" "3"] (fun _ => None) (slot_key b)
       = Some (slot_val b)) /\
    (forall lf1 s1 b1 lf2 s2 b2,
       read_pslot st lf1 s1 = Some (Some b1) ->
       read_pslot st lf2 s2 = Some (Some b2) ->
       slot_key b1 = slot_key b2 -> lf1 = lf2 /\ s1 = s2).
Proof.
  destruct (pool_blocks_well_formed cfg_small
              [OpPut "a" "1"; OpPut "b" "2"; OpPut "a" "3"]) as [Hex Hall].
  - unfold cfg_ok. simpl. split; [lia|]. split; [lia|]. exists 1%nat. reflexivity.
  - repeat constructor; vm_compute; reflexivity.
  - destruct Hex as [st Hr].
    + right. left. repeat constructor; discriminate.
    + exists st. split; [exact Hr|exact (Hall st Hr)].
Defined.

(** X11. [Remove] of a key that is not stored changes nothing: in every
    state a sequence of operations on a fresh engine runs to, the state
    after the [Remove] of a key the map does not hold is the state before
    it.  The sequence runs to a state when no assertion can fail on
    it. *)
Theorem Remove_absent_noop (cfg : Config) (ops : list Op) (key : string) :
  cfg_ok cfg -> Forall op_small ops ->
  model ops (fun _ => None) key = None ->
  (assert_free cfg ops -> exists st, run cfg ops fresh = Some st) /\
  (forall st, run cfg ops fresh = Some st -> Remove cfg st key = Some st).
Proof.
  intros Hcfg Hsm Habs. apply reached; [done|done|].
  intros st (G & H & HI) Hc Hch. unfold Remove, Remove_tx.
  rewrite (LeafSearch_checked cfg st key Hch).
  pose proof (LeafSearch_spec (with_NDEBUG cfg) st G H HI key) as Hspec.
  destruct (tree_top st) as [t|]; [|rewrite Hspec; done].
  destruct Hspec as (y & lo & hi & -> & HG & _).
  destruct (inv_leaf _ _ _ _ _ HI _ _ _ HG) as (ln & Hl & Hok).
  rewrite Hl. cbn [mbind option_bind].
  destruct (scan_down _ _) as [slot|] eqn:Es; [|done]. exfalso.
  destruct (scan_down_Some _ _ _ Es) as (Hlt & Hm & _).
  pose proof Hok as (_ & _ & pl & Hpl & _).
  destruct (slot_matches_inv (with_NDEBUG cfg) st ln lo hi pl slot key Hok Hpl Hlt Hm)
    as (b & Hb & Hk & _).
  assert (Hcon : contents st key (slot_val b)).
  { exists (leaf ln), slot, b. unfold read_pslot. rewrite Hpl. done. }
  apply Hc in Hcon. congruence.
Qed.

Lemma Remove_absent_noop_witness :
  exists st,
    run cfg_small [OpPut "a" "1"; OpPut "b" "2"; OpRemove "a"] fresh = Some st /\
    Remove cfg_small st "a" = Some st.
Proof.
  destruct (Remove_absent_noop cfg_small
              [OpPut "a" "1"; OpPut "b" "2"; OpRemove "a"] "a") as [Hex Hall].
  - unfold cfg_ok. simpl. split; [lia|]. split; [lia|]. exists 1%nat. reflexivity.
  - repeat constructor; vm_compute; reflexivity.
  - reflexivity.
  - destruct Hex as [st Hr].
    + right. left. repeat constructor; discriminate.
    + exists st. split; [exact Hr|exact (Hall st Hr)].
Defined.

(** X12. The persistent list in every state a sequence of operations on
    a fresh engine runs to: the walk from the head that [Recover],
    [Analyze] and the listing functions make ends, and it meets every
    leaf of the pool exactly once.  The sequence runs to a state when no
    assertion can fail on it. *)
Theorem persistent_list_visits_all (cfg : Config) (ops : list Op) :
  cfg_ok cfg -> Forall op_small ops ->
  (assert_free cfg ops -> exists st, run cfg ops fresh = Some st) /\
  (forall st, run cfg ops fresh = Some st ->
     exists ids,
       persistent_list st = Some ids /\
       NoDup ids /\ forall l, l ∈ ids <-> (l < length (pleaves st))%nat).
Proof.
  intros Hcfg Hsm. apply reached; [done|done|].
  intros st (G & H & HI) Hc Hch.
  exists (rev (seq 0 (length (pleaves st)))).
  split; [apply (persistent_list_chain cfg), (inv_chain _ _ _ _ _ HI)|]. split.
  - apply NoDup_ListNoDup, NoDup_rev, NoDup_ListNoDup, NoDup_seq.
  - intros l. rewrite list_elem_of_In, <- in_rev, <- list_elem_of_In, elem_of_seq. lia.
Qed.

Lemma persistent_list_visits_all_witness :
  exists st ids,
    run cfg_small [OpPut "a" "1"; OpPut "b" "2"; OpPut "c" "3"; OpPut "d" "4";
                   OpPut "e" "5"] fresh = Some st /\
    persistent_list st = Some ids /\
    NoDup ids /\ forall l, l ∈ ids <-> (l < length (pleaves st))%nat.
Proof.
  destruct (persistent_list_visits_all cfg_small
              [OpPut "a" "1"; OpPut "b" "2"; OpPut "c" "3"; OpPut "d" "4";
               OpPut "e" "5"]) as [Hex Hall].
  - unfold cfg_ok. simpl. split; [lia|]. split; [lia|]. exists 1%nat. reflexivity.
  - repeat constructor; vm_compute; reflexivity.
  - destruct Hex as [st Hr].
    + right. left. repeat constructor; discriminate.
    + destruct (Hall st Hr) as (ids & Hids). exists st, ids. split; [exact Hr|exact Hids].
Defined.
(** ** The listing functions *)

Lemma leaf_blocks_elem cfg pl b :
  length (slots pl) = LEAF_KEYS cfg ->
  b ∈ leaf_blocks cfg pl <-> exists slot, slots pl !! slot = Some (Some b).
Proof.
  intros Hl. unfold leaf_blocks. rewrite list_elem_of_omap. split.
  - intros (slot & _ & Hs). exists slot.
    destruct (slots pl !! slot) as [[b'|]|]; simpl in Hs; congruence.
  - intros (slot & Hs). exists slot. split.
    + apply list_elem_of_In, in_rev. rewrite rev_involutive.
      apply in_seq. apply lookup_lt_Some in Hs. lia.
    + rewrite Hs. reflexivity.
Qed.

Lemma NoDup_omap_key {A B K} (h : A -> option B) (key : B -> K) (l : list A) :
  NoDup l ->
  (forall x y bx by', x ∈ l -> y ∈ l -> h x = Some bx -> h y = Some by' ->
     key bx = key by' -> x = y) ->
  NoDup (map key (omap h l)).
Proof.
  induction 1 as [|x l Hx Hnd IH]; intros Hinj; [constructor|].
  assert (IH' : NoDup (map key (omap h l))).
  { apply IH. intros y z by' bz Hy Hz. apply Hinj; right; done. }
  cbn [omap list_omap]. destruct (h x) as [bx|] eqn:Hhx; [|exact IH'].
  cbn [map]. constructor; [|exact IH'].
  intros Hin. apply list_elem_of_In, in_map_iff in Hin as (b' & Hk & Hb').
  apply list_elem_of_In, list_elem_of_omap in Hb' as (y & Hy & Hhy).
  assert (x = y) as -> by (eapply Hinj; eauto; [left|right; done]).
  done.
Qed.

Lemma NoDup_concat_key {A B K} (h : A -> option (list B)) (key : B -> K)
    (l : list A) :
  NoDup l ->
  (forall x bs, x ∈ l -> h x = Some bs -> NoDup (map key bs)) ->
  (forall x y bx by' b1 b2, x ∈ l -> y ∈ l -> h x = Some bx -> h y = Some by' ->
     b1 ∈ bx -> b2 ∈ by' -> key b1 = key b2 -> x = y) ->
  NoDup (map key (concat (omap h l))).
Proof.
  induction 1 as [|x l Hx Hnd IH]; intros Hone Hinj; [constructor|].
  assert (IH' : NoDup (map key (concat (omap h l)))).
  { apply IH.
    - intros y bs Hy. apply Hone. right; done.
    - intros y z by' bz b1 b2 Hy Hz. apply Hinj; right; done. }
  cbn [omap list_omap]. destruct (h x) as [bx|] eqn:Hhx; [|exact IH'].
  cbn [concat]. rewrite map_app. apply NoDup_app. split.
  { apply (Hone x); [left|done]. }
  split; [|exact IH'].
  intros k Hk1 Hk2.
  apply list_elem_of_In, in_map_iff in Hk1 as (b1 & <- & Hb1).
  apply list_elem_of_In, in_map_iff in Hk2 as (b2 & Hk & Hb2).
  apply in_concat in Hb2 as (bs & Hbs & Hb2).
  apply list_elem_of_In, list_elem_of_omap in Hbs as (y & Hy & Hhy).
  assert (x = y) as ->.
  { eapply (Hinj x y bx bs b1 b2); eauto; [left|right; done| |]; 
      apply list_elem_of_In; done. }
  done.
Qed.

(** What the walk of the listing functions collects: every block of the
    pool, and no key twice. *)
Lemma all_blocks_spec cfg st :
  pool_ok cfg st ->
  exists bs, all_blocks cfg st = Some bs /\
    NoDup (map slot_key bs) /\
    forall b, b ∈ bs <-> exists lf slot, read_pslot st lf slot = Some (Some b).
Proof.
  intros (Hch & _ & Huniq & _).
  unfold all_blocks. rewrite (persistent_list_chain cfg st Hch).
  cbn [mbind option_bind]. eexists. split; [reflexivity|].
  set (ids := rev (seq 0 (length (pleaves st)))).
  assert (Hids : forall lf, lf ∈ ids <-> (lf < length (pleaves st))%nat).
  { intros lf. unfold ids.
    rewrite list_elem_of_In, <- in_rev, <- list_elem_of_In, elem_of_seq. lia. }
  assert (Hnd : NoDup ids)
    by apply NoDup_ListNoDup, NoDup_rev, NoDup_ListNoDup, NoDup_seq.
  assert (Hin : forall lf pl b, pleaves st !! lf = Some pl ->
            b ∈ leaf_blocks cfg pl ->
            exists slot, read_pslot st lf slot = Some (Some b)).
  { intros lf pl b Hpl Hb.
    apply (leaf_blocks_elem cfg pl b (proj2 (proj2 Hch _ _ Hpl))) in Hb
      as (slot & Hs).
    exists slot. unfold read_pslot. rewrite Hpl. exact Hs. }
  split.
  - apply NoDup_concat_key; [exact Hnd| |].
    + intros lf bs _ Hbs.
      destruct (pleaves st !! lf) as [pl|] eqn:Hpl; [|discriminate].
      injection Hbs as <-. unfold leaf_blocks. apply NoDup_omap_key.
      * apply NoDup_ListNoDup, NoDup_rev, NoDup_ListNoDup, NoDup_seq.
      * intros s1 s2 b1 b2 _ _ H1 H2 Hk.
        destruct (slots pl !! s1) as [[b1'|]|] eqn:E1; simpl in H1; try discriminate.
        destruct (slots pl !! s2) as [[b2'|]|] eqn:E2; simpl in H2; try discriminate.
        injection H1 as ->. injection H2 as ->.
        eapply (Huniq lf s1 b1 lf s2 b2); eauto;
          unfold read_pslot; rewrite Hpl; done.
    + intros lf1 lf2 bs1 bs2 b1 b2 _ _ H1 H2 Hb1 Hb2 Hk.
      destruct (pleaves st !! lf1) as [pl1|] eqn:Hpl1; [|discriminate].
      destruct (pleaves st !! lf2) as [pl2|] eqn:Hpl2; [|discriminate].
      injection H1 as <-. injection H2 as <-.
      destruct (Hin _ _ _ Hpl1 Hb1) as (s1 & Hr1).
      destruct (Hin _ _ _ Hpl2 Hb2) as (s2 & Hr2).
      apply (Huniq _ _ _ _ _ _ Hr1 Hr2 Hk).
  - intros b. rewrite list_elem_of_In, in_concat. split.
    + intros (bs & Hbs & Hb).
      apply list_elem_of_In, list_elem_of_omap in Hbs as (lf & _ & Hbs).
      destruct (pleaves st !! lf) as [pl|] eqn:Hpl; [|discriminate].
      injection Hbs as <-. exists lf. apply (Hin _ pl); [done|].
      apply list_elem_of_In; done.
    + intros (lf & slot & Hr). unfold read_pslot in Hr.
      destruct (pleaves st !! lf) as [pl|] eqn:Hpl; [|discriminate].
      exists (leaf_blocks cfg pl). split.
      * apply list_elem_of_In, list_elem_of_omap. exists lf. split.
        -- apply Hids. eapply lookup_lt_Some; eauto.
        -- rewrite Hpl. reflexivity.
      * apply list_elem_of_In.
        apply (leaf_blocks_elem cfg pl b (proj2 (proj2 Hch _ _ Hpl))).
        exists slot. exact Hr.
Qed.

(** The pairs of the blocks listed are the pairs of the map. *)
Lemma listing_spec cfg st (m : string -> option string) :
  Inv (with_NDEBUG cfg) st ->
  (forall k v, contents st k v <-> m k = Some v) ->
  exists bs,
    all_blocks cfg st = Some bs /\
    NoDup (map slot_key bs) /\
    forall k v, (exists b, b ∈ bs /\ slot_key b = k /\ slot_val b = v) <->
                m k = Some v.
Proof.
  intros (G & H & HI) Hc.
  destruct (all_blocks_spec cfg st (Inv_pool_ok (with_NDEBUG cfg) st G H HI))
    as (bs & Hbs & Hnd & Hin).
  exists bs. split; [done|]. split; [done|].
  intros k v. rewrite <- Hc. unfold contents. split.
  - intros (b & Hb & Hk & Hv). apply Hin in Hb as (lf & slot & Hb). eauto 6.
  - intros (lf & slot & b & Hb & Hk & Hv). exists b. split; [|done].
    apply Hin. eauto.
Qed.

(** X14. [ListAllKeys] in every state a sequence of operations on a fresh
    engine runs to: it appends to the vector it is given exactly the keys
    of the map, each of them once.  The sequence runs to a state when no
    assertion can fail on it. *)
Theorem ListAllKeys_lists_each_key_once (cfg : Config) (ops : list Op)
    (out : list string) :
  cfg_ok cfg -> Forall op_small ops ->
  (assert_free cfg ops -> exists st, run cfg ops fresh = Some st) /\
  (forall st, run cfg ops fresh = Some st ->
     exists keys,
       ListAllKeys cfg st out = Some (out ++ keys) /\
       NoDup keys /\
       forall k, k ∈ keys <-> is_Some (model ops (fun _ => None) k)).
Proof.
  intros Hcfg Hsm. apply reached; [done|done|].
  intros st HI Hc Hch.
  destruct (listing_spec cfg st _ HI Hc) as (bs & Hbs & Hnd & Hm).
  exists (map slot_key bs). split.
  { unfold ListAllKeys. rewrite Hbs. reflexivity. }
  split; [done|]. intros k. rewrite list_elem_of_In, in_map_iff. split.
  - intros (b & Hk & Hb). exists (slot_val b). apply Hm. exists b.
    split; [apply list_elem_of_In; done|done].
  - intros (v & Hv). apply Hm in Hv as (b & Hb & Hk & _). exists b.
    split; [done|apply list_elem_of_In; done].
Qed.

Lemma ListAllKeys_lists_each_key_once_witness :
  exists st keys,
    run cfg_small [OpPut "a" "1"; OpPut "b" "2"; OpPut "c" "3"; OpPut "d" "4";
                   OpPut "e" "5"; OpRemove "b"; OpReopen] fresh = Some st /\
    ListAllKeys cfg_small st ["x"%string] = Some (["x"%string] ++ keys) /\
    NoDup keys /\
    forall k, k ∈ keys <->
      is_Some (model [OpPut "a" "1"; OpPut "b" "2"; OpPut "c" "3"; OpPut "d" "4";
                      OpPut "e" "5"; OpRemove "b"; OpReopen] (fun _ => None) k).
Proof.
  destruct (ListAllKeys_lists_each_key_once cfg_small
              [OpPut "a" "1"; OpPut "b" "2"; OpPut "c" "3"; OpPut "d" "4";
               OpPut "e" "5"; OpRemove "b"; OpReopen] ["x"%string]) as [Hex Hall].
  - unfold cfg_ok. simpl. split; [lia|]. split; [lia|]. exists 1%nat. reflexivity.
  - repeat constructor; vm_compute; reflexivity.
  - destruct Hex as [st Hr].
    + right. left. repeat constructor; discriminate.
    + destruct (Hall st Hr) as (keys & Hk). exists st, keys. split; [exact Hr|exact Hk].
Defined.

(** X15. [ListAllKeyValuePairs] in every state a sequence of operations
    on a fresh engine runs to: it appends to the vector it is given the
    pairs of the map, a key followed by its value, every pair once and in
    the order in which [ListAllKeys] lists the keys.  The sequence runs
    to a state when no assertion can fail on it. *)
Theorem ListAllKeyValuePairs_lists_the_map (cfg : Config) (ops : list Op)
    (out : list string) :
  cfg_ok cfg -> Forall op_small ops ->
  (assert_free cfg ops -> exists st, run cfg ops fresh = Some st) /\
  (forall st, run cfg ops fresh = Some st ->
     exists kvs : list (string * string),
       ListAllKeyValuePairs cfg st out
       = Some (out ++ concat (map (fun kv => [fst kv; snd kv]) kvs)) /\
       ListAllKeys cfg st out = Some (out ++ map fst kvs) /\
       NoDup (map fst kvs) /\
       forall k v, (k, v) ∈ kvs <-> model ops (fun _ => None) k = Some v).
Proof.
  intros Hcfg Hsm. apply reached; [done|done|].
  intros st HI Hc Hch.
  destruct (listing_spec cfg st _ HI Hc) as (bs & Hbs & Hnd & Hm).
  exists (map (fun b => (slot_key b, slot_val b)) bs).
  rewrite !map_map. cbn [fst snd]. split.
  { unfold ListAllKeyValuePairs. rewrite Hbs. reflexivity. }
  split.
  { unfold ListAllKeys. rewrite Hbs. reflexivity. }
  split; [done|].
  intros k v. rewrite <- Hm, list_elem_of_In, in_map_iff. split.
  - intros (b & [= Hk Hv] & Hb). exists b. split; [apply list_elem_of_In; done|done].
  - intros (b & Hb & Hk & Hv). exists b. split; [congruence|apply list_elem_of_In; done].
Qed.

Lemma ListAllKeyValuePairs_lists_the_map_witness :
  exists st (kvs : list (string * string)),
    run cfg_small [OpPut "a" "1"; OpPut "b" "2"; OpPut "c" "3"; OpPut "d" "4";
                   OpPut "e" "5"; OpPut "c" "6"] fresh = Some st /\
    ListAllKeyValuePairs cfg_small st []
    = Some ([] ++ concat (map (fun kv => [fst kv; snd kv]) kvs)) /\
    ListAllKeys cfg_small st [] = Some ([] ++ map fst kvs) /\
    NoDup (map fst kvs) /\
    forall k v, (k, v) ∈ kvs <->
      model [OpPut "a" "1"; OpPut "b" "2"; OpPut "c" "3"; OpPut "d" "4";
             OpPut "e" "5"; OpPut "c" "6"] (fun _ => None) k = Some v.
Proof.
  destruct (ListAllKeyValuePairs_lists_the_map cfg_small
              [OpPut "a" "1"; OpPut "b" "2"; OpPut "c" "3"; OpPut "d" "4";
               OpPut "e" "5"; OpPut "c" "6"] []) as [Hex Hall].
  - unfold cfg_ok. simpl. split; [lia|]. split; [lia|]. exists 1%nat. reflexivity.
  - repeat constructor; vm_compute; reflexivity.
  - destruct Hex as [st Hr].
    + right. left. repeat constructor; discriminate.
    + destruct (Hall st Hr) as (kvs & Hk). exists st, kvs. split; [exact Hr|exact Hk].
Defined.

(** X16. [TotalNumKeys] in every state a sequence of operations on a
    fresh engine runs to: it returns the number of keys of the map, the
    length of a list that holds every key of the map once.  The sequence
    runs to a state when no assertion can fail on it. *)
Theorem TotalNumKeys_counts_the_map (cfg : Config) (ops : list Op) :
  cfg_ok cfg -> Forall op_small ops ->
  (assert_free cfg ops -> exists st, run cfg ops fresh = Some st) /\
  (forall st, run cfg ops fresh = Some st ->
     exists keys,
       TotalNumKeys cfg st = Some (length keys) /\
       NoDup keys /\
       forall k, k ∈ keys <-> is_Some (model ops (fun _ => None) k)).
Proof.
  intros Hcfg Hsm. apply reached; [done|done|].
  intros st HI Hc Hch.
  destruct (listing_spec cfg st _ HI Hc) as (bs & Hbs & Hnd & Hm).
  exists (map slot_key bs). split.
  { unfold TotalNumKeys. rewrite Hbs, length_map. reflexivity. }
  split; [done|]. intros k. rewrite list_elem_of_In, in_map_iff. split.
  - intros (b & Hk & Hb). exists (slot_val b). apply Hm. exists b.
    split; [apply list_elem_of_In; done|done].
  - intros (v & Hv). apply Hm in Hv as (b & Hb & Hk & _). exists b.
    split; [done|apply list_elem_of_In; done].
Qed.

Lemma TotalNumKeys_counts_the_map_witness :
  exists st keys,
    run cfg_small [OpPut "a" "1"; OpPut "b" "2"; OpPut "c" "3"; OpPut "d" "4";
                   OpPut "e" "5"; OpRemove "d"; OpPut "a" "7"] fresh = Some st /\
    TotalNumKeys cfg_small st = Some (length keys) /\
    NoDup keys /\
    forall k, k ∈ keys <->
      is_Some (model [OpPut "a" "1"; OpPut "b" "2"; OpPut "c" "3"; OpPut "d" "4";
                      OpPut "e" "5"; OpRemove "d"; OpPut "a" "7"] (fun _ => None) k).
Proof.
  destruct (TotalNumKeys_counts_the_map cfg_small
              [OpPut "a" "1"; OpPut "b" "2"; OpPut "c" "3"; OpPut "d" "4";
               OpPut "e" "5"; OpRemove "d"; OpPut "a" "7"]) as [Hex Hall].
  - unfold cfg_ok. simpl. split; [lia|]. split; [lia|]. exists 1%nat. reflexivity.
  - repeat constructor; vm_compute; reflexivity.
  - destruct Hex as [st Hr].
    + right. left. repeat constructor; discriminate.
    + destruct (Hall st Hr) as (keys & Hk). exists st, keys. split; [exact Hr|exact Hk].
Defined.
(** ** Put on a key that is stored *)

Lemma Put_existing cfg st G H key value v0 :
  Inv_gen (with_NDEBUG cfg) st G G H -> checked cfg st -> contents st key v0 ->
  exists ln pl slot b,
    pleaves st !! leaf ln = Some pl /\ slots pl !! slot = Some (Some b) /\
    slot_key b = key /\
    Put cfg st key value
    = Some {| nodes := nodes st; tree_top := tree_top st;
              leaves_prealloc := leaves_prealloc st;
              pleaves :=
                <[leaf ln :=
                    {| slots := <[slot := Some (block_of (PearsonHash cfg key)
                                                         key value)]> (slots pl);
                       next := next pl |}]> (pleaves st);
              head := head st |}.
Proof.
  intros HI Hch Hc.
  destruct (search_stored (with_NDEBUG cfg) st G H HI _ _ Hc)
    as (y & ln & slot & b & Hs & Hl & Hsc & Hr & Hk & _ & Hbok).
  pose proof (LeafSearch_spec (with_NDEBUG cfg) st G H HI key) as Hs'.
  destruct (tree_top st) as [t|] eqn:Et; [|congruence].
  destruct Hs' as (y' & lo & hi & Hs' & HG & Hlo & Hhi).
  assert (y' = y) as -> by congruence.
  destruct (live_leaf_node (with_NDEBUG cfg) st G H HI _ _ _ HG) as (p & ln' & pl & Hy & Hpl & Hok & _).
  assert (ln' = ln) as ->.
  { apply get_leafnode_Some in Hl as (p' & Hl). congruence. }
  destruct (scan_down_Some _ _ _ Hsc) as (Hlt & _ & _).
  assert (Hb : slots pl !! slot = Some (Some b)).
  { unfold read_slot in Hr. rewrite Hpl in Hr.
    destruct (slots pl !! slot) as [[b'|]|]; simpl in Hr; congruence. }
  exists ln, pl, slot, b. split; [done|]. split; [done|]. split; [done|].
  nd_norm cfg.
  unfold Put, Put_tx. rewrite (LeafSearch_checked cfg st key Hch), Hs.
  unfold LeafFillSlotForKey. rewrite Hl.
  cbn [mbind option_bind].
  destruct (fill_scan ln (PearsonHash cfg key) key (LEAF_KEYS cfg) None)
    as [le km] eqn:E.
  apply fill_scan_spec in E.
  destruct (leaf_slot_stored (with_NDEBUG cfg) _ _ _ _ _ _ Hok Hlt Hb) as [Hh Hkk].
  rewrite Hk in Hh, Hkk. nd_norm cfg.
  destruct km as [s|].
  - destruct E as (Hs1 & Hnz & Hh1 & Hk1).
    destruct (leaf_slot_block (with_NDEBUG cfg) _ _ _ _ _ Hok Hs1 Hnz) as (b1 & Hb1 & _ & _ & Hkb1).
    assert (s = slot) as ->.
    { destruct Hok as (_ & _ & _ & _ & Hu). eapply Hu; eauto. congruence. }
    destruct (hashes ln !! slot) as [h|] eqn:Ehs; [|simpl in Hnz; done].
    simpl in Hnz.
    rewrite (LeafFillSpecificSlot_eq st y p ln h pl slot (Some b)
               (PearsonHash cfg key) key value Hy Ehs Hpl Hb).
    destruct (Z.eqb_spec h 0) as [->|_]; [done|].
    unfold exec_tx, leaf_write. cbn [mbind option_bind fmap option_fmap option_map fst].
    rewrite (list_insert_id _ _ _ Hy), Et. reflexivity.
  - destruct E as [Hn _]. exfalso.
    destruct (Hn _ Hlt) as [E0|[E1|E2]]; try congruence.
    rewrite Hh in E0. destruct (PearsonHash_nonzero _ _ E0).
Qed.

(** X17. A [Put] on a key that the map holds overwrites the block of that
    key where it is: in every state a sequence of operations on a fresh
    engine runs to, the [Put] returns, no leaf node, inner node or leaf is
    made, the preallocated leaves stay, and every other slot of the pool
    keeps what it had.  Nothing is asked of the sizes of the key and the
    value of this [Put].  The sequence runs to a state when no assertion
    can fail on it. *)
Theorem Put_existing_key_in_place (cfg : Config) (ops : list Op)
    (key value : string) :
  cfg_ok cfg -> Forall op_small ops ->
  is_Some (model ops (fun _ => None) key) ->
  (assert_free cfg ops -> exists st, run cfg ops fresh = Some st) /\
  (forall st, run cfg ops fresh = Some st ->
     exists st' lf slot b,
       Put cfg st key value = Some st' /\
       nodes st' = nodes st /\ tree_top st' = tree_top st /\
       leaves_prealloc st' = leaves_prealloc st /\ head st' = head st /\
       length (pleaves st') = length (pleaves st) /\
       read_pslot st lf slot = Some (Some b) /\ slot_key b = key /\
       read_pslot st' lf slot
       = Some (Some (block_of (PearsonHash cfg key) key value)) /\
       forall lf' slot', (lf', slot') <> (lf, slot) ->
         read_pslot st' lf' slot' = read_pslot st lf' slot').
Proof.
  intros Hcfg Hsm (v0 & Hm). apply reached; [done|done|].
  intros st (G & H & HI) Hc Hch.
  apply Hc in Hm.
  destruct (Put_existing cfg st G H key value v0 HI Hch Hm)
    as (ln & pl & slot & b & Hpl & Hb & Hk & HP).
  eexists _, (leaf ln), slot, b. split; [exact HP|].
  cbn [nodes tree_top leaves_prealloc head pleaves].
  split; [done|]. split; [done|]. split; [done|]. split; [done|].
  split; [apply length_insert|].
  split; [unfold read_pslot; rewrite Hpl; done|]. split; [done|].
  assert (Hlf : (leaf ln < length (pleaves st))%nat)
    by (eapply lookup_lt_Some; eauto).
  split.
  - unfold read_pslot. cbn [pleaves].
    rewrite list_lookup_insert_eq by done. cbn [mbind option_bind slots].
    apply list_lookup_insert_eq. eapply lookup_lt_Some; eauto.
  - intros lf' slot' Hne. unfold read_pslot. cbn [pleaves].
    destruct (decide (lf' = leaf ln)) as [->|Hlf'].
    + rewrite list_lookup_insert_eq by done. rewrite Hpl.
      cbn [mbind option_bind slots].
      apply list_lookup_insert_ne. congruence.
    + rewrite list_lookup_insert_ne by done. reflexivity.
Qed.

Lemma Put_existing_key_in_place_witness :
  exists st st' lf slot b,
    run cfg_small [OpPut "a" "1"; OpPut "b" "2"; OpPut "c" "3"; OpPut "d" "4";
                   OpPut "e" "5"] fresh = Some st /\
    Put cfg_small st "d" "9" = Some st' /\
    nodes st' = nodes st /\ tree_top st' = tree_top st /\
    leaves_prealloc st' = leaves_prealloc st /\ head st' = head st /\
    length (pleaves st') = length (pleaves st) /\
    read_pslot st lf slot = Some (Some b) /\ slot_key b = "d"%string /\
    read_pslot st' lf slot
    = Some (Some (block_of (PearsonHash cfg_small "d") "d" "9")) /\
    forall lf' slot', (lf', slot') <> (lf, slot) ->
      read_pslot st' lf' slot' = read_pslot st lf' slot'.
Proof.
  destruct (Put_existing_key_in_place cfg_small
              [OpPut "a" "1"; OpPut "b" "2"; OpPut "c" "3"; OpPut "d" "4"; OpPut "e" "5"]
              "d" "9") as [Hex Hall].
  - unfold cfg_ok. simpl. split; [lia|]. split; [lia|]. exists 1%nat. reflexivity.
  - repeat constructor; vm_compute; reflexivity.
  - vm_compute. eexists. reflexivity.
  - destruct Hex as [st Hr].
    + right. left. repeat constructor; discriminate.
    + destruct (Hall st Hr) as (st' & lf & slot & b & HP).
      exists st, st', lf, slot, b. split; [exact Hr|exact HP].
Defined.

(** ** The allocations of [set] *)

(** X18. When a slot is set twice, the second [set] frees exactly the
    bytes the first one allocated, before it allocates the new block;
    the key and the value of the first [set] fit the 32-bit size fields. *)
Theorem MVSlot_set_frees_previous_block (s : MVSlot) (h1 h2 : Z)
    (k1 v1 k2 v2 : string) :
  small k1 -> small v1 ->
  exists n,
    allocations (snd (MVSlot_set s h1 k1 v1)) = [n] /\
    snd (MVSlot_set (fst (MVSlot_set s h1 k1 v1)) h2 k2 v2)
    = [ev_delete_persistent n;
       ev_make_persistent (Z.of_nat (String.length k2)
                           + Z.of_nat (String.length v2) + 2 + 4 + 4 + 1)].
Proof.
  unfold small. intros Hk Hv.
  exists (Z.of_nat (String.length k1) + Z.of_nat (String.length v1) + 2 + 4 + 4 + 1).
  split.
  - unfold MVSlot_set, allocations. cbn [snd]. rewrite omap_app.
    destruct s as [p|]; reflexivity.
  - unfold MVSlot_set. cbn [fst snd ks vs app]. unfold to_uint32.
    rewrite !Z.mod_small by lia. do 2 f_equal. lia.
Qed.

Lemma MVSlot_set_frees_previous_block_witness :
  exists n,
    allocations (snd (MVSlot_set None 7 "key" "value")) = [n] /\
    snd (MVSlot_set (fst (MVSlot_set None 7 "key" "value")) 9 "k" "longer value")
    = [ev_delete_persistent n;
       ev_make_persistent (Z.of_nat (String.length "k")
                           + Z.of_nat (String.length "longer value")
                           + 2 + 4 + 4 + 1)].
Proof.
  apply (MVSlot_set_frees_previous_block None 7 9 "key" "value" "k" "longer value");
    vm_compute; reflexivity.
Defined.
(** ** Analyze *)

Lemma length_filter_ne (a : nat) (l : list nat) :
  NoDup l ->
  (length l <= length (filter (fun i => i <> a) l)
               + (if decide (a ∈ l) then 1 else 0))%nat.
Proof.
  induction 1 as [|b l Hb Hnd IH]; [simpl; lia|].
  rewrite filter_cons. destruct (decide (b <> a)) as [Hne|He].
  - cbn [length]. destruct (decide (a ∈ b :: l)) as [Hin|Hnin];
      destruct (decide (a ∈ l)) as [Hin'|Hnin'];
      [lia|exfalso|exfalso|lia].
    + apply elem_of_cons in Hin as [->|Hin]; done.
    + destruct Hnin. right; done.
  - assert (b = a) as -> by (destruct (decide (b = a)); [done|destruct He; done]).
    destruct (decide (a ∈ a :: l)) as [_|Hnin]; [|destruct Hnin; left].
    destruct (decide (a ∈ l)); [done|]. cbn [length]. lia.
Qed.

Lemma count_filter_omap {A} (f : nat -> option A) (P : A -> Prop)
    `{!forall x, Decision (P x)} (ids : list nat) : forall sel : list nat,
  NoDup sel -> (forall i, i ∈ sel -> i ∈ ids) ->
  (forall i, i ∈ sel -> exists x, f i = Some x /\ P x) ->
  (length sel <= length (filter P (omap f ids)))%nat.
Proof.
  induction ids as [|a ids IH]; intros sel Hnd Hsub Hsel.
  - destruct sel as [|i sel]; [simpl; lia|].
    specialize (Hsub i ltac:(left)). inversion Hsub.
  - pose proof (length_filter_ne a sel Hnd) as Hlen.
    assert (IH' : (length (filter (fun i => i <> a) sel)
                   <= length (filter P (omap f ids)))%nat).
    { apply IH.
      - apply NoDup_filter, Hnd.
      - intros i Hi. apply list_elem_of_filter in Hi as [Hne Hi].
        specialize (Hsub i Hi). apply elem_of_cons in Hsub as [->|Hsub]; done.
      - intros i Hi. apply list_elem_of_filter in Hi as [_ Hi]. auto. }
    cbn [omap list_omap].
    destruct (decide (a ∈ sel)) as [Hin|Hnin].
    + destruct (Hsel a Hin) as (x & -> & HP).
      rewrite filter_cons. destruct (decide (P x)); [|done]. cbn [length]. lia.
    + destruct (f a) as [x|]; [|lia].
      rewrite filter_cons. destruct (decide (P x)); cbn [length]; lia.
Qed.

Lemma length_omap_le {A B} (f : A -> option B) (l : list A) :
  (length (omap f l) <= length l)%nat.
Proof.
  induction l as [|x l IH]; [done|]. cbn [omap list_omap].
  destruct (f x); cbn [length]; lia.
Qed.

Lemma leaf_blocks_empty cfg pl :
  slots pl = replicate (LEAF_KEYS cfg) None -> leaf_blocks cfg pl = [].
Proof.
  intros E. unfold leaf_blocks. rewrite E.
  induction (rev (seq 0 (LEAF_KEYS cfg))) as [|slot l IH]; [done|].
  cbn [omap list_omap].
  destruct (replicate (LEAF_KEYS cfg) None !! slot) as [s|] eqn:Es; [|exact IH].
  apply lookup_replicate in Es as [-> _]. exact IH.
Qed.

(** X19. [Analyze] in every state a sequence of operations on a fresh
    engine runs to: it counts every leaf of the pool in [leaf_total], and
    the preallocated leaves are among the leaves it counts as empty.  The
    sequence runs to a state when no assertion can fail on it. *)
Theorem Analyze_counts (cfg : Config) (ops : list Op) :
  cfg_ok cfg -> Forall op_small ops ->
  (assert_free cfg ops -> exists st, run cfg ops fresh = Some st) /\
  (forall st, run cfg ops fresh = Some st ->
     exists a,
       Analyze cfg st = Some a /\
       leaf_total a = length (pleaves st) /\
       leaf_prealloc a = length (leaves_prealloc st) /\
       (leaf_prealloc a <= leaf_empty a)%nat /\
       (leaf_empty a <= leaf_total a)%nat).
Proof.
  intros Hcfg Hsm. apply reached; [done|done|].
  intros st (G & H & HI) Hc Hch.
  unfold Analyze.
  rewrite (persistent_list_chain cfg st (inv_chain _ _ _ _ _ HI)).
  cbn [mbind option_bind]. eexists. split; [reflexivity|].
  cbn [leaf_total leaf_prealloc leaf_empty].
  assert (Hlen : length (rev (seq 0 (length (pleaves st)))) = length (pleaves st))
    by (rewrite length_rev, length_seq; done).
  split; [done|]. split; [done|]. split.
  - destruct (inv_prealloc _ _ _ _ _ HI) as [Hnd Hpre].
    apply count_filter_omap; [done| |].
    + intros lf Hlf. destruct (Hpre lf Hlf) as [(pl & Hpl & _) _].
      rewrite list_elem_of_In, <- in_rev, <- list_elem_of_In, elem_of_seq.
      apply lookup_lt_Some in Hpl. lia.
    + intros lf Hlf. destruct (Hpre lf Hlf) as [(pl & Hpl & He) _].
      exists pl. split; [done|]. apply (leaf_blocks_empty cfg), He.
  - etransitivity; [apply length_filter|].
    etransitivity; [apply length_omap_le|]. rewrite Hlen. done.
Qed.

Lemma Analyze_counts_witness :
  exists st a,
    run cfg_small [OpPut "a" "1"; OpPut "b" "2"; OpPut "c" "3"; OpPut "d" "4";
                   OpPut "e" "5"; OpRemove "a"; OpRemove "b"; OpReopen] fresh
    = Some st /\
    Analyze cfg_small st = Some a /\
    leaf_total a = length (pleaves st) /\
    leaf_prealloc a = length (leaves_prealloc st) /\
    (leaf_prealloc a <= leaf_empty a)%nat /\
    (leaf_empty a <= leaf_total a)%nat.
Proof.
  destruct (Analyze_counts cfg_small
              [OpPut "a" "1"; OpPut "b" "2"; OpPut "c" "3"; OpPut "d" "4";
               OpPut "e" "5"; OpRemove "a"; OpRemove "b"; OpReopen]) as [Hex Hall].
  - unfold cfg_ok. simpl. split; [lia|]. split; [lia|]. exists 1%nat. reflexivity.
  - repeat constructor; vm_compute; reflexivity.
  - destruct Hex as [st Hr].
    + right. left. repeat constructor; discriminate.
    + destruct (Hall st Hr) as (a & Ha). exists st, a. split; [exact Hr|exact Ha].
Defined.
(** ** The assertions on the inner nodes *)

(** X20. The assertions of the inner nodes never fail on the sequences
    that put no empty key, and on those that do not reopen the engine
    when a leaf has two slots or more: the build with the assertions and
    the build without them run such a sequence to the same state, and
    every inner node of that state passes [assert_invariants]. *)
Theorem inner_nodes_pass_assertions (cfg : Config) (ops : list Op) :
  cfg_ok cfg -> Forall op_small ops ->
  Forall op_nonempty ops \/
  ((2 <= LEAF_KEYS cfg)%nat /\ Forall op_not_reopen ops) ->
  exists st,
    run cfg ops fresh = Some st /\
    run (with_NDEBUG cfg) ops fresh = Some st /\
    forall x inner, get_inner st x = Some inner ->
      assert_invariants cfg inner = true.
Proof.
  intros Hcfg Hsm Hmode.
  destruct (run_fresh (with_NDEBUG cfg) ops Hcfg eq_refl Hsm) as (st0 & Hr & HI & Hc).
  assert (Hrt : run cfg ops fresh = Some st0 /\ tidy cfg st0).
  { eapply (run_tidy cfg ops fresh (fun _ => None)); eauto.
    - exists (fun _ => None), O. apply Inv_fresh. done.
    - intros k v. split; [intros Hk; destruct (fresh_no_contents _ _ Hk)|done].
    - apply tidy_fresh.
    - destruct Hmode as [Hne|Hm]; [left|right; done]. split; [done|]. done. }
  destruct Hrt as [Hrun Ht].
  exists st0. split; [done|]. split; [done|].
  intros x inner Hx. apply inner_tidy_assert, (Ht x inner Hx).
Qed.

Lemma inner_nodes_pass_assertions_witness :
  exists st,
    run cfg_small [OpPut "" "0"; OpPut "a" "1"; OpPut "b" "2"; OpPut "c" "3";
                   OpPut "d" "4"; OpPut "e" "5"; OpRemove "a"] fresh = Some st /\
    run (with_NDEBUG cfg_small)
        [OpPut "" "0"; OpPut "a" "1"; OpPut "b" "2"; OpPut "c" "3";
         OpPut "d" "4"; OpPut "e" "5"; OpRemove "a"] fresh = Some st /\
    forall x inner, get_inner st x = Some inner ->
      assert_invariants cfg_small inner = true.
Proof.
  apply (inner_nodes_pass_assertions cfg_small
           [OpPut "" "0"; OpPut "a" "1"; OpPut "b" "2"; OpPut "c" "3";
            OpPut "d" "4"; OpPut "e" "5"; OpRemove "a"]).
  - unfold cfg_ok. simpl. split; [lia|]. split; [lia|]. exists 1%nat. reflexivity.
  - repeat constructor; vm_compute; reflexivity.
  - right. split; [simpl; lia|]. repeat constructor.
Defined.
